(** * Server-side module instantiation: the SSR module loader

    A shallow embedding of [ssrLoadModule] and its helpers: the dependency
    cycle tracker ([addPendingModuleDependency],
    [checkModuleDependencyExists]), the single-flight loader
    ([ssrLoadModule]), the instantiation executor ([instantiateModule] with
    its closures [ssrImport], [ssrDynamicImport] and [ssrExportAll]) and the
    legacy interop shim ([proxyESM], [isPrimitive]).

    An [async] function is cut at its [await]s: each piece is a function on
    the loader's state, and a scheduler runs the pieces in any order the
    event loop allows.

    The import of external specifiers ([nodeImport]), the asset plugin
    (markers of assets and of public files, data urls, [shouldInline],
    [fileToBuiltUrl], [generateBundle]) and the define plugin
    ([serializeDefine], [generatePattern], the end of [transform]) follow.
    The plugins work on strings, which are lists of UTF-16 code units there,
    and their regular expressions are run by a backtracking matcher.

    The definitions come first, the properties after them. *)

From stdpp Require Import gmap strings list fin_maps relations pretty.
From stdpp Require Import sorting.
From Stdlib Require Import ZArith Lia Ascii.
From Stdlib Require QArith.

Set Default Proof Using "Type".

(** * Dependency cycle tracker

    [pendingModuleDependencyGraph] is a [Map<string, Set<string>>].  A JS
    [Set] iterates in insertion order and holds no duplicates, so the value
    sets are lists with an [add] that appends an absent element. *)

Module Tracker.

Abbreviation graph := (gmap string (list string)).

(** [Set.prototype.add] *)
Definition set_add (x : string) (s : list string) : list string :=
  if decide (x ∈ s) then s else s ++ [x].

Definition addPendingModuleDependency
    (g : graph) (originUrl depUrl : string) : graph :=
  match g !! originUrl with
  | Some deps => <[originUrl := set_add depUrl deps]> g
  | None => <[originUrl := [depUrl]]> g
  end.

(** The [for (const depUrl of dependencies)] loop: every dependency not yet
    visited is pushed.  The work stack keeps its top at the head of the
    list, so [stack.push(x)] is [x :: stack] and [stack.pop()] takes the
    head. *)
Definition pushUnvisited
    (visited : gset string) (stack dependencies : list string) : list string :=
  foldl (λ stk depUrl, if decide (depUrl ∈ visited) then stk else depUrl :: stk)
        stack dependencies.

(** The [while (stack.length)] loop of [checkModuleDependencyExists]; one
    unit of fuel per iteration, [None] when the fuel runs out. *)
Fixpoint checkLoop (fuel : nat) (g : graph) (targetUrl : string)
    (visited : gset string) (stack : list string) : option bool :=
  match fuel with
  | O => None
  | S fuel' =>
    match stack with
    | [] => Some false
    | currentUrl :: stack' =>
      if decide (currentUrl = targetUrl) then Some true
      else if decide (currentUrl ∈ visited)
      then checkLoop fuel' g targetUrl visited stack'
      else
        let visited' := {[currentUrl]} ∪ visited in
        match g !! currentUrl with
        | Some dependencies =>
            checkLoop fuel' g targetUrl visited'
                      (pushUnvisited visited' stack' dependencies)
        | None => checkLoop fuel' g targetUrl visited' stack'
        end
    end
  end.

(** Number of registered edges. *)
Definition edgeCount (g : graph) : nat :=
  map_fold (λ _ deps n, length deps + n) 0 g.

(** Every pushed element is popped once and every push consumes an edge of
    a node visited for the first time, so [edgeCount g + 2] iterations are
    always enough (see [checkLoop_total]). *)
Definition checkFuel (g : graph) : nat := S (S (edgeCount g)).

Definition checkModuleDependencyExists
    (g : graph) (originUrl targetUrl : string) : bool :=
  match checkLoop (checkFuel g) g targetUrl ∅ [originUrl] with
  | Some b => b
  | None => false
  end.

(** Reachability along registered static edges. *)
Definition edge (g : graph) (a b : string) : Prop :=
  ∃ deps, g !! a = Some deps ∧ b ∈ deps.

Definition reach (g : graph) : string → string → Prop := rtc (edge g).

Definition unvisited (g : graph) (visited : gset string) : graph :=
  filter (λ kv, kv.1 ∉ visited) g.

Definition potential (g : graph) (visited : gset string) (stack : list string) : nat :=
  length stack + edgeCount (unvisited g visited).

(** Loop invariant for a negative answer: the target has not been visited
    and every edge out of a visited node leads to a node that is visited or
    still on the stack. *)
Definition closed (g : graph) (targetUrl : string)
    (visited : gset string) (stack : list string) : Prop :=
  (targetUrl ∉ visited) ∧
  (∀ v w, v ∈ visited → edge g v w → w ∈ visited ∨ w ∈ stack).

End Tracker.

(** * Host values and objects

    The part of the JavaScript object model the loader relies on: values with
    their truthiness and [typeof], objects as ordered property tables held in
    a heap (identity is the heap location), accessor properties, property
    definition, freezing, [for...in] enumeration in the order of own keys
    and proxies with a [get] trap.  Prototype chains are not modelled: the
    properties inherited from
    the built-in prototypes are methods, none of them enumerable.  Nor are
    property keys that are symbols, or the check a proxy makes of its trap's
    result against a non-writable, non-configurable property of its target. *)

Module JS.

Definition loc := nat.

Inductive value :=
| VUndefined
| VNull
| VBool (b : bool)
| VNum (n : Z)
| VStr (s : string)
| VError (msg : string)   (** an [Error] instance, held by its message *)
| VObject (l : loc)
| VFunction (l : loc).

#[global] Instance value_eq_dec : EqDecision value.
Proof. solve_decision. Defined.

Definition typeof (v : value) : string :=
  match v with
  | VUndefined => "undefined"
  | VNull => "object"
  | VBool _ => "boolean"
  | VNum _ => "number"
  | VStr _ => "string"
  | VError _ | VObject _ => "object"
  | VFunction _ => "function"
  end.

(** [!!v] *)
Definition truthy (v : value) : bool :=
  match v with
  | VUndefined | VNull => false
  | VBool b => b
  | VNum n => negb (n =? 0)%Z
  | VStr s => negb (String.eqb s "")
  | VError _ | VObject _ | VFunction _ => true
  end.

(** [v === null || v === undefined], the test behind [??] and [?.] *)
Definition nullish (v : value) : bool :=
  match v with
  | VUndefined | VNull => true
  | _ => false
  end.

(** Outcome of an evaluation that may throw. *)
Inductive completion (A : Type) :=
| Normal (a : A)
| Throw (e : value).
Arguments Normal {A} a.
Arguments Throw {A} e.

(** A property holds a value, or a getter.  Every getter the loader
    installs has the shape [get() { return source[key] }], so a getter is
    held as the pair it closes over and is run by reading [source[key]]. *)
Inductive slot :=
| Data (v : value) (writable : bool)
| Getter (source : value) (key : string).

Record property := Property {
  p_slot : slot;
  p_enumerable : bool;
  p_configurable : bool;
}.

#[global] Instance slot_eq_dec : EqDecision slot.
Proof. solve_decision. Defined.
#[global] Instance property_eq_dec : EqDecision property.
Proof. solve_decision. Defined.

Inductive object :=
| Ordinary (props : list (string * property)) (extensible : bool)
(** [new Proxy(target, { get })], the [get] trap being the one of
    [proxyESM], which closes over [defaultExport] *)
| Proxy (target : value) (defaultExport : value).

Abbreviation heap := (list object).

(** First entry of a property table under a key. *)
Fixpoint assoc (key : string) (props : list (string * property)) : option property :=
  match props with
  | [] => None
  | (k, p) :: props' => if decide (k = key) then Some p else assoc key props'
  end.

(** Replace the entry under a key, keeping its position. *)
Fixpoint replace (key : string) (p : property) (props : list (string * property))
    : list (string * property) :=
  match props with
  | [] => []
  | (k, q) :: props' =>
      if decide (k = key) then (k, p) :: props' else (k, q) :: replace key p props'
  end.

(** Own properties of a string primitive: its characters under their
    indices, and [length]. *)
Definition stringTable (s : string) : list (string * property) :=
  imap (λ i c, (pretty i, Property (Data (VStr (String c EmptyString)) false) true false))
       (String.list_ascii_of_string s)
  ++ [("length", Property (Data (VNum (Z.of_nat (String.length s))) false) false false)].

Definition errorTable (msg : string) : list (string * property) :=
  [("stack", Property (Data (VStr msg) true) false true);
   ("message", Property (Data (VStr msg) true) false true)].

(** A proxy without [has], [ownKeys] and [defineProperty] traps forwards
    those operations to its target.  A proxy is allocated after its target
    and never retargeted, so a chain of proxies is shorter than the heap. *)
Fixpoint tableFrom (hops : nat) (h : heap) (v : value) : list (string * property) :=
  match v with
  | VStr s => stringTable s
  | VError msg => errorTable msg
  | VObject l | VFunction l =>
      match h !! l with
      | Some (Ordinary props _) => props
      | Some (Proxy target _) =>
          match hops with
          | O => []
          | S hops' => tableFrom hops' h target
          end
      | None => []
      end
  | _ => []
  end.

(** The property table seen by [in] and [for...in]. *)
Definition table (h : heap) (v : value) : list (string * property) :=
  tableFrom (length h) h v.

(** [key in v], for an object [v] *)
Definition hasProperty (h : heap) (v : value) (key : string) : bool :=
  bool_decide (is_Some (assoc key (table h v))).

(** The number a key that is a decimal numeral stands for. *)
Fixpoint digitsValue (acc : N) (key : string) : option N :=
  match key with
  | EmptyString => Some acc
  | String c key' =>
      let d := N_of_ascii c in
      if ((48 <=? d) && (d <=? 57))%N
      then digitsValue (10 * acc + (d - 48))%N key'
      else None
  end.

(** A key that is an array index: the canonical numeral, without leading
    zeros, of a number below [2^32 - 1]. *)
Definition arrayIndex (key : string) : option N :=
  match key with
  | EmptyString => None
  | String c key' =>
      if Ascii.eqb c "0" && negb (String.eqb key' "") then None
      else
        match digitsValue 0 key with
        | Some n => if (n <? 4294967295)%N then Some n else None
        | None => None
        end
  end.

Definition indexLe (a b : N * string) : Prop := (a.1 ≤ b.1)%N.

#[global] Instance indexLe_dec : RelDecision indexLe.
Proof. intros a b. unfold indexLe. apply _. Defined.

(** The order in which the own keys of an object are listed: the array
    indices in ascending order, then the other keys in the order in which
    they were created, which is the order of the table. *)
Definition ownKeyOrder (keys : list string) : list string :=
  (merge_sort indexLe (omap (λ key, (λ n, (n, key)) <$> arrayIndex key) keys)).*2
  ++ filter (λ key, arrayIndex key = None) keys.

(** The keys visited by [for (const key in v)]: the enumerable keys of the
    table in the order of own keys; nothing for [null], [undefined],
    numbers and booleans. *)
Definition forInKeys (h : heap) (v : value) : list string :=
  ownKeyOrder (filter (λ kp, p_enumerable kp.2 = true) (table h v)).*1.

Definition proxyOf (h : heap) (v : value) : option (value * value) :=
  match v with
  | VObject l | VFunction l =>
      match h !! l with
      | Some (Proxy target defaultExport) => Some (target, defaultExport)
      | _ => None
      end
  | _ => None
  end.

Definition readNullish : value :=
  VError "TypeError: Cannot read properties of undefined".

(** [v[key]].  A getter reads another property, and a proxy runs its
    [get] trap
<<
    get(mod, prop) {
      if (prop === 'default') return defaultExport
      return mod[prop] ?? defaultExport?.[prop]
    }
>>
    so a read can nest; [None] is a read that is still nested after [fuel]
    levels (a getter cycle never returns). *)
Fixpoint Get (fuel : nat) (h : heap) (v : value) (key : string)
    : option (completion value) :=
  match fuel with
  | O => None
  | S fuel' =>
    if nullish v then Some (Throw readNullish)
    else
      match proxyOf h v with
      | Some (target, defaultExport) =>
          if decide (key = "default") then Some (Normal defaultExport)
          else
            match Get fuel' h target key with
            | Some (Normal r) =>
                if nullish r
                then if nullish defaultExport then Some (Normal VUndefined)
                     else Get fuel' h defaultExport key
                else Some (Normal r)
            | other => other
            end
      | None =>
          match assoc key (table h v) with
          | None => Some (Normal VUndefined)
          | Some p =>
              match p_slot p with
              | Data x _ => Some (Normal x)
              | Getter source k => Get fuel' h source k
              end
          end
      end
  end.

Definition defineFailed (key : string) : value :=
  VError ("TypeError: Cannot define property " +:+ key).

(** Whether redefining [old] by [p] changes nothing.  Two getters are never
    the same function, however alike. *)
Definition sameDescriptor (old p : property) : bool :=
  match p_slot p with
  | Data _ _ => bool_decide (old = p)
  | Getter _ _ => false
  end.

(** [Object.defineProperty(o, key, p)] with a complete descriptor [p], on
    an ordinary object: a present configurable property is replaced, an
    absent one is added to an extensible object, redefining a property by
    itself changes nothing, and everything else is a [TypeError]. *)
Definition defineProperty (h : heap) (l : loc) (key : string) (p : property)
    : completion heap :=
  match h !! l with
  | Some (Ordinary props extensible) =>
      match assoc key props with
      | Some old =>
          if sameDescriptor old p then Normal h
          else if p_configurable old
          then Normal (<[l := Ordinary (replace key p props) extensible]> h)
          else Throw (defineFailed key)
      | None =>
          if extensible
          then Normal (<[l := Ordinary (props ++ [(key, p)]) extensible]> h)
          else Throw (defineFailed key)
      end
  | _ => Throw (defineFailed key)
  end.

Definition freezeProperty (p : property) : property :=
  match p_slot p with
  | Data v _ => Property (Data v false) (p_enumerable p) false
  | Getter source key => Property (Getter source key) (p_enumerable p) false
  end.

(** [Object.freeze(o)]: in place, the object keeps its location. *)
Definition freeze (h : heap) (l : loc) : heap :=
  match h !! l with
  | Some (Ordinary props _) =>
      <[l := Ordinary (prod_map id freezeProperty <$> props) false]> h
  | _ => h
  end.

Definition propertyFrozen (p : property) : bool :=
  negb (p_configurable p) &&
  match p_slot p with Data _ writable => negb writable | Getter _ _ => true end.

(** [Object.isFrozen(o)] *)
Definition isFrozen (h : heap) (l : loc) : bool :=
  match h !! l with
  | Some (Ordinary props extensible) =>
      negb extensible && forallb (λ kp, propertyFrozen kp.2) props
  | _ => false
  end.

Definition isOrdinary (h : heap) (l : loc) : bool :=
  match h !! l with
  | Some (Ordinary _ _) => true
  | _ => false
  end.

End JS.

(** * Legacy interop shim *)

Module Interop.
Import JS.

Definition isPrimitive (value : value) : bool :=
  negb (truthy value) ||
  (negb (String.eqb (typeof value) "object") &&
   negb (String.eqb (typeof value) "function")).

(** The first half of [proxyESM]: the object the proxy wraps and the
    default export it answers with.
<<
    let defaultExport = 'default' in mod ? mod.default : mod
    if (!isPrimitive(defaultExport) && '__esModule' in defaultExport) {
      mod = defaultExport
      if ('default' in defaultExport) defaultExport = defaultExport.default
    }
>> *)
Definition interopTarget (fuel : nat) (h : heap) (m : value)
    : option (completion (value * value)) :=
  match (if hasProperty h m "default" then Get fuel h m "default"
         else Some (Normal m)) with
  | None => None
  | Some (Throw e) => Some (Throw e)
  | Some (Normal defaultExport) =>
      if negb (isPrimitive defaultExport) && hasProperty h defaultExport "__esModule"
      then
        if hasProperty h defaultExport "default"
        then match Get fuel h defaultExport "default" with
             | Some (Normal nested) => Some (Normal (defaultExport, nested))
             | Some (Throw e) => Some (Throw e)
             | None => None
             end
        else Some (Normal (defaultExport, defaultExport))
      else Some (Normal (m, defaultExport))
  end.

(** A proxy is callable exactly when its target is. *)
Definition proxyRef (target : value) (l : loc) : value :=
  match target with
  | VFunction _ => VFunction l
  | _ => VObject l
  end.

(** The object literal [{ default: mod }]. *)
Definition defaultOnly (m : value) : object :=
  Ordinary [("default", Property (Data m true) true true)] true.

Definition proxyESM (fuel : nat) (m : value) (h : heap)
    : option (completion (value * heap)) :=
  if isPrimitive m then Some (Normal (VObject (length h), h ++ [defaultOnly m]))
  else
    match interopTarget fuel h m with
    | Some (Normal (target, defaultExport)) =>
        Some (Normal (proxyRef target (length h), h ++ [Proxy target defaultExport]))
    | Some (Throw e) => Some (Throw e)
    | None => None
    end.

(** Reading through the shim, for every key but [default]. *)
Definition shimRead (n : nat) (h : heap) (target defaultExport : value) (key : string)
    : option (completion value) :=
  match Get n h target key with
  | Some (Normal x) =>
      if nullish x
      then if nullish defaultExport then Some (Normal VUndefined)
           else Get n h defaultExport key
      else Some (Normal x)
  | other => other
  end.

End Interop.

(** * The loader *)

Module Loader.
Import JS Tracker.

(** Functions of the host and of sibling files that the loader calls. *)
Class Host := {
  (** [unwrapId] of shared/utils: strips the internal id prefix *)
  unwrapId : string → string;
  (** [path.dirname] *)
  dirname : string → string;
  (** [path.posix.resolve] *)
  posixResolve : string → string → string;
  (** [server.config.logger.error(msg, { error: e, ... })] for the module
      [url] and the caught value [e]: the value the call throws, if it
      throws.  Vite's own logger adds a truthy [error] to the [WeakSet] of
      the errors it has logged, which is a [TypeError] for a value that is
      not an object. *)
  loggerError : string → value → option value;
  (** How deep calls nest before the engine throws a [RangeError]. *)
  stackDepth : nat;
}.

(** Identity of a promise returned by a call of [instantiateModule]. *)
Definition pid := nat.

(** What a module body does with the six arguments [initModule] hands it.
    An awaited import continues with the value it resolved with or the
    value it rejected with, so a body may handle a failed import or throw
    it again.  A body awaits the imports it makes and defines properties on
    its own exports object only, as transformed code does. *)
Inductive Body :=
| BReturn
| BThrow (e : value)
(** [await __vite_ssr_import__(dep)] *)
| BImport (dep : string) (k : completion value → Body)
(** [await __vite_ssr_dynamic_import__(dep)] *)
| BDynamicImport (dep : string) (k : completion value → Body)
(** [__vite_ssr_exportAll__(sourceModule)] *)
| BExportAll (sourceModule : value) (k : Body)
(** [Object.defineProperty(__vite_ssr_exports__, key, p)] *)
| BDefine (key : string) (p : property) (k : Body)
(** an effect outside the loader, counted *)
| BEffect (k : Body)
(** an [await] of anything else *)
| BAwait (k : Body).

(** The fields of a module graph node the loader reads and writes.
    [ssrError] is [null] until an error is stored; [ssrTransformResult]
    holds the transformed code, here the body it compiles to. *)
Record ModuleNode := Node {
  ssrError : value;
  ssrModule : option loc;
  ssrTransformResult : option Body;
}.

(** What has become of a promise.  A promise that is resolved with an
    object whose [then] is callable is neither fulfilled nor rejected: it
    follows the object, whose [then] is handed the functions that settle the
    promise, and [outcome] is what the promise has ended with when one of
    them has been called. *)
Inductive settlement :=
| Pending
| Fulfilled (v : value)
| Rejected (e : value)
| Following (thenable : value) (outcome : option (completion value)).

(** What a promise has settled with, if it has settled. *)
Definition outcome (s : settlement) : option (completion value) :=
  match s with
  | Pending => None
  | Fulfilled v => Some (Normal v)
  | Rejected e => Some (Throw e)
  | Following _ r => r
  end.

(** What the promise returned by a call of [ssrImport] settles with. *)
Inductive handle :=
(** [return depSsrModule] *)
| HValue (v : value)
(** an error thrown inside *)
| HThrown (e : value)
(** [return ssrLoadModule(dep, ...)]: adopts the loader's promise *)
| HLoad (p : pid)
(** [return await nodeImport(dep, ...)] *)
| HNode (dep : string).

(** A call of [instantiateModule] suspended at one of its [await]s. *)
Inductive task :=
(** at [await moduleGraph.ensureEntryFromUrl(url, true)] *)
| AwaitEnsure (url : string)
(** at [await transformRequest(url, server, { ssr: true })] *)
| AwaitTransform (url : string)
(** at [await initModule(...)], the body itself waiting for an import *)
| AwaitImport (url : string) (ssrModule : loc) (h : handle)
              (k : completion value → Body)
(** at [await initModule(...)], the body having returned or thrown *)
| AwaitInit (url : string) (ssrModule : loc) (r : completion unit)
(** at [await initModule(...)], the body waiting for an import whose
    promise follows [thenable], the value [ssrImport] returned *)
| AwaitThen (url : string) (ssrModule : loc) (thenable : value)
            (k : completion value → Body).

Definition taskUrl (t : task) : string :=
  match t with
  | AwaitEnsure url | AwaitTransform url
  | AwaitImport url _ _ _ | AwaitInit url _ _ | AwaitThen url _ _ _ => url
  end.

(** The module-level tables of the file, the module graph, and the
    promises and suspended calls of [instantiateModule]; a promise is kept
    with the url it was created for. *)
Record State := MkState {
  urlToModuleMap : gmap string ModuleNode;
  objects : heap;
  pendingModules : gmap string pid;
  pendingModuleDependencyGraph : gmap string (list string);
  importErrors : list (value * string);
  promises : list (string * settlement);
  tasks : gmap pid task;
  effects : nat;
}.

Definition setModules (f : gmap string ModuleNode → gmap string ModuleNode) (st : State) :=
  MkState (f (urlToModuleMap st)) (objects st) (pendingModules st)
          (pendingModuleDependencyGraph st) (importErrors st) (promises st)
          (tasks st) (effects st).
Definition setObjects (f : heap → heap) (st : State) :=
  MkState (urlToModuleMap st) (f (objects st)) (pendingModules st)
          (pendingModuleDependencyGraph st) (importErrors st) (promises st)
          (tasks st) (effects st).
Definition setPending (f : gmap string pid → gmap string pid) (st : State) :=
  MkState (urlToModuleMap st) (objects st) (f (pendingModules st))
          (pendingModuleDependencyGraph st) (importErrors st) (promises st)
          (tasks st) (effects st).
Definition setGraph (f : gmap string (list string) → gmap string (list string)) (st : State) :=
  MkState (urlToModuleMap st) (objects st) (pendingModules st)
          (f (pendingModuleDependencyGraph st)) (importErrors st) (promises st)
          (tasks st) (effects st).
Definition setImportErrors (f : list (value * string) → list (value * string)) (st : State) :=
  MkState (urlToModuleMap st) (objects st) (pendingModules st)
          (pendingModuleDependencyGraph st) (f (importErrors st)) (promises st)
          (tasks st) (effects st).
Definition setPromises (f : list (string * settlement) → list (string * settlement)) (st : State) :=
  MkState (urlToModuleMap st) (objects st) (pendingModules st)
          (pendingModuleDependencyGraph st) (importErrors st) (f (promises st))
          (tasks st) (effects st).
Definition setTasks (f : gmap pid task → gmap pid task) (st : State) :=
  MkState (urlToModuleMap st) (objects st) (pendingModules st)
          (pendingModuleDependencyGraph st) (importErrors st) (promises st)
          (f (tasks st)) (effects st).
Definition setEffects (f : nat → nat) (st : State) :=
  MkState (urlToModuleMap st) (objects st) (pendingModules st)
          (pendingModuleDependencyGraph st) (importErrors st) (promises st)
          (tasks st) (f (effects st)).

(** [mod.ssrModule] of the node under [url], if both exist. *)
Definition ssrModuleOf (st : State) (url : string) : option loc :=
  urlToModuleMap st !! url ≫= ssrModule.

(** The suspended call with promise [p] is over: it has returned or
    thrown, and [s] is what has become of its promise. *)
Definition settle (p : pid) (s : settlement) (st : State) : State :=
  setTasks (delete p)
    (setPromises (λ ps, match ps !! p with
                        | Some (url, _) => <[p := (url, s)]> ps
                        | None => ps
                        end) st).

Definition suspend (p : pid) (t : task) (st : State) : State :=
  setTasks <[p := t]> st.

Definition firstChar (s : string) : option ascii :=
  match s with
  | EmptyString => None
  | String c _ => Some c
  end.

(** [dep[0] !== '.' && dep[0] !== '/'] *)
Definition isExternal (dep : string) : bool :=
  bool_decide (firstChar dep ≠ Some "."%char) &&
  bool_decide (firstChar dep ≠ Some "/"%char).

(** The [ssrModule] object at its creation:
<<
    const ssrModule = { [Symbol.toStringTag]: 'Module' }
    Object.defineProperty(ssrModule, '__esModule', { value: true })
>>
    The first property has a symbol for its key, which no string key equals
    and [for...in] skips; it is left out of the table. *)
Definition newSsrModule : object :=
  Ordinary [("__esModule", Property (Data (VBool true) false) false false)] true.

Definition uninitializedCycle : value :=
  VError "[vite] The dependency module is not yet fully initialized due to circular dependency. This is a bug in Vite SSR".

Definition failedToLoad (url : string) : value :=
  VError ("failed to load module for ssr: " +:+ url).

Definition invalidWeakKey : value :=
  VError "TypeError: Invalid value used as weak map key".

Definition stackOverflow : value :=
  VError "RangeError: Maximum call stack size exceeded".

(** Values that are objects: what a [WeakMap] accepts as a key, and what
    the resolution of a promise reads [then] of. *)
Definition isObject (v : value) : bool :=
  match v with
  | VError _ | VObject _ | VFunction _ => true
  | _ => false
  end.

(** The keys [ssrExportAll] re-exports. *)
Definition reexported (key : string) : Prop :=
  key ≠ "default" ∧ key ≠ "__esModule".

(** The descriptor [ssrExportAll] passes to [Object.defineProperty]:
    [{ enumerable: true, configurable: true, get() { return sourceModule[key] } }] *)
Definition installed (sourceModule : value) (key : string) : property :=
  Property (Getter sourceModule key) true true.

(** The loop of [ssrExportAll] over the keys [for...in] visits. *)
Fixpoint exportKeys (ssrModule : loc) (sourceModule : value) (keys : list string)
    (h : heap) : heap * completion unit :=
  match keys with
  | [] => (h, Normal ())
  | key :: keys' =>
      if bool_decide (key ≠ "default") && bool_decide (key ≠ "__esModule")
      then
        match defineProperty h ssrModule key (installed sourceModule key) with
        | Normal h' => exportKeys ssrModule sourceModule keys' h'
        | Throw e => (h, Throw e)
        end
      else exportKeys ssrModule sourceModule keys' h
  end.

Definition ssrExportAll (ssrModule : loc) (sourceModule : value) (h : heap)
    : heap * completion unit :=
  exportKeys ssrModule sourceModule (forInKeys h sourceModule) h.

(** [mod.ssrModule = exports] and [mod.ssrError = e] *)
Definition withSsrModule (exports : loc) (md : ModuleNode) : ModuleNode :=
  Node (ssrError md) (Some exports) (ssrTransformResult md).
Definition withSsrError (e : value) (md : ModuleNode) : ModuleNode :=
  Node e (ssrModule md) (ssrTransformResult md).

(** The [then] of a value a promise is resolved with. *)
Inductive thenable :=
| Callable
| NotCallable
| ThenThrows (e : value).

Section WithHost.
Context `{Host}.

(** Resolving a promise with [v], which is what [return v] in an [async]
    function does to the promise of the call: the [then] of an object is
    read, which may run getters, and may throw. *)
Definition readThen (h : heap) (v : value) : thenable :=
  if isObject v
  then
    match Get (S stackDepth) h v "then" with
    | Some (Normal (VFunction _)) => Callable
    | Some (Normal _) => NotCallable
    | Some (Throw e) => ThenThrows e
    | None => ThenThrows stackOverflow
    end
  else NotCallable.

Definition resolution (h : heap) (v : value) : settlement :=
  match readThen h v with
  | Callable => Following v None
  | NotCallable => Fulfilled v
  | ThenThrows e => Rejected e
  end.

(** The synchronous part of [instantiateModule], up to its first
    [await]: a promise is created, the call is suspended. *)
Definition instantiateModule (url : string) (st : State) : pid * State :=
  let p := length (promises st) in
  (p, suspend p (AwaitEnsure url) (setPromises (λ ps, ps ++ [(url, Pending)]) st)).

(** [ssrLoadModule]; the [.finally] callback registered on the promise is
    the event [Finally] below.  The promise of an [async] function adopts
    the promise its body returns, so a caller sees the returned promise
    settle: the call is given by the promise its body returns. *)
Definition ssrLoadModule (url : string) (st : State) : pid * State :=
  let url := unwrapId url in
  match pendingModules st !! url with
  | Some pending => (pending, st)
  | None =>
      let '(modulePromise, st1) := instantiateModule url st in
      (modulePromise, setPending <[url := modulePromise]> st1)
  end.


(** The closure [ssrImport] of the instantiation of [url], up to the
    point where its promise is returned.  [isDynamicImport] is
    [metadata?.isDynamicImport]. *)
Definition ssrImport (url dep : string) (isDynamicImport : bool) (st : State)
    : handle * State :=
  if isExternal dep then (HNode dep, st)
  else
    let dep := unwrapId dep in
    let st1 :=
      if negb isDynamicImport
      then setGraph (λ g, addPendingModuleDependency g url dep) st
      else st in
    if negb isDynamicImport &&
       checkModuleDependencyExists (pendingModuleDependencyGraph st1) dep url
    then
      match ssrModuleOf st1 dep with
      | None =>
          (HThrown uninitializedCycle,
           setImportErrors (cons (uninitializedCycle, dep)) st1)
      | Some depSsrModule => (HValue (VObject depSsrModule), st1)
      end
    else
      let '(p, st2) := ssrLoadModule dep st1 in (HLoad p, st2).

Definition ssrDynamicImport (url dep : string) (st : State) : handle * State :=
  let dep :=
    if bool_decide (firstChar dep = Some "."%char)
    then posixResolve (dirname url) dep
    else dep in
  ssrImport url dep true st.

(** [initModule(...)] running the body of [url] until it suspends,
    returns or throws.  A [TypeError] out of [Object.defineProperty] ends
    the body. *)
Fixpoint runBody (p : pid) (url : string) (ssrModule : loc) (b : Body)
    (st : State) : State :=
  match b with
  | BReturn => suspend p (AwaitInit url ssrModule (Normal ())) st
  | BThrow e => suspend p (AwaitInit url ssrModule (Throw e)) st
  | BImport dep k =>
      let '(h, st1) := ssrImport url dep false st in
      suspend p (AwaitImport url ssrModule h k) st1
  | BDynamicImport dep k =>
      let '(h, st1) := ssrDynamicImport url dep st in
      suspend p (AwaitImport url ssrModule h k) st1
  | BExportAll sourceModule k =>
      match ssrExportAll ssrModule sourceModule (objects st) with
      | (h', Normal _) => runBody p url ssrModule k (setObjects (λ _, h') st)
      | (h', Throw e) =>
          suspend p (AwaitInit url ssrModule (Throw e)) (setObjects (λ _, h') st)
      end
  | BDefine key prop k =>
      match defineProperty (objects st) ssrModule key prop with
      | Normal h' => runBody p url ssrModule k (setObjects (λ _, h') st)
      | Throw e => suspend p (AwaitInit url ssrModule (Throw e)) st
      end
  | BEffect k => runBody p url ssrModule k (setEffects S st)
  | BAwait k =>
      suspend p (AwaitImport url ssrModule (HValue VUndefined) (λ _, k)) st
  end.

(** [instantiateModule] from the transform result on: the exports object
    is created and attached, the body is started. *)
Definition instantiateTransformed (p : pid) (url : string)
    (result : option Body) (st : State) : State :=
  match result with
  | None => settle p (Rejected (failedToLoad url)) st
  | Some code =>
      let ssrModule := length (objects st) in
      let st1 := setObjects (λ h, h ++ [newSsrModule]) st in
      let st2 :=
        setModules (alter (withSsrModule ssrModule) url) st1 in
      runBody p url ssrModule code st2
  end.

(** Modelled from the spec: [moduleGraph.ensureEntryFromUrl], of the
    module graph store, which is not part of this file: the node under
    [url], created if absent. *)
Definition ensureEntryFromUrl (url : string) (st : State) : State :=
  match urlToModuleMap st !! url with
  | Some _ => st
  | None => setModules <[url := Node VNull None None]> st
  end.

(** [instantiateModule] from the node on; [return mod.ssrModule] resolves
    the promise of the call with the exports object. *)
Definition instantiateEnsured (p : pid) (url : string) (st : State) : State :=
  let st := ensureEntryFromUrl url st in
  match urlToModuleMap st !! url with
  | None => st
  | Some md =>
      if truthy (ssrError md) then settle p (Rejected (ssrError md)) st
      else
        match ssrModule md with
        | Some exports => settle p (resolution (objects st) (VObject exports)) st
        | None =>
            match ssrTransformResult md with
            | Some result => instantiateTransformed p url (Some result) st
            | None => suspend p (AwaitTransform url) st
            end
        end
  end.

(** What leaves the [catch] clause for the caught value [e]: the clause
    stores [e], reads [e.stack], which throws for [null] and [undefined],
    reports the error through the logger, which may throw, and throws [e]
    again.  A logger is taken to throw at most where Vite's own does: for
    a truthy value that is not an object. *)
Definition rethrown (url : string) (e : value) : value :=
  if nullish e then readNullish
  else if truthy e && negb (isObject e)
  then match loggerError url e with Some err => err | None => e end
  else e.

(** [instantiateModule] after [await initModule(...)]: the [catch] and
    [finally] clauses and the final [return Object.freeze(ssrModule)],
    which resolves the promise of the call with the frozen exports
    object.  Reporting an error does not touch the loader's state. *)
Definition instantiateSettled (p : pid) (url : string) (ssrModule : loc)
    (r : completion unit) (st : State) : State :=
  match r with
  | Throw e =>
      let st1 := setModules (alter (withSsrError e) url) st in
      let st2 := setGraph (delete url) st1 in
      settle p (Rejected (rethrown url e)) st2
  | Normal _ =>
      let st1 := setGraph (delete url) st in
      let st2 := setObjects (λ h, freeze h ssrModule) st1 in
      settle p (resolution (objects st2) (VObject ssrModule)) st2
  end.

(** ** Scheduling

    The loader runs on one thread; between two [await]s a call runs to
    completion.  An event is one such uninterrupted run. *)
Inductive event :=
(** a caller invokes [ssrLoadModule(url)] *)
| Load (url : string)
(** [ensureEntryFromUrl] has resolved for the call with promise [p] *)
| Ensured (p : pid)
(** [transformRequest] has resolved with [result] ([null] is [None]), or
    rejected, for the call with promise [p] *)
| Transformed (p : pid) (r : completion (option Body))
(** the call with promise [p] continues after the promise it awaits has
    settled *)
| Resume (p : pid)
(** [nodeImport], awaited inside [ssrImport] for the body of [p], has
    settled with [r]: the module the host loaded, or its shim, or an error *)
| NodeImported (p : pid) (r : completion value)
(** the [.finally] callback registered by [ssrLoadModule] for [url] *)
| Finally (url : string)
(** the [then] of the object the promise [p] follows has settled the
    promise, which ends with [r]: fulfilled with a value or rejected *)
| ThenSettled (p : pid) (r : completion value)
(** the same for the promise of [ssrImport] that the body of [p] awaits *)
| Followed (p : pid) (r : completion value).

(** The body of [p] goes on with the value [v] its import has come to.
    The import was returned by [ssrImport], an [async] function, whose
    promise is resolved with [v]: the body receives [v] unless [v] has a
    [then], which is read here; when [then] is callable the promise of
    [ssrImport] follows [v] and the body waits on. *)
Definition deliver (p : pid) (url : string) (ssrModule : loc)
    (k : completion value → Body) (v : value) (st : State) : State :=
  match readThen (objects st) v with
  | NotCallable => runBody p url ssrModule (k (Normal v)) st
  | ThenThrows e => runBody p url ssrModule (k (Throw e)) st
  | Callable => suspend p (AwaitThen url ssrModule v k) st
  end.

Definition resume (p : pid) (st : State) : State :=
  match tasks st !! p with
  | Some (AwaitImport url ssrModule h k) =>
      match h with
      | HValue v => deliver p url ssrModule k v st
      | HThrown e => runBody p url ssrModule (k (Throw e)) st
      | HLoad q =>
          match promises st !! q with
          | Some (_, s) =>
              match outcome s with
              | Some (Normal v) => deliver p url ssrModule k v st
              | Some (Throw e) => runBody p url ssrModule (k (Throw e)) st
              | None => st
              end
          | None => st
          end
      | HNode _ => st
      end
  | Some (AwaitInit url ssrModule r) => instantiateSettled p url ssrModule r st
  | _ => st
  end.

(** The object the promise of [ssrImport] follows has settled it. *)
Definition followed (p : pid) (r : completion value) (st : State) : State :=
  match tasks st !! p with
  | Some (AwaitThen url ssrModule _ k) => runBody p url ssrModule (k r) st
  | _ => st
  end.

(** The object the promise of a call of [instantiateModule] follows has
    settled it. *)
Definition thenSettled (p : pid) (r : completion value) (st : State) : State :=
  match promises st !! p with
  | Some (url, Following v None) =>
      setPromises <[p := (url, Following v (Some r))]> st
  | _ => st
  end.

(** The end of [ssrImport] for an external specifier: the result of
    [nodeImport] is returned, a rejection goes through the [catch]
    clause, where [importErrors.set(err, ...)] itself throws when [err]
    is not an object. *)
Definition nodeImported (p : pid) (r : completion value) (st : State) : State :=
  match tasks st !! p with
  | Some (AwaitImport url ssrModule (HNode dep) k) =>
      match r with
      | Normal v => deliver p url ssrModule k v st
      | Throw err =>
          if isObject err
          then runBody p url ssrModule (k (Throw err))
                       (setImportErrors (cons (err, dep)) st)
          else runBody p url ssrModule (k (Throw invalidWeakKey)) st
      end
  | _ => st
  end.

Definition isSettled (st : State) (p : pid) : bool :=
  match promises st !! p with
  | Some (_, s) => bool_decide (is_Some (outcome s))
  | None => false
  end.

(** An event that is not enabled leaves the state as it is. *)
Definition step (ev : event) (st : State) : State :=
  match ev with
  | Load url => (ssrLoadModule url st).2
  | Ensured p =>
      match tasks st !! p with
      | Some (AwaitEnsure url) => instantiateEnsured p url st
      | _ => st
      end
  | Transformed p r =>
      match tasks st !! p with
      | Some (AwaitTransform url) =>
          match r with
          | Normal result => instantiateTransformed p url result st
          | Throw e => settle p (Rejected e) st
          end
      | _ => st
      end
  | Resume p => resume p st
  | NodeImported p r => nodeImported p r st
  | Finally url =>
      match pendingModules st !! url with
      | Some p => if isSettled st p then setPending (delete url) st else st
      | None => st
      end
  | ThenSettled p r => thenSettled p r st
  | Followed p r => followed p r st
  end.

Definition run (evs : list event) (st : State) : State :=
  foldl (λ st ev, step ev st) st evs.

(** A server that has loaded nothing yet; [cache] holds the transform
    results the module graph already has. *)
Definition init (cache : gmap string Body) : State :=
  MkState ((λ code, Node VNull None (Some code)) <$> cache) [] ∅ ∅ [] [] ∅ 0.

(** ** Invariants of the reachable states *)

(** The [ssrModule] a suspended call holds in its local variable. *)
Definition taskExports (t : task) : option loc :=
  match t with
  | AwaitImport _ exports _ _ | AwaitInit _ exports _
  | AwaitThen _ exports _ _ => Some exports
  | _ => None
  end.

(** What holds of the suspended calls selected by [P]: a call is registered
    in [pendingModules] under its url and its promise is pending; at the
    [await] of the transform the node is still untouched; from the body on,
    the node holds the exports object of the call. *)
Record TasksOk (P : pid → Prop) (st : State) : Prop := {
  tasks_pending : ∀ p t, P p → tasks st !! p = Some t →
    pendingModules st !! taskUrl t = Some p ∧
    promises st !! p = Some (taskUrl t, Pending);
  tasks_transform : ∀ p url, P p → tasks st !! p = Some (AwaitTransform url) →
    ∃ md, urlToModuleMap st !! url = Some md ∧ ssrError md = VNull ∧
          ssrModule md = None ∧ ssrTransformResult md = None;
  tasks_exports : ∀ p t exports, P p → tasks st !! p = Some t →
    taskExports t = Some exports → ssrModuleOf st (taskUrl t) = Some exports;
}.

(** What holds of the promises and the nodes: a promise is fulfilled with
    the exports object of its url's node, or follows that object, and a
    node without exports object has no error stored. *)
Record StoreOk (st : State) : Prop := {
  store_fulfilled : ∀ p url v, promises st !! p = Some (url, Fulfilled v) →
    ∃ exports, v = VObject exports ∧ ssrModuleOf st url = Some exports;
  store_following : ∀ p url x r, promises st !! p = Some (url, Following x r) →
    ∃ exports, x = VObject exports ∧ ssrModuleOf st url = Some exports;
  store_fresh : ∀ url md, urlToModuleMap st !! url = Some md →
    ssrModule md = None → ssrError md = VNull;
}.

Definition Inv (st : State) : Prop := TasksOk (λ _, True) st ∧ StoreOk st.

(** The exports object a suspended call selected by [P] holds is an ordinary
    object of the heap. *)
Definition TasksOrdinary (P : pid → Prop) (st : State) : Prop :=
  ∀ p t exports, P p → tasks st !! p = Some t → taskExports t = Some exports →
                 isOrdinary (objects st) exports = true.

(** The call with promise [p] for [url] is running: its entry in [tasks] is
    the [await] it has left and says nothing; the other calls, the promises
    and the nodes are in order. *)
Definition Running (p : pid) (url : string) (st : State) : Prop :=
  TasksOk (λ q, q ≠ p) st ∧ StoreOk st ∧
  pendingModules st !! url = Some p ∧
  promises st !! p = Some (url, Pending).

End WithHost.
End Loader.

(** * Life cycle of the loader's tables

    What the reachable states of the loader keep true of the dependency
    graph, the recorded import errors, the promises and the exports objects. *)

Module Lifecycle.
Import JS Tracker Loader.

(** The property [__esModule] an exports object is created with. *)
Definition esModuleMarker : property := Property (Data (VBool true) false) false false.

(** The object at [l] is an ordinary object whose property [__esModule] is
    the marker, and its table has no other entry under that key. *)
Definition marked (h : heap) (l : loc) : Prop :=
  ∃ props extensible,
    h !! l = Some (Ordinary props extensible) ∧
    assoc "__esModule" props = Some esModuleMarker ∧
    ∀ p, ("__esModule", p) ∈ props → p = esModuleMarker.

(** What a suspended body may be waiting for: never an error thrown inside
    [ssrImport], and [nodeImport] only for a specifier that [ssrImport] hands
    to it. *)
Definition handleOk (h : handle) : Prop :=
  match h with
  | HThrown _ => False
  | HNode dep => isExternal dep = true
  | _ => True
  end.

(** The state of the tables between two events, for the suspended calls
    selected by [P]; [running] is the url of the call that is running, if one
    is.  An entry of the dependency graph belongs to a call that is inside
    its body; the node of such a call has no error stored; a recorded import
    error names an importee that went to [nodeImport]; a pending promise
    belongs to a call; an entry of [pendingModules] holds a promise
    created for its url. *)
Record Tracked (P : pid → Prop) (running : option string) (st : State) : Prop := {
  tracked_graph : ∀ u deps, pendingModuleDependencyGraph st !! u = Some deps →
    running = Some u ∨
    ∃ q t x, P q ∧ tasks st !! q = Some t ∧ taskUrl t = u ∧ taskExports t = Some x;
  tracked_clean : ∀ q t x, P q → tasks st !! q = Some t → taskExports t = Some x →
    ssrError <$> urlToModuleMap st !! taskUrl t = Some VNull;
  tracked_handles : ∀ q url m h k, P q →
    tasks st !! q = Some (AwaitImport url m h k) → handleOk h;
  tracked_errors : ∀ err dep, (err, dep) ∈ importErrors st → isExternal dep = true;
  tracked_unsettled : ∀ (p : pid) url, promises st !! p = Some (url, Pending) →
    is_Some (tasks st !! p);
  tracked_entries : ∀ url p, pendingModules st !! url = Some p →
    ∃ s, promises st !! p = Some (url, s);
}.

(** The call with promise [p] runs the body of [url], whose exports object
    is [exports]. *)
Definition RunningBody (p : pid) (url : string) (exports : loc) (st : State) : Prop :=
  Running p url st ∧
  ssrModuleOf st url = Some exports ∧
  ssrError <$> urlToModuleMap st !! url = Some VNull ∧
  Tracked (λ q, q ≠ p) (Some url) st.


(** The promises of [st'] are those of [st], settled or not, followed by
    promises that calls of [instantiateModule] have created since, each
    still pending and for a url that had no entry in [pendingModules] in
    [st]. *)
Definition PromisesFrom (st st' : State) : Prop :=
  ∀ (q : pid) u s, promises st' !! q = Some (u, s) →
    (∃ s', promises st !! q = Some (u, s')) ∨
    (length (promises st) ≤ q ∧ pendingModules st !! u = None ∧ s = Pending).

(** The exports object of every node carries the marker. *)
Definition NodesMarked (st : State) : Prop :=
  ∀ url exports, ssrModuleOf st url = Some exports → marked (objects st) exports.

End Lifecycle.

(** * Imports handed to the host *)

Module NodeImport.
Import JS Interop.

(** Functions of the host and of sibling files that [nodeImport] calls;
    [metadata] is the type of the import metadata, which [nodeImport] only
    passes on. *)
Class Resolver := {
  metadata : Type;
  (** [isExternalUrl] and [isBuiltin] of utils *)
  isExternalUrl : string → bool;
  isBuiltin : string → bool;
  (** [tryNodeResolve(id, importer, ...)?.id] of plugins/resolve *)
  tryNodeResolve : string → string → option string;
  (** [pathToFileURL(path).toString()] *)
  pathToFileURL : string → string;
  (** [isFilePathESM(filePath, packageCache)] of utils *)
  isFilePathESM : string → bool;
  (** [analyzeImportedModDifference(mod, id, moduleType, metadata)] of
      shared/ssrTransform, the second last argument saying whether the
      module type is ['module']: the error it throws, if it throws *)
  analyzeImportedModDifference :
    heap → value → string → bool → option metadata → option value;
}.

(** The error of an unresolved specifier.  An error is held by its message:
    the [code] it is given, [ERR_MODULE_NOT_FOUND], is not held. *)
Definition moduleNotFound (id importer : string) : value :=
  VError ("Cannot find module '" +:+ id +:+ "' imported from '" +:+ importer +:+ "'").

(** [nodeImport] up to [await import(url)]: it throws, or asks the host for
    the module at [url]; [filePath] is set when the specifier was
    resolved. *)
Inductive request :=
| Unresolved (err : value)
| ImportFrom (url : string) (filePath : option string).

Section WithResolver.
Context `{Resolver}.

Definition nodeImportRequest (id importer : string) : request :=
  if String.prefix "data:" id || isExternalUrl id || isBuiltin id
  then ImportFrom id None
  else
    match tryNodeResolve id importer with
    | None => Unresolved (moduleNotFound id importer)
    | Some resolved => ImportFrom (pathToFileURL resolved) (Some resolved)
    end.

(** [nodeImport] from the module [m] that [import(url)] resolved with:
    the shim of [m] under [legacyProxySsrExternalModules], and otherwise
    [m] itself, checked against the imported names when it came from a
    file.  [if (filePath)] is a test of truthiness. *)
Definition nodeImportResult (legacyProxySsrExternalModules : bool) (fuel : nat)
    (id : string) (filePath : option string) (meta : option metadata)
    (m : value) (h : heap) : option (completion (value * heap)) :=
  if legacyProxySsrExternalModules then proxyESM fuel m h
  else
    match filePath with
    | Some path =>
        if String.eqb path "" then Some (Normal (m, h))
        else
          match analyzeImportedModDifference h m id (isFilePathESM path) meta with
          | Some err => Some (Throw err)
          | None => Some (Normal (m, h))
          end
    | None => Some (Normal (m, h))
    end.

End WithResolver.
End NodeImport.

(** * Strings and regular expressions

    The plugins work on strings.  A string is held as the list of its UTF-16
    code units, which is what [length], indexing, [sort], the character
    classes and [replaceAll] see; a string literal of the source is written
    [units "..."]. *)

Module Text.

Abbreviation ustring := (list N).

Definition units (s : string) : ustring :=
  N_of_ascii <$> String.list_ascii_of_string s.

Definition inRange (lo hi u : N) : bool := ((lo <=? u) && (u <=? hi))%N.

(** [\d], [\w] *)
Definition isDigit (u : N) : bool := inRange 48 57 u.
Definition isWordChar (u : N) : bool :=
  inRange 97 122 u || inRange 65 90 u || isDigit u || (u =? 95)%N.

(** Line terminators: LF, CR, LS, PS; [.] matches everything else. *)
Definition isLineTerminator (u : N) : bool :=
  bool_decide (u ∈ [10; 13; 8232; 8233]%N).

(** [\s], which is also what [trim] strips: white space and line
    terminators. *)
Definition isSpace (u : N) : bool :=
  bool_decide (u ∈ [9; 10; 11; 12; 13; 32; 160; 5760; 8232; 8233; 8239; 8287;
                    12288; 65279]%N) || inRange 8192 8202 u.

(** [s.startsWith(p)], [s.endsWith(p)], [s.includes(p)] *)
Fixpoint startsWith (p s : ustring) : bool :=
  match p, s with
  | [], _ => true
  | a :: p', b :: s' => (a =? b)%N && startsWith p' s'
  | _ :: _, [] => false
  end.

Definition endsWith (p s : ustring) : bool := startsWith (reverse p) (reverse s).

Fixpoint includes (p s : ustring) : bool :=
  startsWith p s || match s with [] => false | _ :: s' => includes p s' end.

(** [s] past its leading characters of the class [P] *)
Fixpoint skip (P : N → bool) (s : ustring) : ustring :=
  match s with
  | c :: s' => if P c then skip P s' else s
  | [] => []
  end.

(** [s.trim()] *)
Definition trimStart (s : ustring) : ustring := skip isSpace s.

Definition trim (s : ustring) : ustring := reverse (trimStart (reverse (trimStart s))).

(** [s.replaceAll(pattern, replacement)] for a pattern that is a non-empty
    string and a replacement without [$]: the occurrences are found from
    left to right and do not overlap. *)
Fixpoint replaceAllFrom (fuel : nat) (pattern replacement s : ustring) : ustring :=
  match fuel with
  | O => s
  | S fuel' =>
      match s with
      | [] => []
      | c :: s' =>
          if startsWith pattern s
          then replacement ++ replaceAllFrom fuel' pattern replacement
                                (drop (length pattern) s)
          else c :: replaceAllFrom fuel' pattern replacement s'
      end
  end.

Definition replaceAll (pattern replacement s : ustring) : ustring :=
  replaceAllFrom (length s) pattern replacement s.

(** [l.join(sep)] *)
Fixpoint join (sep : ustring) (l : list ustring) : ustring :=
  match l with
  | [] => []
  | s :: l' =>
      match l' with
      | [] => s
      | _ :: _ => s ++ sep ++ join sep l'
      end
  end.

(** [s.padEnd(n)] *)
Definition padEnd (n : nat) (s : ustring) : ustring :=
  s ++ replicate (n - length s) 32%N.

End Text.

Module RegExp.
Import Text.

(** The constructs of the regular expressions the plugins use.  A literal
    character is a class of one; [r+] is [r] followed by [r*], [r?] is
    [r|] with the empty alternative last, [r{n}] is [r] written [n] times. *)
Inductive regex :=
| Empty
| Class (P : N → bool)
| Seq (r1 r2 : regex)
| Alt (r1 r2 : regex)
(** [r*] when [greedy], [r*?] otherwise *)
| Star (greedy : bool) (r : regex)
(** a capturing group, with its number *)
| Group (n : nat) (r : regex)
(** [(?!r)] *)
| NotFollowedBy (r : regex)
(** [\b] *)
| WordBoundary
(** [$], without the [m] flag *)
| EndOfInput.

Definition LitU (s : ustring) : regex :=
  foldr (λ c r, Seq (Class (N.eqb c)) r) Empty s.
Definition Lit (s : string) : regex := LitU (units s).
Definition Plus (greedy : bool) (r : regex) : regex := Seq r (Star greedy r).
Definition Opt (r : regex) : regex := Alt r Empty.
Definition Times (n : nat) (r : regex) : regex := foldr Seq Empty (replicate n r).
Definition Dot : regex := Class (λ u, negb (isLineTerminator u)).

Abbreviation captures := (gmap nat ustring).

Definition isWordAt (u : option N) : bool :=
  match u with Some c => isWordChar c | None => false end.

(** The loop of [r*]: [m] matches [r]; an iteration that consumes nothing
    is a failure, as the language has it.  An iteration shortens the
    input, so the fuel, which starts above its length, does not run out. *)
Definition starLoop {A}
    (m : option N → ustring → captures →
         (option N → ustring → captures → option A) → option A)
    (greedy : bool) (k : option N → ustring → captures → option A)
    : nat → option N → ustring → captures → option A :=
  fix loop fuel prev s caps :=
    match fuel with
    | O => None
    | S fuel' =>
        let more :=
          m prev s caps (λ prev' s' caps',
            if bool_decide (length s' < length s) then loop fuel' prev' s' caps'
            else None) in
        if greedy
        then match more with Some a => Some a | None => k prev s caps end
        else match k prev s caps with Some a => Some a | None => more end
    end.

(** The backtracking matcher: [r] is matched at the head of [s], the
    character before it being [prev], and [k] continues with what is left;
    the first way to match that makes [k] succeed is the result. *)
Fixpoint matchRe (A : Type) (r : regex) (prev : option N) (s : ustring)
    (caps : captures) (k : option N → ustring → captures → option A) : option A :=
  match r with
  | Empty => k prev s caps
  | Class P =>
      match s with
      | c :: s' => if P c then k (Some c) s' caps else None
      | [] => None
      end
  | Seq r1 r2 =>
      matchRe A r1 prev s caps (λ prev' s' caps', matchRe A r2 prev' s' caps' k)
  | Alt r1 r2 =>
      match matchRe A r1 prev s caps k with
      | Some a => Some a
      | None => matchRe A r2 prev s caps k
      end
  | Star greedy r' => starLoop (matchRe A r') greedy k (S (length s)) prev s caps
  | Group n r' =>
      matchRe A r' prev s caps (λ prev' s' caps',
        k prev' s' (<[n := take (length s - length s') s]> caps'))
  | NotFollowedBy r' =>
      match matchRe () r' prev s caps (λ _ _ _, Some ()) with
      | Some _ => None
      | None => k prev s caps
      end
  | WordBoundary =>
      if xorb (isWordAt prev) (isWordAt (head s)) then k prev s caps else None
  | EndOfInput =>
      match s with
      | [] => k prev s caps
      | _ :: _ => None
      end
  end.
Arguments matchRe {A} r prev s caps k.

(** The match found: where it starts, its text, its groups. *)
Record found := Found {
  index : nat;
  matched : ustring;
  groups : captures;
}.

Definition matchAt (r : regex) (prev : option N) (s : ustring)
    : option (ustring * captures) :=
  matchRe r prev s ∅ (λ _ s' caps, Some (s', caps)).

(** [r.exec(s)] with [lastIndex] at [i], [s] being what follows it: the
    first position from there on at which [r] matches. *)
Fixpoint execFrom (r : regex) (prev : option N) (s : ustring) (i : nat) : option found :=
  match matchAt r prev s with
  | Some (s', caps) => Some (Found i (take (length s - length s') s) caps)
  | None =>
      match s with
      | [] => None
      | c :: s' => execFrom r (Some c) s' (S i)
      end
  end.

Definition exec (r : regex) (s : ustring) : option found := execFrom r None s 0.

(** [r.test(s)] with [lastIndex] at [0] *)
Definition test (r : regex) (s : ustring) : bool := bool_decide (is_Some (exec r s)).

(** [s.replaceAll(r, f)] for a global [r] and a replacer function of the
    matched text: the matches are found from left to right, the search going
    on after a match, one character further when the match is empty. *)
Fixpoint replaceFrom (fuel : nat) (r : regex) (f : ustring → ustring)
    (prev : option N) (s : ustring) : ustring :=
  match fuel with
  | O => s
  | S fuel' =>
      let skip :=
        match s with
        | [] => []
        | c :: s' => c :: replaceFrom fuel' r f (Some c) s'
        end in
      match matchAt r prev s with
      | Some (s', _) =>
          match take (length s - length s') s with
          | [] => f [] ++ skip
          | c :: m => f (c :: m) ++ replaceFrom fuel' r f (last (c :: m)) s'
          end
      | None => skip
      end
  end.

Definition replaceAllRe (r : regex) (f : ustring → ustring) (s : ustring) : ustring :=
  replaceFrom (S (length s)) r f None s.

(** ** Shapes of matches

    Functions the statements about matches are written with. *)

(** The character before the position reached after [l]. *)
Definition lastOr (prev : option N) (l : ustring) : option N :=
  match last l with Some c => Some c | None => prev end.

(** [c*] for a class [c], greedy: the longest run first, then shorter
    ones. *)
Fixpoint greedyClass {A} (P : N → bool) (k : option N → ustring → captures → option A)
    (prev : option N) (s : ustring) (caps : captures) : option A :=
  match s with
  | c :: s' =>
      if P c
      then match greedyClass P k (Some c) s' caps with
           | Some a => Some a
           | None => k prev s caps
           end
      else k prev s caps
  | [] => k prev s caps
  end.

(** [c*?]: the shortest run first, then longer ones. *)
Fixpoint lazyClass {A} (P : N → bool) (k : option N → ustring → captures → option A)
    (prev : option N) (s : ustring) (caps : captures) : option A :=
  match k prev s caps with
  | Some a => Some a
  | None =>
      match s with
      | c :: s' => if P c then lazyClass P k (Some c) s' caps else None
      | [] => None
      end
  end.

(** Every character [r] consumes is of the class [Q]. *)
Fixpoint consumes (Q : N → Prop) (r : regex) : Prop :=
  match r with
  | Class P => ∀ c, P c = true → Q c
  | Seq r1 r2 | Alt r1 r2 => consumes Q r1 ∧ consumes Q r2
  | Star _ r' | Group _ r' => consumes Q r'
  | Empty | NotFollowedBy _ | WordBoundary | EndOfInput => True
  end.

End RegExp.

(** * The asset plugin *)

Module Asset.
Import Text RegExp.

(** ** Markers of assets in generated code *)

(** [/__VITE_ASSET__([\w$]+)__(?:\$_(.*?)__)?/g] *)
Definition assetUrlRE : regex :=
  Seq (Lit "__VITE_ASSET__")
   (Seq (Group 1 (Plus true (Class (λ u, isWordChar u || (u =? 36)%N))))
    (Seq (Lit "__")
         (Opt (Seq (Lit "$_") (Seq (Group 2 (Star false Dot)) (Lit "__")))))).

(** [/__VITE_PUBLIC_ASSET__([a-z\d]{8})__/g] *)
Definition publicAssetUrlRE : regex :=
  Seq (Lit "__VITE_PUBLIC_ASSET__")
   (Seq (Group 1 (Times 8 (Class (λ u, inRange 97 122 u || isDigit u))))
        (Lit "__")).

(** [/\.[cm]?js\.map$/] *)
Definition jsSourceMapRE : regex :=
  Seq (Lit ".")
   (Seq (Opt (Class (λ u, (u =? 99)%N || (u =? 109)%N)))
    (Seq (Lit "js.map") EndOfInput)).

(** [/"[^"']*'[^"]*"|'[^'"]*"[^']*'/] *)
Definition nestedQuotesRE : regex :=
  let dq u := (u =? 34)%N in
  let sq u := (u =? 39)%N in
  Alt (Seq (Class dq)
        (Seq (Star true (Class (λ u, negb (dq u || sq u))))
         (Seq (Class sq) (Seq (Star true (Class (λ u, negb (dq u)))) (Class dq)))))
      (Seq (Class sq)
        (Seq (Star true (Class (λ u, negb (sq u || dq u))))
         (Seq (Class dq) (Seq (Star true (Class (λ u, negb (sq u)))) (Class sq))))).

(** The url [fileToBuiltUrl] gives an emitted asset:
<<
    `__VITE_ASSET__${referenceId}__${postfix ? `$_${postfix}__` : ``}`
>> *)
Definition assetMarker (referenceId postfix : ustring) : ustring :=
  units "__VITE_ASSET__" ++ referenceId ++ units "__" ++
  match postfix with
  | [] => []
  | _ :: _ => units "$_" ++ postfix ++ units "__"
  end.

(** The url [publicFileToBuiltUrl] gives a public file during a build:
    [`__VITE_PUBLIC_ASSET__${hash}__`] *)
Definition publicMarker (hash : ustring) : ustring :=
  units "__VITE_PUBLIC_ASSET__" ++ hash ++ units "__".

(** What [renderAssetUrlInJS] reads off a match of [assetUrlRE]:
    [const [full, referenceId, postfix = ''] = match] *)
Definition assetMatch (m : found) : ustring * ustring * ustring :=
  (matched m, default [] (groups m !! 1), default [] (groups m !! 2)).

(** ** Inlining *)

(** [Buffer.from('version https://git-lfs.github.com')]; a buffer is the
    list of its bytes. *)
Definition GIT_LFS_PREFIX : list N := units "version https://git-lfs.github.com".

(** [GIT_LFS_PREFIX.compare(content, 0, GIT_LFS_PREFIX.length) === 0]
    compares the prefix with the bytes of [content] before that index. *)
Definition isGitLfsPlaceholder (content : list N) : bool :=
  if length content <? length GIT_LFS_PREFIX then false
  else bool_decide (take (length GIT_LFS_PREFIX) content = GIT_LFS_PREFIX).

(** [content.toString()] and [content.toString('base64')] are the host's. *)
Class Buffers := {
  toString : list N → ustring;
  toBase64 : list N → ustring;
}.

Section WithBuffers.
Context `{Buffers}.

(** [svgToDataURL] *)
Definition svgToDataURL (content : list N) : ustring :=
  let stringContent := toString content in
  if includes (units "<text") stringContent ||
     includes (units "<foreignObject") stringContent ||
     test nestedQuotesRE stringContent
  then units "data:image/svg+xml;base64," ++ toBase64 content
  else
    units "data:image/svg+xml," ++
    replaceAllRe (Plus true (Class isSpace)) (λ _, units "%20")
     (replaceAll (units ">") (units "%3e")
      (replaceAll (units "<") (units "%3c")
       (replaceAll (units "#") (units "%23")
        (replaceAll (units "%") (units "%25")
         (replaceAll [34%N] (units "'")
          (replaceAllRe (Seq (Lit ">") (Seq (Plus true (Class isSpace)) (Lit "<")))
                   (λ _, units "><")
                   (trim stringContent))))))).

End WithBuffers.

(** Reading a data url back: [%XY] stands for the character with the
    hexadecimal code [XY], as [decodeURIComponent] has it for codes below
    128; an escape that is not of this form is left as it is. *)
Definition hexValue (u : N) : option N :=
  if isDigit u then Some (u - 48)%N
  else if inRange 97 102 u then Some (u - 87)%N
  else if inRange 65 70 u then Some (u - 55)%N
  else None.

Fixpoint percentDecode (s : ustring) : ustring :=
  match s with
  | [] => []
  | c :: rest =>
      match rest with
      | h :: l :: s' =>
          match (if (c =? 37)%N then Some () else None), hexValue h, hexValue l with
          | Some _, Some a, Some b => (16 * a + b)%N :: percentDecode s'
          | _, _, _ => c :: percentDecode rest
          end
      | _ => c :: percentDecode rest
      end
  end.

(** Every run of white space replaced by [replacement]; [inRun] says
    whether the character before was white space. *)
Fixpoint collapseSpaces (replacement : ustring) (inRun : bool) (s : ustring) : ustring :=
  match s with
  | [] => []
  | c :: s' =>
      if isSpace c
      then (if inRun then [] else replacement) ++ collapseSpaces replacement true s'
      else c :: collapseSpaces replacement false s'
  end.

(** A number, as [config.build.assetsInlineLimit] may be one. *)
Inductive number :=
| NaN
| Finite (q : QArith_base.Q)
| Infinity (negative : bool).

(** [n < x] for a length [n] *)
Definition lengthBelow (n : nat) (x : number) : bool :=
  match x with
  | NaN => false
  | Finite q => negb (QArith_base.Qle_bool q (QArith_base.inject_Z (Z.of_nat n)))
  | Infinity negative => negb negative
  end.

(** [config.build.assetsInlineLimit]: a function of the file and its
    content that answers or leaves the decision ([undefined], [null]), or a
    number. *)
Inductive assetsInlineLimit :=
| LimitFunction (f : ustring → list N → option bool)
| LimitNumber (n : number).

(** The configuration and the plugin context, as [shouldInline] and
    [fileToBuiltUrl] use them. *)
Record Config := {
  (** [config.command === 'build'] *)
  isBuild : bool;
  (** [config.base] *)
  base : ustring;
  (** the truthiness of [config.build.lib] *)
  lib : bool;
  inlineLimit : assetsInlineLimit;
  (** [DEFAULT_ASSETS_INLINE_LIMIT] of constants *)
  defaultInlineLimit : number;
  (** [pluginContext.getModuleInfo(id)?.isEntry], as a condition *)
  isEntry : ustring → bool;
  (** [config.assetsInclude] *)
  assetsInclude : ustring → bool;
  (** the truthiness of [config.build.ssr] and of
      [config.build.ssrEmitAssets] *)
  ssrBuild : bool;
  ssrEmitAssets : bool;
}.

(** [shouldInline] *)
Definition shouldInline (config : Config) (file id : ustring) (content : list N)
    (forceInline : option bool) : bool :=
  if lib config then true
  else if isEntry config id then false
  else
    match forceInline with
    | Some force => force
    | None =>
        let byLimit limit :=
          if endsWith (units ".html") file then false
          else if endsWith (units ".svg") file && includes (units "#") id then false
          else lengthBelow (length content) limit &&
               negb (isGitLfsPlaceholder content) in
        match inlineLimit config with
        | LimitFunction f =>
            match f file content with
            | Some userShouldInline => userShouldInline
            | None => byLimit (defaultInlineLimit config)
            end
        | LimitNumber n => byLimit n
        end
    end.

(** ** The bundle *)

(** An output of the bundle, by the fields [generateBundle] reads: a chunk
    ([type === 'chunk']) or an asset. *)
Inductive output :=
| OutputChunk (isEntry : bool) (moduleIds : list ustring)
| OutputAsset.

(** The test of the first loop of [generateBundle]: an entry chunk whose
    one module is an asset. *)
Definition emptyEntry (config : Config) (o : output) : bool :=
  match o with
  | OutputChunk isEntry [moduleId] => isEntry && assetsInclude config moduleId
  | _ => false
  end.

(** The test of the second loop: an asset that is neither the manifest nor
    the source map of a script. *)
Definition droppedAsset (file : ustring) (o : output) : bool :=
  match o with
  | OutputAsset =>
      negb (endsWith (units "ssr-manifest.json") file) && negb (test jsSourceMapRE file)
  | OutputChunk _ _ => false
  end.

(** [generateBundle]: the bundle is held by its files in the order [for in]
    visits them; deleting the file a loop is at leaves the rest of the loop
    as it is. *)
Definition generateBundle (config : Config) (bundle : list (ustring * output))
    : list (ustring * output) :=
  let bundle := filter (λ fo, emptyEntry config fo.2 = false) bundle in
  if isBuild config && ssrBuild config && negb (ssrEmitAssets config)
  then filter (λ fo, droppedAsset fo.1 fo.2 = false) bundle
  else bundle.

(** ** Urls of public files *)

(** Functions of utils. *)
Class Urls := {
  getHash : ustring → ustring;
  joinUrlSegments : ustring → ustring → ustring;
}.

(** [publicAssetUrlCache.get(config)]: absent until the first public file
    of a build, then a map from hashes to urls. *)
Abbreviation publicCache := (option (gmap ustring ustring)).

Section WithUrls.
Context `{Urls}.

(** [publicFileToBuiltUrl]; [!cache.get(hash)] is a test of truthiness,
    which the empty url fails. *)
Definition publicFileToBuiltUrl (config : Config) (url : ustring) (c : publicCache)
    : ustring * publicCache :=
  if negb (isBuild config) then (joinUrlSegments (base config) url, c)
  else
    let hash := getHash url in
    let cache := default ∅ c in
    let cache :=
      match cache !! hash with
      | Some (_ :: _) => cache
      | _ => <[hash := url]> cache
      end in
    (publicMarker hash, Some cache).

(** [getPublicAssetFilename] *)
Definition getPublicAssetFilename (hash : ustring) (c : publicCache) : option ustring :=
  c ≫= (λ cache, cache !! hash).

End WithUrls.

(** ** Urls of built files *)

(** Functions of the host, of utils and of Rollup that [fileToBuiltUrl]
    calls. *)
Class Files := {
  (** [checkPublicFile(id, config)], as a condition *)
  checkPublicFile : ustring → bool;
  cleanUrl : ustring → ustring;
  (** [parseUrl(id).search || ''] and [parseUrl(id).hash || ''] *)
  urlSearch : ustring → ustring;
  urlHash : ustring → ustring;
  (** [path.basename(file)] *)
  basename : ustring → ustring;
  (** [normalizePath(path.relative(config.root, file))] *)
  relativeToRoot : ustring → ustring;
  (** [mrmime.lookup(file)] *)
  mimeLookup : ustring → option ustring;
  (** the reference id [pluginContext.emitFile] returns for an asset with
      a name and a source, after the files emitted before *)
  referenceIdOf : list (ustring * list N) → ustring → list N → ustring;
}.

(** What the plugin keeps for a build: [assetCache.get(config)] and
    [generatedAssets.get(config)], which are absent before [buildStart],
    the cache of public urls, the assets emitted through the plugin
    context, and the ids the logger was warned about. *)
Record Build := {
  assetCache : option (gmap ustring ustring);
  generatedAssets : option (gmap ustring ustring);
  publicAssetUrlCache : publicCache;
  emitted : list (ustring * list N);
  warned : list ustring;
}.

(** [buildStart] *)
Definition buildStart (st : Build) : Build :=
  {| assetCache := Some ∅; generatedAssets := Some ∅;
     publicAssetUrlCache := publicAssetUrlCache st;
     emitted := emitted st; warned := warned st |}.

(** [fileToBuiltUrl] up to its [await]: the url, or the file it goes on to
    read, or the [TypeError] of [assetCache.get(config)!.get] before
    [buildStart]. *)
Inductive started :=
| Done (url : ustring) (st : Build)
| Reading (file : ustring)
| Threw.

Section WithFiles.
Context `{Buffers} `{Urls} `{Files}.

(** [if (cached)] is a test of truthiness, which the empty url fails. *)
Definition fileToBuiltUrlStart (config : Config) (id : ustring) (skipPublicCheck : bool)
    (st : Build) : started :=
  if negb skipPublicCheck && checkPublicFile id
  then
    let r := publicFileToBuiltUrl config id (publicAssetUrlCache st) in
    Done r.1 {| assetCache := assetCache st; generatedAssets := generatedAssets st;
                publicAssetUrlCache := r.2; emitted := emitted st; warned := warned st |}
  else
    match assetCache st with
    | None => Threw
    | Some cache =>
        match cache !! id with
        | Some (c :: url) => Done (c :: url) st
        | _ => Reading (cleanUrl id)
        end
    end.

(** [fileToBuiltUrl] from the content [fsp.readFile] resolved with, for a
    call that found [assetCache.get(config)] and in whose time
    [buildStart] did not replace it: the url, or [None] for the
    [TypeError] of [generatedAssets.get(config)!.set] before
    [buildStart]. *)
Definition fileToBuiltUrlFinish (config : Config) (id : ustring)
    (forceInline : option bool) (content : list N) (st : Build)
    : option ustring * Build :=
  let file := cleanUrl id in
  if shouldInline config file id content forceInline
  then
    let warned' :=
      if lib config && isGitLfsPlaceholder content then warned st ++ [id] else warned st in
    let url :=
      if endsWith (units ".svg") file then svgToDataURL content
      else units "data:" ++ default (units "application/octet-stream") (mimeLookup file)
             ++ units ";base64," ++ toBase64 content in
    (Some url,
     {| assetCache := <[id := url]> <$> assetCache st;
        generatedAssets := generatedAssets st;
        publicAssetUrlCache := publicAssetUrlCache st;
        emitted := emitted st; warned := warned' |})
  else
    let postfix := urlSearch id ++ urlHash id in
    let referenceId := referenceIdOf (emitted st) (basename file) content in
    let emitted' := emitted st ++ [(basename file, content)] in
    match generatedAssets st with
    | None =>
        (None,
         {| assetCache := assetCache st; generatedAssets := None;
            publicAssetUrlCache := publicAssetUrlCache st;
            emitted := emitted'; warned := warned st |})
    | Some generated =>
        let url := assetMarker referenceId postfix in
        (Some url,
         {| assetCache := <[id := url]> <$> assetCache st;
            generatedAssets := Some (<[referenceId := relativeToRoot file]> generated);
            publicAssetUrlCache := publicAssetUrlCache st;
            emitted := emitted'; warned := warned st |})
    end.

End WithFiles.

(** ** Shapes of markers and data urls *)

(** The class [[\w$]]. *)
Definition idChar (u : N) : bool := isWordChar u || (u =? 36)%N.

(** What follows the reference id in a marker. *)
Definition postfixPart (postfix : ustring) : ustring :=
  match postfix with
  | [] => []
  | _ :: _ => units "$_" ++ postfix ++ units "__"
  end.

(** The end of [assetUrlRE], from the [__] that closes the reference id. *)
Definition assetUrlEnd : regex :=
  Seq (Lit "__") (Opt (Seq (Lit "$_") (Seq (Group 2 (Star false Dot)) (Lit "__")))).

(** The four escapes of [svgToDataURL], in one pass. *)
Definition escapeSvg (u : N) : ustring :=
  if (u =? 37)%N then units "%25"
  else if (u =? 35)%N then units "%23"
  else if (u =? 60)%N then units "%3c"
  else if (u =? 62)%N then units "%3e"
  else [u].

(** The characters a data url must not hold. *)
Definition urlSafe (u : N) : Prop :=
  u ≠ 34%N ∧ u ≠ 35%N ∧ u ≠ 60%N ∧ u ≠ 62%N ∧ isSpace u = false.

End Asset.

(** * The define plugin *)

Module Define.
Import Text RegExp.

(** A value of [config.define] or [config.env], as [handleDefineValue] and
    [JSON.stringify] see it: [undefined], a string, or another value, which
    is held by the text [JSON.stringify] gives for it ([undefined] for a
    function or a symbol). *)
Inductive any :=
| Undefined
| Str (s : ustring)
| Other (json : option ustring).

(** A string, or [undefined]. *)
Abbreviation text := (option ustring).

(** [JSON.stringify] of a string is the host's. *)
Class Json := { quote : ustring → ustring }.

(** [`${t}`] *)
Definition interpolate (t : text) : ustring := default (units "undefined") t.

(** A string or [undefined] as a value. *)
Definition toAny (t : text) : any :=
  match t with Some s => Str s | None => Undefined end.

(** ** Objects used as records

    A [Record<string, T>] is the list of its own properties in the order
    they were added, one per key.  Keys that look like array indices come
    first when a JavaScript object is enumerated, which nothing here depends
    on: the tables are looked up by key, sorted, or searched for as a set. *)

Fixpoint get {T} (key : ustring) (o : list (ustring * T)) : option T :=
  match o with
  | [] => None
  | (k, v) :: o' => if decide (k = key) then Some v else get key o'
  end.

(** [key in o] *)
Definition has {T} (key : ustring) (o : list (ustring * T)) : bool :=
  bool_decide (is_Some (get key o)).

(** [CreateDataProperty(o, key, v)]: the property is created, or its value
    replaced. *)
Fixpoint defineOwn {T} (key : ustring) (v : T) (o : list (ustring * T))
    : list (ustring * T) :=
  match o with
  | [] => [(key, v)]
  | (k, x) :: o' =>
      if decide (k = key) then (k, v) :: o' else (k, x) :: defineOwn key v o'
  end.

Definition protoKey : ustring := units "__proto__".

(** [o[key] = v], for an object created by [{}]: the property is created,
    or its value replaced, except under the key [__proto__], where an
    object that has no own property of that name runs the setter of
    [Object.prototype]: no property is stored.  (For a value that is an
    object or [null] the setter changes the prototype of [o], which the
    record does not show.) *)
Definition set {T} (key : ustring) (v : T) (o : list (ustring * T))
    : list (ustring * T) :=
  if bool_decide (key = protoKey) && negb (has key o) then o
  else defineOwn key v o.

(** [{ ...target, ...source }], and [Object.assign(target, source)] for a
    source without the key [__proto__]: every property of the source is
    created on the target, or its value replaced. *)
Definition assign {T} (target source : list (ustring * T)) : list (ustring * T) :=
  foldl (λ o kv, defineOwn kv.1 kv.2 o) target source.

(** ** Serialization *)

Section WithJson.
Context `{Json}.

Definition JSONstringify (value : any) : text :=
  match value with
  | Undefined => None
  | Str s => Some (quote s)
  | Other json => json
  end.

Definition handleDefineValue (value : any) : text :=
  match value with
  | Undefined => Some (units "undefined")
  | Str s => Some s
  | Other _ => JSONstringify value
  end.

(** The order of [Array.prototype.sort] without a comparator: strings are
    compared code unit by code unit, a proper prefix coming first. *)
Fixpoint unitsLe (a b : ustring) : bool :=
  match a, b with
  | [], _ => true
  | _ :: _, [] => false
  | x :: a', y :: b' => (x <? y)%N || ((x =? y)%N && unitsLe a' b')
  end.

Definition unitsOrder (a b : ustring) : Prop := unitsLe a b = true.

#[global] Instance unitsOrder_dec : RelDecision unitsOrder.
Proof. intros a b. unfold unitsOrder. apply _. Defined.

Definition sort (l : list ustring) : list ustring :=
  merge_sort unitsOrder l.

(** The loop of [serializeDefine], [i] being the index of the key at the
    head of [keys] and [n] the number of keys. *)
Fixpoint serializeKeys (define : list (ustring * any)) (n i : nat)
    (keys : list ustring) (res : ustring) : ustring :=
  match keys with
  | [] => res
  | key :: keys' =>
      let val := default Undefined (get key define) in
      let res := res ++ quote key ++ units ": " ++ interpolate (handleDefineValue val) in
      let res := if bool_decide (i ≠ n - 1) then res ++ units ", " else res in
      serializeKeys define n (S i) keys' res
  end.

Definition serializeDefine (define : list (ustring * any)) : ustring :=
  let keys := sort (define.*1) in
  serializeKeys define (length keys) 0 keys (units "{") ++ units "}".

(** One property of the object [serializeDefine] writes:
    [`${JSON.stringify(key)}: ${handleDefineValue(val)}`] *)
Definition serializeEntry (define : list (ustring * any)) (key : ustring) : ustring :=
  quote key ++ units ": "
    ++ interpolate (handleDefineValue (default Undefined (get key define))).

(** ** The tables of [definePlugin] *)

Record Config := {
  (** [config.command === 'build'] *)
  isBuild : bool;
  (** the truthiness of [config.build.lib] *)
  lib : bool;
  (** [config.mode] *)
  mode : ustring;
  (** [config.env] *)
  env : list (ustring * any);
  (** [config.define], empty when it is [undefined] *)
  define : list (ustring * any);
  (** [config.ssr?.target === 'webworker'] *)
  webworker : bool;
  (** [process.env.NODE_ENV] *)
  NODE_ENV : option ustring;
}.

Definition importMetaEnvMarker : ustring := units "__vite_import_meta_env__".

(** [process.env.NODE_ENV || config.mode] *)
Definition nodeEnv (config : Config) : ustring :=
  match NODE_ENV config with
  | Some (c :: s) => c :: s
  | _ => mode config
  end.

Definition processEnv (config : Config) : list (ustring * text) :=
  if isBuild config && lib config then []
  else
    assign []
      [(units "process.env", Some (units "{}"));
       (units "global.process.env", Some (units "{}"));
       (units "globalThis.process.env", Some (units "{}"));
       (units "process.env.NODE_ENV", JSONstringify (Str (nodeEnv config)));
       (units "global.process.env.NODE_ENV", JSONstringify (Str (nodeEnv config)));
       (units "globalThis.process.env.NODE_ENV", JSONstringify (Str (nodeEnv config)))].

Definition importMetaKeys (config : Config) : list (ustring * text) :=
  if isBuild config
  then
    set (units "import.meta.env.SSR") (Some (units "undefined"))
      (foldl (λ o kv, set (units "import.meta.env." ++ kv.1) (JSONstringify kv.2) o)
             (set (units "import.meta.hot") (Some (units "undefined")) [])
             (env config))
  else [].

Definition importMetaEnvKeys (config : Config) : list (ustring * text) :=
  if isBuild config
  then foldl (λ o kv, set kv.1 (JSONstringify kv.2) o) [] (env config)
  else [].

Definition importMetaFallbackKeys (config : Config) : list (ustring * text) :=
  if isBuild config
  then set (units "import.meta.env") (Some (units "undefined")) []
  else [].

Definition userDefine (config : Config) : list (ustring * text) :=
  foldl (λ o kv, set kv.1 (handleDefineValue kv.2) o) [] (define config).

Definition userDefineEnv (config : Config) : list (ustring * any) :=
  foldl (λ o kv,
           if isBuild config && startsWith (units "import.meta.env.") kv.1
           then set (drop 16 kv.1) kv.2 o
           else o)
        [] (define config).

(** [ssr + ''] *)
Definition boolText (b : bool) : ustring :=
  if b then units "true" else units "false".

(** The object [serializeDefine] is given in [generatePattern]:
    [{ ...importMetaEnvKeys, SSR: ssr + '', ...userDefineEnv }] *)
Definition importMetaEnvObject (config : Config) (ssr : bool) : list (ustring * any) :=
  assign
    (defineOwn (units "SSR") (Str (boolText ssr))
       (assign [] (prod_map id toAny <$> importMetaEnvKeys config)))
    (userDefineEnv config).

(** [generatePattern]: the replacements handed to esbuild, the keys of the
    pattern that is tried on the code first ([null] when there is none), and
    the banner.  The pattern is the alternation of the keys, each escaped
    into a literal, so it is held by its keys. *)
Definition generatePattern (config : Config) (ssr : bool)
    : list (ustring * text) * option (list ustring) * ustring :=
  let replaceProcessEnv := negb ssr || webworker config in
  let define :=
    assign (assign (assign (assign []
      (if replaceProcessEnv then processEnv config else []))
      (importMetaKeys config))
      (userDefine config))
      (importMetaFallbackKeys config) in
  let define :=
    if has (units "import.meta.env.SSR") define
    then set (units "import.meta.env.SSR") (Some (boolText ssr)) define
    else define in
  let define :=
    if has (units "import.meta.env") define
    then set (units "import.meta.env") (Some importMetaEnvMarker) define
    else define in
  let importMetaEnvVal := serializeDefine (importMetaEnvObject config ssr) in
  let banner :=
    units "const " ++ importMetaEnvMarker ++ units " = " ++ importMetaEnvVal
      ++ [59; 10]%N in
  let patternKeys :=
    (userDefine config).*1
    ++ (if replaceProcessEnv && bool_decide (processEnv config ≠ [])
        then [units "process.env"] else [])
    ++ (if bool_decide (importMetaKeys config ≠ [])
        then [units "import.meta.env"; units "import.meta.hot"] else []) in
  let pattern :=
    match patternKeys with
    | [] => None
    | _ :: _ => Some patternKeys
    end in
  (define, pattern, banner).

(** [pattern.test(code)] *)
Definition patternTest (patternKeys : list ustring) (code : ustring) : bool :=
  existsb (λ key, includes key code) patternKeys.

(** ** After esbuild *)

(** [new RegExp(`${importMetaEnvMarker}\\..+?\\b`, 'g')] *)
Definition importMetaEnvKeyRe : regex :=
  Seq (LitU importMetaEnvMarker)
      (Seq (Lit ".") (Seq (Plus false Dot) WordBoundary)).

(** [new RegExp(`${importMetaEnvMarker}(?!\\.)\\b`)] *)
Definition bareImportMetaEnvRe : regex :=
  Seq (LitU importMetaEnvMarker) (Seq (NotFollowedBy (Lit ".")) WordBoundary).

(** The end of [transform], from the result of esbuild on: the accesses to
    keys of [import.meta.env] that are left are replaced by [undefined],
    and the banner is put in front when the marker is still there; the
    mappings of the source map then get one more line. *)
Definition finishTransform (banner code : ustring) (mappings : option ustring)
    : ustring * option ustring :=
  let code :=
    replaceAllRe importMetaEnvKeyRe (λ m, padEnd (length m) (units "undefined")) code in
  if test bareImportMetaEnvRe code
  then (banner ++ code, (λ m, units ";" ++ m) <$> mappings)
  else (code, mappings).

End WithJson.
End Define.

(** * Concrete inputs *)

Module Examples.
Import JS Tracker Interop Loader.

(** An exports object [{ a: null, default: { a: 1 } }]: the key [a] is
    present on the module and holds [null]. *)
Definition shimHeap : heap :=
  [Ordinary [("a", Property (Data VNull true) true true);
             ("default", Property (Data (VObject 1) true) true true)] true;
   Ordinary [("a", Property (Data (VNum 1) true) true true)] true].

Definition shimHeap' : heap := shimHeap ++ [Proxy (VObject 0) (VObject 1)].

(** The exports object of a module [A] that has exported nothing yet, and a
    module [B] with the keys [a] and [b]. *)
Definition exportHeap : heap :=
  [newSsrModule;
   Ordinary [("a", Property (Data (VNum 1) true) true true);
             ("b", Property (Data (VNum 2) true) true true)] true].

(** [exportHeap] after [A] has re-exported all of [B]. *)
Definition exportHeap' : heap := (ssrExportAll 0 (VObject 1) exportHeap).1.

(** ... and after [B.a = 5]. *)
Definition exportHeapLater : heap :=
  <[1 := Ordinary [("a", Property (Data (VNum 5) true) true true);
                   ("b", Property (Data (VNum 2) true) true true)] true]> exportHeap'.

(** A host for the concrete runs: [unwrapId] drops the prefix [/@id/],
    every module lives in the root directory, and the logger is Vite's own,
    which throws for an error it cannot add to its [WeakSet]. *)
Definition exampleHost : Host := {|
  unwrapId := λ id,
    if String.prefix "/@id/" id
    then String.substring 5 (String.length id - 5) id else id;
  dirname := λ _, "/";
  posixResolve := λ dir dep,
    dir +:+ String.substring 2 (String.length dep - 2) dep;
  loggerError := λ _ _, Some (VError "TypeError: Invalid value used in weak set");
  stackDepth := 100;
|}.

(** [export const key = v] *)
Definition exportConst (v : value) : property := Property (Data v true) true true.

(** A static import whose failure is not handled. *)
Definition importThen (dep : string) (k : Body) : Body :=
  BImport dep (λ r, match r with Normal _ => k | Throw e => BThrow e end).

(** [/a.js] imports [/b.js] and exports [a]; [/b.js] imports [/a.js] and
    exports [b]. *)
Definition bodyA : Body := importThen "/b.js" (BDefine "a" (exportConst (VNum 1)) BReturn).
Definition bodyB : Body := importThen "/a.js" (BDefine "b" (exportConst (VNum 2)) BReturn).

(** A load of [/a.js] up to the point where [/b.js], which [/a.js] has
    imported, waits for its transform. *)
Definition cycleStart : list event :=
  [Load "/a.js"; Ensured 0; Transformed 0 (Normal (Some bodyA)); Ensured 1].

(** ... and from there to the end. *)
Definition cycleRest : list event :=
  [Transformed 1 (Normal (Some bodyB)); Resume 1; Resume 1; Resume 0; Resume 0;
   Finally "/a.js"; Finally "/b.js"].

Definition cycleState : State := run (H := exampleHost) cycleStart (init ∅).

(** A load of [/m.js] up to the [await] of its transform. *)
Definition transformStart : list event := [Load "/m.js"; Ensured 0].

(** [/m.js] bumps a counter, exports [a] and then throws the number [0]:
<<
      counter++; export const a = 1; throw 0
>> *)
Definition bodyThrowsZero : Body :=
  BEffect (BDefine "a" (exportConst (VNum 1)) (BThrow (VNum 0))).

(** [/m.js] is loaded and fails; once the first load is over it is loaded
    again. *)
Definition throwsZeroRun : list event :=
  [Load "/m.js"; Ensured 0; Transformed 0 (Normal (Some bodyThrowsZero));
   Resume 0; Finally "/m.js"; Load "/m.js"; Ensured 1].

Definition throwsZeroState : State := run (H := exampleHost) throwsZeroRun (init ∅).

(** [/m.js] bumps a counter and throws an error; the run stops where the
    body has thrown. *)
Definition bodyThrowsError : Body := BEffect (BThrow (VError "boom")).

Definition throwsErrorStart : list event :=
  [Load "/m.js"; Ensured 0; Transformed 0 (Normal (Some bodyThrowsError))].

(** [/m.js] throws the string [boom]. *)
Definition bodyThrowsString : Body := BThrow (VStr "boom").

Definition throwsStringStart : list event :=
  [Load "/m.js"; Ensured 0; Transformed 0 (Normal (Some bodyThrowsString))].

(** [/m.js] exports a function under the name [then]:
<<
      export function then(resolve, reject) { ... }
>>
    the function object is at location [1]. *)
Definition bodyThenable : Body :=
  BDefine "then" (exportConst (VFunction 1)) BReturn.

Definition thenableStart : list event :=
  [Load "/m.js"; Ensured 0; Transformed 0 (Normal (Some bodyThenable))].

(** The cycle of [/a.js] and [/b.js], up to the point where the body of
    [/a.js] has returned. *)
Definition cycleBodiesDone : list event :=
  cycleStart ++ [Transformed 1 (Normal (Some bodyB)); Resume 1; Resume 1; Resume 0].

(** [/m.js] throws [undefined]; the run stops where the body has thrown. *)
Definition bodyThrowsUndefined : Body := BThrow VUndefined.

Definition throwsUndefinedStart : list event :=
  [Load "/m.js"; Ensured 0; Transformed 0 (Normal (Some bodyThrowsUndefined))].



(** A namespace whose default export is a module compiled to CommonJS:
    [{ default: { __esModule: true, default: 7, named: 2 }, named: 1 }] *)
Definition interopHeap : heap :=
  [Ordinary [("default", Property (Data (VObject 1) true) true true);
             ("named", Property (Data (VNum 1) true) true true)] true;
   Ordinary [("__esModule", Property (Data (VBool true) false) false false);
             ("default", Property (Data (VNum 7) true) true true);
             ("named", Property (Data (VNum 2) true) true true)] true].


(** [/m.js] imports a package and does not handle a failure; the run stops
    where the body waits for the package. *)
Definition bodyImportsPackage : Body := importThen "missing-pkg" BReturn.

Definition importsPackageStart : list event :=
  [Load "/m.js"; Ensured 0; Transformed 0 (Normal (Some bodyImportsPackage))].

(** A resolver that finds no package. *)
Definition exampleResolver : NodeImport.Resolver := {|
  NodeImport.metadata := unit;
  NodeImport.isExternalUrl := String.prefix "https://";
  NodeImport.isBuiltin := String.prefix "node:";
  NodeImport.tryNodeResolve := λ _ _, None;
  NodeImport.pathToFileURL := λ path, "file://" +:+ path;
  NodeImport.isFilePathESM := λ _, true;
  NodeImport.analyzeImportedModDifference := λ _ _ _ _ _, None;
|}.

(** Buffers of text: a byte is a code unit. *)
Definition exampleBuffers : Asset.Buffers := {|
  Asset.toString := λ content, content;
  Asset.toBase64 := λ content, content;
|}.

(** Urls that all have one hash. *)
Definition exampleUrls : Asset.Urls := {|
  Asset.getHash := λ _, Text.units "0a1b2c3d";
  Asset.joinUrlSegments := λ a b, a ++ b;
|}.

(** A build with the base [/]. *)
Definition exampleBuild : Asset.Config := {|
  Asset.isBuild := true;
  Asset.base := Text.units "/";
  Asset.lib := false;
  Asset.inlineLimit := Asset.LimitNumber (Asset.Finite (QArith_base.inject_Z 4096));
  Asset.defaultInlineLimit := Asset.Finite (QArith_base.inject_Z 4096);
  Asset.isEntry := λ _, false;
  Asset.assetsInclude := Text.endsWith (Text.units ".png");
  Asset.ssrBuild := true;
  Asset.ssrEmitAssets := false;
|}.

(** Files none of which is public, with urls that have no query and no
    hash; the reference id of an emitted file counts the files emitted
    before it. *)
Definition exampleFiles : Asset.Files := {|
  Asset.checkPublicFile := λ _, false;
  Asset.cleanUrl := λ url, url;
  Asset.urlSearch := λ _, [];
  Asset.urlHash := λ _, [];
  Asset.basename := λ file, file;
  Asset.relativeToRoot := λ file, file;
  Asset.mimeLookup := λ _, None;
  Asset.referenceIdOf := λ emitted _ _,
    Text.units "ref" ++ replicate (length emitted) 48%N;
|}.

(** The state of a build after [buildStart]. *)
Definition exampleStarted : Asset.Build :=
  Asset.buildStart
    {| Asset.assetCache := None; Asset.generatedAssets := None;
       Asset.publicAssetUrlCache := None; Asset.emitted := []; Asset.warned := [] |}.

(** [JSON.stringify] for strings that need no escape. *)
Definition exampleJson : Define.Json := {|
  Define.quote := λ s, [34%N] ++ s ++ [34%N];
|}.

(** A build for production, in which the user defines two keys. *)
Definition exampleDefineConfig : Define.Config := {|
  Define.isBuild := true;
  Define.lib := false;
  Define.mode := Text.units "production";
  Define.env :=
    [(Text.units "MODE", Define.Str (Text.units "production"));
     (Text.units "DEV", Define.Other (Some (Text.units "false")))];
  Define.define :=
    [(Text.units "import.meta.env.FOO", Define.Str (Text.units "1"));
     (Text.units "__X__", Define.Other (Some (Text.units "{}")))];
  Define.webworker := false;
  Define.NODE_ENV := None;
|}.

(** The same build, the user defining [__proto__] as well. *)
Definition exampleProtoConfig : Define.Config := {|
  Define.isBuild := true;
  Define.lib := false;
  Define.mode := Text.units "production";
  Define.env :=
    [(Text.units "MODE", Define.Str (Text.units "production"));
     (Text.units "__proto__", Define.Str (Text.units "x"))];
  Define.define :=
    [(Text.units "__proto__", Define.Str (Text.units "1"));
     (Text.units "__X__", Define.Other (Some (Text.units "{}")))];
  Define.webworker := false;
  Define.NODE_ENV := None;
|}.

End Examples.

(** * Properties *)

Import Tracker JS Interop Loader Examples.

(** ** The cycle tracker and the shim *)

Lemma elem_of_pushUnvisited visited deps : ∀ stack x,
  x ∈ pushUnvisited visited stack deps ↔ x ∈ stack ∨ (x ∈ deps ∧ x ∉ visited).
Proof.
  unfold pushUnvisited. induction deps as [|d deps IH]; intros stack x; simpl.
  - rewrite elem_of_nil. tauto.
  - rewrite IH. destruct (decide (d ∈ visited)) as [Hd|Hd].
    + rewrite elem_of_cons. split; [|naive_solver].
      intros [?|[??]]; auto.
    + rewrite !elem_of_cons. split; [|naive_solver].
      intros [[->|?]|[??]]; auto.
Qed.

Lemma length_pushUnvisited visited deps : ∀ stack,
  length (pushUnvisited visited stack deps) ≤ length stack + length deps.
Proof.
  unfold pushUnvisited. induction deps as [|d deps IH]; intros stack; simpl; [lia|].
  etrans; [apply IH|]. destruct (decide (d ∈ visited)); simpl; lia.
Qed.

Lemma edgeCount_delete (m : graph) c deps :
  m !! c = Some deps → edgeCount m = length deps + edgeCount (delete c m).
Proof.
  intros Hc. unfold edgeCount.
  apply (map_fold_delete_L (λ _ (ds : list string) n, length ds + n)); [|done].
  intros; lia.
Qed.

Lemma unvisited_visit g visited c :
  unvisited g ({[c]} ∪ visited) = delete c (unvisited g visited).
Proof.
  unfold unvisited. apply map_eq; intros k. apply option_eq; intros ds.
  rewrite lookup_delete_Some, !map_lookup_filter_Some; simpl.
  rewrite not_elem_of_union, not_elem_of_singleton. naive_solver.
Qed.

Lemma potential_visit_some g visited c stack deps :
  c ∉ visited → g !! c = Some deps →
  potential g ({[c]} ∪ visited) (pushUnvisited ({[c]} ∪ visited) stack deps)
    < potential g visited (c :: stack).
Proof.
  intros Hc Hg. unfold potential. rewrite unvisited_visit.
  assert (unvisited g visited !! c = Some deps) as Hu.
  { unfold unvisited. by rewrite map_lookup_filter_Some. }
  rewrite (edgeCount_delete _ _ _ Hu).
  pose proof (length_pushUnvisited ({[c]} ∪ visited) deps stack). simpl. lia.
Qed.

Lemma potential_visit_none g visited c stack :
  g !! c = None →
  potential g ({[c]} ∪ visited) stack < potential g visited (c :: stack).
Proof.
  intros Hg. unfold potential. rewrite unvisited_visit.
  rewrite delete_id; [simpl; lia|].
  unfold unvisited. rewrite map_lookup_filter_None. auto.
Qed.

Lemma checkLoop_total g targetUrl : ∀ fuel visited stack,
  potential g visited stack < fuel →
  is_Some (checkLoop fuel g targetUrl visited stack).
Proof.
  induction fuel as [|fuel IH]; intros visited stack Hlt; [lia|].
  simpl. destruct stack as [|c stack]; [by eexists|].
  destruct (decide (c = targetUrl)); [by eexists|].
  destruct (decide (c ∈ visited)) as [|n0].
  - apply IH. unfold potential in *. simpl in Hlt. lia.
  - destruct (g !! c) as [deps|] eqn:Hg; apply IH.
    + pose proof (potential_visit_some g visited c stack deps n0 Hg). lia.
    + pose proof (potential_visit_none g visited c stack Hg). lia.
Qed.

Lemma checkLoop_fuel_mono g targetUrl b : ∀ fuel fuel' visited stack,
  checkLoop fuel g targetUrl visited stack = Some b → fuel ≤ fuel' →
  checkLoop fuel' g targetUrl visited stack = Some b.
Proof.
  induction fuel as [|fuel IH]; intros fuel' visited stack Hrun Hle; [done|].
  destruct fuel' as [|fuel']; [lia|]. simpl in *.
  destruct stack as [|c stack]; [done|].
  destruct (decide (c = targetUrl)); [done|].
  destruct (decide (c ∈ visited)); [apply IH; [done|lia]|].
  destruct (g !! c); (apply IH; [done|lia]).
Qed.

Lemma unvisited_empty (g : graph) : unvisited g ∅ = g.
Proof.
  unfold unvisited. apply map_filter_id. intros k ds _. simpl. set_solver.
Qed.

Lemma checkFuel_enough g originUrl targetUrl :
  is_Some (checkLoop (checkFuel g) g targetUrl ∅ [originUrl]).
Proof.
  apply checkLoop_total. unfold potential, checkFuel.
  rewrite unvisited_empty. simpl. lia.
Qed.

Lemma checkLoop_true g targetUrl : ∀ fuel visited stack,
  checkLoop fuel g targetUrl visited stack = Some true →
  ∃ s, s ∈ stack ∧ reach g s targetUrl.
Proof.
  induction fuel as [|fuel IH]; intros visited stack Hrun; [done|].
  simpl in Hrun. destruct stack as [|c stack]; [done|].
  destruct (decide (c = targetUrl)) as [->|Hne].
  { exists targetUrl. split; [left|apply rtc_refl]. }
  destruct (decide (c ∈ visited)).
  { destruct (IH _ _ Hrun) as (s & Hs & Hr). exists s. split; [by right|done]. }
  destruct (g !! c) as [deps|] eqn:Hg.
  - destruct (IH _ _ Hrun) as (s & Hs & Hr).
    apply elem_of_pushUnvisited in Hs as [Hs|[Hs _]].
    + exists s. split; [by right|done].
    + exists c. split; [left|]. eapply rtc_l; [|exact Hr]. by exists deps.
  - destruct (IH _ _ Hrun) as (s & Hs & Hr). exists s. split; [by right|done].
Qed.

Lemma closed_no_reach g targetUrl visited :
  closed g targetUrl visited [] →
  ∀ s, s ∈ visited → ¬ reach g s targetUrl.
Proof.
  intros [Ht Hcl] s Hs Hr. induction Hr as [x|x y z Hxy Hyz IH]; [done|].
  apply IH; [done|]. destruct (Hcl _ _ Hs Hxy) as [?|Hin]; [done|].
  by apply elem_of_nil in Hin.
Qed.

Lemma checkLoop_false g targetUrl : ∀ fuel visited stack,
  closed g targetUrl visited stack →
  checkLoop fuel g targetUrl visited stack = Some false →
  ∀ s, s ∈ visited ∨ s ∈ stack → ¬ reach g s targetUrl.
Proof.
  induction fuel as [|fuel IH]; intros visited stack Hcl Hrun; [done|].
  simpl in Hrun. destruct stack as [|c stack].
  { intros s [Hs|Hs]; [by eapply closed_no_reach|by apply elem_of_nil in Hs]. }
  destruct (decide (c = targetUrl)) as [->|Hne]; [done|].
  destruct Hcl as [Ht Hcl].
  destruct (decide (c ∈ visited)) as [Hc|Hc].
  { intros s Hs. apply (IH visited stack); [|done|].
    - split; [done|]. intros v w Hv He.
      destruct (Hcl v w Hv He) as [?|Hw]; [by left|].
      apply elem_of_cons in Hw as [->|?]; auto.
    - destruct Hs as [?|Hs]; [by left|].
      apply elem_of_cons in Hs as [->|?]; auto. }
  destruct (g !! c) as [deps|] eqn:Hg.
  - intros s Hs.
    apply (IH ({[c]} ∪ visited) (pushUnvisited ({[c]} ∪ visited) stack deps)); [|done|].
    + split; [set_solver|]. intros v w Hv He.
      rewrite elem_of_pushUnvisited.
      destruct (decide (w ∈ {[c]} ∪ visited)) as [?|Hw]; [by left|right].
      apply elem_of_union in Hv as [Hv|Hv].
      * apply elem_of_singleton in Hv as ->.
        destruct He as (ds & Hds & Hin). right. split; [congruence|done].
      * destruct (Hcl v w Hv He) as [?|Hin]; [set_solver|].
        apply elem_of_cons in Hin as [->|?]; [set_solver|by left].
    + rewrite elem_of_pushUnvisited.
      destruct Hs as [?|Hs]; [left; set_solver|].
      apply elem_of_cons in Hs as [->|?]; [left; set_solver|auto].
  - intros s Hs. apply (IH ({[c]} ∪ visited) stack); [|done|].
    + split; [set_solver|]. intros v w Hv He.
      apply elem_of_union in Hv as [Hv|Hv].
      * apply elem_of_singleton in Hv as ->.
        destruct He as (ds & Hds & _). congruence.
      * destruct (Hcl v w Hv He) as [?|Hin]; [set_solver|].
        apply elem_of_cons in Hin as [->|?]; [set_solver|by right].
    + destruct Hs as [?|Hs]; [left; set_solver|].
      apply elem_of_cons in Hs as [->|?]; [left; set_solver|auto].
Qed.

Lemma checkModuleDependencyExists_reach g originUrl targetUrl :
  checkModuleDependencyExists g originUrl targetUrl = true ↔
  reach g originUrl targetUrl.
Proof.
  unfold checkModuleDependencyExists.
  destruct (checkFuel_enough g originUrl targetUrl) as [b Hb]. rewrite Hb.
  destruct b; split; try done.
  - intros _. apply checkLoop_true in Hb as (s & Hs & Hr).
    by apply list_elem_of_singleton in Hs as ->.
  - intros Hr. exfalso. eapply (checkLoop_false _ _ _ ∅ [originUrl]); [|exact Hb| |exact Hr].
    + split; [set_solver|]. intros v w Hv. set_solver.
    + right. left.
Qed.

Lemma isPrimitive_spec v :
  isPrimitive v = true ↔
  match v with VError _ | VObject _ | VFunction _ => False | _ => True end.
Proof.
  destruct v as [| |b|n|s|msg|l|l]; unfold isPrimitive; simpl;
    rewrite ?orb_true_r; split; done.
Qed.

Lemma proxyOf_alloc h target defaultExport :
  proxyOf (h ++ [Proxy target defaultExport]) (proxyRef target (length h))
  = Some (target, defaultExport).
Proof.
  unfold proxyOf, proxyRef.
  destruct target; by rewrite list_lookup_middle.
Qed.

Lemma proxyRef_not_nullish target l : nullish (proxyRef target l) = false.
Proof. by destruct target. Qed.

Lemma Get_shim n h target defaultExport key :
  let h' := h ++ [Proxy target defaultExport] in
  let shim := proxyRef target (length h) in
  Get (S n) h' shim key =
    if decide (key = "default") then Some (Normal defaultExport)
    else shimRead n h' target defaultExport key.
Proof.
  intros h' shim. simpl. unfold shim at 1. rewrite proxyRef_not_nullish.
  unfold shim, h'. rewrite proxyOf_alloc. reflexivity.
Qed.

Lemma Get_absent n h v key :
  nullish v = false → proxyOf h v = None → hasProperty h v key = false →
  Get (S n) h v key = Some (Normal VUndefined).
Proof.
  intros Hn Hp Hk. simpl. rewrite Hn, Hp.
  unfold hasProperty in Hk. apply bool_decide_eq_false in Hk.
  destruct (assoc key (table h v)) as [p|]; [|done].
  exfalso. apply Hk. by eexists.
Qed.

Lemma elem_of_set_add x y s : x ∈ set_add y s ↔ x ∈ s ∨ x = y.
Proof.
  unfold set_add. destruct (decide (y ∈ s)) as [Hy|Hy].
  - split; [auto|]. intros [?| ->]; done.
  - rewrite elem_of_app, list_elem_of_singleton. tauto.
Qed.

Lemma edge_addPendingModuleDependency g originUrl depUrl a b :
  edge (addPendingModuleDependency g originUrl depUrl) a b ↔
  edge g a b ∨ (a = originUrl ∧ b = depUrl).
Proof.
  unfold edge, addPendingModuleDependency.
  destruct (g !! originUrl) as [deps|] eqn:Hg.
  - destruct (decide (a = originUrl)) as [->|Hne].
    + rewrite lookup_insert_eq. split.
      * intros (ds & [= <-] & Hin). apply elem_of_set_add in Hin as [?| ->]; eauto.
      * intros [(ds & Hds & Hin)|[_ ->]]; eexists; (split; [done|]);
          apply elem_of_set_add; [left; congruence|by right].
    + rewrite lookup_insert_ne by done. naive_solver.
  - destruct (decide (a = originUrl)) as [->|Hne].
    + rewrite lookup_insert_eq, Hg. split.
      * intros (ds & [= <-] & Hin). apply list_elem_of_singleton in Hin. auto.
      * intros [(ds & Hds & _)|[_ ->]]; [done|].
        eexists. split; [done|]. by apply list_elem_of_singleton.
    + rewrite lookup_insert_ne by done. naive_solver.
Qed.

(** C3: for every edge set and every pair of identifiers, the search of
    [checkModuleDependencyExists] terminates (its loop returns within
    [checkFuel g] iterations, and more fuel does not change the answer), and
    it answers [true] exactly when the target is reachable from the origin
    along zero or more registered edges, so in particular when the two are
    equal; registering an edge adds that edge and no other. *)
Theorem cycle_query_reachability (g : graph) (originUrl targetUrl : string) :
  (∃ b, ∀ fuel, checkFuel g ≤ fuel →
        checkLoop fuel g targetUrl ∅ [originUrl] = Some b) ∧
  (checkModuleDependencyExists g originUrl targetUrl = true ↔
   reach g originUrl targetUrl) ∧
  checkModuleDependencyExists g originUrl originUrl = true ∧
  (∀ a b c d, edge (addPendingModuleDependency g a b) c d ↔
              edge g c d ∨ (c = a ∧ d = b)).
Proof.
  split; [|split; [|split]].
  - destruct (checkFuel_enough g originUrl targetUrl) as [b Hb].
    exists b. intros fuel Hle. by eapply checkLoop_fuel_mono.
  - apply checkModuleDependencyExists_reach.
  - apply checkModuleDependencyExists_reach, rtc_refl.
  - intros a b c d. apply edge_addPendingModuleDependency.
Qed.

Lemma interopTarget_object fuel h m target defaultExport :
  isPrimitive m = false →
  interopTarget fuel h m = Some (Normal (target, defaultExport)) →
  isPrimitive target = false.
Proof.
  intros Hm. unfold interopTarget.
  destruct (if hasProperty h m "default" then _ else _) as [[d|e]|]; [|done..].
  destruct (isPrimitive d) eqn:Hd; simpl.
  - by intros [= <- _].
  - destruct (hasProperty h d "__esModule"); [|by intros [= <- _]].
    destruct (hasProperty h d "default"); [|by intros [= <- _]].
    destruct (Get fuel h d "default") as [[x|e]|]; [|done..]. by intros [= <- _].
Qed.

Lemma Get_defaultOnly n h m :
  Get (S n) (h ++ [defaultOnly m]) (VObject (length h)) "default" = Some (Normal m).
Proof.
  simpl. unfold table. rewrite length_app. simpl.
  replace (length h + 1) with (S (length h)) by lia. simpl.
  by rewrite list_lookup_middle.
Qed.

Lemma elem_of_ownKeyOrder keys k : k ∈ ownKeyOrder keys ↔ k ∈ keys.
Proof.
  unfold ownKeyOrder. rewrite elem_of_app, list_elem_of_fmap, list_elem_of_filter.
  split.
  - intros [([n k'] & -> & Hin)|[_ Hin]]; [|done].
    rewrite merge_sort_Permutation in Hin.
    apply list_elem_of_omap in Hin as (key & Hkey & Hsome).
    destruct (arrayIndex key); [|done]. by injection Hsome as _ <-.
  - intros Hin. destruct (arrayIndex k) as [n|] eqn:Hk; [left|by right].
    exists (n, k). split; [done|]. rewrite merge_sort_Permutation.
    apply list_elem_of_omap. exists k. by rewrite Hk.
Qed.

Lemma forInKeys_defaultOnly h m :
  forInKeys (h ++ [defaultOnly m]) (VObject (length h)) = ["default"].
Proof.
  unfold forInKeys, table. rewrite length_app. simpl.
  replace (length h + 1) with (S (length h)) by lia. simpl.
  by rewrite list_lookup_middle.
Qed.

Lemma Get_fuel_mono h : ∀ n n' v key r,
  Get n h v key = Some r → n ≤ n' → Get n' h v key = Some r.
Proof.
  induction n as [|n IH]; intros n' v key r Hg Hle; [done|].
  destruct n' as [|n']; [lia|]. simpl in *.
  destruct (nullish v); [done|].
  destruct (proxyOf h v) as [[target dflt]|].
  - destruct (decide (key = "default")); [done|].
    destruct (Get n h target key) as [[x|e]|] eqn:Ht; [| |done].
    + rewrite (IH n' _ _ _ Ht) by lia. destruct (nullish x); [|done].
      destruct (nullish dflt); [done|]. apply (IH n'); [done|lia].
    + by rewrite (IH n' _ _ _ Ht) by lia.
  - destruct (assoc key (table h v)) as [p|]; [|done].
    destruct (p_slot p); [done|]. apply (IH n'); [done|lia].
Qed.

Lemma interopTarget_fuel_mono h m n n' r :
  interopTarget n h m = Some r → n ≤ n' → interopTarget n' h m = Some r.
Proof.
  intros Ht Hle. unfold interopTarget in *.
  assert ((if hasProperty h m "default" then Get n' h m "default" else Some (Normal m))
          = (if hasProperty h m "default" then Get n h m "default" else Some (Normal m)))
    as ->.
  { destruct (hasProperty h m "default"); [|done].
    destruct (Get n h m "default") as [r0|] eqn:Hg; [|done].
    by apply (Get_fuel_mono h n). }
  destruct (if hasProperty h m "default" then _ else _) as [[d|e]|]; [|done..].
  destruct (negb (isPrimitive d) && hasProperty h d "__esModule"); [|done].
  destruct (hasProperty h d "default"); [|done].
  destruct (Get n h d "default") as [r0|] eqn:Hg; [|done].
  by rewrite (Get_fuel_mono h n n' _ _ r0 Hg Hle).
Qed.

(** C10, as amended: the shim of a primitive is a fresh object whose only
    enumerable key is [default], holding the primitive.  For an object, the
    shim reads [default] at most twice, on the object and on a default
    export marked [__esModule]; it returns as soon as these reads return,
    at once when the object has no [default] and after one read when
    [default] holds a value that is not marked, and it throws what a read
    throws.  What it returns is a proxy over the target and default export
    computed by [interopTarget]: reading [default] returns that default
    export; reading another key returns the target's value when it is
    neither [null] nor [undefined], and otherwise (the property is absent,
    or present and nullish) the default export's property of the same name,
    [undefined] when the default export is itself nullish.  The heap the
    shim returns is the one it was given with one object added: no object
    of the given heap is changed. *)
Theorem proxyESM_read_semantics (m : value) (h : heap) :
  (isPrimitive m = true →
     (∀ fuel, proxyESM fuel m h
              = Some (Normal (VObject (length h), h ++ [defaultOnly m]))) ∧
     forInKeys (h ++ [defaultOnly m]) (VObject (length h)) = ["default"] ∧
     ∀ n, Get (S n) (h ++ [defaultOnly m]) (VObject (length h)) "default"
          = Some (Normal m)) ∧
  (isPrimitive m = false →
     (hasProperty h m "default" = false →
      ∀ fuel, proxyESM fuel m h
              = Some (Normal (proxyRef m (length h), h ++ [Proxy m m]))) ∧
     (∀ d, hasProperty h m "default" = true →
           Get 1 h m "default" = Some (Normal d) →
           isPrimitive d = true ∨ hasProperty h d "__esModule" = false →
           ∀ fuel, 1 ≤ fuel →
             proxyESM fuel m h
             = Some (Normal (proxyRef m (length h), h ++ [Proxy m d]))) ∧
     (∀ n e, interopTarget n h m = Some (Throw e) →
             ∀ fuel, n ≤ fuel → proxyESM fuel m h = Some (Throw e)) ∧
     (∀ fuel, proxyESM fuel m h = None →
              ∀ n, n ≤ fuel → interopTarget n h m = None) ∧
     (∀ n target defaultExport,
        interopTarget n h m = Some (Normal (target, defaultExport)) →
        let h' := h ++ [Proxy target defaultExport] in
        let shim := proxyRef target (length h) in
        (∀ fuel, n ≤ fuel → proxyESM fuel m h = Some (Normal (shim, h'))) ∧
        (∀ n, Get (S n) h' shim "default" = Some (Normal defaultExport)) ∧
        (∀ n key x, key ≠ "default" →
           Get n h' target key = Some (Normal x) → nullish x = false →
           Get (S n) h' shim key = Some (Normal x)) ∧
        (∀ n key x, key ≠ "default" →
           Get n h' target key = Some (Normal x) → nullish x = true →
           Get (S n) h' shim key =
             if nullish defaultExport then Some (Normal VUndefined)
             else Get n h' defaultExport key) ∧
        (∀ n key, key ≠ "default" →
           proxyOf h' target = None → hasProperty h' target key = false →
           Get (S (S n)) h' shim key =
             if nullish defaultExport then Some (Normal VUndefined)
             else Get (S n) h' defaultExport key))) ∧
  (∀ fuel shim h', proxyESM fuel m h = Some (Normal (shim, h')) →
     (∃ o, h' = h ++ [o]) ∧ ∀ l, l < length h → h' !! l = h !! l).
Proof.
  split; [|split].
  - intros Hm. split; [|split].
    + intros fuel. unfold proxyESM. by rewrite Hm.
    + apply forInKeys_defaultOnly.
    + intros n. apply Get_defaultOnly.
  - intros Hm. split; [|split; [|split; [|split]]].
    + intros Hno fuel. unfold proxyESM, interopTarget. rewrite Hm, Hno. simpl.
      rewrite Hm. simpl. destruct (hasProperty h m "__esModule"); [|done].
      by rewrite Hno.
    + intros d Hhas Hget Hplain fuel Hfuel.
      assert (interopTarget 1 h m = Some (Normal (m, d))) as Ht.
      { unfold interopTarget. rewrite Hhas, Hget.
        destruct Hplain as [-> | ->]; [done|]. by rewrite andb_false_r. }
      unfold proxyESM. rewrite Hm.
      by rewrite (interopTarget_fuel_mono h m 1 fuel _ Ht Hfuel).
    + intros n e Ht fuel Hfuel. unfold proxyESM. rewrite Hm.
      by rewrite (interopTarget_fuel_mono h m n fuel _ Ht Hfuel).
    + intros fuel Hnone n Hn.
      destruct (interopTarget n h m) as [r|] eqn:Ht; [|done].
      unfold proxyESM in Hnone. rewrite Hm in Hnone.
      rewrite (interopTarget_fuel_mono h m n fuel _ Ht Hn) in Hnone.
      by destruct r as [[]|].
    + intros n target dflt Ht h' shim.
      pose proof (interopTarget_object _ _ _ _ _ Hm Ht) as Hobj.
      assert (nullish target = false) as Hnn by (by destruct target).
      split; [|split; [|split; [|split]]].
      * intros fuel Hfuel. unfold proxyESM. rewrite Hm.
        by rewrite (interopTarget_fuel_mono h m n fuel _ Ht Hfuel).
      * intros k. unfold h', shim. by rewrite Get_shim.
      * intros k key x Hk Hg Hx. unfold h', shim. rewrite Get_shim.
        destruct (decide (key = "default")); [done|]. unfold shimRead.
        fold h'. by rewrite Hg, Hx.
      * intros k key x Hk Hg Hx. unfold h', shim. rewrite Get_shim.
        destruct (decide (key = "default")); [done|]. unfold shimRead.
        fold h'. by rewrite Hg, Hx.
      * intros k key Hk Hp Hhas. unfold h', shim. rewrite Get_shim.
        destruct (decide (key = "default")); [done|]. unfold shimRead.
        fold h'. by rewrite (Get_absent _ _ _ _ Hnn Hp Hhas).
  - intros fuel shim h'. unfold proxyESM.
    destruct (isPrimitive m).
    + intros [= _ <-]. split; [by eexists|]. intros l Hl. by rewrite lookup_app_l.
    + destruct (interopTarget fuel h m) as [[[target dflt]|e]|]; [|done..].
      intros [= _ <-]. split; [by eexists|]. intros l Hl. by rewrite lookup_app_l.
Qed.

(** C10 as stated fails: on [{ a: null, default: { a: 1 } }] the key [a] is
    present on the underlying object, where it reads [null], and the shim
    answers with the default export's [a]. *)
Lemma proxyESM_present_null_falls_back :
  proxyESM 2 (VObject 0) shimHeap = Some (Normal (VObject 2, shimHeap')) ∧
  hasProperty shimHeap' (VObject 0) "a" = true ∧
  Get 2 shimHeap' (VObject 0) "a" = Some (Normal VNull) ∧
  Get 3 shimHeap' (VObject 2) "a" = Some (Normal (VNum 1)).
Proof. vm_compute. repeat split. Qed.

Lemma proxyESM_read_semantics_witness :
  proxyESM 5 (VObject 0) shimHeap = Some (Normal (VObject 2, shimHeap')) ∧
  Get 3 shimHeap' (VObject 2) "a" = Get 2 shimHeap' (VObject 1) "a".
Proof.
  destruct (proxyESM_read_semantics (VObject 0) shimHeap) as (_ & Hobj & _).
  destruct (Hobj eq_refl) as (_ & _ & _ & _ & Hshim).
  destruct (Hshim 1 (VObject 0) (VObject 1) eq_refl)
    as (Hreturns & _ & _ & Hnull & _).
  split; [apply Hreturns; lia|].
  exact (Hnull 2 "a" VNull ltac:(done) eq_refl eq_refl).
Defined.

(** ** Property tables *)

Lemma assoc_replace key p props k :
  is_Some (assoc key props) →
  assoc k (replace key p props) = if decide (k = key) then Some p else assoc k props.
Proof.
  induction props as [|[k0 q] props IH]; simpl; [by intros [? ?]|].
  intros Hsome. destruct (decide (k0 = key)) as [->|Hne]; simpl.
  - destruct (decide (key = k)) as [->|?]; [by rewrite decide_True|].
    by rewrite decide_False.
  - rewrite IH by done. destruct (decide (k0 = k)) as [->|?]; [|done].
    by rewrite decide_False.
Qed.

Lemma assoc_app_new key p props k :
  assoc key props = None →
  assoc k (props ++ [(key, p)]) = if decide (k = key) then Some p else assoc k props.
Proof.
  induction props as [|[k0 q] props IH]; simpl.
  - intros _. destruct (decide (key = k)) as [->|?]; [by rewrite decide_True|].
    by rewrite decide_False.
  - destruct (decide (k0 = key)) as [->|Hne]; [done|]. intros Hnone.
    rewrite IH by done. destruct (decide (k0 = k)) as [->|?]; [|done].
    by rewrite decide_False.
Qed.

(** [Object.defineProperty] succeeds on an extensible object when the key is
    free or held by a configurable property, and then changes that key
    alone. *)
Lemma defineProperty_ok h l key p props :
  h !! l = Some (Ordinary props true) →
  (∀ old, assoc key props = Some old → p_configurable old = true) →
  ∃ h' props',
    defineProperty h l key p = Normal h' ∧
    h' !! l = Some (Ordinary props' true) ∧
    length h' = length h ∧
    (∀ l', l' ≠ l → h' !! l' = h !! l') ∧
    (∀ k, assoc k props' = if decide (k = key) then Some p else assoc k props).
Proof.
  intros Hl Hconf. unfold defineProperty. rewrite Hl.
  assert (l < length h) as Hlt by (by eapply lookup_lt_Some).
  destruct (assoc key props) as [old|] eqn:Hold.
  - destruct (sameDescriptor old p) eqn:Hsame.
    + assert (old = p) as ->.
      { unfold sameDescriptor in Hsame. destruct (p_slot p); [|done].
        by apply bool_decide_eq_true in Hsame. }
      exists h, props. repeat split; try done.
      intros k. destruct (decide (k = key)) as [->|]; done.
    + rewrite (Hconf old eq_refl). eexists _, _. split; [done|].
      split; [by apply list_lookup_insert_eq|].
      split; [by rewrite length_insert|].
      split; [intros l' Hl'; by rewrite list_lookup_insert_ne|].
      intros k. apply assoc_replace. by rewrite Hold.
  - eexists _, _. split; [done|].
    split; [by apply list_lookup_insert_eq|].
    split; [by rewrite length_insert|].
    split; [intros l' Hl'; by rewrite list_lookup_insert_ne|].
    intros k. by apply assoc_app_new.
Qed.

Lemma exportKeys_ok ssrModule sourceModule : ∀ keys h props,
  h !! ssrModule = Some (Ordinary props true) →
  (∀ key old, key ∈ keys → reexported key →
     assoc key props = Some old → p_configurable old = true) →
  ∃ h' props',
    exportKeys ssrModule sourceModule keys h = (h', Normal ()) ∧
    h' !! ssrModule = Some (Ordinary props' true) ∧
    length h' = length h ∧
    (∀ l', l' ≠ ssrModule → h' !! l' = h !! l') ∧
    (∀ key, key ∈ keys → reexported key →
       assoc key props' = Some (installed sourceModule key)) ∧
    (∀ key, ¬ (key ∈ keys ∧ reexported key) → assoc key props' = assoc key props).
Proof.
  induction keys as [|key keys IH]; intros h props Hl Hconf; simpl.
  { exists h, props. repeat split; try done. intros key Hin. by apply elem_of_nil in Hin. }
  destruct (bool_decide (key ≠ "default") && bool_decide (key ≠ "__esModule")) eqn:Hkey.
  - apply andb_true_iff in Hkey as [Hd He].
    apply bool_decide_eq_true in Hd, He.
    destruct (defineProperty_ok h ssrModule key (installed sourceModule key) props Hl)
      as (h1 & props1 & -> & Hl1 & Hlen1 & Hother1 & Hassoc1).
    { intros old. apply Hconf; [left|done]. }
    destruct (IH h1 props1 Hl1) as (h' & props' & -> & Hl' & Hlen' & Hother' & Hin' & Hout').
    { intros k old Hk Hre. rewrite Hassoc1.
      destruct (decide (k = key)) as [->|Hne]; [by intros [= <-]|].
      apply Hconf; [by right|done]. }
    exists h', props'. split; [done|]. split; [done|]. split; [congruence|].
    split; [intros l' Hne; rewrite Hother', Hother1; done|]. split.
    + intros k Hk Hre. destruct (decide (k ∈ keys)) as [Hk'|Hk']; [by apply Hin'|].
      apply elem_of_cons in Hk as [->|?]; [|done].
      rewrite Hout' by tauto. rewrite Hassoc1. by rewrite decide_True.
    + intros k Hk. rewrite Hout'.
      * rewrite Hassoc1. destruct (decide (k = key)) as [->|Hne]; [|done].
        exfalso. apply Hk. split; [left|done].
      * intros [??]. apply Hk. split; [by right|done].
  - destruct (IH h props Hl) as (h' & props' & -> & Hl' & Hlen' & Hother' & Hin' & Hout').
    { intros k old Hk. apply Hconf. by right. }
    exists h', props'. repeat split; try done.
    + intros k Hk [Hd He]. apply elem_of_cons in Hk as [->|?]; [|by apply Hin'].
      apply andb_false_iff in Hkey as [Hk|Hk]; apply bool_decide_eq_false in Hk; done.
    + intros k Hk. apply Hout'. intros [??]. apply Hk. split; [by right|done].
Qed.

Lemma Get_installed n h ssrModule props extensible sourceModule key :
  h !! ssrModule = Some (Ordinary props extensible) →
  assoc key props = Some (installed sourceModule key) →
  Get (S n) h (VObject ssrModule) key = Get n h sourceModule key.
Proof.
  intros Hl Hkey. simpl. rewrite Hl. unfold table.
  assert (ssrModule < length h) as Hlt by (by eapply lookup_lt_Some).
  destruct (length h) as [|m]; [lia|]. simpl. by rewrite Hl, Hkey.
Qed.

(** C8: on an extensible exports object whose properties under the keys to
    re-export are configurable, [ssrExportAll] succeeds and installs, for
    every key [for...in] enumerates on the source except [default] and
    [__esModule], the getter of [sourceModule[key]]; the other keys and the
    other objects are left as they were.  Reading such a key from the exports
    object, in any later heap where the getter is still in place, is reading
    the key from the source in that heap. *)
Theorem ssrExportAll_live_bindings
    (h : heap) (ssrModule : loc) (sourceModule : value)
    (props : list (string * property)) :
  h !! ssrModule = Some (Ordinary props true) →
  (∀ key old, key ∈ forInKeys h sourceModule → reexported key →
     assoc key props = Some old → p_configurable old = true) →
  ∃ h' props',
    ssrExportAll ssrModule sourceModule h = (h', Normal ()) ∧
    h' !! ssrModule = Some (Ordinary props' true) ∧
    (∀ l', l' ≠ ssrModule → h' !! l' = h !! l') ∧
    (∀ key, key ∈ forInKeys h sourceModule → reexported key →
       assoc key props' = Some (installed sourceModule key)) ∧
    (∀ key, ¬ (key ∈ forInKeys h sourceModule ∧ reexported key) →
       assoc key props' = assoc key props) ∧
    (∀ key, key ∈ forInKeys h sourceModule → reexported key →
       ∀ n later props'' extensible,
         later !! ssrModule = Some (Ordinary props'' extensible) →
         assoc key props'' = Some (installed sourceModule key) →
         Get (S n) later (VObject ssrModule) key = Get n later sourceModule key).
Proof.
  intros Hl Hconf. unfold ssrExportAll.
  destruct (exportKeys_ok ssrModule sourceModule _ h props Hl Hconf)
    as (h' & props' & Hrun & Hl' & _ & Hother & Hin & Hout).
  exists h', props'. repeat split; try done.
  intros key _ _ n later props'' extensible. apply Get_installed.
Qed.

Lemma ssrExportAll_live_bindings_witness :
  ssrExportAll 0 (VObject 1) exportHeap = (exportHeap', Normal ()) ∧
  forInKeys exportHeap' (VObject 0) = ["a"; "b"] ∧
  Get 2 exportHeap' (VObject 0) "a" = Some (Normal (VNum 1)) ∧
  Get 2 exportHeapLater (VObject 0) "a" = Some (Normal (VNum 5)).
Proof.
  destruct (ssrExportAll_live_bindings exportHeap 0 (VObject 1)
              [("__esModule", Property (Data (VBool true) false) false false)] eq_refl)
    as (h' & props' & Hrun & Hl' & _ & Hin & _ & Hlive).
  { intros key old _ [_ He]. simpl. by rewrite decide_False. }
  assert ("a" ∈ forInKeys exportHeap (VObject 1)) as Ha by (vm_compute; left).
  assert (reexported "a") as Hre by done.
  split; [by vm_compute|]. split; [by vm_compute|]. split.
  - rewrite (Hlive "a" Ha Hre 1 exportHeap' _ true eq_refl eq_refl). by vm_compute.
  - rewrite (Hlive "a" Ha Hre 1 exportHeapLater _ true eq_refl eq_refl). by vm_compute.
Defined.

(** ** The single-flight loader and the import functions *)

Section LoaderFacts.
Context `{Host}.


Lemma ssrLoadModule_fresh st url :
  pendingModules st !! unwrapId url = None →
  ssrLoadModule url st =
    (length (promises st),
     setPending <[unwrapId url := length (promises st)]>
                (instantiateModule (unwrapId url) st).2).
Proof. intros Hp. unfold ssrLoadModule. by rewrite Hp. Qed.


(** Entries of [pendingModules] are removed by the [.finally] callback
    alone. *)
Lemma ssrLoadModule_pending_mono url st id p :
  pendingModules st !! id = Some p →
  pendingModules (ssrLoadModule url st).2 !! id = Some p.
Proof.
  intros Hp. unfold ssrLoadModule.
  destruct (pendingModules st !! unwrapId url) as [pending|] eqn:Hurl; [done|].
  simpl. rewrite lookup_insert_ne; [done|]. congruence.
Qed.

Lemma ssrImport_pending_mono url dep dynamic st id p :
  pendingModules st !! id = Some p →
  pendingModules (ssrImport url dep dynamic st).2 !! id = Some p.
Proof.
  intros Hp. unfold ssrImport. destruct (isExternal dep); [done|].
  set (st1 := if negb dynamic then _ else st).
  assert (pendingModules st1 !! id = Some p) as Hp1
    by (unfold st1; by destruct dynamic).
  destruct (negb dynamic && _).
  - by destruct (ssrModuleOf st1 (unwrapId dep)).
  - pose proof (ssrLoadModule_pending_mono (unwrapId dep) st1 id p Hp1) as Hm.
    by destruct (ssrLoadModule (unwrapId dep) st1).
Qed.

Lemma runBody_pending_mono q url exports id p : ∀ b st,
  pendingModules st !! id = Some p →
  pendingModules (runBody q url exports b st) !! id = Some p.
Proof.
  induction b as [|e|dep k _|dep k _|src b IH|key prop b IH|b IH|b IH];
    intros st Hp; simpl; try done.
  - pose proof (ssrImport_pending_mono url dep false st id p Hp) as Hm.
    by destruct (ssrImport url dep false st).
  - pose proof (ssrImport_pending_mono url
                  (if bool_decide (firstChar dep = Some "."%char)
                   then posixResolve (dirname url) dep else dep) true st id p Hp) as Hm.
    unfold ssrDynamicImport. by destruct (ssrImport url _ true st).
  - destruct (ssrExportAll exports src (objects st)) as [h' [[]|e]]; [|done].
    by apply IH.
  - destruct (defineProperty (objects st) exports key prop) as [h'|e]; [|done].
    by apply IH.
  - by apply IH.
Qed.

Lemma instantiateTransformed_pending_mono q url result st id p :
  pendingModules st !! id = Some p →
  pendingModules (instantiateTransformed q url result st) !! id = Some p.
Proof.
  intros Hp. unfold instantiateTransformed. destruct result as [code|]; [|done].
  by apply runBody_pending_mono.
Qed.

Lemma deliver_pending_mono q url exports k v st id p :
  pendingModules st !! id = Some p →
  pendingModules (deliver q url exports k v st) !! id = Some p.
Proof.
  intros Hp. unfold deliver.
  destruct (readThen _ _); try (by apply runBody_pending_mono). exact Hp.
Qed.

Lemma step_pending_mono ev st id p :
  pendingModules st !! id = Some p → isSettled st p = false →
  pendingModules (step ev st) !! id = Some p.
Proof.
  intros Hp Hset. destruct ev as [url|q|q r|q|q r|url|q r|q r]; simpl.
  - by apply ssrLoadModule_pending_mono.
  - destruct (tasks st !! q) as [[url|url|url x h k|url x r|url x thenable kt]|]; try done.
    unfold instantiateEnsured, ensureEntryFromUrl.
    destruct (urlToModuleMap st !! url) as [md|] eqn:Hmd; simpl.
    + rewrite Hmd. destruct (truthy (ssrError md)); [exact Hp|].
      destruct (ssrModule md); [exact Hp|].
      destruct (ssrTransformResult md); [|exact Hp].
      apply runBody_pending_mono. exact Hp.
    + rewrite lookup_insert_eq. simpl. exact Hp.
  - destruct (tasks st !! q) as [[url|url|url x h k|url x r'|url x thenable kt]|]; try done.
    destruct r as [result|e]; [|exact Hp].
    by apply instantiateTransformed_pending_mono.
  - unfold resume.
    destruct (tasks st !! q) as [[url|url|url x h k|url x r|url x thenable kt]|]; try done.
    + destruct h as [v|e|q'|dep]; try done;
        try (by apply runBody_pending_mono); [by apply deliver_pending_mono|].
      destruct (promises st !! q') as [[? s]|]; [|done].
      destruct (outcome s) as [[v|e]|]; [by apply deliver_pending_mono| |done].
      by apply runBody_pending_mono.
    + unfold instantiateSettled. destruct r as [[]|e]; exact Hp.
  - unfold nodeImported.
    destruct (tasks st !! q) as [[url|url|url x h k|url x r'|url x thenable kt]|]; try done.
    destruct h as [v|e|q'|dep]; try done.
    destruct r as [v|err]; [by apply deliver_pending_mono|].
    destruct (isObject err); by apply runBody_pending_mono.
  - destruct (pendingModules st !! url) as [q|] eqn:Hurl; [|done].
    destruct (isSettled st q) eqn:Hq; [|done]. simpl.
    rewrite lookup_delete_ne; [done|]. intros ->. congruence.
  - unfold thenSettled. destruct (promises st !! q) as [[u [| | |v [r'|]]]|]; done.
  - unfold followed.
    destruct (tasks st !! q) as [[url|url|url x h k|url x r'|url x thenable kt]|]; try done.
    by apply runBody_pending_mono.
Qed.

(** C2: a static import of a project-relative [dep] by the module [url],
    when [url] is reachable from [dep] once the edge from [url] to [dep] is
    registered, returns the exports object of [dep]'s node as it is, or,
    when the node has none, throws an [Error] whose message says that the
    dependency is not yet fully initialized due to a circular dependency,
    and records that error with the importee in [importErrors]; either way
    the edge is registered and the loader is not entered: the pending table,
    the promises and the suspended calls are as before. *)
Theorem ssrImport_cycle (st : State) (url dep : string) :
  isExternal dep = false →
  let g := addPendingModuleDependency (pendingModuleDependencyGraph st) url
                                      (unwrapId dep) in
  reach g (unwrapId dep) url →
  ∃ h st',
    ssrImport url dep false st = (h, st') ∧
    pendingModuleDependencyGraph st' = g ∧
    pendingModules st' = pendingModules st ∧
    promises st' = promises st ∧
    tasks st' = tasks st ∧
    urlToModuleMap st' = urlToModuleMap st ∧
    objects st' = objects st ∧
    match ssrModuleOf st (unwrapId dep) with
    | Some depSsrModule =>
        h = HValue (VObject depSsrModule) ∧ importErrors st' = importErrors st
    | None =>
        h = HThrown (VError "[vite] The dependency module is not yet fully initialized due to circular dependency. This is a bug in Vite SSR") ∧
        importErrors st'
          = (VError "[vite] The dependency module is not yet fully initialized due to circular dependency. This is a bug in Vite SSR",
             unwrapId dep) :: importErrors st
    end.
Proof.
  intros Hext g Hreach. unfold ssrImport. rewrite Hext. simpl.
  apply checkModuleDependencyExists_reach in Hreach. fold g. rewrite Hreach.
  unfold ssrModuleOf. simpl.
  destruct (urlToModuleMap st !! unwrapId dep ≫= ssrModule) as [l|];
    eexists _, _; (split; [done|]); simpl; repeat split; done.
Qed.

Lemma ssrLoadModule_setGraph f url st :
  ssrLoadModule url (setGraph f st) =
    ((ssrLoadModule url st).1, setGraph f (ssrLoadModule url st).2).
Proof.
  unfold ssrLoadModule. simpl. by destruct (pendingModules st !! unwrapId url).
Qed.

(** C7: an import made through [ssrDynamicImport] leaves the dependency
    graph as it is, and does not read it: run on any other graph [g] it
    returns the same handle and makes the same changes.  For a specifier
    that is project-relative once resolved, it is a call of [ssrLoadModule]
    on the resolved specifier, whatever the graph holds. *)
Theorem ssrDynamicImport_no_edge (st : State) (url dep : string) :
  pendingModuleDependencyGraph (ssrDynamicImport url dep st).2
    = pendingModuleDependencyGraph st ∧
  (∀ g, ssrDynamicImport url dep (setGraph (λ _, g) st) =
          ((ssrDynamicImport url dep st).1,
           setGraph (λ _, g) (ssrDynamicImport url dep st).2)) ∧
  (let resolved :=
     if bool_decide (firstChar dep = Some "."%char)
     then posixResolve (dirname url) dep else dep in
   isExternal resolved = false →
   ssrDynamicImport url dep st =
     (HLoad (ssrLoadModule (unwrapId resolved) st).1,
      (ssrLoadModule (unwrapId resolved) st).2)).
Proof.
  unfold ssrDynamicImport.
  set (resolved := if bool_decide _ then _ else dep).
  unfold ssrImport. simpl.
  destruct (isExternal resolved) eqn:Hext.
  - repeat split; done.
  - split; [|split].
    + unfold ssrLoadModule.
      by destruct (pendingModules st !! unwrapId (unwrapId resolved)).
    + intros g. rewrite ssrLoadModule_setGraph.
      by destruct (ssrLoadModule (unwrapId resolved) st).
    + intros _. by destruct (ssrLoadModule (unwrapId resolved) st).
Qed.

End LoaderFacts.

(** ** Invariants *)

Section Invariants.
Context `{Host}.

Lemma ssrModuleOf_ext st st' url :
  urlToModuleMap st' = urlToModuleMap st → ssrModuleOf st' url = ssrModuleOf st url.
Proof. unfold ssrModuleOf. by intros ->. Qed.

Lemma TasksOk_ext P st st' :
  urlToModuleMap st' = urlToModuleMap st →
  pendingModules st' = pendingModules st →
  promises st' = promises st →
  tasks st' = tasks st →
  TasksOk P st → TasksOk P st'.
Proof.
  intros Hm Hp Hr Ht [H1 H2 H3]. split.
  - intros p t. rewrite Hp, Hr, Ht. apply H1.
  - intros p url. rewrite Hm, Ht. apply H2.
  - intros p t exports. rewrite Ht, (ssrModuleOf_ext st st') by done. apply H3.
Qed.

Lemma StoreOk_ext st st' :
  urlToModuleMap st' = urlToModuleMap st →
  promises st' = promises st →
  StoreOk st → StoreOk st'.
Proof.
  intros Hm Hr [H1 H1' H2]. split.
  - intros p url v. rewrite Hr, (ssrModuleOf_ext st st') by done. apply H1.
  - intros p url x r. rewrite Hr, (ssrModuleOf_ext st st') by done. apply H1'.
  - intros url md. rewrite Hm. apply H2.
Qed.

Lemma Running_ext p url st st' :
  urlToModuleMap st' = urlToModuleMap st →
  pendingModules st' = pendingModules st →
  promises st' = promises st →
  tasks st' = tasks st →
  Running p url st → Running p url st'.
Proof.
  intros Hm Hp Hr Ht (HT & HS & Hpend & Hprom). split; [|split; [|split]].
  - by apply (TasksOk_ext _ st).
  - by apply (StoreOk_ext st).
  - by rewrite Hp.
  - by rewrite Hr.
Qed.

Lemma TasksOk_weaken (P Q : pid → Prop) st :
  (∀ p, Q p → P p) → TasksOk P st → TasksOk Q st.
Proof.
  intros HQ [H1 H2 H3]. split.
  - intros p t Hp. apply H1. auto.
  - intros p url Hp. apply H2. auto.
  - intros p t exports Hp. apply H3. auto.
Qed.

Lemma Running_of_Inv st p t :
  Inv st → tasks st !! p = Some t → Running p (taskUrl t) st.
Proof.
  intros [HT HS] Ht. destruct (tasks_pending _ _ HT p t I Ht) as [Hpend Hprom].
  split; [|done]. by apply (TasksOk_weaken (λ _, True)).
Qed.

(** A call of [ssrLoadModule] touches neither the nodes nor the calls that
    are already suspended. *)
Lemma ssrLoadModule_TasksOk P url st :
  TasksOk P st → TasksOk P (ssrLoadModule url st).2.
Proof.
  intros HT. unfold ssrLoadModule.
  destruct (pendingModules st !! unwrapId url) as [pending|] eqn:Hpend; [done|].
  simpl. set (id := unwrapId url) in *. set (new := length (promises st)).
  destruct HT as [H1 H2 H3]. split; simpl.
  - intros p t Hp Ht. destruct (decide (p = new)) as [->|Hne].
    + rewrite lookup_insert_eq in Ht. injection Ht as <-. simpl.
      rewrite lookup_insert_eq. split; [done|]. by apply list_lookup_middle.
    + rewrite lookup_insert_ne in Ht by done.
      destruct (H1 p t Hp Ht) as [Hq Hr]. split.
      * rewrite lookup_insert_ne; [done|]. intros Heq. congruence.
      * rewrite lookup_app_l; [done|]. by eapply lookup_lt_Some.
  - intros p u Hp Ht. destruct (decide (p = new)) as [->|Hne].
    + by rewrite lookup_insert_eq in Ht.
    + rewrite lookup_insert_ne in Ht by done. by apply (H2 p).
  - intros p t exports Hp Ht. destruct (decide (p = new)) as [->|Hne].
    + rewrite lookup_insert_eq in Ht. by injection Ht as <-.
    + rewrite lookup_insert_ne in Ht by done. by apply (H3 p).
Qed.

Lemma ssrLoadModule_StoreOk url st :
  StoreOk st → StoreOk (ssrLoadModule url st).2.
Proof.
  intros HS. unfold ssrLoadModule.
  destruct (pendingModules st !! unwrapId url) as [pending|] eqn:Hpend; [done|].
  simpl. destruct HS as [H1 H1' H2].
  assert (∀ p u s, s ≠ Pending →
            (promises st ++ [(unwrapId url, Pending)]) !! p = Some (u, s) →
            promises st !! p = Some (u, s)) as Hold.
  { intros p u s Hs Hp.
    destruct (decide (p < length (promises st))) as [Hlt|Hge].
    - by rewrite lookup_app_l in Hp.
    - rewrite lookup_app_r in Hp by lia.
      destruct (p - length (promises st)) as [|n]; simpl in Hp; [congruence|].
      by destruct n. }
  split; simpl; [| |done].
  - intros p u v Hp. apply (H1 p). by apply Hold.
  - intros p u x r Hp. apply (H1' p _ _ r). by apply Hold.
Qed.

Lemma ssrLoadModule_modules url st :
  urlToModuleMap (ssrLoadModule url st).2 = urlToModuleMap st.
Proof.
  unfold ssrLoadModule. by destruct (pendingModules st !! unwrapId url).
Qed.

Lemma ssrLoadModule_Running p url dep st :
  Running p url st → Running p url (ssrLoadModule dep st).2.
Proof.
  intros (HT & HS & Hpend & Hprom). split; [|split; [|split]].
  - by apply ssrLoadModule_TasksOk.
  - by apply ssrLoadModule_StoreOk.
  - unfold ssrLoadModule.
    destruct (pendingModules st !! unwrapId dep) as [pending|] eqn:Hdep; [done|].
    simpl. rewrite lookup_insert_ne; [done|]. intros Heq. congruence.
  - unfold ssrLoadModule.
    destruct (pendingModules st !! unwrapId dep) as [pending|] eqn:Hdep; [done|].
    simpl. rewrite lookup_app_l; [done|]. by eapply lookup_lt_Some.
Qed.

Lemma ssrImport_modules url dep dynamic st :
  urlToModuleMap (ssrImport url dep dynamic st).2 = urlToModuleMap st.
Proof.
  unfold ssrImport. destruct (isExternal dep); [done|].
  set (st1 := if negb dynamic then _ else st).
  assert (urlToModuleMap st1 = urlToModuleMap st) as Hst1
    by (unfold st1; by destruct dynamic).
  destruct (negb dynamic && _).
  - by destruct (ssrModuleOf st1 (unwrapId dep)).
  - pose proof (ssrLoadModule_modules (unwrapId dep) st1) as Hm.
    destruct (ssrLoadModule (unwrapId dep) st1). simpl in *. congruence.
Qed.

Lemma ssrImport_Running p url dep dynamic st :
  Running p url st → Running p url (ssrImport url dep dynamic st).2.
Proof.
  intros Hrun. unfold ssrImport. destruct (isExternal dep); [done|].
  set (st1 := if negb dynamic then _ else st).
  assert (Running p url st1) as Hrun1.
  { unfold st1. destruct dynamic; simpl; [done|]. by apply (Running_ext _ _ st). }
  destruct (negb dynamic && _).
  - destruct (ssrModuleOf st1 (unwrapId dep)); simpl; [done|].
    by apply (Running_ext _ _ st1).
  - pose proof (ssrLoadModule_Running p url (unwrapId dep) st1 Hrun1) as Hr.
    by destruct (ssrLoadModule (unwrapId dep) st1).
Qed.

(** The running call suspends at an [await] of its body, or at the end of
    its body: all calls are in order again. *)
Lemma suspend_Inv p url exports t st :
  Running p url st → ssrModuleOf st url = Some exports →
  taskUrl t = url → taskExports t = Some exports →
  Inv (suspend p t st).
Proof.
  intros (HT & HS & Hpend & Hprom) Hatt Hurl Hexp. split.
  - destruct HT as [H1 H2 H3]. split; simpl.
    + intros q t' _ Ht'. destruct (decide (q = p)) as [->|Hne].
      * rewrite lookup_insert_eq in Ht'. injection Ht' as <-. by rewrite Hurl.
      * rewrite lookup_insert_ne in Ht' by done. by apply H1.
    + intros q u _ Ht'. destruct (decide (q = p)) as [->|Hne].
      * rewrite lookup_insert_eq in Ht'. injection Ht' as ->. done.
      * rewrite lookup_insert_ne in Ht' by done. by apply (H2 q).
    + intros q t' e _ Ht'. destruct (decide (q = p)) as [->|Hne].
      * rewrite lookup_insert_eq in Ht'. injection Ht' as <-.
        rewrite Hurl, Hexp. intros [= <-]. done.
      * rewrite lookup_insert_ne in Ht' by done. by apply (H3 q).
  - by apply (StoreOk_ext st).
Qed.

Lemma ssrDynamicImport_modules url dep st :
  urlToModuleMap (ssrDynamicImport url dep st).2 = urlToModuleMap st.
Proof. apply ssrImport_modules. Qed.

Lemma runBody_modules p url exports : ∀ b st,
  urlToModuleMap (runBody p url exports b st) = urlToModuleMap st.
Proof.
  induction b as [|e|dep k _|dep k _|src b IH|key prop b IH|b IH|b IH];
    intros st; simpl; try done.
  - pose proof (ssrImport_modules url dep false st) as Hm.
    by destruct (ssrImport url dep false st).
  - pose proof (ssrDynamicImport_modules url dep st) as Hm.
    by destruct (ssrDynamicImport url dep st).
  - destruct (ssrExportAll exports src (objects st)) as [h' [[]|e]]; [|done].
    by rewrite IH.
  - destruct (defineProperty (objects st) exports key prop) as [h'|e]; [|done].
    by rewrite IH.
  - by rewrite IH.
Qed.

Lemma deliver_modules p url exports k v st :
  urlToModuleMap (deliver p url exports k v st) = urlToModuleMap st.
Proof. unfold deliver. destruct (readThen _ _); try done; apply runBody_modules. Qed.

Lemma runBody_Inv p url exports : ∀ b st,
  Running p url st → ssrModuleOf st url = Some exports →
  Inv (runBody p url exports b st).
Proof.
  induction b as [|e|dep k _|dep k _|src b IH|key prop b IH|b IH|b IH];
    intros st Hrun Hatt; simpl.
  - by apply (suspend_Inv p url exports).
  - by apply (suspend_Inv p url exports).
  - pose proof (ssrImport_Running p url dep false st Hrun) as Hr.
    pose proof (ssrImport_modules url dep false st) as Hm.
    destruct (ssrImport url dep false st) as [h st1]. simpl in *.
    apply (suspend_Inv p url exports); try done.
    by rewrite (ssrModuleOf_ext st st1).
  - pose proof (ssrImport_Running p url
                  (if bool_decide (firstChar dep = Some "."%char)
                   then posixResolve (dirname url) dep else dep) true st Hrun) as Hr.
    pose proof (ssrDynamicImport_modules url dep st) as Hm.
    unfold ssrDynamicImport in *.
    destruct (ssrImport url _ true st) as [h st1]. simpl in *.
    apply (suspend_Inv p url exports); try done.
    by rewrite (ssrModuleOf_ext st st1).
  - destruct (ssrExportAll exports src (objects st)) as [h' [[]|e]].
    + apply IH; [by apply (Running_ext _ _ st)|done].
    + apply (suspend_Inv p url exports); try done. by apply (Running_ext _ _ st).
  - destruct (defineProperty (objects st) exports key prop) as [h'|e].
    + apply IH; [by apply (Running_ext _ _ st)|done].
    + by apply (suspend_Inv p url exports).
  - apply IH; [by apply (Running_ext _ _ st)|done].
  - by apply (suspend_Inv p url exports).
Qed.

Lemma resolution_cases h v :
  resolution h v = Fulfilled v ∨ resolution h v = Following v None ∨
  ∃ e, resolution h v = Rejected e.
Proof. unfold resolution. destruct (readThen h v); eauto. Qed.

Lemma resolution_not_pending h v : resolution h v ≠ Pending.
Proof. unfold resolution. by destruct (readThen h v). Qed.

Lemma resolution_object h l :
  resolution h (VObject l)
    = match Get (S stackDepth) h (VObject l) "then" with
      | Some (Normal (VFunction _)) => Following (VObject l) None
      | Some (Normal _) => Fulfilled (VObject l)
      | Some (Throw e) => Rejected e
      | None => Rejected (VError "RangeError: Maximum call stack size exceeded")
      end.
Proof.
  unfold resolution, readThen. cbn [isObject].
  by destruct (Get (S stackDepth) h (VObject l) "then") as [[[]|]|].
Qed.

Lemma readThen_no_then h l :
  isOrdinary h l = true →
  hasProperty h (VObject l) "then" = false →
  readThen h (VObject l) = NotCallable.
Proof.
  unfold isOrdinary, hasProperty, readThen. intros Ho Hno.
  cbn [isObject Get nullish proxyOf].
  destruct (h !! l) as [[props ext|]|] eqn:Hl; try done.
  destruct (assoc "then" (table h (VObject l))) as [q|]; [|done].
  by rewrite bool_decide_eq_false in Hno; destruct Hno.
Qed.

Lemma resolution_no_then h l :
  isOrdinary h l = true →
  hasProperty h (VObject l) "then" = false →
  resolution h (VObject l) = Fulfilled (VObject l).
Proof. intros Ho Hno. unfold resolution. by rewrite readThen_no_then. Qed.

(** The running call settles its promise. *)
Lemma settle_Inv p url s st :
  Running p url st →
  match s with
  | Pending => False
  | Fulfilled v | Following v _ =>
      ∃ exports, v = VObject exports ∧ ssrModuleOf st url = Some exports
  | Rejected _ => True
  end →
  Inv (settle p s st).
Proof.
  intros (HT & HS & Hpend & Hprom) Hs. unfold settle. split.
  - destruct HT as [H1 H2 H3]. split; simpl; rewrite ?Hprom.
    + intros q t _ Ht. apply lookup_delete_Some in Ht as [Hne Ht].
      assert (q ≠ p) as Hne' by done.
      destruct (H1 q t Hne' Ht) as [Hq Hr]. split; [done|].
      by rewrite list_lookup_insert_ne.
    + intros q u _ Ht. apply lookup_delete_Some in Ht as [Hne Ht].
      apply (H2 q); done.
    + intros q t e _ Ht. apply lookup_delete_Some in Ht as [Hne Ht].
      apply (H3 q); done.
  - destruct HS as [H1 H1' H2]. split; simpl; [| |done]; rewrite Hprom.
    + intros q u v Hq. destruct (decide (q = p)) as [->|Hne].
      * rewrite list_lookup_insert_eq in Hq by (by eapply lookup_lt_Some).
        injection Hq as -> ->. done.
      * rewrite list_lookup_insert_ne in Hq by done. by apply (H1 q).
    + intros q u x r Hq. destruct (decide (q = p)) as [->|Hne].
      * rewrite list_lookup_insert_eq in Hq by (by eapply lookup_lt_Some).
        injection Hq as -> ->. done.
      * rewrite list_lookup_insert_ne in Hq by done. by apply (H1' q _ _ r).
Qed.

Lemma suspend_transform_Inv p url st :
  Running p url st →
  (∃ md, urlToModuleMap st !! url = Some md ∧ ssrError md = VNull ∧
         ssrModule md = None ∧ ssrTransformResult md = None) →
  Inv (suspend p (AwaitTransform url) st).
Proof.
  intros (HT & HS & Hpend & Hprom) Hmd. split.
  - destruct HT as [H1 H2 H3]. split; simpl.
    + intros q t' _ Ht'. destruct (decide (q = p)) as [->|Hne].
      * rewrite lookup_insert_eq in Ht'. by injection Ht' as <-.
      * rewrite lookup_insert_ne in Ht' by done. by apply H1.
    + intros q u _ Ht'. destruct (decide (q = p)) as [->|Hne].
      * rewrite lookup_insert_eq in Ht'. by injection Ht' as <-.
      * rewrite lookup_insert_ne in Ht' by done. by apply (H2 q).
    + intros q t' e _ Ht'. destruct (decide (q = p)) as [->|Hne].
      * rewrite lookup_insert_eq in Ht'. by injection Ht' as <-.
      * rewrite lookup_insert_ne in Ht' by done. by apply (H3 q).
  - by apply (StoreOk_ext st).
Qed.

(** The other suspended calls are calls for other urls. *)
Lemma Running_other_url p url st q t :
  Running p url st → q ≠ p → tasks st !! q = Some t → taskUrl t ≠ url.
Proof.
  intros (HT & _ & Hpend & _) Hne Ht Heq.
  destruct (tasks_pending _ _ HT q t Hne Ht) as [Hq _]. congruence.
Qed.

Lemma ssrModuleOf_alter_ne f url st u :
  u ≠ url →
  ssrModuleOf (setModules (alter f url) st) u = ssrModuleOf st u.
Proof. intros Hne. unfold ssrModuleOf. simpl. by rewrite lookup_alter_ne. Qed.

Lemma ssrModuleOf_withSsrError e url st u :
  ssrModuleOf (setModules (alter (withSsrError e) url) st) u = ssrModuleOf st u.
Proof.
  unfold ssrModuleOf. simpl. rewrite lookup_alter. case_decide; [subst|done].
  by destruct (urlToModuleMap st !! u).
Qed.

Lemma ssrModuleOf_withSsrModule exports url st md :
  urlToModuleMap st !! url = Some md →
  ssrModuleOf (setModules (alter (withSsrModule exports) url) st) url = Some exports.
Proof.
  intros Hmd. unfold ssrModuleOf. simpl. by rewrite lookup_alter_eq, Hmd.
Qed.

Lemma Running_withSsrError p url exports e st :
  Running p url st → ssrModuleOf st url = Some exports →
  Running p url (setModules (alter (withSsrError e) url) st).
Proof.
  intros Hrun Hatt. pose proof Hrun as (HT & HS & Hpend & Hprom).
  split; [|split; [|done]].
  - destruct HT as [H1 H2 H3]. split; simpl.
    + done.
    + intros q u Hne Ht.
      pose proof (Running_other_url p url st q _ Hrun Hne Ht) as Hu. simpl in Hu.
      rewrite lookup_alter_ne by done. by apply (H2 q).
    + intros q t x Hne Ht Hx. rewrite ssrModuleOf_withSsrError. by apply (H3 q).
  - destruct HS as [H1 H1' H2]. split; simpl.
    + intros q u v Hq. rewrite ssrModuleOf_withSsrError. by apply (H1 q).
    + intros q u x r Hq. rewrite ssrModuleOf_withSsrError. by apply (H1' q _ _ r).
    + intros u md. rewrite lookup_alter. case_decide as Hu; [subst u|apply H2].
      unfold ssrModuleOf in Hatt.
      destruct (urlToModuleMap st !! url) as [md0|]; [|done]. simpl in *.
      intros [= <-]. simpl. congruence.
Qed.

Lemma Running_withSsrModule p url exports st md :
  Running p url st →
  urlToModuleMap st !! url = Some md → ssrModule md = None →
  Running p url (setModules (alter (withSsrModule exports) url) st).
Proof.
  intros Hrun Hmd Hnone. pose proof Hrun as (HT & HS & Hpend & Hprom).
  assert (ssrModuleOf st url = None) as Hno.
  { unfold ssrModuleOf. by rewrite Hmd. }
  split; [|split; [|done]].
  - destruct HT as [H1 H2 H3]. split; simpl.
    + done.
    + intros q u Hne Ht.
      pose proof (Running_other_url p url st q _ Hrun Hne Ht) as Hu. simpl in Hu.
      rewrite lookup_alter_ne by done. by apply (H2 q).
    + intros q t x Hne Ht Hx.
      pose proof (Running_other_url p url st q _ Hrun Hne Ht) as Hu.
      rewrite ssrModuleOf_alter_ne by done. by apply (H3 q).
  - destruct HS as [H1 H1' H2]. split; simpl.
    + intros q u v Hq. destruct (H1 q u v Hq) as (x & -> & Hx).
      exists x. split; [done|]. rewrite ssrModuleOf_alter_ne; [done|]. congruence.
    + intros q u y r Hq. destruct (H1' q u y r Hq) as (x & -> & Hx).
      exists x. split; [done|]. rewrite ssrModuleOf_alter_ne; [done|]. congruence.
    + intros u md'. rewrite lookup_alter. case_decide as Hu; [subst u|apply H2].
      rewrite Hmd. by intros [= <-].
Qed.

Lemma instantiateTransformed_Inv p url result st md :
  Running p url st →
  urlToModuleMap st !! url = Some md → ssrModule md = None →
  Inv (instantiateTransformed p url result st).
Proof.
  intros Hrun Hmd Hnone. unfold instantiateTransformed.
  destruct result as [code|]; [|by apply (settle_Inv p url)].
  apply runBody_Inv.
  - apply (Running_withSsrModule p url _ _ md); [|done..].
    by apply (Running_ext _ _ st).
  - by apply (ssrModuleOf_withSsrModule _ _ _ md).
Qed.

Lemma instantiateSettled_Inv p url exports r st :
  Inv st → tasks st !! p = Some (AwaitInit url exports r) →
  Inv (instantiateSettled p url exports r st).
Proof.
  intros Hinv Ht. pose proof (Running_of_Inv st p _ Hinv Ht) as Hrun. simpl in Hrun.
  assert (ssrModuleOf st url = Some exports) as Hatt.
  { destruct Hinv as [HT _]. by apply (tasks_exports _ _ HT p _ exports I Ht). }
  unfold instantiateSettled. destruct r as [[]|e].
  - apply (settle_Inv p url); [by apply (Running_ext _ _ st)|].
    destruct (resolution_cases (objects (setObjects (λ h, freeze h exports)
                                           (setGraph (delete url) st))) (VObject exports))
      as [->|[->|[e ->]]]; [| |done];
      (exists exports; split; [done|]; by rewrite <- Hatt).
  - apply (settle_Inv p url); [|done].
    eapply (Running_ext _ _ (setModules _ st)); [done..|].
    by apply (Running_withSsrError p url exports).
Qed.

Lemma Running_ensureEntryFromUrl p url u st :
  Running p url st → Running p url (ensureEntryFromUrl u st).
Proof.
  intros Hrun. unfold ensureEntryFromUrl.
  destruct (urlToModuleMap st !! u) as [md|] eqn:Hu; [done|].
  assert (∀ x, ssrModuleOf (setModules <[u := Node VNull None None]> st) x
               = ssrModuleOf st x) as Hsame.
  { intros x. unfold ssrModuleOf. simpl. destruct (decide (x = u)) as [->|Hne].
    - by rewrite lookup_insert_eq, Hu.
    - by rewrite lookup_insert_ne. }
  destruct Hrun as (HT & HS & Hpend & Hprom). split; [|split; [|done]].
  - destruct HT as [H1 H2 H3]. split; simpl.
    + done.
    + intros q x Hne Ht. destruct (H2 q x Hne Ht) as (md & Hmd & Hrest).
      exists md. split; [|done]. rewrite lookup_insert_ne; [done|]. congruence.
    + intros q t x Hne Ht Hx. rewrite Hsame. by apply (H3 q).
  - destruct HS as [H1 H1' H2]. split; simpl.
    + intros q x v Hq. rewrite Hsame. by apply (H1 q).
    + intros q x y r Hq. rewrite Hsame. by apply (H1' q _ _ r).
    + intros x md. destruct (decide (x = u)) as [->|Hne].
      * rewrite lookup_insert_eq. by intros [= <-].
      * rewrite lookup_insert_ne by done. apply H2.
Qed.

Lemma instantiateEnsured_Inv p url st :
  Inv st → tasks st !! p = Some (AwaitEnsure url) →
  Inv (instantiateEnsured p url st).
Proof.
  intros Hinv Ht. pose proof (Running_of_Inv st p _ Hinv Ht) as Hrun. simpl in Hrun.
  apply (Running_ensureEntryFromUrl p url url) in Hrun.
  unfold instantiateEnsured. set (st1 := ensureEntryFromUrl url st) in *.
  assert (tasks st1 = tasks st) as Htasks.
  { unfold st1, ensureEntryFromUrl. by destruct (urlToModuleMap st !! url). }
  destruct (urlToModuleMap st1 !! url) as [md|] eqn:Hmd.
  - destruct (truthy (ssrError md)) eqn:Htruthy; [by apply (settle_Inv p url)|].
    destruct (ssrModule md) as [exports|] eqn:Hexp.
    + apply (settle_Inv p url); [done|].
      destruct (resolution_cases (objects st1) (VObject exports))
        as [->|[->|[e ->]]]; [| |done];
        (exists exports; split; [done|]; unfold ssrModuleOf; by rewrite Hmd).
    + destruct (ssrTransformResult md) as [code|] eqn:Hcode.
      * by apply (instantiateTransformed_Inv p url _ _ md).
      * apply suspend_transform_Inv; [done|]. exists md. repeat split; try done.
        destruct Hrun as (_ & HS & _). by apply (store_fresh _ HS url).
  - unfold st1 in Hmd. unfold ensureEntryFromUrl in Hmd.
    destruct (urlToModuleMap st !! url) eqn:Hu; [congruence|].
    simpl in Hmd. by rewrite lookup_insert_eq in Hmd.
Qed.

Lemma deliver_Inv p url exports k v st :
  Running p url st → ssrModuleOf st url = Some exports →
  Inv (deliver p url exports k v st).
Proof.
  intros Hrun Hatt. unfold deliver.
  destruct (readThen _ _); try (by apply runBody_Inv).
  by apply (suspend_Inv p url exports).
Qed.

Lemma resume_Inv p st : Inv st → Inv (resume p st).
Proof.
  intros Hinv. unfold resume.
  destruct (tasks st !! p) as [t|] eqn:Ht; [|done].
  destruct t as [url|url|url exports h k|url exports r|url exports thenable kt]; try done.
  - pose proof (Running_of_Inv st p _ Hinv Ht) as Hrun. simpl in Hrun.
    assert (ssrModuleOf st url = Some exports) as Hatt.
    { destruct Hinv as [HT _]. by apply (tasks_exports _ _ HT p _ exports I Ht). }
    destruct h as [v|e|q|dep]; try done; try (by apply runBody_Inv);
      [by apply deliver_Inv|].
    destruct (promises st !! q) as [[u s]|]; [|done].
    destruct (outcome s) as [[v|e]|]; [by apply deliver_Inv|by apply runBody_Inv|done].
  - by apply instantiateSettled_Inv.
Qed.

Lemma followed_Inv p r st : Inv st → Inv (followed p r st).
Proof.
  intros Hinv. unfold followed.
  destruct (tasks st !! p) as [t|] eqn:Ht; [|done].
  destruct t as [url|url|url exports h k|url exports r'|url exports thenable kt]; try done.
  pose proof (Running_of_Inv st p _ Hinv Ht) as Hrun. simpl in Hrun.
  assert (ssrModuleOf st url = Some exports) as Hatt.
  { destruct Hinv as [HT _]. by apply (tasks_exports _ _ HT p _ exports I Ht). }
  by apply runBody_Inv.
Qed.

Lemma thenSettled_Inv p r st : Inv st → Inv (thenSettled p r st).
Proof.
  intros [HT HS]. unfold thenSettled.
  destruct (promises st !! p) as [[url [| | |v [r'|]]]|] eqn:Hp; try done.
  split.
  - destruct HT as [H1 H2 H3]. split; simpl; [|done..].
    intros q t _ Ht. destruct (H1 q t I Ht) as [Hq Hr]. split; [done|].
    rewrite list_lookup_insert_ne; [done|]. intros ->. congruence.
  - destruct HS as [H1 H1' H2]. split; simpl; [| |done].
    + intros q u w Hq. destruct (decide (q = p)) as [->|Hne].
      * rewrite list_lookup_insert_eq in Hq by (by eapply lookup_lt_Some). done.
      * rewrite list_lookup_insert_ne in Hq by done. by apply (H1 q).
    + intros q u x r0 Hq. destruct (decide (q = p)) as [->|Hne].
      * rewrite list_lookup_insert_eq in Hq by (by eapply lookup_lt_Some).
        injection Hq as <- <- <-. by apply (H1' p url v None).
      * rewrite list_lookup_insert_ne in Hq by done. by apply (H1' q _ _ r0).
Qed.

Lemma nodeImported_Inv p r st : Inv st → Inv (nodeImported p r st).
Proof.
  intros Hinv. unfold nodeImported.
  destruct (tasks st !! p) as [t|] eqn:Ht; [|done].
  destruct t as [url|url|url exports h k|url exports r'|url exports thenable kt]; try done.
  destruct h as [v|e|q|dep]; try done.
  pose proof (Running_of_Inv st p _ Hinv Ht) as Hrun. simpl in Hrun.
  assert (ssrModuleOf st url = Some exports) as Hatt.
  { destruct Hinv as [HT _]. by apply (tasks_exports _ _ HT p _ exports I Ht). }
  destruct r as [v|err]; [by apply deliver_Inv|].
  destruct (isObject err); [|by apply runBody_Inv].
  apply runBody_Inv; [|done]. by apply (Running_ext _ _ st).
Qed.

Lemma finally_Inv url p st :
  Inv st → pendingModules st !! url = Some p → isSettled st p = true →
  Inv (setPending (delete url) st).
Proof.
  intros [HT HS] Hpend Hset. split; [|by apply (StoreOk_ext st)].
  destruct HT as [H1 H2 H3]. split; simpl; [|done..].
  intros q t _ Ht. destruct (H1 q t I Ht) as [Hq Hr]. split; [|done].
  rewrite lookup_delete_ne; [done|]. intros Heq. rewrite Heq in Hpend.
  assert (q = p) as -> by congruence.
  unfold isSettled in Hset. by rewrite Hr in Hset.
Qed.

Lemma step_Inv ev st : Inv st → Inv (step ev st).
Proof.
  intros Hinv. destruct ev as [url|p|p r|p|p r|url|p r|p r]; simpl;
    [..|by apply thenSettled_Inv|by apply followed_Inv].
  - destruct Hinv as [HT HS]. split.
    + by apply ssrLoadModule_TasksOk.
    + by apply ssrLoadModule_StoreOk.
  - destruct (tasks st !! p) as [[url|url|url exports h k|url exports r|url exports thenable kt]|] eqn:Ht;
      try done.
    by apply instantiateEnsured_Inv.
  - destruct (tasks st !! p) as [[url|url|url exports h k|url exports r'|url exports thenable kt]|] eqn:Ht;
      try done.
    pose proof (Running_of_Inv st p _ Hinv Ht) as Hrun. simpl in Hrun.
    destruct r as [result|e]; [|by apply (settle_Inv p url)].
    destruct Hinv as [HT _].
    destruct (tasks_transform _ _ HT p url I Ht) as (md & Hmd & _ & Hnone & _).
    by apply (instantiateTransformed_Inv p url _ _ md).
  - by apply resume_Inv.
  - by apply nodeImported_Inv.
  - destruct (pendingModules st !! url) as [p|] eqn:Hpend; [|done].
    destruct (isSettled st p) eqn:Hset; [|done].
    by apply (finally_Inv url p).
Qed.

Lemma init_Inv cache : Inv (init cache).
Proof.
  split; [split|split]; simpl; try done.
  intros url md. rewrite lookup_fmap.
  destruct (cache !! url); simpl; [|done]. by intros [= <-].
Qed.

Lemma run_Inv evs : ∀ st, Inv st → Inv (run evs st).
Proof.
  unfold run. induction evs as [|ev evs IH]; intros st Hinv; [done|].
  simpl. apply IH. by apply step_Inv.
Qed.

Lemma run_app evs1 evs2 st : run (evs1 ++ evs2) st = run evs2 (run evs1 st).
Proof. unfold run. apply foldl_app. Qed.

(** Once a node has an exports object, it keeps that object. *)
Lemma settle_modules p s st : urlToModuleMap (settle p s st) = urlToModuleMap st.
Proof. done. Qed.

Lemma instantiateTransformed_attached p url result st md u exports :
  urlToModuleMap st !! url = Some md → ssrModule md = None →
  ssrModuleOf st u = Some exports →
  ssrModuleOf (instantiateTransformed p url result st) u = Some exports.
Proof.
  intros Hmd Hnone Hatt. unfold instantiateTransformed.
  destruct result as [code|]; [|done].
  rewrite (ssrModuleOf_ext (setModules (alter (withSsrModule (length (objects st))) url)
                              (setObjects (λ h, h ++ [newSsrModule]) st)))
    by apply runBody_modules.
  rewrite ssrModuleOf_alter_ne; [done|].
  intros ->. unfold ssrModuleOf in Hatt. rewrite Hmd in Hatt. simpl in Hatt. congruence.
Qed.

Lemma ensureEntryFromUrl_attached url st u :
  ssrModuleOf (ensureEntryFromUrl url st) u = ssrModuleOf st u.
Proof.
  unfold ensureEntryFromUrl. destruct (urlToModuleMap st !! url) eqn:Hu; [done|].
  unfold ssrModuleOf. simpl. destruct (decide (u = url)) as [->|Hne].
  - by rewrite lookup_insert_eq, Hu.
  - by rewrite lookup_insert_ne.
Qed.

Lemma step_attached ev st u exports :
  Inv st → ssrModuleOf st u = Some exports →
  ssrModuleOf (step ev st) u = Some exports.
Proof.
  intros Hinv Hatt. destruct ev as [url|p|p r|p|p r|url|p r|p r]; simpl.
  - by rewrite (ssrModuleOf_ext st) by apply ssrLoadModule_modules.
  - destruct (tasks st !! p) as [[url|url|url x h k|url x r|url x thenable kt]|] eqn:Ht; try done.
    unfold instantiateEnsured.
    pose proof (ensureEntryFromUrl_attached url st u) as Hsame.
    set (st1 := ensureEntryFromUrl url st) in *.
    destruct (urlToModuleMap st1 !! url) as [md|] eqn:Hmd; [|congruence].
    destruct (truthy (ssrError md)); [by rewrite <- Hatt, <- Hsame|].
    destruct (ssrModule md) as [x|] eqn:Hx; [by rewrite <- Hatt, <- Hsame|].
    destruct (ssrTransformResult md) as [code|].
    + apply (instantiateTransformed_attached p url _ _ md); congruence.
    + by rewrite <- Hatt, <- Hsame.
  - destruct (tasks st !! p) as [[url|url|url x h k|url x r'|url x thenable kt]|] eqn:Ht; try done.
    destruct r as [result|e]; [|done].
    destruct Hinv as [HT _].
    destruct (tasks_transform _ _ HT p url I Ht) as (md & Hmd & _ & Hnone & _).
    by apply (instantiateTransformed_attached p url _ _ md).
  - unfold resume.
    destruct (tasks st !! p) as [[url|url|url x h k|url x r|url x thenable kt]|] eqn:Ht; try done.
    + destruct h as [v|e|q|dep]; try done;
        try (by rewrite (ssrModuleOf_ext st) by apply runBody_modules);
        [by rewrite (ssrModuleOf_ext st) by apply deliver_modules|].
      destruct (promises st !! q) as [[? s]|]; [|done].
      destruct (outcome s) as [[v|e]|]; [| |done].
      * by rewrite (ssrModuleOf_ext st) by apply deliver_modules.
      * by rewrite (ssrModuleOf_ext st) by apply runBody_modules.
    + unfold instantiateSettled. destruct r as [[]|e]; [done|].
      rewrite <- Hatt. apply (ssrModuleOf_withSsrError e url st u).
  - unfold nodeImported.
    destruct (tasks st !! p) as [[url|url|url x h k|url x r'|url x thenable kt]|] eqn:Ht; try done.
    destruct h as [v|e|q|dep]; try done.
    destruct r as [v|err]; [by rewrite (ssrModuleOf_ext st) by apply deliver_modules|].
    destruct (isObject err);
      by rewrite (ssrModuleOf_ext st) by (by rewrite runBody_modules).
  - destruct (pendingModules st !! url) as [p|]; [|done].
    by destruct (isSettled st p).
  - unfold thenSettled. by destruct (promises st !! p) as [[? [| | |v [r'|]]]|].
  - unfold followed.
    destruct (tasks st !! p) as [[url|url|url x h k|url x r'|url x thenable kt]|] eqn:Ht; try done.
    by rewrite (ssrModuleOf_ext st) by apply runBody_modules.
Qed.

Lemma run_attached evs : ∀ st u exports,
  Inv st → ssrModuleOf st u = Some exports →
  ssrModuleOf (run evs st) u = Some exports.
Proof.
  unfold run. induction evs as [|ev evs IH]; intros st u exports Hinv Hatt; [done|].
  simpl. apply IH; [by apply step_Inv|by apply step_attached].
Qed.

(** A settled promise keeps its outcome. *)
Lemma ssrLoadModule_promises_mono url st p x :
  promises st !! p = Some x → promises (ssrLoadModule url st).2 !! p = Some x.
Proof.
  intros Hp. unfold ssrLoadModule.
  destruct (pendingModules st !! unwrapId url); [done|]. simpl.
  rewrite lookup_app_l; [done|]. by eapply lookup_lt_Some.
Qed.

Lemma ssrImport_promises_mono url dep dynamic st p x :
  promises st !! p = Some x →
  promises (ssrImport url dep dynamic st).2 !! p = Some x.
Proof.
  intros Hp. unfold ssrImport. destruct (isExternal dep); [done|].
  set (st1 := if negb dynamic then _ else st).
  assert (promises st1 !! p = Some x) as Hp1 by (unfold st1; by destruct dynamic).
  destruct (negb dynamic && _).
  - by destruct (ssrModuleOf st1 (unwrapId dep)).
  - pose proof (ssrLoadModule_promises_mono (unwrapId dep) st1 p x Hp1) as Hm.
    by destruct (ssrLoadModule (unwrapId dep) st1).
Qed.

Lemma runBody_promises_mono q url exports p x : ∀ b st,
  promises st !! p = Some x →
  promises (runBody q url exports b st) !! p = Some x.
Proof.
  induction b as [|e|dep k _|dep k _|src b IH|key prop b IH|b IH|b IH];
    intros st Hp; simpl; try done.
  - pose proof (ssrImport_promises_mono url dep false st p x Hp) as Hm.
    by destruct (ssrImport url dep false st).
  - pose proof (ssrImport_promises_mono url
                  (if bool_decide (firstChar dep = Some "."%char)
                   then posixResolve (dirname url) dep else dep) true st p x Hp) as Hm.
    unfold ssrDynamicImport. by destruct (ssrImport url _ true st).
  - destruct (ssrExportAll exports src (objects st)) as [h' [[]|e]]; [|done].
    by apply IH.
  - destruct (defineProperty (objects st) exports key prop) as [h'|e]; [|done].
    by apply IH.
  - by apply IH.
Qed.

Lemma settle_promises_other q s st p :
  p ≠ q → promises (settle q s st) !! p = promises st !! p.
Proof.
  intros Hne. unfold settle. simpl.
  destruct (promises st !! q) as [[u ?]|]; [|done].
  by rewrite list_lookup_insert_ne.
Qed.

Lemma settled_not_task st p q t :
  Inv st → isSettled st p = true → tasks st !! q = Some t → p ≠ q.
Proof.
  intros [HT _] Hset Ht ->. destruct (tasks_pending _ _ HT q t I Ht) as [_ Hq].
  unfold isSettled in Hset. by rewrite Hq in Hset.
Qed.

Lemma deliver_promises_mono q url exports k v st p x :
  promises st !! p = Some x →
  promises (deliver q url exports k v st) !! p = Some x.
Proof.
  intros Hp. unfold deliver.
  destruct (readThen _ _); try (by apply runBody_promises_mono). exact Hp.
Qed.

Lemma step_settled_stable ev p url s st :
  Inv st → promises st !! p = Some (url, s) → isSettled st p = true →
  promises (step ev st) !! p = Some (url, s).
Proof.
  intros Hinv Hp Hset.
  assert (∀ q u result t, tasks st !! q = Some t →
            promises (instantiateTransformed q u result st) !! p
              = Some (url, s)) as Htrans.
  { intros q u result t Ht. unfold instantiateTransformed.
    destruct result as [code|].
    - by apply runBody_promises_mono.
    - rewrite settle_promises_other; [done|]. by eapply settled_not_task. }
  destruct ev as [u|q|q r|q|q r|u|q r|q r]; simpl.
  - by apply ssrLoadModule_promises_mono.
  - destruct (tasks st !! q) as [[u|u|u x h k|u x r|u x thenable kt]|] eqn:Ht; try done.
    pose proof (settled_not_task st p q _ Hinv Hset Ht) as Hne.
    unfold instantiateEnsured, ensureEntryFromUrl.
    destruct (urlToModuleMap st !! u) as [md|] eqn:Hmd; simpl.
    + rewrite Hmd. destruct (truthy (ssrError md));
        [by rewrite settle_promises_other|].
      destruct (ssrModule md); [by rewrite settle_promises_other|].
      destruct (ssrTransformResult md) as [code|]; [|done].
      exact (Htrans q u (Some code) _ Ht).
    + rewrite lookup_insert_eq. simpl. done.
  - destruct (tasks st !! q) as [[u|u|u x h k|u x r'|u x thenable kt]|] eqn:Ht; try done.
    pose proof (settled_not_task st p q _ Hinv Hset Ht) as Hne.
    destruct r as [result|e]; [|by rewrite settle_promises_other].
    exact (Htrans q u result _ Ht).
  - unfold resume.
    destruct (tasks st !! q) as [[u|u|u x h k|u x r|u x thenable kt]|] eqn:Ht; try done.
    + destruct h as [v|e|q'|dep]; try done; try (by apply runBody_promises_mono);
        [by apply deliver_promises_mono|].
      destruct (promises st !! q') as [[? s']|]; [|done].
      destruct (outcome s') as [[v|e]|]; [by apply deliver_promises_mono| |done].
      by apply runBody_promises_mono.
    + pose proof (settled_not_task st p q _ Hinv Hset Ht) as Hne.
      unfold instantiateSettled. destruct r as [[]|e];
        by rewrite settle_promises_other.
  - unfold nodeImported.
    destruct (tasks st !! q) as [[u|u|u x h k|u x r'|u x thenable kt]|] eqn:Ht; try done.
    destruct h as [v|e|q'|dep]; try done.
    destruct r as [v|err]; [by apply deliver_promises_mono|].
    destruct (isObject err); by apply runBody_promises_mono.
  - destruct (pendingModules st !! u) as [q|]; [|done].
    by destruct (isSettled st q).
  - unfold thenSettled.
    destruct (promises st !! q) as [[u [| | |v [r'|]]]|] eqn:Hq; try done. simpl.
    rewrite list_lookup_insert_ne; [done|]. intros ->.
    unfold isSettled in Hset. by rewrite Hq in Hset.
  - unfold followed.
    destruct (tasks st !! q) as [[u|u|u x h k|u x r'|u x thenable kt]|] eqn:Ht; try done.
    by apply runBody_promises_mono.
Qed.

(** C5: in every run of the loader, once the node of [url] has an exports
    object attached, that object stays the node's exports object for the rest
    of the run; it is the object every suspended call for [url] holds as its
    [ssrModule], the object a call for [url] returns, and the object a static
    import of [url] returns to a participant of a cycle.  The calls being
    [async], the returned object resolves their promise: a promise for [url]
    that is fulfilled with what the call returned is fulfilled with this
    object, and a promise that follows what the call returned, because its
    [then] is a function, follows this object. *)
Theorem exports_identity (cache : gmap string Body) (evs1 evs2 : list event)
    (url : string) (exports : loc) :
  let st1 := run evs1 (init cache) in
  let st2 := run evs2 st1 in
  ssrModuleOf st1 url = Some exports →
  ssrModuleOf st2 url = Some exports ∧
  (∀ p t x, tasks st2 !! p = Some t → taskUrl t = url →
            taskExports t = Some x → x = exports) ∧
  (∀ p v, promises st2 !! p = Some (url, Fulfilled v) → v = VObject exports) ∧
  (∀ p x r, promises st2 !! p = Some (url, Following x r) → x = VObject exports) ∧
  (∀ importer dep v st',
     unwrapId dep = url →
     ssrImport importer dep false st2 = (HValue v, st') → v = VObject exports).
Proof.
  intros st1 st2 Hatt.
  assert (Inv st1) as Hinv1 by apply run_Inv, init_Inv.
  assert (Inv st2) as Hinv2 by (by apply run_Inv).
  assert (ssrModuleOf st2 url = Some exports) as Hatt2 by (by apply run_attached).
  split; [done|]. split; [|split; [|split]].
  - intros p t x Ht Hurl Hx. destruct Hinv2 as [HT _].
    pose proof (tasks_exports _ _ HT p t x I Ht Hx) as Hx'. congruence.
  - intros p v Hp. destruct Hinv2 as [_ HS].
    destruct (store_fulfilled _ HS p url v Hp) as (x & -> & Hx). congruence.
  - intros p y r Hp. destruct Hinv2 as [_ HS].
    destruct (store_following _ HS p url y r Hp) as (x & -> & Hx). congruence.
  - intros importer dep v st' Hdep. unfold ssrImport.
    destruct (isExternal dep); [done|]. simpl. rewrite Hdep.
    destruct (checkModuleDependencyExists _ url importer).
    + rewrite (ssrModuleOf_ext st2) by done. rewrite Hatt2. by intros [= <- _].
    + by destruct (ssrLoadModule _ _).
Qed.

Lemma settle_promise p url s st :
  promises st !! p = Some (url, Pending) →
  promises (settle p s st) !! p = Some (url, s).
Proof.
  intros Hp. unfold settle. simpl. rewrite Hp.
  apply list_lookup_insert_eq. by eapply lookup_lt_Some.
Qed.

(** C6: in every run of the loader, when the transform of [url] comes back
    without a result, or fails, the promise of the call is rejected and the
    module graph and the objects are as before: the node of [url] has neither
    an error nor an exports object.  After the [.finally] callback, a new
    load of [url] starts an instantiation that reaches the [await] of the
    transform again. *)
Theorem transform_failure_not_cached (cache : gmap string Body)
    (evs : list event) (p : pid) (url : string) (r : completion (option Body)) :
  let st := run evs (init cache) in
  tasks st !! p = Some (AwaitTransform url) →
  r = Normal None ∨ (∃ e, r = Throw e) →
  let st1 := step (Transformed p r) st in
  (∃ e, promises st1 !! p = Some (url, Rejected e)) ∧
  urlToModuleMap st1 = urlToModuleMap st ∧
  objects st1 = objects st ∧
  (∃ md, urlToModuleMap st1 !! url = Some md ∧
         ssrError md = VNull ∧ ssrModule md = None) ∧
  (∀ spelled, unwrapId spelled = url →
     let st2 := step (Finally url) st1 in
     let q := (ssrLoadModule spelled st2).1 in
     q ≠ p ∧
     tasks (step (Ensured q) (ssrLoadModule spelled st2).2) !! q
       = Some (AwaitTransform url)).
Proof.
  intros st Ht Hr st1.
  assert (Inv st) as [HT HS] by apply run_Inv, init_Inv.
  destruct (tasks_pending _ _ HT p _ I Ht) as [Hpend Hprom]. simpl in Hpend, Hprom.
  destruct (tasks_transform _ _ HT p url I Ht) as (md & Hmd & Herr & Hexp & Hres).
  assert (∃ e, st1 = settle p (Rejected e) st) as [e Hst1].
  { unfold st1. simpl. rewrite Ht. destruct Hr as [->|[e ->]]; eauto. }
  rewrite Hst1. split; [exists e; by apply settle_promise|].
  split; [done|]. split; [done|]. split; [by exists md|].
  intros spelled Hsp st2 q.
  assert (st2 = setPending (delete url) (settle p (Rejected e) st)) as Hst2.
  { unfold st2. simpl. rewrite Hpend. unfold isSettled.
    by rewrite (settle_promise p url _ st Hprom). }
  assert (pendingModules st2 !! unwrapId spelled = None) as Hfree.
  { rewrite Hst2, Hsp. simpl. apply lookup_delete_eq. }
  unfold q. rewrite (ssrLoadModule_fresh st2 spelled Hfree). cbn [fst snd].
  assert (length (promises st2) = length (promises st)) as Hlen.
  { rewrite Hst2. simpl. rewrite Hprom. apply length_insert. }
  split.
  { rewrite Hlen. apply lookup_lt_Some in Hprom. lia. }
  simpl. rewrite lookup_insert_eq. unfold instantiateEnsured, ensureEntryFromUrl.
  rewrite Hsp. simpl. rewrite Hst2. simpl. rewrite Hmd. simpl. rewrite Hmd.
  rewrite Herr, Hexp, Hres. simpl. apply lookup_insert_eq.
Qed.

Lemma truthy_not_nullish e : truthy e = true → nullish e = false.
Proof. by destruct e. Qed.

(** A load of an identifier without pending entry whose node holds a truthy
    error: the call is over at its first continuation. *)
Lemma rethrown_object url e : isObject e = true → rethrown url e = e.
Proof. unfold rethrown. by destruct e. Qed.

Lemma load_replays_error st spelled url md :
  unwrapId spelled = url →
  pendingModules st !! url = None →
  urlToModuleMap st !! url = Some md →
  truthy (ssrError md) = true →
  let q := (ssrLoadModule spelled st).1 in
  let st' := step (Ensured q) (ssrLoadModule spelled st).2 in
  q = length (promises st) ∧
  promises st' !! q = Some (url, Rejected (ssrError md)) ∧
  tasks st' !! q = None ∧
  effects st' = effects st ∧
  objects st' = objects st ∧
  urlToModuleMap st' = urlToModuleMap st.
Proof.
  intros Hsp Hfree Hmd He q st'. unfold st', q.
  rewrite ssrLoadModule_fresh by (by rewrite Hsp). rewrite Hsp. cbn [fst snd].
  split; [done|]. simpl. rewrite lookup_insert_eq.
  unfold instantiateEnsured, ensureEntryFromUrl.
  cbn -[truthy]. rewrite Hmd. cbn -[truthy]. rewrite Hmd, He.
  unfold settle. simpl. rewrite list_lookup_middle by done.
  split; [|split; [|done]].
  - rewrite list_lookup_insert_eq; [done|]. rewrite length_app. simpl. lia.
  - by rewrite lookup_delete_eq.
Qed.

(** X1: error caching, for a thrown value that is truthy: in every run of the
    loader, when the body of [url] has thrown [e], [e] is stored on the node
    and the promise of the call is rejected: with [e] when [e] is an object,
    and otherwise with what the logger throws when it is handed [e] as the
    error, or with [e] when the logger throws nothing.  A load of [url] made
    after the [.finally] callback is rejected with the stored [e], whatever
    the first load was rejected with, as soon as its node is at hand, and
    runs nothing: the effect counter and the objects are as they were. *)
Theorem stored_error_replayed (cache : gmap string Body) (evs : list event)
    (p : pid) (url : string) (exports : loc) (e : value) :
  let st := run evs (init cache) in
  tasks st !! p = Some (AwaitInit url exports (Throw e)) →
  truthy e = true →
  let st1 := step (Resume p) st in
  promises st1 !! p
    = Some (url, Rejected (if isObject e then e
                           else match loggerError url e with
                                | Some err => err
                                | None => e
                                end)) ∧
  ssrError <$> urlToModuleMap st1 !! url = Some e ∧
  (∀ spelled, unwrapId spelled = url →
     let st2 := step (Finally url) st1 in
     let q := (ssrLoadModule spelled st2).1 in
     let st3 := step (Ensured q) (ssrLoadModule spelled st2).2 in
     q ≠ p ∧
     promises st3 !! q = Some (url, Rejected e) ∧
     tasks st3 !! q = None ∧
     effects st3 = effects st1 ∧
     objects st3 = objects st1 ∧
     urlToModuleMap st3 = urlToModuleMap st1).
Proof.
  intros st Ht He st1.
  assert (Inv st) as [HT HS] by apply run_Inv, init_Inv.
  destruct (tasks_pending _ _ HT p _ I Ht) as [Hpend Hprom]. simpl in Hpend, Hprom.
  pose proof (tasks_exports _ _ HT p _ exports I Ht eq_refl) as Hatt. simpl in Hatt.
  unfold ssrModuleOf in Hatt.
  destruct (urlToModuleMap st !! url) as [md|] eqn:Hmd; [|done]. simpl in Hatt.
  set (st0 := setGraph (delete url) (setModules (alter (withSsrError e) url) st)).
  set (thrown := if isObject e then e
                 else match loggerError url e with Some err => err | None => e end).
  assert (st1 = settle p (Rejected thrown) st0) as Hst1.
  { unfold st1. simpl. unfold resume. rewrite Ht. unfold instantiateSettled, rethrown.
    rewrite (truthy_not_nullish e He), He. unfold thrown. by destruct (isObject e). }
  clearbody st1. subst st1.
  assert (urlToModuleMap (settle p (Rejected thrown) st0) !! url
          = Some (withSsrError e md)) as Hmd1.
  { simpl. by rewrite lookup_alter_eq, Hmd. }
  assert (promises (settle p (Rejected thrown) st0) !! p = Some (url, Rejected thrown))
    as Hprom1 by (by apply settle_promise).
  split; [done|]. split; [by rewrite Hmd1|].
  intros spelled Hsp st2 q st3.
  assert (st2 = setPending (delete url) (settle p (Rejected thrown) st0)) as Hst2.
  { unfold st2. cbn [step]. cbn [pendingModules settle setTasks setPromises st0 setGraph setModules].
    rewrite Hpend. unfold isSettled. by rewrite Hprom1. }
  clearbody st2. subst st2.
  destruct (load_replays_error (setPending (delete url) (settle p (Rejected thrown) st0))
              spelled url (withSsrError e md) Hsp)
    as (Hq & Hr & Htask & Heff & Hobj & Hmod); try done.
  - simpl. apply lookup_delete_eq.
  - fold q in Hq. fold st3 in Hr, Htask, Heff, Hobj, Hmod.
    split; [|done]. rewrite Hq. apply lookup_lt_Some in Hprom1. simpl in *. lia.
Qed.

(** ** Frozen objects *)

Lemma assoc_forallb (P : property → bool) key props p :
  forallb (λ kp, P kp.2) props = true → assoc key props = Some p → P p = true.
Proof.
  induction props as [|[k q] props IH]; simpl; [done|].
  intros [Hq Hrest]%andb_true_iff. destruct (decide (k = key)); [|by apply IH].
  by intros [= <-].
Qed.

Lemma freezeProperty_frozen p : propertyFrozen p = true → freezeProperty p = p.
Proof.
  destruct p as [[v w|src k] e c]; unfold propertyFrozen, freezeProperty; simpl.
  - intros [Hc Hw]%andb_true_iff. apply negb_true_iff in Hc, Hw. by subst.
  - intros [Hc _]%andb_true_iff. apply negb_true_iff in Hc. by subst.
Qed.

Lemma propertyFrozen_freezeProperty p : propertyFrozen (freezeProperty p) = true.
Proof. by destruct p as [[v w|src k] e c]. Qed.

Lemma isFrozen_freeze h l :
  isOrdinary h l = true → isFrozen (freeze h l) l = true.
Proof.
  unfold isOrdinary, isFrozen, freeze.
  destruct (h !! l) as [[props ext|]|] eqn:Hl; try done. intros _.
  rewrite list_lookup_insert_eq by (by eapply lookup_lt_Some). simpl.
  clear Hl. induction props as [|[k q] props IH]; simpl; [done|].
  by rewrite propertyFrozen_freezeProperty.
Qed.

(** No operation of the loader changes a frozen object. *)
Lemma defineProperty_frozen h l key p h' l' :
  isFrozen h l' = true → defineProperty h l key p = Normal h' →
  h' !! l' = h !! l'.
Proof.
  unfold isFrozen, defineProperty. intros Hfrozen.
  destruct (h !! l) as [[props ext|]|] eqn:Hl; try done.
  destruct (decide (l = l')) as [->|Hne].
  - rewrite Hl in Hfrozen. apply andb_true_iff in Hfrozen as [Hext Hprops].
    apply negb_true_iff in Hext. subst ext.
    destruct (assoc key props) as [old|] eqn:Hold; [|done].
    destruct (sameDescriptor old p); [by intros [= <-]|].
    pose proof (assoc_forallb propertyFrozen key props old Hprops Hold) as Hf.
    unfold propertyFrozen in Hf. apply andb_true_iff in Hf as [Hc _].
    apply negb_true_iff in Hc. by rewrite Hc.
  - destruct (assoc key props) as [old|].
    + destruct (sameDescriptor old p); [by intros [= <-]|].
      destruct (p_configurable old); [|done].
      intros [= <-]. by rewrite list_lookup_insert_ne.
    + destruct ext; [|done]. intros [= <-]. by rewrite list_lookup_insert_ne.
Qed.

Lemma defineProperty_isFrozen h l key p h' l' :
  isFrozen h l' = true → defineProperty h l key p = Normal h' →
  isFrozen h' l' = true.
Proof.
  intros Hf Hdef. unfold isFrozen.
  rewrite (defineProperty_frozen h l key p h' l' Hf Hdef). exact Hf.
Qed.

Lemma exportKeys_frozen ssrModule sourceModule l' : ∀ keys h,
  isFrozen h l' = true →
  (exportKeys ssrModule sourceModule keys h).1 !! l' = h !! l'.
Proof.
  induction keys as [|key keys IH]; intros h Hf; simpl; [done|].
  destruct (bool_decide _ && bool_decide _); [|by apply IH].
  destruct (defineProperty h ssrModule key (installed sourceModule key))
    as [h1|e] eqn:Hdef; [|done].
  rewrite IH by (by eapply defineProperty_isFrozen).
  by eapply defineProperty_frozen.
Qed.

Lemma freeze_props_frozen (props : list (string * property)) :
  forallb (λ kp, propertyFrozen kp.2) props = true →
  prod_map id freezeProperty <$> props = props.
Proof.
  induction props as [|[k q] props IH]; [done|].
  rewrite fmap_cons. simpl. intros [Hq Hrest]%andb_true_iff.
  rewrite IH by done. unfold prod_map. simpl. by rewrite freezeProperty_frozen.
Qed.

Lemma freeze_frozen h l l' :
  isFrozen h l' = true → freeze h l !! l' = h !! l'.
Proof.
  unfold isFrozen, freeze. intros Hf.
  destruct (h !! l) as [[props ext|]|] eqn:Hl; try done.
  destruct (decide (l = l')) as [->|Hne]; [|by rewrite list_lookup_insert_ne].
  rewrite Hl in Hf. apply andb_true_iff in Hf as [Hext Hprops].
  apply negb_true_iff in Hext. subst ext.
  rewrite list_lookup_insert_eq by (by eapply lookup_lt_Some). rewrite Hl.
  by rewrite freeze_props_frozen.
Qed.

Lemma isFrozen_lt h l : isFrozen h l = true → l < length h.
Proof.
  unfold isFrozen. destruct (h !! l) eqn:Hl; [|done]. intros _.
  by eapply lookup_lt_Some.
Qed.

Lemma ssrLoadModule_objects url st : objects (ssrLoadModule url st).2 = objects st.
Proof. unfold ssrLoadModule. by destruct (pendingModules st !! unwrapId url). Qed.

Lemma ssrImport_objects url dep dynamic st :
  objects (ssrImport url dep dynamic st).2 = objects st.
Proof.
  unfold ssrImport. destruct (isExternal dep); [done|].
  set (st1 := if negb dynamic then _ else st).
  assert (objects st1 = objects st) as Hst1 by (unfold st1; by destruct dynamic).
  destruct (negb dynamic && _).
  - by destruct (ssrModuleOf st1 (unwrapId dep)).
  - pose proof (ssrLoadModule_objects (unwrapId dep) st1) as Hm.
    destruct (ssrLoadModule (unwrapId dep) st1). simpl in *. congruence.
Qed.

Lemma runBody_frozen p url exports l : ∀ b st,
  isFrozen (objects st) l = true →
  objects (runBody p url exports b st) !! l = objects st !! l.
Proof.
  induction b as [|e|dep k _|dep k _|src b IH|key prop b IH|b IH|b IH];
    intros st Hf; simpl; try done.
  - pose proof (ssrImport_objects url dep false st) as Hm.
    destruct (ssrImport url dep false st). simpl in *. by rewrite Hm.
  - pose proof (ssrImport_objects url
                  (if bool_decide (firstChar dep = Some "."%char)
                   then posixResolve (dirname url) dep else dep) true st) as Hm.
    unfold ssrDynamicImport. destruct (ssrImport url _ true st). simpl in *.
    by rewrite Hm.
  - pose proof (exportKeys_frozen exports src l (forInKeys (objects st) src)
                  (objects st) Hf) as Hsame.
    unfold ssrExportAll.
    destruct (exportKeys exports src _ (objects st)) as [h' [[]|e]]; simpl in *.
    + rewrite IH; [done|]. simpl. unfold isFrozen in *. by rewrite Hsame.
    + done.
  - destruct (defineProperty (objects st) exports key prop) as [h'|e] eqn:Hdef;
      [|done].
    rewrite IH; simpl.
    + by eapply defineProperty_frozen.
    + by eapply defineProperty_isFrozen.
  - by rewrite IH.
Qed.

Lemma step_frozen ev st l :
  isFrozen (objects st) l = true →
  objects (step ev st) !! l = objects st !! l.
Proof.
  intros Hf. pose proof (isFrozen_lt _ _ Hf) as Hlt.
  assert (∀ q url result,
            objects (instantiateTransformed q url result st) !! l = objects st !! l)
    as Htrans.
  { intros q url result. unfold instantiateTransformed.
    destruct result as [code|]; [|done].
    rewrite runBody_frozen; simpl.
    - by rewrite lookup_app_l.
    - unfold isFrozen in *. by rewrite lookup_app_l. }
  assert (∀ q url x k v,
            objects (deliver q url x k v st) !! l = objects st !! l) as Hdel.
  { intros q url x k v. unfold deliver.
    destruct (readThen (objects st) v); try done; by apply runBody_frozen. }
  destruct ev as [url|q|q r|q|q r|url|q r|q r]; simpl.
  - by rewrite ssrLoadModule_objects.
  - destruct (tasks st !! q) as [[url|url|url x h k|url x r|url x thenable kt]|]; try done.
    unfold instantiateEnsured, ensureEntryFromUrl.
    destruct (urlToModuleMap st !! url) as [md|] eqn:Hmd; simpl.
    + rewrite Hmd. destruct (truthy (ssrError md)); [done|].
      destruct (ssrModule md); [done|].
      destruct (ssrTransformResult md) as [code|]; [|done].
      exact (Htrans q url (Some code)).
    + by rewrite lookup_insert_eq.
  - destruct (tasks st !! q) as [[url|url|url x h k|url x r'|url x thenable kt]|]; try done.
    destruct r as [result|e]; [|done]. exact (Htrans q url result).
  - unfold resume.
    destruct (tasks st !! q) as [[url|url|url x h k|url x r|url x thenable kt]|]; try done.
    + destruct h as [v|e|q'|dep]; try done; try (by apply runBody_frozen).
      destruct (promises st !! q') as [[? s]|]; try done.
      destruct (outcome s) as [[v|e]|]; try done.
      by apply runBody_frozen.
    + unfold instantiateSettled. destruct r as [[]|e]; [|done].
      simpl. by apply freeze_frozen.
  - unfold nodeImported.
    destruct (tasks st !! q) as [[url|url|url x h k|url x r'|url x thenable kt]|]; try done.
    destruct h as [v|e|q'|dep]; try done.
    destruct r as [v|err]; [done|].
    destruct (isObject err); rewrite runBody_frozen; done.
  - destruct (pendingModules st !! url) as [q|]; [|done].
    by destruct (isSettled st q).
  - unfold thenSettled.
    by destruct (promises st !! q) as [[u [| | |v [r'|]]]|].
  - unfold followed.
    destruct (tasks st !! q) as [[url|url|url x h k|url x r'|url x thenable kt]|]; try done.
    by apply runBody_frozen.
Qed.

Lemma run_frozen evs : ∀ st l,
  isFrozen (objects st) l = true →
  objects (run evs st) !! l = objects st !! l.
Proof.
  unfold run. induction evs as [|ev evs IH]; intros st l Hf; [done|].
  simpl. rewrite IH.
  - by apply step_frozen.
  - unfold isFrozen in *. by rewrite step_frozen.
Qed.

(** An ordinary object stays one. *)
Lemma defineProperty_ordinary h l key p h' l' :
  defineProperty h l key p = Normal h' →
  isOrdinary h l' = true → isOrdinary h' l' = true.
Proof.
  unfold defineProperty, isOrdinary.
  destruct (h !! l) as [[props ext|]|] eqn:Hl; try done.
  assert (l < length h) as Hlt by (by eapply lookup_lt_Some).
  assert (∀ props', match h !! l' with Some (Ordinary _ _) => true | _ => false end = true →
            match <[l := Ordinary props' ext]> h !! l' with
            | Some (Ordinary _ _) => true | _ => false end = true) as Hins.
  { intros props' Ho. destruct (decide (l = l')) as [->|Hne].
    - by rewrite list_lookup_insert_eq.
    - by rewrite list_lookup_insert_ne. }
  destruct (assoc key props) as [old|].
  - destruct (sameDescriptor old p); [by intros [= <-]|].
    destruct (p_configurable old); [|done]. intros [= <-]. apply Hins.
  - destruct ext; [|done]. intros [= <-]. apply Hins.
Qed.

Lemma exportKeys_ordinary ssrModule sourceModule l' : ∀ keys h,
  isOrdinary h l' = true →
  isOrdinary (exportKeys ssrModule sourceModule keys h).1 l' = true.
Proof.
  induction keys as [|key keys IH]; intros h Ho; simpl; [done|].
  destruct (bool_decide _ && bool_decide _); [|by apply IH].
  destruct (defineProperty h ssrModule key (installed sourceModule key))
    as [h1|e] eqn:Hdef; [|done].
  apply IH. by eapply defineProperty_ordinary.
Qed.

Lemma freeze_ordinary h l l' :
  isOrdinary h l' = true → isOrdinary (freeze h l) l' = true.
Proof.
  unfold isOrdinary, freeze. intros Ho.
  destruct (h !! l) as [[props ext|]|] eqn:Hl; try done.
  destruct (decide (l = l')) as [->|Hne].
  - by rewrite list_lookup_insert_eq by (by eapply lookup_lt_Some).
  - by rewrite list_lookup_insert_ne.
Qed.

Lemma alloc_ordinary h o l :
  isOrdinary h l = true → isOrdinary (h ++ [o]) l = true.
Proof.
  unfold isOrdinary. intros Ho. rewrite lookup_app_l; [done|].
  destruct (h !! l) eqn:Hl; [|done]. by eapply lookup_lt_Some.
Qed.

Lemma ssrLoadModule_tasks_exports url st q t x :
  tasks (ssrLoadModule url st).2 !! q = Some t → taskExports t = Some x →
  tasks st !! q = Some t.
Proof.
  unfold ssrLoadModule.
  destruct (pendingModules st !! unwrapId url); [done|]. simpl.
  destruct (decide (q = length (promises st))) as [->|Hne].
  - rewrite lookup_insert_eq. by intros [= <-].
  - by rewrite lookup_insert_ne.
Qed.

Lemma ssrImport_tasks_exports url dep dynamic st q t x :
  tasks (ssrImport url dep dynamic st).2 !! q = Some t → taskExports t = Some x →
  tasks st !! q = Some t.
Proof.
  unfold ssrImport. destruct (isExternal dep); [done|].
  set (st1 := if negb dynamic then _ else st).
  assert (tasks st1 = tasks st) as Hst1 by (unfold st1; by destruct dynamic).
  destruct (negb dynamic && _).
  - destruct (ssrModuleOf st1 (unwrapId dep)); simpl; by rewrite Hst1.
  - pose proof (ssrLoadModule_tasks_exports (unwrapId dep) st1 q t x) as Hm.
    destruct (ssrLoadModule (unwrapId dep) st1). simpl in *.
    intros Ht Hx. rewrite <- Hst1. by apply Hm.
Qed.

Lemma suspend_TasksOrdinary p t exports st :
  TasksOrdinary (λ q, q ≠ p) st →
  (∀ x, taskExports t = Some x → x = exports) →
  isOrdinary (objects st) exports = true →
  TasksOrdinary (λ _, True) (suspend p t st).
Proof.
  intros Hold Ht Ho q t' x _. simpl. destruct (decide (q = p)) as [->|Hne].
  - rewrite lookup_insert_eq. intros [= <-] Hx. by rewrite (Ht x Hx).
  - rewrite lookup_insert_ne by done. by apply Hold.
Qed.

Lemma runBody_TasksOrdinary p url exports : ∀ b st,
  TasksOrdinary (λ q, q ≠ p) st →
  isOrdinary (objects st) exports = true →
  TasksOrdinary (λ _, True) (runBody p url exports b st).
Proof.
  assert (∀ dep dynamic k st,
    TasksOrdinary (λ q, q ≠ p) st →
    isOrdinary (objects st) exports = true →
    TasksOrdinary (λ _, True)
      (suspend p (AwaitImport url exports (ssrImport url dep dynamic st).1 k)
                 (ssrImport url dep dynamic st).2)) as Himport.
  { intros dep dynamic k st Hold Ho.
    apply (suspend_TasksOrdinary p _ exports).
    - intros q t x Hq Ht Hx. rewrite ssrImport_objects.
      apply (Hold q t x Hq); [|done]. by eapply ssrImport_tasks_exports.
    - simpl. by intros x [= <-].
    - by rewrite ssrImport_objects. }
  induction b as [|e|dep k _|dep k _|src b IH|key prop b IH|b IH|b IH];
    intros st Hold Ho; simpl.
  - apply (suspend_TasksOrdinary p _ exports); try done. simpl. by intros x [= <-].
  - apply (suspend_TasksOrdinary p _ exports); try done. simpl. by intros x [= <-].
  - pose proof (Himport dep false k st Hold Ho) as Hi.
    by destruct (ssrImport url dep false st).
  - pose proof (Himport (if bool_decide (firstChar dep = Some "."%char)
                         then posixResolve (dirname url) dep else dep)
                        true k st Hold Ho) as Hi.
    unfold ssrDynamicImport. by destruct (ssrImport url _ true st).
  - unfold ssrExportAll.
    destruct (exportKeys exports src (forInKeys (objects st) src) (objects st))
      as [h' r] eqn:Hrun.
    assert (∀ l', isOrdinary (objects st) l' = true → isOrdinary h' l' = true)
      as Hmono.
    { intros l' Hl.
      pose proof (exportKeys_ordinary exports src l'
                    (forInKeys (objects st) src) (objects st) Hl) as Hm.
      by rewrite Hrun in Hm. }
    destruct r as [[]|e].
    + apply IH.
      * intros q t x Hq Ht Hx. simpl. apply Hmono. by apply (Hold q t x).
      * simpl. by apply Hmono.
    + apply (suspend_TasksOrdinary p _ exports).
      * intros q t x Hq Ht Hx. simpl. apply Hmono. by apply (Hold q t x).
      * simpl. by intros x [= <-].
      * simpl. by apply Hmono.
  - destruct (defineProperty (objects st) exports key prop) as [h'|e] eqn:Hdef.
    + apply IH.
      * intros q t x Hq Ht Hx. simpl.
        eapply defineProperty_ordinary; [exact Hdef|]. by apply (Hold q t x).
      * simpl. by eapply defineProperty_ordinary.
    + apply (suspend_TasksOrdinary p _ exports); try done. simpl. by intros x [= <-].
  - apply IH; done.
  - apply (suspend_TasksOrdinary p _ exports); try done. simpl. by intros x [= <-].
Qed.

Lemma TasksOrdinary_weaken p st :
  TasksOrdinary (λ _, True) st → TasksOrdinary (λ q, q ≠ p) st.
Proof. intros Hall q t x _. by apply Hall. Qed.

Lemma settle_TasksOrdinary p s st :
  TasksOrdinary (λ _, True) st → TasksOrdinary (λ _, True) (settle p s st).
Proof.
  intros Hall q t x _. simpl. intros Ht%lookup_delete_Some. destruct Ht as [_ Ht].
  by apply (Hall q t x).
Qed.

Lemma instantiateTransformed_TasksOrdinary p url result st :
  TasksOrdinary (λ _, True) st →
  TasksOrdinary (λ _, True) (instantiateTransformed p url result st).
Proof.
  intros Hall. unfold instantiateTransformed.
  destruct result as [code|]; [|by apply settle_TasksOrdinary].
  apply runBody_TasksOrdinary.
  - intros q t x _ Ht Hx. simpl. apply alloc_ordinary. by apply (Hall q t x).
  - simpl. unfold isOrdinary. by rewrite list_lookup_middle.
Qed.

Lemma deliver_TasksOrdinary p url x k v st :
  TasksOrdinary (λ _, True) st →
  isOrdinary (objects st) x = true →
  TasksOrdinary (λ _, True) (deliver p url x k v st).
Proof.
  intros Hall Ho. pose proof (TasksOrdinary_weaken p st Hall) as Hw. unfold deliver.
  destruct (readThen (objects st) v); try (by apply runBody_TasksOrdinary).
  apply (suspend_TasksOrdinary p _ x); try done. simpl. by intros y [= <-].
Qed.

Lemma step_TasksOrdinary ev st :
  TasksOrdinary (λ _, True) st → TasksOrdinary (λ _, True) (step ev st).
Proof.
  intros Hall. destruct ev as [url|p|p r|p|p r|url|p r|p r]; simpl.
  - intros q t x _ Ht Hx. rewrite ssrLoadModule_objects.
    apply (Hall q t x I); [|done]. by eapply ssrLoadModule_tasks_exports.
  - destruct (tasks st !! p) as [[url|url|url x h k|url x r|url x thenable kt]|]; try done.
    unfold instantiateEnsured.
    assert (TasksOrdinary (λ _, True) (ensureEntryFromUrl url st)) as Hall1.
    { unfold ensureEntryFromUrl. by destruct (urlToModuleMap st !! url). }
    set (st1 := ensureEntryFromUrl url st) in *.
    destruct (urlToModuleMap st1 !! url) as [md|]; [|done].
    destruct (truthy (ssrError md)); [by apply settle_TasksOrdinary|].
    destruct (ssrModule md); [by apply settle_TasksOrdinary|].
    destruct (ssrTransformResult md) as [code|].
    + by apply instantiateTransformed_TasksOrdinary.
    + intros q t x _. simpl. destruct (decide (q = p)) as [->|Hne].
      * rewrite lookup_insert_eq. by intros [= <-].
      * rewrite lookup_insert_ne by done. by apply Hall1.
  - destruct (tasks st !! p) as [[url|url|url x h k|url x r'|url x thenable kt]|]; try done.
    destruct r as [result|e]; [|by apply settle_TasksOrdinary].
    by apply instantiateTransformed_TasksOrdinary.
  - unfold resume.
    destruct (tasks st !! p) as [[url|url|url x h k|url x r|url x thenable kt]|] eqn:Ht; try done.
    + assert (isOrdinary (objects st) x = true) as Ho by (by apply (Hall p _ x I Ht)).
      pose proof (TasksOrdinary_weaken p st Hall) as Hw.
      destruct h as [v|e|q'|dep]; try done; try (by apply runBody_TasksOrdinary);
        try (by apply deliver_TasksOrdinary).
      destruct (promises st !! q') as [[? s]|]; try done.
      destruct (outcome s) as [[v|e]|]; try done;
        [by apply deliver_TasksOrdinary|by apply runBody_TasksOrdinary].
    + unfold instantiateSettled. destruct r as [[]|e].
      * apply settle_TasksOrdinary. intros q t y _ Hq Hy. simpl.
        apply freeze_ordinary. by apply (Hall q t y).
      * apply settle_TasksOrdinary. intros q t y _ Hq Hy. by apply (Hall q t y).
  - unfold nodeImported.
    destruct (tasks st !! p) as [[url|url|url x h k|url x r'|url x thenable kt]|] eqn:Ht; try done.
    destruct h as [v|e|q'|dep]; try done.
    assert (isOrdinary (objects st) x = true) as Ho by (by apply (Hall p _ x I Ht)).
    pose proof (TasksOrdinary_weaken p st Hall) as Hw.
    destruct r as [v|err]; [by apply deliver_TasksOrdinary|].
    destruct (isObject err); by apply runBody_TasksOrdinary.
  - destruct (pendingModules st !! url) as [p|]; [|done].
    by destruct (isSettled st p).
  - unfold thenSettled.
    by destruct (promises st !! p) as [[u [| | |v [r'|]]]|].
  - unfold followed.
    destruct (tasks st !! p) as [[url|url|url x h k|url x r'|url x thenable kt]|] eqn:Ht; try done.
    assert (isOrdinary (objects st) x = true) as Ho by (by apply (Hall p _ x I Ht)).
    pose proof (TasksOrdinary_weaken p st Hall) as Hw.
    by apply runBody_TasksOrdinary.
Qed.

Lemma run_TasksOrdinary evs : ∀ st,
  TasksOrdinary (λ _, True) st → TasksOrdinary (λ _, True) (run evs st).
Proof.
  unfold run. induction evs as [|ev evs IH]; intros st Hall; [done|].
  simpl. apply IH. by apply step_TasksOrdinary.
Qed.

(** X2: freezing on completion: in every run of the loader, when the body of
    [url] has returned, the exports object of the call is frozen, and stays
    as it is whatever runs afterwards; the promise of the call is resolved
    with the frozen object, the function being [async]: the object's [then]
    is read, the promise is fulfilled with the object when that is not a
    function (so when the object has no [then] at all), follows the object
    when it is one, and is rejected with what the read throws. *)
Theorem completed_exports_frozen (cache : gmap string Body) (evs : list event)
    (p : pid) (url : string) (exports : loc) :
  let st := run evs (init cache) in
  tasks st !! p = Some (AwaitInit url exports (Normal ())) →
  let st1 := step (Resume p) st in
  objects st1 = freeze (objects st) exports ∧
  promises st1 !! p
    = Some (url,
            match Get (S stackDepth) (objects st1) (VObject exports) "then" with
            | Some (Normal (VFunction _)) => Following (VObject exports) None
            | Some (Normal _) => Fulfilled (VObject exports)
            | Some (Throw e) => Rejected e
            | None => Rejected (VError "RangeError: Maximum call stack size exceeded")
            end) ∧
  (hasProperty (objects st1) (VObject exports) "then" = false →
   promises st1 !! p = Some (url, Fulfilled (VObject exports))) ∧
  isFrozen (objects st1) exports = true ∧
  (∀ later, objects (run later st1) !! exports = objects st1 !! exports).
Proof.
  intros st Ht st1.
  assert (Inv st) as [HT HS] by apply run_Inv, init_Inv.
  assert (TasksOrdinary (λ _, True) st) as Hord by (by apply run_TasksOrdinary).
  destruct (tasks_pending _ _ HT p _ I Ht) as [Hpend Hprom]. simpl in Hpend, Hprom.
  pose proof (Hord p _ exports I Ht eq_refl) as Ho.
  set (st0 := setObjects (λ h, freeze h exports) (setGraph (delete url) st)).
  assert (st1 = settle p (resolution (objects st0) (VObject exports)) st0) as Hst1.
  { unfold st1. simpl. unfold resume. by rewrite Ht. }
  assert (objects st1 = freeze (objects st) exports) as Hobj by (by rewrite Hst1).
  assert (isFrozen (objects st1) exports = true) as Hf.
  { rewrite Hobj. by apply isFrozen_freeze. }
  assert (promises st1 !! p
          = Some (url, resolution (objects st1) (VObject exports))) as Hp.
  { rewrite Hobj, Hst1. by apply settle_promise. }
  split; [done|]. split; [by rewrite Hp, resolution_object|].
  split; [|split; [done|]].
  - intros Hno. rewrite Hp, resolution_no_then; try done.
    rewrite Hobj. by apply freeze_ordinary.
  - intros later. by apply run_frozen.
Qed.

End Invariants.

(** ** Concrete runs *)

Lemma ssrImport_cycle_witness :
  ((ssrImport (H := exampleHost) "/b.js" "/a.js" false cycleState).1
     = HValue (VObject 0) ∧
   tasks (ssrImport (H := exampleHost) "/b.js" "/a.js" false cycleState).2
     = tasks cycleState) ∧
  ((ssrImport (H := exampleHost) "/a.js" "/a.js" false (init ∅)).1
     = HThrown (VError "[vite] The dependency module is not yet fully initialized due to circular dependency. This is a bug in Vite SSR") ∧
   importErrors (ssrImport (H := exampleHost) "/a.js" "/a.js" false (init ∅)).2
     = [(VError "[vite] The dependency module is not yet fully initialized due to circular dependency. This is a bug in Vite SSR",
         "/a.js")]).
Proof.
  split.
  - destruct (ssrImport_cycle (H := exampleHost) cycleState "/b.js" "/a.js" eq_refl)
      as (h & st' & Himport & _ & _ & _ & Htasks & _ & _ & Hh).
    + apply checkModuleDependencyExists_reach. by vm_compute.
    + rewrite Himport. split; [|exact Htasks]. vm_compute in Hh. exact (proj1 Hh).
  - destruct (ssrImport_cycle (H := exampleHost) (init ∅) "/a.js" "/a.js" eq_refl)
      as (h & st' & Himport & _ & _ & _ & _ & _ & _ & Hh).
    + apply checkModuleDependencyExists_reach. by vm_compute.
    + rewrite Himport. vm_compute in Hh. exact Hh.
Defined.

Lemma exports_identity_witness :
  ssrModuleOf (run (H := exampleHost) cycleRest cycleState) "/a.js" = Some 0 ∧
  promises (run (H := exampleHost) cycleRest cycleState) !! 0
    = Some ("/a.js", Fulfilled (VObject 0)).
Proof.
  destruct (exports_identity (H := exampleHost) ∅ cycleStart cycleRest "/a.js" 0)
    as (Hatt & _ & _ & _ & _).
  - by vm_compute.
  - split; [exact Hatt|]. by vm_compute.
Defined.

Lemma transform_failure_not_cached_witness :
  urlToModuleMap (run (H := exampleHost)
                    (transformStart ++ [Transformed 0 (Normal None)]) (init ∅))
    = urlToModuleMap (run (H := exampleHost) transformStart (init ∅)) ∧
  tasks (run (H := exampleHost)
           (transformStart ++ [Transformed 0 (Normal None); Finally "/m.js";
                               Load "/@id//m.js"; Ensured 1]) (init ∅)) !! 1
    = Some (AwaitTransform "/m.js").
Proof.
  destruct (transform_failure_not_cached (H := exampleHost) ∅ transformStart 0 "/m.js"
              (Normal None))
    as (_ & Hsame & _ & _ & Hretry).
  - by vm_compute.
  - by left.
  - split; [rewrite run_app; exact Hsame|].
    destruct (Hretry "/@id//m.js" eq_refl) as [_ Htask].
    rewrite run_app. exact Htask.
Defined.

(** C4 fails on this run: the body of [/m.js] throws [0]; the first load is
    rejected with [0], which is stored as the node's error; the second load,
    made after the first is over and with nothing changed, does not fail: it
    is fulfilled with the exports object the failed body left behind.  The
    body has run once. *)
Lemma falsy_error_is_not_replayed :
  promises throwsZeroState !! 0 = Some ("/m.js", Rejected (VNum 0)) ∧
  ssrError <$> urlToModuleMap throwsZeroState !! "/m.js" = Some (VNum 0) ∧
  promises throwsZeroState !! 1 = Some ("/m.js", Fulfilled (VObject 0)) ∧
  effects throwsZeroState = 1.
Proof. vm_compute. repeat split. Qed.

(** C9 fails on the same run: the object the second, completed load of
    [/m.js] hands out was never frozen, and a property can still be added to
    it. *)
Lemma exports_of_failed_module_not_frozen :
  promises throwsZeroState !! 1 = Some ("/m.js", Fulfilled (VObject 0)) ∧
  isFrozen (objects throwsZeroState) 0 = false ∧
  forInKeys (objects throwsZeroState) (VObject 0) = ["a"] ∧
  (∃ h', defineProperty (objects throwsZeroState) 0 "b" (exportConst (VNum 2))
         = Normal h' ∧ forInKeys h' (VObject 0) = ["a"; "b"]).
Proof.
  split; [by vm_compute|]. split; [by vm_compute|]. split; [by vm_compute|].
  eexists. split; [by vm_compute|]. by vm_compute.
Qed.

Lemma stored_error_replayed_witness :
  (promises (run (H := exampleHost)
               (throwsErrorStart ++ [Resume 0; Finally "/m.js"; Load "/m.js"; Ensured 1])
               (init ∅)) !! 1
     = Some ("/m.js", Rejected (VError "boom")) ∧
   effects (run (H := exampleHost)
              (throwsErrorStart ++ [Resume 0; Finally "/m.js"; Load "/m.js"; Ensured 1])
              (init ∅)) = 1) ∧
  (promises (step (H := exampleHost) (Resume 0)
               (run (H := exampleHost) throwsStringStart (init ∅))) !! 0
     = Some ("/m.js", Rejected (VError "TypeError: Invalid value used in weak set")) ∧
   promises (run (H := exampleHost)
               (throwsStringStart ++ [Resume 0; Finally "/m.js"; Load "/m.js"; Ensured 1])
               (init ∅)) !! 1
     = Some ("/m.js", Rejected (VStr "boom"))).
Proof.
  split.
  - destruct (stored_error_replayed (H := exampleHost) ∅ throwsErrorStart 0 "/m.js" 0
                (VError "boom"))
      as (_ & _ & Hreplay); [by vm_compute|done|].
    destruct (Hreplay "/m.js" eq_refl) as (_ & Hrejected & _ & Heffects & _).
    rewrite run_app. split; [exact Hrejected|].
    etrans; [exact Heffects|]. by vm_compute.
  - destruct (stored_error_replayed (H := exampleHost) ∅ throwsStringStart 0 "/m.js" 0
                (VStr "boom"))
      as (Hfirst & _ & Hreplay); [by vm_compute|done|].
    destruct (Hreplay "/m.js" eq_refl) as (_ & Hrejected & _).
    rewrite run_app. split; [exact Hfirst|exact Hrejected].
Defined.

Lemma completed_exports_frozen_witness :
  promises (step (H := exampleHost) (Resume 0)
              (run (H := exampleHost) thenableStart (init ∅))) !! 0
    = Some ("/m.js", Following (VObject 0) None) ∧
  promises (step (H := exampleHost) (Resume 0)
              (run (H := exampleHost) cycleBodiesDone (init ∅))) !! 0
    = Some ("/a.js", Fulfilled (VObject 0)) ∧
  isFrozen (objects (step (H := exampleHost) (Resume 0)
                       (run (H := exampleHost) cycleBodiesDone (init ∅)))) 0
    = true ∧
  objects (run (H := exampleHost) [Finally "/a.js"; Load "/a.js"; Ensured 2]
             (step (H := exampleHost) (Resume 0)
                (run (H := exampleHost) cycleBodiesDone (init ∅)))) !! 0
    = objects (step (H := exampleHost) (Resume 0)
                 (run (H := exampleHost) cycleBodiesDone (init ∅))) !! 0.
Proof.
  destruct (completed_exports_frozen (H := exampleHost) ∅ cycleBodiesDone 0 "/a.js" 0)
    as (_ & _ & Hfulfilled & Hfrozen & Hlater); [by vm_compute|].
  split.
  { destruct (completed_exports_frozen (H := exampleHost) ∅ thenableStart 0 "/m.js" 0)
      as (_ & Hfollows & _); [by vm_compute|].
    etrans; [exact Hfollows|]. by vm_compute. }
  split; [apply Hfulfilled; by vm_compute|]. split; [exact Hfrozen|].
  exact (Hlater [Finally "/a.js"; Load "/a.js"; Ensured 2]).
Defined.

(** * Further properties *)

Import Lifecycle.

(** ** More on the tracker *)

Lemma reach_mono g originUrl depUrl a b :
  reach g a b → reach (addPendingModuleDependency g originUrl depUrl) a b.
Proof.
  intros Hr. induction Hr as [|x y z Hxy _ IH]; [apply rtc_refl|].
  eapply rtc_l; [|exact IH]. apply edge_addPendingModuleDependency. by left.
Qed.

Lemma reach_back_edge g url dep x :
  reach (addPendingModuleDependency g url dep) x url → reach g x url.
Proof.
  intros Hr. remember url as target eqn:Ht in Hr at 2.
  induction Hr as [|x y z Hxy _ IH]; [subst; apply rtc_refl|].
  apply edge_addPendingModuleDependency in Hxy as [Hxy|[-> ->]].
  - eapply rtc_l; [exact Hxy|]. by apply IH.
  - subst. apply rtc_refl.
Qed.

(** X3: the edge a static import registers does not decide the cycle check
    that follows it.  [ssrImport] registers the edge from [url] to [dep] and
    then asks whether [url] is reachable from [dep]; the answer is the one
    the graph gave before the edge was added, so an import is answered from
    a cycle exactly when its dependency was already waiting, directly or
    not, for the importer (or is the importer).  Registering an edge never
    turns a positive answer into a negative one, and makes its target
    reachable from its origin. *)
Theorem cycle_check_ignores_new_edge (g : graph) (url dep : string) :
  checkModuleDependencyExists (addPendingModuleDependency g url dep) dep url
    = checkModuleDependencyExists g dep url ∧
  (∀ a b, checkModuleDependencyExists g a b = true →
          checkModuleDependencyExists (addPendingModuleDependency g url dep) a b = true) ∧
  checkModuleDependencyExists (addPendingModuleDependency g url dep) url dep = true.
Proof.
  split; [|split].
  - destruct (checkModuleDependencyExists g dep url) eqn:Hc.
    + apply checkModuleDependencyExists_reach, reach_mono.
      by apply checkModuleDependencyExists_reach.
    + apply not_true_is_false. intros Hc'.
      apply checkModuleDependencyExists_reach, reach_back_edge in Hc'.
      apply checkModuleDependencyExists_reach in Hc'. congruence.
  - intros a b Hc. apply checkModuleDependencyExists_reach, reach_mono.
    by apply checkModuleDependencyExists_reach.
  - apply checkModuleDependencyExists_reach. apply rtc_once.
    apply edge_addPendingModuleDependency. by right.
Qed.

(** ** Re-exports, whatever the exports object is *)

Lemma defineProperty_effect h l key p h' :
  defineProperty h l key p = Normal h' →
  length h' = length h ∧
  (∀ l', l' ≠ l → h' !! l' = h !! l') ∧
  ∃ props extensible props',
    h !! l = Some (Ordinary props extensible) ∧
    h' !! l = Some (Ordinary props' extensible) ∧
    ∀ k, k ≠ key → assoc k props' = assoc k props.
Proof.
  unfold defineProperty.
  destruct (h !! l) as [[props ext|]|] eqn:Hl; try done.
  assert (l < length h) as Hlt by (by eapply lookup_lt_Some).
  destruct (assoc key props) as [old|] eqn:Hold.
  - destruct (sameDescriptor old p).
    { intros [= <-]. split; [done|]. split; [done|]. by exists props, ext, props. }
    destruct (p_configurable old); [|done]. intros [= <-].
    split; [by rewrite length_insert|].
    split; [intros l' Hne; by rewrite list_lookup_insert_ne|].
    exists props, ext, (replace key p props).
    split; [done|]. split; [by apply list_lookup_insert_eq|].
    intros k Hk. rewrite assoc_replace by (by rewrite Hold). by rewrite decide_False.
  - destruct ext; [|done]. intros [= <-].
    split; [by rewrite length_insert|].
    split; [intros l' Hne; by rewrite list_lookup_insert_ne|].
    exists props, true, (props ++ [(key, p)]).
    split; [done|]. split; [by apply list_lookup_insert_eq|].
    intros k Hk. rewrite assoc_app_new by done. by rewrite decide_False.
Qed.

Lemma defineProperty_throws h l key p e :
  defineProperty h l key p = Throw e → e = defineFailed key.
Proof.
  unfold defineProperty.
  destruct (h !! l) as [[props ext|]|]; try (by intros [= <-]).
  destruct (assoc key props) as [old|].
  - destruct (sameDescriptor old p); [done|].
    destruct (p_configurable old); [done|]. by intros [= <-].
  - destruct ext; [done|]. by intros [= <-].
Qed.

Lemma exportKeys_effect ssrModule sourceModule : ∀ keys h,
  let h' := (exportKeys ssrModule sourceModule keys h).1 in
  length h' = length h ∧
  (∀ l, l ≠ ssrModule → h' !! l = h !! l) ∧
  (∀ props extensible, h !! ssrModule = Some (Ordinary props extensible) →
     ∃ props', h' !! ssrModule = Some (Ordinary props' extensible) ∧
       ∀ key, ¬ (key ∈ keys ∧ reexported key) → assoc key props' = assoc key props) ∧
  (∀ e, (exportKeys ssrModule sourceModule keys h).2 = Throw e →
     ∃ key, key ∈ keys ∧ reexported key ∧ e = defineFailed key).
Proof.
  induction keys as [|key keys IH]; intros h; simpl.
  { split; [done|]. split; [done|]. split; [|done].
    intros props ext Hl. by exists props. }
  destruct (bool_decide (key ≠ "default") && bool_decide (key ≠ "__esModule")) eqn:Hkey.
  - apply andb_true_iff in Hkey as [Hd He]. apply bool_decide_eq_true in Hd, He.
    destruct (defineProperty h ssrModule key (installed sourceModule key))
      as [h1|e] eqn:Hdef; simpl.
    + destruct (defineProperty_effect _ _ _ _ _ Hdef)
        as (Hlen1 & Hother1 & props0 & ext0 & props1 & Hl0 & Hl1 & Hassoc1).
      destruct (IH h1) as (Hlen & Hother & Hown & Hthrow).
      split; [congruence|]. split; [intros l Hne; by rewrite Hother, Hother1|]. split.
      * intros props ext Hl. rewrite Hl in Hl0. injection Hl0 as <- <-.
        destruct (Hown props1 ext Hl1) as (props' & Hl' & Hsame).
        exists props'. split; [done|]. intros k Hk. rewrite Hsame.
        -- apply Hassoc1. intros ->. apply Hk. split; [left|done].
        -- intros [??]. apply Hk. split; [by right|done].
      * intros e He'. destruct (Hthrow e He') as (k & Hk & Hre & ->).
        exists k. split; [by right|done].
    + split; [done|]. split; [done|]. split.
      * intros props ext Hl. by exists props.
      * intros e' [= <-]. exists key. split; [left|].
        split; [done|]. by eapply defineProperty_throws.
  - destruct (IH h) as (Hlen & Hother & Hown & Hthrow).
    split; [done|]. split; [done|]. split.
    + intros props ext Hl. destruct (Hown props ext Hl) as (props' & Hl' & Hsame).
      exists props'. split; [done|]. intros k Hk. apply Hsame.
      intros [??]. apply Hk. split; [by right|done].
    + intros e He'. destruct (Hthrow e He') as (k & Hk & Hre & ->).
      exists k. split; [by right|done].
Qed.

Lemma exportKeys_nothing ssrModule sourceModule : ∀ keys h,
  (∀ key, key ∈ keys → ¬ reexported key) →
  exportKeys ssrModule sourceModule keys h = (h, Normal ()).
Proof.
  induction keys as [|key keys IH]; intros h Hno; simpl; [done|].
  destruct (bool_decide (key ≠ "default") && bool_decide (key ≠ "__esModule")) eqn:Hkey.
  - apply andb_true_iff in Hkey as [Hd He]. apply bool_decide_eq_true in Hd, He.
    destruct (Hno key); [left|done].
  - apply IH. intros k Hk. apply Hno. by right.
Qed.

(** X4: what [ssrExportAll] leaves alone, whether it succeeds or throws and
    whatever the exports object is (frozen, not extensible, holding
    non-configurable properties).  It changes no other object, the source
    included, and adds none; on the exports object it keeps the
    extensibility and every property whose key it does not re-export, the
    keys [default] and [__esModule] among them; when it throws, the error is
    the [TypeError] of [Object.defineProperty] for a re-exported key of the
    source; and a source with nothing to re-export, such as [null],
    [undefined], a number, a boolean, or an object whose only enumerable
    keys are [default] and [__esModule], leaves the heap as it is. *)
Theorem ssrExportAll_touches_only_reexported
    (h : heap) (ssrModule : loc) (sourceModule : value) :
  let h' := (ssrExportAll ssrModule sourceModule h).1 in
  length h' = length h ∧
  (∀ l, l ≠ ssrModule → h' !! l = h !! l) ∧
  (∀ props extensible, h !! ssrModule = Some (Ordinary props extensible) →
     ∃ props', h' !! ssrModule = Some (Ordinary props' extensible) ∧
       assoc "default" props' = assoc "default" props ∧
       assoc "__esModule" props' = assoc "__esModule" props ∧
       ∀ key, key ∉ forInKeys h sourceModule → assoc key props' = assoc key props) ∧
  (∀ e, (ssrExportAll ssrModule sourceModule h).2 = Throw e →
     ∃ key, key ∈ forInKeys h sourceModule ∧ reexported key ∧ e = defineFailed key) ∧
  ((∀ key, key ∈ forInKeys h sourceModule → ¬ reexported key) →
     ssrExportAll ssrModule sourceModule h = (h, Normal ())) ∧
  (match sourceModule with
   | VUndefined | VNull | VBool _ | VNum _ => True
   | _ => False
   end → ssrExportAll ssrModule sourceModule h = (h, Normal ())).
Proof.
  intros h'. unfold h', ssrExportAll.
  destruct (exportKeys_effect ssrModule sourceModule (forInKeys h sourceModule) h)
    as (Hlen & Hother & Hown & Hthrow).
  split; [done|]. split; [done|]. split; [|split; [done|split]].
  - intros props ext Hl. destruct (Hown props ext Hl) as (props' & Hl' & Hsame).
    exists props'. split; [done|].
    split; [apply Hsame; by intros [_ [? _]]|].
    split; [apply Hsame; by intros [_ [_ ?]]|].
    intros key Hk. apply Hsame. by intros [? _].
  - apply exportKeys_nothing.
  - intros Hsrc. apply exportKeys_nothing. intros key Hk.
    assert (forInKeys h sourceModule = []) as Hnil.
    { unfold forInKeys, table. by destruct sourceModule, (length h). }
    rewrite Hnil in Hk. by apply elem_of_nil in Hk.
Qed.

(** ** The shim of a module whose default export is itself a marked module *)

Lemma table_ordinary h l props extensible :
  h !! l = Some (Ordinary props extensible) →
  table h (VObject l) = props.
Proof.
  intros Hl. unfold table.
  assert (l < length h) as Hlt by (by eapply lookup_lt_Some).
  destruct (length h); [lia|]. simpl. by rewrite Hl.
Qed.

Lemma Get_data n h l props extensible key x w e c :
  h !! l = Some (Ordinary props extensible) →
  assoc key props = Some (Property (Data x w) e c) →
  Get (S n) h (VObject l) key = Some (Normal x).
Proof.
  intros Hl Hk. simpl. rewrite Hl, (table_ordinary h l props extensible Hl), Hk. done.
Qed.

Lemma hasProperty_ordinary h l props extensible key :
  h !! l = Some (Ordinary props extensible) →
  hasProperty h (VObject l) key = bool_decide (is_Some (assoc key props)).
Proof. intros Hl. unfold hasProperty. by rewrite (table_ordinary h l props extensible). Qed.

Lemma assoc_freeze key props :
  assoc key (prod_map id freezeProperty <$> props) = freezeProperty <$> assoc key props.
Proof.
  induction props as [|[k q] props IH]; [done|].
  rewrite fmap_cons. simpl. by destruct (decide (k = key)).
Qed.





(** X5: the shim of a namespace whose default export is itself a marked
    module, as a module compiled to CommonJS is when Node wraps it.  When
    [mod.default] is an object that has the key [__esModule], the proxy is
    built over that object, not over [mod]: reading [default] gives the
    inner object's own [default] (the inner object itself when it has none),
    and reading another key that the inner object holds with a value that is
    neither [null] nor [undefined] gives the inner value, whatever [mod]
    itself holds under that key. *)
Theorem proxyESM_unwraps_marked_default
    (fuel : nat) (h : heap) (lm ld : loc)
    (pm pd : list (string * property)) (em ed : bool) (w e c : bool)
    (inner : value) :
  h !! lm = Some (Ordinary pm em) →
  assoc "default" pm = Some (Property (Data (VObject ld) w) e c) →
  h !! ld = Some (Ordinary pd ed) →
  is_Some (assoc "__esModule" pd) →
  (assoc "default" pd = None ∧ inner = VObject ld) ∨
  (∃ wx ex cx, assoc "default" pd = Some (Property (Data inner wx) ex cx)) →
  let h' := h ++ [Proxy (VObject ld) inner] in
  proxyESM (S fuel) (VObject lm) h = Some (Normal (VObject (length h), h')) ∧
  (∀ n, Get (S n) h' (VObject (length h)) "default" = Some (Normal inner)) ∧
  (∀ n key y wy ey cy,
     key ≠ "default" →
     assoc key pd = Some (Property (Data y wy) ey cy) → nullish y = false →
     Get (S (S n)) h' (VObject (length h)) key = Some (Normal y)).
Proof.
  intros Hm Hdef Hd Hmark Hinner h'.
  assert (interopTarget (S fuel) h (VObject lm) = Some (Normal (VObject ld, inner)))
    as Htarget.
  { unfold interopTarget.
    rewrite (hasProperty_ordinary h lm pm em _ Hm), Hdef.
    rewrite bool_decide_eq_true_2 by (by eexists).
    rewrite (Get_data fuel h lm pm em _ _ _ _ _ Hm Hdef).
    rewrite !(hasProperty_ordinary h ld pd ed _ Hd).
    rewrite (bool_decide_eq_true_2 _ Hmark).
    cbn [isPrimitive truthy typeof negb orb andb String.eqb].
    destruct Hinner as [[Hin ->]|(wx & ex & cx & Hin)]; rewrite Hin.
    - rewrite bool_decide_eq_false_2; [done|]. by intros [??].
    - rewrite bool_decide_eq_true_2 by (by eexists).
      by rewrite (Get_data fuel h ld pd ed _ _ _ _ _ Hd Hin). }
  split; [|split].
  - unfold proxyESM. by rewrite Htarget.
  - intros n. exact (Get_shim n h (VObject ld) inner "default").
  - intros n key y wy ey cy Hkey Hy Hnn.
    etrans; [exact (Get_shim (S n) h (VObject ld) inner key)|].
    rewrite decide_False by done. unfold shimRead.
    assert (h' !! ld = Some (Ordinary pd ed)) as Hd'.
    { unfold h'. rewrite lookup_app_l; [done|]. by eapply lookup_lt_Some. }
    fold h'. by rewrite (Get_data n h' ld pd ed _ _ _ _ _ Hd' Hy), Hnn.
Qed.

Section LifecycleFacts.
Context `{Host}.

Lemma Tracked_ext P running st st' :
  pendingModuleDependencyGraph st' = pendingModuleDependencyGraph st →
  urlToModuleMap st' = urlToModuleMap st →
  tasks st' = tasks st →
  importErrors st' = importErrors st →
  promises st' = promises st →
  pendingModules st' = pendingModules st →
  Tracked P running st → Tracked P running st'.
Proof.
  intros Hg Hm Ht He Hr Hp [H1 H2 H3 H4 H5 H6]. split.
  - intros u deps. rewrite Hg, Ht. apply H1.
  - intros q t x. rewrite Ht, Hm. apply H2.
  - intros q url m h k. rewrite Ht. apply H3.
  - intros err dep. rewrite He. apply H4.
  - intros p url. rewrite Hr, Ht. apply H5.
  - intros url p. rewrite Hp, Hr. apply H6.
Qed.

(** A call that is suspended starts to run. *)
Lemma Tracked_running p t0 st :
  Tracked (λ _, True) None st → tasks st !! p = Some t0 →
  Tracked (λ q, q ≠ p) (Some (taskUrl t0)) st.
Proof.
  intros [H1 H2 H3 H4 H5 H6] Ht0. split; try done.
  - intros u deps Hu. destruct (H1 u deps Hu) as [?|(q & t & x & _ & Ht & Hurl & Hx)];
      [done|].
    destruct (decide (q = p)) as [->|Hne].
    + left. congruence.
    + right. by exists q, t, x.
  - intros q t x _. by apply H2.
  - intros q url m h k _. by apply H3.
Qed.

(** A call that is not inside its body owns no entry of the graph. *)
Lemma Tracked_exclude p t0 st :
  Tracked (λ _, True) None st → tasks st !! p = Some t0 → taskExports t0 = None →
  Tracked (λ q, q ≠ p) None st.
Proof.
  intros [H1 H2 H3 H4 H5 H6] Ht0 Hx0. split; try done.
  - intros u deps Hu. destruct (H1 u deps Hu) as [?|(q & t & x & _ & Ht & Hurl & Hx)];
      [done|].
    right. exists q, t, x. split; [|done]. intros ->. congruence.
  - intros q t x _. by apply H2.
  - intros q url m h k _. by apply H3.
Qed.

Lemma ssrLoadModule_Tracked P running url st :
  TasksOk P st → Tracked P running st → Tracked P running (ssrLoadModule url st).2.
Proof.
  intros HT HX. unfold ssrLoadModule.
  destruct (pendingModules st !! unwrapId url) as [pending|] eqn:Hpend; [done|].
  simpl. set (id := unwrapId url) in *. set (new := length (promises st)).
  assert (∀ q t, P q → tasks st !! q = Some t → q ≠ new) as Hold.
  { intros q t Hq Ht. destruct (tasks_pending _ _ HT q t Hq Ht) as [_ Hr].
    apply lookup_lt_Some in Hr. unfold new. lia. }
  destruct HX as [H1 H2 H3 H4 H5 H6]. split; simpl.
  - intros u deps Hu. destruct (H1 u deps Hu) as [?|(q & t & x & Hq & Ht & Hurl & Hx)];
      [by left|].
    right. exists q, t, x. split; [done|]. split; [|done].
    rewrite lookup_insert_ne; [done|]. intros <-. by eapply Hold.
  - intros q t x Hq Ht. destruct (decide (q = new)) as [->|Hne].
    + rewrite lookup_insert_eq in Ht. by injection Ht as <-.
    + rewrite lookup_insert_ne in Ht by done. by apply (H2 q).
  - intros q u m h k Hq Ht. destruct (decide (q = new)) as [->|Hne].
    + by rewrite lookup_insert_eq in Ht.
    + rewrite lookup_insert_ne in Ht by done. by apply (H3 q u m h k).
  - done.
  - intros p u Hp. destruct (decide (p = new)) as [->|Hne].
    + by rewrite lookup_insert_eq.
    + rewrite lookup_insert_ne by done. apply (H5 p u).
      destruct (decide (p < length (promises st))) as [Hlt|Hge].
      * by rewrite lookup_app_l in Hp.
      * rewrite lookup_app_r in Hp by lia.
        destruct (p - length (promises st)) as [|n] eqn:Hn; [unfold new in Hne; lia|].
        by destruct n.
  - intros u p. destruct (decide (u = id)) as [->|Hne].
    + rewrite lookup_insert_eq. intros [= <-]. exists Pending.
      by apply list_lookup_middle.
    + rewrite lookup_insert_ne by done. intros Hu.
      destruct (H6 u p Hu) as [s Hs]. exists s.
      rewrite lookup_app_l; [done|]. by eapply lookup_lt_Some.
Qed.

Lemma lookup_addPendingModuleDependency g originUrl depUrl u :
  is_Some (addPendingModuleDependency g originUrl depUrl !! u) →
  u = originUrl ∨ is_Some (g !! u).
Proof.
  unfold addPendingModuleDependency.
  destruct (g !! originUrl); (destruct (decide (u = originUrl)) as [->|Hne];
    [by left|rewrite lookup_insert_ne by done; by right]).
Qed.

(** An import made by the running body: the body goes on running, and the
    import did not throw. *)
Lemma ssrImport_RunningBody p url exports dep dynamic st :
  RunningBody p url exports st →
  RunningBody p url exports (ssrImport url dep dynamic st).2 ∧
  handleOk (ssrImport url dep dynamic st).1.
Proof.
  intros (Hrun & Hatt & Hclean & HX).
  pose proof (ssrImport_Running p url dep dynamic st Hrun) as Hrun'.
  pose proof (ssrImport_modules url dep dynamic st) as Hmod.
  assert (RunningBody p url exports (ssrImport url dep dynamic st).2
          ↔ Tracked (λ q, q ≠ p) (Some url) (ssrImport url dep dynamic st).2) as Hiff.
  { split; [by intros (_ & _ & _ & ?)|]. intros HX'. split; [done|].
    split; [by rewrite (ssrModuleOf_ext st)|]. split; [by rewrite Hmod|done]. }
  rewrite Hiff. clear Hiff Hrun' Hmod.
  unfold ssrImport. destruct (isExternal dep) eqn:Hext; [done|].
  set (d := unwrapId dep).
  set (st1 := if negb dynamic then _ else st).
  assert (Running p url st1) as Hrun1.
  { unfold st1. destruct dynamic; simpl; [done|]. by apply (Running_ext _ _ st). }
  assert (Tracked (λ q, q ≠ p) (Some url) st1) as HX1.
  { unfold st1. destruct dynamic; simpl; [done|].
    destruct HX as [H1 H2 H3 H4 H5 H6]. split; try done. simpl.
    intros u deps Hu.
    destruct (lookup_addPendingModuleDependency
                (pendingModuleDependencyGraph st) url d u) as [->|[deps' Hu']];
      [by rewrite Hu|by left|]. by apply (H1 u deps'). }
  assert (ssrModuleOf st1 url = Some exports) as Hatt1.
  { rewrite (ssrModuleOf_ext st); [done|]. unfold st1. by destruct dynamic. }
  destruct (negb dynamic && _) eqn:Hcycle.
  - apply andb_true_iff in Hcycle as [_ Hcycle].
    apply checkModuleDependencyExists_reach in Hcycle.
    assert (is_Some (ssrModuleOf st1 d)) as [x Hx].
    { apply rtc_inv in Hcycle as [Heq|(y & (deps & Hd & _) & _)].
      - rewrite Heq. by eexists.
      - destruct (tracked_graph _ _ _ HX1 d deps Hd)
          as [[= ->]|(q & t & x & Hq & Ht & Hurl & Hx)]; [by eexists|].
        destruct Hrun1 as (HT & _). exists x. rewrite <- Hurl.
        by apply (tasks_exports _ _ HT q t x). }
    by rewrite Hx.
  - destruct Hrun1 as (HT1 & _).
    pose proof (ssrLoadModule_Tracked _ _ d st1 HT1 HX1) as HX2.
    by destruct (ssrLoadModule d st1).
Qed.

(** The running body suspends: every call is suspended again. *)
Lemma suspend_Tracked p url exports t st :
  RunningBody p url exports st →
  taskUrl t = url → taskExports t = Some exports →
  (∀ u m h k, t = AwaitImport u m h k → handleOk h) →
  Tracked (λ _, True) None (suspend p t st).
Proof.
  intros (Hrun & Hatt & Hclean & [H1 H2 H3 H4 H5 H6]) Hurl Hexp Hh.
  split; simpl; try done.
  - intros u deps Hu. right.
    destruct (H1 u deps Hu) as [[= ->]|(q & t' & x & Hq & Ht & Hu' & Hx)].
    + exists p, t, exports. by rewrite lookup_insert_eq.
    + exists q, t', x. by rewrite lookup_insert_ne.
  - intros q t' x _ Ht. destruct (decide (q = p)) as [->|Hne].
    + rewrite lookup_insert_eq in Ht. injection Ht as <-. by rewrite Hurl.
    + rewrite lookup_insert_ne in Ht by done. by apply (H2 q).
  - intros q u m h k _ Ht. destruct (decide (q = p)) as [->|Hne].
    + rewrite lookup_insert_eq in Ht. injection Ht as ->. by eapply Hh.
    + rewrite lookup_insert_ne in Ht by done. by apply (H3 q u m h k).
  - intros q u Hq. destruct (decide (q = p)) as [->|Hne].
    + by rewrite lookup_insert_eq.
    + rewrite lookup_insert_ne by done. by apply (H5 q u).
Qed.

Lemma RunningBody_ext p url exports st st' :
  urlToModuleMap st' = urlToModuleMap st →
  pendingModules st' = pendingModules st →
  promises st' = promises st →
  tasks st' = tasks st →
  pendingModuleDependencyGraph st' = pendingModuleDependencyGraph st →
  importErrors st' = importErrors st →
  RunningBody p url exports st → RunningBody p url exports st'.
Proof.
  intros Hm Hp Hr Ht Hg He (Hrun & Hatt & Hclean & HX).
  split; [by apply (Running_ext _ _ st)|].
  split; [by rewrite (ssrModuleOf_ext st)|].
  split; [by rewrite Hm|]. by apply (Tracked_ext _ _ st).
Qed.

Lemma runBody_Tracked p url exports : ∀ b st,
  RunningBody p url exports st →
  Tracked (λ _, True) None (runBody p url exports b st).
Proof.
  induction b as [|e|dep k _|dep k _|src b IH|key prop b IH|b IH|b IH];
    intros st Hrun; simpl.
  - by apply (suspend_Tracked p url exports).
  - by apply (suspend_Tracked p url exports).
  - destruct (ssrImport_RunningBody p url exports dep false st Hrun) as [Hr Hh].
    destruct (ssrImport url dep false st) as [h st1]. simpl in *.
    apply (suspend_Tracked p url exports); try done. by intros u m h' k' [= _ _ <- _].
  - unfold ssrDynamicImport.
    destruct (ssrImport_RunningBody p url exports
                (if bool_decide (firstChar dep = Some "."%char)
                 then posixResolve (dirname url) dep else dep) true st Hrun) as [Hr Hh].
    destruct (ssrImport url _ true st) as [h st1]. simpl in *.
    apply (suspend_Tracked p url exports); try done. by intros u m h' k' [= _ _ <- _].
  - destruct (ssrExportAll exports src (objects st)) as [h' [[]|e]].
    + apply IH. by apply (RunningBody_ext _ _ _ st).
    + apply (suspend_Tracked p url exports); try done.
      by apply (RunningBody_ext _ _ _ st).
  - destruct (defineProperty (objects st) exports key prop) as [h'|e].
    + apply IH. by apply (RunningBody_ext _ _ _ st).
    + by apply (suspend_Tracked p url exports).
  - apply IH. by apply (RunningBody_ext _ _ _ st).
  - apply (suspend_Tracked p url exports); try done. by intros u m h' k' [= _ _ <- _].
Qed.

(** The call with promise [p] is over. *)
Lemma settle_Tracked p url s st :
  promises st !! p = Some (url, Pending) → s ≠ Pending →
  Tracked (λ q, q ≠ p) None st →
  Tracked (λ _, True) None (settle p s st).
Proof.
  intros Hprom Hs [H1 H2 H3 H4 H5 H6]. unfold settle. split; simpl; rewrite ?Hprom.
  - intros u deps Hu. right.
    destruct (H1 u deps Hu) as [?|(q & t & x & Hq & Ht & Hu' & Hx)]; [done|].
    exists q, t, x. by rewrite lookup_delete_ne.
  - intros q t x _ Ht. apply lookup_delete_Some in Ht as [Hne Ht].
    apply (H2 q t x); done.
  - intros q u m h k _ Ht. apply lookup_delete_Some in Ht as [Hne Ht].
    apply (H3 q u m h k); done.
  - done.
  - intros q u Hq. destruct (decide (q = p)) as [->|Hne].
    + rewrite list_lookup_insert_eq in Hq by (by eapply lookup_lt_Some).
      injection Hq as _ ->. done.
    + rewrite list_lookup_insert_ne in Hq by done.
      rewrite lookup_delete_ne by done. by apply (H5 q u).
  - intros u q Hq. destruct (H6 u q Hq) as [s' Hs'].
    destruct (decide (q = p)) as [->|Hne].
    + exists s. rewrite list_lookup_insert_eq by (by eapply lookup_lt_Some). congruence.
    + exists s'. by rewrite list_lookup_insert_ne.
Qed.


Lemma ssrError_withSsrModule exports url (m : gmap string ModuleNode) u :
  ssrError <$> alter (withSsrModule exports) url m !! u = ssrError <$> m !! u.
Proof.
  rewrite lookup_alter. case_decide; [subst|done]. by destruct (m !! u).
Qed.

Lemma instantiateTransformed_Tracked p url result st md t0 :
  Running p url st → Tracked (λ _, True) None st →
  tasks st !! p = Some t0 → taskUrl t0 = url → taskExports t0 = None →
  urlToModuleMap st !! url = Some md → ssrModule md = None → ssrError md = VNull →
  Tracked (λ _, True) None (instantiateTransformed p url result st).
Proof.
  intros Hrun HX Ht0 Hurl Hx0 Hmd Hnone Herr. unfold instantiateTransformed.
  destruct result as [code|].
  - apply runBody_Tracked. split; [|split; [|split]].
    + apply (Running_withSsrModule p url _ _ md); [|done..].
      by apply (Running_ext _ _ st).
    + by apply (ssrModuleOf_withSsrModule _ _ _ md).
    + simpl. by rewrite lookup_alter_eq, Hmd; simpl; rewrite Herr.
    + pose proof (Tracked_running p t0 st HX Ht0) as [H1 H2 H3 H4 H5 H6].
      rewrite Hurl in *. split; try done. simpl.
      intros q t x Hq Ht Hx. rewrite ssrError_withSsrModule. by apply (H2 q t x).
  - destruct Hrun as (_ & _ & _ & Hprom).
    apply (settle_Tracked p url); [done|done|]. by apply (Tracked_exclude p t0).
Qed.

Lemma instantiateSettled_Tracked p url exports r st :
  Inv st → Tracked (λ _, True) None st →
  tasks st !! p = Some (AwaitInit url exports r) →
  Tracked (λ _, True) None (instantiateSettled p url exports r st).
Proof.
  intros Hinv HX Ht. pose proof (Running_of_Inv st p _ Hinv Ht) as Hrun.
  simpl in Hrun. pose proof Hrun as (_ & _ & _ & Hprom).
  assert (∀ f, Tracked (λ q, q ≠ p) None
                 (setGraph (delete url) (setModules (alter f url) st))) as Hpre.
  { intros f. destruct HX as [H1 H2 H3 H4 H5 H6]. split; simpl; try done.
    - intros u deps Hu. apply lookup_delete_Some in Hu as [Hne Hu]. right.
      destruct (H1 u deps Hu) as [?|(q & t & x & _ & Hq & Hu' & Hx)]; [done|].
      exists q, t, x. split; [|done]. intros ->. rewrite Ht in Hq.
      injection Hq as <-. done.
    - intros q t x Hq Hqt Hx.
      pose proof (Running_other_url p url st q t Hrun Hq Hqt) as Hne.
      rewrite lookup_alter_ne by done. by apply (H2 q t x).
    - intros q u m h k _. by apply H3. }
  unfold instantiateSettled. destruct r as [[]|e].
  - apply (settle_Tracked p url); [done|apply resolution_not_pending|].
    eapply (Tracked_ext _ _ (setGraph (delete url) (setModules (alter id url) st)));
      try done.
    simpl. apply map_eq. intros u. rewrite lookup_alter. case_decide; [subst|done].
    by destruct (urlToModuleMap st !! u).
  - apply (settle_Tracked p url); [done|done|]. apply Hpre.
Qed.

Lemma ensureEntryFromUrl_Tracked P running url st :
  Tracked P running st → Tracked P running (ensureEntryFromUrl url st).
Proof.
  intros HX. unfold ensureEntryFromUrl.
  destruct (urlToModuleMap st !! url) as [md|] eqn:Hu; [done|].
  destruct HX as [H1 H2 H3 H4 H5 H6]. split; simpl; try done.
  intros q t x Hq Ht Hx. pose proof (H2 q t x Hq Ht Hx) as Hc.
  rewrite lookup_insert_ne; [done|]. intros Heq. by rewrite <- Heq, Hu in Hc.
Qed.

(** A call suspends outside its body. *)
Lemma suspend_plain_Tracked p t0 t st :
  Tracked (λ _, True) None st → tasks st !! p = Some t0 → taskExports t0 = None →
  taskExports t = None →
  Tracked (λ _, True) None (suspend p t st).
Proof.
  intros [H1 H2 H3 H4 H5 H6] Ht0 Hx0 Hx. split; simpl; try done.
  - intros u deps Hu. right.
    destruct (H1 u deps Hu) as [?|(q & t' & x & _ & Hq & Hu' & Hx')]; [done|].
    exists q, t', x. split; [done|]. rewrite lookup_insert_ne; [done|].
    intros <-. congruence.
  - intros q t' x _ Ht. destruct (decide (q = p)) as [->|Hne].
    + rewrite lookup_insert_eq in Ht. injection Ht as <-. congruence.
    + rewrite lookup_insert_ne in Ht by done. by apply (H2 q).
  - intros q u m h k _ Ht. destruct (decide (q = p)) as [->|Hne].
    + rewrite lookup_insert_eq in Ht. injection Ht as ->. done.
    + rewrite lookup_insert_ne in Ht by done. by apply (H3 q u m h k).
  - intros q u Hq. destruct (decide (q = p)) as [->|Hne].
    + by rewrite lookup_insert_eq.
    + rewrite lookup_insert_ne by done. by apply (H5 q u).
Qed.

Lemma instantiateEnsured_Tracked p url st :
  Inv st → Tracked (λ _, True) None st →
  tasks st !! p = Some (AwaitEnsure url) →
  Tracked (λ _, True) None (instantiateEnsured p url st).
Proof.
  intros Hinv HX Ht. pose proof (Running_of_Inv st p _ Hinv Ht) as Hrun.
  simpl in Hrun.
  apply (Running_ensureEntryFromUrl p url url) in Hrun.
  apply (ensureEntryFromUrl_Tracked _ _ url) in HX.
  unfold instantiateEnsured. set (st1 := ensureEntryFromUrl url st) in *.
  assert (tasks st1 !! p = Some (AwaitEnsure url)) as Ht1.
  { unfold st1, ensureEntryFromUrl. by destruct (urlToModuleMap st !! url). }
  pose proof Hrun as (_ & HS & _ & Hprom).
  destruct (urlToModuleMap st1 !! url) as [md|] eqn:Hmd; [|done].
  destruct (truthy (ssrError md)) eqn:Htruthy.
  { apply (settle_Tracked p url); [done|done|]. by apply (Tracked_exclude p _ _ HX Ht1). }
  destruct (ssrModule md) as [exports|] eqn:Hexp.
  { apply (settle_Tracked p url); [done|apply resolution_not_pending|].
    by apply (Tracked_exclude p _ _ HX Ht1). }
  destruct (ssrTransformResult md) as [code|] eqn:Hcode.
  - apply (instantiateTransformed_Tracked p url _ _ md (AwaitEnsure url)); try done.
    by apply (store_fresh _ HS url).
  - by apply (suspend_plain_Tracked p (AwaitEnsure url)).
Qed.

Lemma RunningBody_of_task p url exports st t :
  Inv st → Tracked (λ _, True) None st →
  tasks st !! p = Some t → taskUrl t = url → taskExports t = Some exports →
  RunningBody p url exports st.
Proof.
  intros Hinv HX Ht Hurl Hx. pose proof (Running_of_Inv st p _ Hinv Ht) as Hrun.
  rewrite Hurl in Hrun. split; [done|]. split; [|split].
  - destruct Hinv as [HT _]. rewrite <- Hurl. by apply (tasks_exports _ _ HT p t).
  - rewrite <- Hurl. by apply (tracked_clean _ _ _ HX p t exports).
  - rewrite <- Hurl. by apply Tracked_running.
Qed.

Lemma deliver_Tracked p url exports k v st :
  RunningBody p url exports st →
  Tracked (λ _, True) None (deliver p url exports k v st).
Proof.
  intros Hrun. unfold deliver.
  destruct (readThen (objects st) v); try (by apply runBody_Tracked).
  by apply (suspend_Tracked p url exports).
Qed.

Lemma resume_Tracked p st :
  Inv st → Tracked (λ _, True) None st → Tracked (λ _, True) None (resume p st).
Proof.
  intros Hinv HX. unfold resume.
  destruct (tasks st !! p) as [t|] eqn:Ht; [|done].
  destruct t as [url|url|url exports h k|url exports r|url exports thenable kt]; try done.
  - pose proof (RunningBody_of_task p url exports st _ Hinv HX Ht eq_refl eq_refl)
      as Hrun.
    destruct h as [v|e|q|dep]; try done; try (by apply runBody_Tracked);
      try (by apply deliver_Tracked).
    destruct (promises st !! q) as [[u s]|]; try done.
    destruct (outcome s) as [[v|e]|]; try done;
      [by apply deliver_Tracked|by apply runBody_Tracked].
  - by apply instantiateSettled_Tracked.
Qed.

Lemma followed_Tracked p r st :
  Inv st → Tracked (λ _, True) None st → Tracked (λ _, True) None (followed p r st).
Proof.
  intros Hinv HX. unfold followed.
  destruct (tasks st !! p) as [t|] eqn:Ht; [|done].
  destruct t as [url|url|url exports h k|url exports r'|url exports thenable kt]; try done.
  pose proof (RunningBody_of_task p url exports st _ Hinv HX Ht eq_refl eq_refl)
    as Hrun.
  by apply runBody_Tracked.
Qed.

Lemma thenSettled_Tracked p r st :
  Tracked (λ _, True) None st → Tracked (λ _, True) None (thenSettled p r st).
Proof.
  intros HX. unfold thenSettled.
  destruct (promises st !! p) as [[url [| | |v [r'|]]]|] eqn:Hp; try done.
  destruct HX as [H1 H2 H3 H4 H5 H6]. split; simpl; try done.
  - intros q u Hq. destruct (decide (q = p)) as [->|Hne].
    + by rewrite list_lookup_insert_eq in Hq by (by eapply lookup_lt_Some).
    + rewrite list_lookup_insert_ne in Hq by done. by apply (H5 q u).
  - intros u q Hq. destruct (H6 u q Hq) as [s' Hs'].
    destruct (decide (q = p)) as [->|Hne].
    + eexists. rewrite list_lookup_insert_eq by (by eapply lookup_lt_Some).
      f_equal. f_equal. congruence.
    + exists s'. by rewrite list_lookup_insert_ne.
Qed.

Lemma nodeImported_Tracked p r st :
  Inv st → Tracked (λ _, True) None st → Tracked (λ _, True) None (nodeImported p r st).
Proof.
  intros Hinv HX. unfold nodeImported.
  destruct (tasks st !! p) as [t|] eqn:Ht; [|done].
  destruct t as [url|url|url exports h k|url exports r'|url exports thenable kt]; try done.
  destruct h as [v|e|q|dep]; try done.
  pose proof (RunningBody_of_task p url exports st _ Hinv HX Ht eq_refl eq_refl)
    as Hrun.
  destruct r as [v|err]; [by apply deliver_Tracked|].
  destruct (isObject err); [|by apply runBody_Tracked].
  apply runBody_Tracked. destruct Hrun as (Hrun & Hatt & Hclean & HX').
  split; [by apply (Running_ext _ _ st)|]. split; [done|]. split; [done|].
  pose proof (tracked_handles _ _ _ HX p url exports (HNode dep) k I Ht) as Hdep.
  destruct HX' as [H1 H2 H3 H4 H5 H6]. split; try done. simpl.
  intros err' dep' [[= -> ->]|Hin]%elem_of_cons; [done|]. by apply (H4 err').
Qed.

Lemma step_Tracked ev st :
  Inv st → Tracked (λ _, True) None st → Tracked (λ _, True) None (step ev st).
Proof.
  intros Hinv HX. destruct ev as [url|p|p r|p|p r|url|p r|p r]; simpl;
    [| | | | | |by apply thenSettled_Tracked|by apply followed_Tracked].
  - destruct Hinv as [HT _]. by apply ssrLoadModule_Tracked.
  - destruct (tasks st !! p) as [[url|url|url exports h k|url exports r|url exports thenable kt]|] eqn:Ht;
      try done.
    by apply instantiateEnsured_Tracked.
  - destruct (tasks st !! p) as [[url|url|url exports h k|url exports r'|url exports thenable kt]|] eqn:Ht;
      try done.
    pose proof (Running_of_Inv st p _ Hinv Ht) as Hrun. simpl in Hrun.
    destruct r as [result|e].
    + destruct Hinv as [HT _].
      destruct (tasks_transform _ _ HT p url I Ht) as (md & Hmd & Herr & Hnone & _).
      by apply (instantiateTransformed_Tracked p url _ _ md (AwaitTransform url)).
    + destruct Hrun as (_ & _ & _ & Hprom).
      apply (settle_Tracked p url); [done|done|].
      by apply (Tracked_exclude p (AwaitTransform url)).
  - by apply resume_Tracked.
  - by apply nodeImported_Tracked.
  - destruct (pendingModules st !! url) as [p|] eqn:Hpend; [|done].
    destruct (isSettled st p) eqn:Hset; [|done].
    destruct HX as [H1 H2 H3 H4 H5 H6]. split; simpl; try done.
    intros u q Hq. apply lookup_delete_Some in Hq as [_ Hq]. by apply H6.
Qed.

Lemma init_Tracked cache : Tracked (λ _, True) None (init cache).
Proof. split; simpl; try done. intros err dep Hin. by apply elem_of_nil in Hin. Qed.

Lemma run_Tracked evs : ∀ st,
  Inv st → Tracked (λ _, True) None st → Tracked (λ _, True) None (run evs st).
Proof.
  unfold run. induction evs as [|ev evs IH]; intros st Hinv HX; [done|].
  simpl. apply IH; [by apply step_Inv|by apply step_Tracked].
Qed.

End LifecycleFacts.

Section LifecycleTheorems.
Context `{Host}.

Lemma reachable_Tracked cache evs :
  Inv (run evs (init cache)) ∧ Tracked (λ _, True) None (run evs (init cache)).
Proof.
  split; [apply run_Inv, init_Inv|].
  apply run_Tracked; [apply init_Inv|apply init_Tracked].
Qed.

(** X6: the dependency graph holds no stale entry.  In every run of the
    loader, an origin of the graph is the url of a call that is suspended
    inside its body and whose promise has not settled: [ssrImport] adds
    edges for the running body only, and the [finally] clause removes the
    entry of a url when its body is over, whether it returned or threw.  So
    a url without a suspended call has no entry, and once no call is
    suspended the graph is empty. *)
Theorem graph_entries_belong_to_running_bodies
    (cache : gmap string Body) (evs : list event) :
  let st := run evs (init cache) in
  (∀ u deps, pendingModuleDependencyGraph st !! u = Some deps →
     ∃ p t exports,
       tasks st !! p = Some t ∧ taskUrl t = u ∧ taskExports t = Some exports ∧
       promises st !! p = Some (u, Pending)) ∧
  (∀ u, (∀ p t, tasks st !! p = Some t → taskUrl t ≠ u) →
        pendingModuleDependencyGraph st !! u = None) ∧
  (tasks st = ∅ → pendingModuleDependencyGraph st = ∅).
Proof.
  intros st. destruct (reachable_Tracked cache evs) as [[HT _] HX]. fold st in HT, HX. clearbody st.
  assert (∀ u deps, pendingModuleDependencyGraph st !! u = Some deps →
     ∃ p t exports,
       tasks st !! p = Some t ∧ taskUrl t = u ∧ taskExports t = Some exports ∧
       promises st !! p = Some (u, Pending)) as Hkeys.
  { intros u deps Hu.
    destruct (tracked_graph _ _ _ HX u deps Hu) as [?|(p & t & x & _ & Ht & Hurl & Hx)];
      [done|].
    exists p, t, x. repeat split; try done.
    destruct (tasks_pending _ _ HT p t I Ht) as [_ Hp]. by rewrite <- Hurl. }
  split; [done|]. split.
  - intros u Hnone. destruct (pendingModuleDependencyGraph st !! u) as [deps|] eqn:Hu;
      [|done].
    destruct (Hkeys u deps Hu) as (p & t & x & Ht & Hurl & _). by destruct (Hnone p t).
  - intros Hempty. apply map_empty. intros u.
    destruct (pendingModuleDependencyGraph st !! u) as [deps|] eqn:Hu; [|done].
    destruct (Hkeys u deps Hu) as (p & t & x & Ht & _). by rewrite Hempty in Ht.
Qed.


End LifecycleTheorems.

Section CompletedFacts.
Context `{Host}.















End CompletedFacts.

Section CompletedTheorems.
Context `{Host}.






(** X10: what the [catch] and [finally] clauses leave when a body throws
    [e].  In every run of the loader the promise of the call is rejected
    with [e], with two exceptions: when [e] is [null] or [undefined],
    reading [e.stack] in the [catch] clause throws, and the promise is
    rejected with that [TypeError]; when [e] is truthy and not an object (a
    string, a number other than zero, [true]), the logger is handed [e] as
    the error, and the promise is rejected with what the logger throws, if
    it throws.  In every case [e] has been stored as the node's error, the
    node keeps the exports object, which is not frozen (no object is
    changed), the entry of [url] is removed from the dependency graph, and
    the entry in [pendingModules] stays until the [.finally] callback. *)
Theorem failed_body_outcome
    (cache : gmap string Body) (evs : list event)
    (p : pid) (url : string) (exports : loc) (e : value) :
  let st := run evs (init cache) in
  tasks st !! p = Some (AwaitInit url exports (Throw e)) →
  let st1 := step (Resume p) st in
  promises st1 !! p
    = Some (url,
            Rejected
              (if nullish e
               then VError "TypeError: Cannot read properties of undefined"
               else if truthy e && negb (isObject e)
               then match loggerError url e with Some err => err | None => e end
               else e)) ∧
  ssrError <$> urlToModuleMap st1 !! url = Some e ∧
  ssrModuleOf st1 url = Some exports ∧
  objects st1 = objects st ∧
  pendingModuleDependencyGraph st1 = delete url (pendingModuleDependencyGraph st) ∧
  pendingModules st1 = pendingModules st ∧
  tasks st1 = delete p (tasks st) ∧
  importErrors st1 = importErrors st.
Proof.
  intros st Ht st1.
  assert (Inv st) as [HT HS] by apply run_Inv, init_Inv.
  destruct (tasks_pending _ _ HT p _ I Ht) as [Hpend Hprom]. simpl in Hpend, Hprom.
  pose proof (tasks_exports _ _ HT p _ exports I Ht eq_refl) as Hatt. simpl in Hatt.
  assert (st1 = settle p (Rejected (rethrown url e))
                  (setGraph (delete url)
                     (setModules (alter (withSsrError e) url) st))) as ->.
  { unfold st1. simpl. unfold resume. by rewrite Ht. }
  split; [by apply settle_promise|].
  unfold ssrModuleOf in *. simpl. rewrite lookup_alter_eq.
  destruct (urlToModuleMap st !! url) as [md|]; [|done]. done.
Qed.

End CompletedTheorems.

(** ** The marker of an exports object *)

Lemma elem_of_replace key p props k q :
  (k, q) ∈ replace key p props → (k, q) ∈ props ∨ (k = key ∧ q = p).
Proof.
  induction props as [|[k0 q0] props IH]; simpl; [by left|].
  destruct (decide (k0 = key)) as [->|Hne].
  - intros [[= -> ->]|Hin]%elem_of_cons; [by right|]. left. by right.
  - intros [[= -> ->]|Hin]%elem_of_cons; [left; by left|].
    destruct (IH Hin) as [?|?]; [left; by right|by right].
Qed.

Lemma defineProperty_marked h l key p h' l' :
  marked h l' → defineProperty h l key p = Normal h' → marked h' l'.
Proof.
  intros (props' & ext' & Hl' & Hm & Hall). unfold defineProperty.
  destruct (h !! l) as [[props ext|]|] eqn:Hl; try done.
  assert (l < length h) as Hlt by (by eapply lookup_lt_Some).
  destruct (decide (l = l')) as [->|Hne].
  - rewrite Hl in Hl'. injection Hl' as <- <-.
    destruct (decide (key = "__esModule")) as [->|Hkey].
    + rewrite Hm. destruct (sameDescriptor esModuleMarker p); [|done].
      intros [= <-]. by exists props, ext.
    + destruct (assoc key props) as [old|] eqn:Hold.
      * destruct (sameDescriptor old p); [intros [= <-]; by exists props, ext|].
        destruct (p_configurable old); [|done]. intros [= <-].
        exists (replace key p props), ext.
        split; [by apply list_lookup_insert_eq|]. split.
        -- rewrite assoc_replace by (by rewrite Hold). by rewrite decide_False.
        -- intros q [Hin|[? _]]%elem_of_replace; [by apply Hall|done].
      * destruct ext; [|done]. intros [= <-].
        exists (props ++ [(key, p)]), true.
        split; [by apply list_lookup_insert_eq|]. split.
        -- rewrite assoc_app_new by done. by rewrite decide_False.
        -- intros q [Hin|Hin]%elem_of_app; [by apply Hall|].
           apply list_elem_of_singleton in Hin. congruence.
  - assert (h' !! l' = h !! l' → marked h' l') as Hsame.
    { intros Heq. exists props', ext'. by rewrite Heq. }
    destruct (assoc key props) as [old|].
    + destruct (sameDescriptor old p); [intros [= <-]; by apply Hsame|].
      destruct (p_configurable old); [|done].
      intros [= <-]. apply Hsame. by rewrite list_lookup_insert_ne.
    + destruct ext; [|done]. intros [= <-]. apply Hsame.
      by rewrite list_lookup_insert_ne.
Qed.

Lemma exportKeys_marked ssrModule sourceModule l' : ∀ keys h,
  marked h l' → marked (exportKeys ssrModule sourceModule keys h).1 l'.
Proof.
  induction keys as [|key keys IH]; intros h Hm; simpl; [done|].
  destruct (bool_decide _ && bool_decide _); [|by apply IH].
  destruct (defineProperty h ssrModule key (installed sourceModule key))
    as [h1|e] eqn:Hdef; [|done].
  apply IH. by eapply defineProperty_marked.
Qed.

Lemma freeze_marked h l l' : marked h l' → marked (freeze h l) l'.
Proof.
  intros (props' & ext' & Hl' & Hm & Hall). unfold freeze.
  destruct (h !! l) as [[props ext|]|] eqn:Hl; try (by exists props', ext').
  destruct (decide (l = l')) as [->|Hne].
  - rewrite Hl in Hl'. injection Hl' as <- <-.
    exists (prod_map id freezeProperty <$> props), false.
    split; [apply list_lookup_insert_eq; by eapply lookup_lt_Some|]. split.
    + by rewrite assoc_freeze, Hm.
    + intros q ([k q0] & [= <- ->] & Hin)%list_elem_of_fmap.
      simpl in Hin. by rewrite (Hall q0 Hin).
  - exists props', ext'. by rewrite list_lookup_insert_ne.
Qed.

Lemma marked_alloc h o l : marked h l → marked (h ++ [o]) l.
Proof.
  intros (props & ext & Hl & Hm). exists props, ext. split; [|done].
  rewrite lookup_app_l; [done|]. by eapply lookup_lt_Some.
Qed.

Lemma marked_new h : marked (h ++ [newSsrModule]) (length h).
Proof.
  eexists _, _. split; [by apply list_lookup_middle|]. split; [done|].
  intros p Hin. apply list_elem_of_singleton in Hin. by injection Hin as ->.
Qed.

Section MarkerFacts.
Context `{Host}.

Lemma runBody_marked p url exports l : ∀ b st,
  marked (objects st) l → marked (objects (runBody p url exports b st)) l.
Proof.
  induction b as [|e|dep k _|dep k _|src b IH|key prop b IH|b IH|b IH];
    intros st Hm; simpl; try done.
  - pose proof (ssrImport_objects url dep false st) as Ho.
    destruct (ssrImport url dep false st). simpl in *. by rewrite Ho.
  - pose proof (ssrImport_objects url
                  (if bool_decide (firstChar dep = Some "."%char)
                   then posixResolve (dirname url) dep else dep) true st) as Ho.
    unfold ssrDynamicImport. destruct (ssrImport url _ true st). simpl in *.
    by rewrite Ho.
  - pose proof (exportKeys_marked exports src l (forInKeys (objects st) src)
                  (objects st) Hm) as Hm'.
    unfold ssrExportAll.
    destruct (exportKeys exports src _ (objects st)) as [h' [[]|e]]; simpl in *.
    + by apply IH.
    + done.
  - destruct (defineProperty (objects st) exports key prop) as [h'|e] eqn:Hdef;
      [|done].
    apply IH. simpl. by eapply defineProperty_marked.
  - by apply IH.
Qed.

Lemma runBody_NodesMarked p url exports b st :
  NodesMarked st → NodesMarked (runBody p url exports b st).
Proof.
  intros Hall u x. rewrite (ssrModuleOf_ext st) by apply runBody_modules.
  intros Hu. apply runBody_marked. by apply (Hall u).
Qed.

Lemma NodesMarked_ext st st' :
  urlToModuleMap st' = urlToModuleMap st → objects st' = objects st →
  NodesMarked st → NodesMarked st'.
Proof.
  intros Hm Ho Hall u x. rewrite (ssrModuleOf_ext st st') by done. rewrite Ho.
  apply Hall.
Qed.

Lemma instantiateTransformed_NodesMarked p url result st :
  NodesMarked st → NodesMarked (instantiateTransformed p url result st).
Proof.
  intros Hall. unfold instantiateTransformed.
  destruct result as [code|]; [|done].
  apply runBody_NodesMarked. intros u x. unfold ssrModuleOf. simpl.
  rewrite lookup_alter. case_decide as Hu.
  - subst u. destruct (urlToModuleMap st !! url) as [md|]; [|done]. simpl.
    intros [= <-]. apply marked_new.
  - intros Hx. apply marked_alloc. by apply (Hall u).
Qed.

Lemma deliver_NodesMarked p url exports k v st :
  NodesMarked st → NodesMarked (deliver p url exports k v st).
Proof.
  intros Hall. unfold deliver.
  destruct (readThen (objects st) v); try done; by apply runBody_NodesMarked.
Qed.

Lemma step_NodesMarked ev st : NodesMarked st → NodesMarked (step ev st).
Proof.
  intros Hall. destruct ev as [url|q|q r|q|q r|url|q r|q r]; simpl.
  - apply (NodesMarked_ext st); [apply ssrLoadModule_modules|
      apply ssrLoadModule_objects|done].
  - destruct (tasks st !! q) as [[url|url|url x h k|url x r|url x thenable kt]|]; try done.
    unfold instantiateEnsured.
    assert (NodesMarked (ensureEntryFromUrl url st)) as Hall1.
    { unfold ensureEntryFromUrl.
      destruct (urlToModuleMap st !! url) as [md|] eqn:Hmd; [done|].
      intros u y. unfold ssrModuleOf. simpl.
      destruct (decide (u = url)) as [->|Hne].
      - by rewrite lookup_insert_eq.
      - rewrite lookup_insert_ne by done. apply (Hall u). }
    set (st1 := ensureEntryFromUrl url st) in *.
    destruct (urlToModuleMap st1 !! url) as [md|]; [|done].
    destruct (truthy (ssrError md)); [done|].
    destruct (ssrModule md); [done|].
    destruct (ssrTransformResult md) as [code|]; [|done].
    by apply instantiateTransformed_NodesMarked.
  - destruct (tasks st !! q) as [[url|url|url x h k|url x r'|url x thenable kt]|]; try done.
    destruct r as [result|e]; [|done]. by apply instantiateTransformed_NodesMarked.
  - unfold resume.
    destruct (tasks st !! q) as [[url|url|url x h k|url x r|url x thenable kt]|]; try done.
    + destruct h as [v|e|q'|dep]; try done; try (by apply runBody_NodesMarked);
        try (by apply deliver_NodesMarked).
      destruct (promises st !! q') as [[? s]|]; try done.
      destruct (outcome s) as [[v|e]|]; try done;
        [by apply deliver_NodesMarked|by apply runBody_NodesMarked].
    + unfold instantiateSettled. destruct r as [[]|e]; intros u y; simpl.
      * rewrite (ssrModuleOf_ext st) by done. intros Hu.
        apply freeze_marked. by apply (Hall u).
      * unfold settle. rewrite (ssrModuleOf_ext (setModules (alter (withSsrError e) url) st))
          by done.
        rewrite ssrModuleOf_withSsrError. apply (Hall u).
  - unfold nodeImported.
    destruct (tasks st !! q) as [[url|url|url x h k|url x r'|url x thenable kt]|]; try done.
    destruct h as [v|e|q'|dep]; try done.
    destruct r as [v|err]; [by apply deliver_NodesMarked|].
    destruct (isObject err); by apply runBody_NodesMarked.
  - destruct (pendingModules st !! url) as [q|]; [|done].
    by destruct (isSettled st q).
  - unfold thenSettled.
    by destruct (promises st !! q) as [[u [| | |v [r'|]]]|].
  - unfold followed.
    destruct (tasks st !! q) as [[url|url|url x h k|url x r'|url x thenable kt]|]; try done.
    by apply runBody_NodesMarked.
Qed.

Lemma run_NodesMarked evs : ∀ st, NodesMarked st → NodesMarked (run evs st).
Proof.
  unfold run. induction evs as [|ev evs IH]; intros st Hall; [done|].
  simpl. apply IH. by apply step_NodesMarked.
Qed.

Lemma init_NodesMarked cache : NodesMarked (init cache).
Proof.
  intros u x. unfold ssrModuleOf. simpl. rewrite lookup_fmap.
  by destruct (cache !! u).
Qed.

(** X11: every exports object is marked.  In every run of the loader, the
    exports object of a node has the property [__esModule], which reads
    [true], is not enumerable (so [for...in], and with it [ssrExportAll]
    on this module, never sees it) and cannot be redefined: a successful
    [Object.defineProperty] on that key changes nothing.  The object keeps
    the marker for the rest of the run, frozen or not. *)
Theorem exports_carry_esModule
    (cache : gmap string Body) (evs : list event) (url : string) (exports : loc) :
  let st := run evs (init cache) in
  ssrModuleOf st url = Some exports →
  hasProperty (objects st) (VObject exports) "__esModule" = true ∧
  (∀ n, Get (S n) (objects st) (VObject exports) "__esModule"
        = Some (Normal (VBool true))) ∧
  ("__esModule" ∉ forInKeys (objects st) (VObject exports)) ∧
  (∀ p h', defineProperty (objects st) exports "__esModule" p = Normal h' →
           h' = objects st) ∧
  (∀ later, marked (objects (run later st)) exports).
Proof.
  intros st Hatt.
  assert (NodesMarked st) as Hall by apply run_NodesMarked, init_NodesMarked.
  destruct (Hall url exports Hatt) as (props & ext & Hl & Hm & Hone).
  assert (table (objects st) (VObject exports) = props) as Htable.
  { unfold table. assert (exports < length (objects st)) as Hlt
      by (by eapply lookup_lt_Some).
    destruct (length (objects st)); [lia|]. simpl. by rewrite Hl. }
  split; [|split; [|split; [|split]]].
  - unfold hasProperty. rewrite Htable, Hm. by apply bool_decide_eq_true.
  - intros n. simpl. by rewrite Hl, Htable, Hm.
  - unfold forInKeys. rewrite Htable, elem_of_ownKeyOrder.
    intros ([k q] & Hk & Hin)%list_elem_of_fmap. simpl in Hk. subst k.
    apply list_elem_of_filter in Hin as [Hen Hin]. simpl in Hen.
    by rewrite (Hone q Hin) in Hen.
  - intros p h'. unfold defineProperty. rewrite Hl, Hm.
    destruct (sameDescriptor esModuleMarker p); [|done]. by intros [= <-].
  - intros later. assert (NodesMarked (run later st)) as Hlater
      by (by apply run_NodesMarked).
    apply (Hlater url). apply run_attached; [apply run_Inv, init_Inv|done].
Qed.

End MarkerFacts.

(** ** More concrete runs *)

Lemma proxyESM_unwraps_marked_default_witness :
  proxyESM 1 (VObject 0) interopHeap
    = Some (Normal (VObject 2, interopHeap ++ [Proxy (VObject 1) (VNum 7)])) ∧
  Get 2 (interopHeap ++ [Proxy (VObject 1) (VNum 7)]) (VObject 2) "named"
    = Some (Normal (VNum 2)).
Proof.
  destruct (proxyESM_unwraps_marked_default 0 interopHeap 0 1
              [("default", Property (Data (VObject 1) true) true true);
               ("named", Property (Data (VNum 1) true) true true)]
              [("__esModule", Property (Data (VBool true) false) false false);
               ("default", Property (Data (VNum 7) true) true true);
               ("named", Property (Data (VNum 2) true) true true)]
              true true true true true (VNum 7) eq_refl eq_refl eq_refl)
    as (Hshim & _ & Hnamed).
  - by eexists.
  - right. by exists true, true, true.
  - split; [exact Hshim|].
    exact (Hnamed 0 "named" (VNum 2) true true true ltac:(done) eq_refl eq_refl).
Defined.


Lemma failed_body_outcome_witness :
  (promises (step (H := exampleHost) (Resume 0)
               (run (H := exampleHost) throwsUndefinedStart (init ∅))) !! 0
     = Some ("/m.js", Rejected (VError "TypeError: Cannot read properties of undefined")) ∧
   ssrError <$> urlToModuleMap (step (H := exampleHost) (Resume 0)
                                  (run (H := exampleHost) throwsUndefinedStart (init ∅)))
                  !! "/m.js"
     = Some VUndefined) ∧
  (promises (step (H := exampleHost) (Resume 0)
               (run (H := exampleHost) throwsStringStart (init ∅))) !! 0
     = Some ("/m.js", Rejected (VError "TypeError: Invalid value used in weak set")) ∧
   ssrError <$> urlToModuleMap (step (H := exampleHost) (Resume 0)
                                  (run (H := exampleHost) throwsStringStart (init ∅)))
                  !! "/m.js"
     = Some (VStr "boom")).
Proof.
  split.
  - destruct (failed_body_outcome (H := exampleHost) ∅ throwsUndefinedStart 0 "/m.js" 0
                VUndefined)
      as (Hrejected & Hstored & _); [by vm_compute|].
    split; [exact Hrejected|exact Hstored].
  - destruct (failed_body_outcome (H := exampleHost) ∅ throwsStringStart 0 "/m.js" 0
                (VStr "boom"))
      as (Hrejected & Hstored & _); [by vm_compute|].
    split; [exact Hrejected|exact Hstored].
Defined.

Lemma exports_carry_esModule_witness :
  hasProperty (objects (run (H := exampleHost) cycleStart (init ∅))) (VObject 0)
    "__esModule" = true ∧
  Get 1 (objects (run (H := exampleHost) cycleStart (init ∅))) (VObject 0)
    "__esModule" = Some (Normal (VBool true)).
Proof.
  destruct (exports_carry_esModule (H := exampleHost) ∅ cycleStart "/a.js" 0)
    as (Hhas & Hget & _); [by vm_compute|].
  split; [exact Hhas|exact (Hget 0)].
Defined.

Import NodeImport.

(** ** Failures of imports handed to the host *)

Section NodeImportFacts.
Context `{Host} `{Resolver}.

(** X12: a failed import of an external specifier reaches the load.  In
    every run of the loader, when the body of [url] waits for
    [nodeImport(dep)] and that call fails with [err], the [catch] clause of
    [ssrImport] records [dep] as the importee of [err] and throws [err]
    again, unless [err] is not an object: then [importErrors.set] itself
    throws, nothing is recorded and the body receives that [TypeError] in
    place of [err].  A body that does not handle the failure ends with the
    value it received, with which the promise of the load is rejected and
    which is stored as the node's error.  The error [nodeImport] throws for a
    specifier it cannot resolve names the specifier and the importer and is
    an object, so it is always recorded. *)
Theorem external_import_failure_reaches_the_load
    (cache : gmap string Body) (evs : list event) (p : pid) (url : string)
    (exports : loc) (dep : string) (k : completion value → Body) (err : value) :
  let st := run evs (init cache) in
  let received := if isObject err then err else invalidWeakKey in
  tasks st !! p = Some (AwaitImport url exports (HNode dep) k) →
  k (Throw received) = BThrow received →
  let st1 := step (NodeImported p (Throw err)) st in
  let st2 := step (Resume p) st1 in
  isExternal dep = true ∧
  importErrors st1 = (if isObject err then [(err, dep)] else []) ++ importErrors st ∧
  tasks st1 !! p = Some (AwaitInit url exports (Throw received)) ∧
  promises st2 !! p = Some (url, Rejected received) ∧
  ssrError <$> urlToModuleMap st2 !! url = Some received ∧
  (∀ importer, nodeImportRequest dep importer = Unresolved err →
     err = moduleNotFound dep importer ∧ received = err).
Proof.
  intros st received Ht Hk st1 st2.
  destruct (reachable_Tracked cache evs) as [Hinv HX]. fold st in Hinv, HX.
  pose proof (tracked_handles _ _ _ HX p url exports (HNode dep) k I Ht) as Hdep.
  simpl in Hdep. split; [done|].
  assert (truthy received = true) as Htruthy.
  { unfold received. by destruct err. }
  assert (st1 = suspend p (AwaitInit url exports (Throw received))
                  (if isObject err then setImportErrors (cons (err, dep)) st else st))
    as Hst1.
  { unfold st1. simpl. unfold nodeImported. rewrite Ht. unfold received in *.
    destruct (isObject err); by rewrite Hk. }
  assert (tasks st1 !! p = Some (AwaitInit url exports (Throw received))) as Ht1.
  { rewrite Hst1. simpl. apply lookup_insert_eq. }
  split; [rewrite Hst1; by destruct (isObject err)|]. split; [done|].
  assert (Inv st1) as [HT1 _] by (by apply step_Inv).
  destruct (tasks_pending _ _ HT1 p _ I Ht1) as [_ Hprom1]. simpl in Hprom1.
  pose proof (tasks_exports _ _ HT1 p _ exports I Ht1 eq_refl) as Hatt1.
  simpl in Hatt1. clearbody st1.
  assert (st2 = settle p (Rejected received)
                  (setGraph (delete url)
                     (setModules (alter (withSsrError received) url) st1))) as ->.
  { unfold st2. simpl. unfold resume. rewrite Ht1. unfold instantiateSettled.
    rewrite rethrown_object; [done|]. unfold received. by destruct err. }
  split; [by apply settle_promise|]. split.
  - unfold ssrModuleOf in Hatt1. simpl. rewrite lookup_alter_eq.
    by destruct (urlToModuleMap st1 !! url).
  - intros importer. unfold nodeImportRequest, received.
    destruct (_ || _); [done|].
    destruct (tryNodeResolve dep importer); [done|]. by intros [= <-].
Qed.

End NodeImportFacts.

Lemma external_import_failure_reaches_the_load_witness :
  importErrors
    (step (H := exampleHost)
       (NodeImported 0 (Throw (moduleNotFound "missing-pkg" "/m.js")))
       (run (H := exampleHost) importsPackageStart (init ∅)))
    = [(moduleNotFound "missing-pkg" "/m.js", "missing-pkg")]
        ++ importErrors (run (H := exampleHost) importsPackageStart (init ∅)) ∧
  promises
    (step (H := exampleHost) (Resume 0)
       (step (H := exampleHost)
          (NodeImported 0 (Throw (moduleNotFound "missing-pkg" "/m.js")))
          (run (H := exampleHost) importsPackageStart (init ∅)))) !! 0
    = Some ("/m.js", Rejected (moduleNotFound "missing-pkg" "/m.js")).
Proof.
  destruct (external_import_failure_reaches_the_load (H := exampleHost)
              (H0 := exampleResolver) ∅ importsPackageStart 0 "/m.js" 0 "missing-pkg"
              (λ r, match r with Normal _ => BReturn | Throw e => BThrow e end)
              (moduleNotFound "missing-pkg" "/m.js"))
    as (_ & Herrors & _ & Hrejected & _); [by vm_compute|done|].
  split; [exact Herrors|exact Hrejected].
Defined.

(** ** Single flight *)

Section SingleFlight.
Context `{Host}.

Lemma PromisesFrom_refl st : PromisesFrom st st.
Proof. intros q u s Hq. left. by exists s. Qed.

Lemma PromisesFrom_same st st' : promises st' = promises st → PromisesFrom st st'.
Proof. intros Hp q u s. rewrite Hp. intros Hq. left. by exists s. Qed.

Lemma PromisesFrom_ext st0 st st' :
  promises st = promises st0 → pendingModules st = pendingModules st0 →
  PromisesFrom st st' → PromisesFrom st0 st'.
Proof. intros Hp Hm HF q u s Hq. rewrite <- Hp, <- Hm. exact (HF q u s Hq). Qed.

Lemma ssrLoadModule_PromisesFrom url st : PromisesFrom st (ssrLoadModule url st).2.
Proof.
  unfold ssrLoadModule.
  destruct (pendingModules st !! unwrapId url) eqn:Hpend; [apply PromisesFrom_refl|].
  intros q u s Hq. simpl in Hq.
  destruct (decide (q < length (promises st))) as [Hlt|Hge].
  - rewrite lookup_app_l in Hq by done. left. by exists s.
  - right. rewrite lookup_app_r in Hq by lia. split; [lia|].
    destruct (q - length (promises st)) as [|n]; simpl in Hq;
      [by injection Hq as <- <-|by destruct n].
Qed.

Lemma ssrImport_PromisesFrom url dep dynamic st :
  PromisesFrom st (ssrImport url dep dynamic st).2.
Proof.
  unfold ssrImport. destruct (isExternal dep); [apply PromisesFrom_refl|].
  set (st1 := if negb dynamic then _ else st).
  assert (promises st1 = promises st ∧ pendingModules st1 = pendingModules st)
    as [Hp Hm] by (unfold st1; by destruct dynamic).
  destruct (negb dynamic && _).
  - destruct (ssrModuleOf st1 (unwrapId dep)); simpl; by apply PromisesFrom_same.
  - pose proof (ssrLoadModule_PromisesFrom (unwrapId dep) st1) as HF.
    destruct (ssrLoadModule (unwrapId dep) st1) as [q st2]. simpl in *.
    by apply (PromisesFrom_ext st st1).
Qed.

Lemma runBody_PromisesFrom p url exports : ∀ b st,
  PromisesFrom st (runBody p url exports b st).
Proof.
  induction b as [|e|dep k _|dep k _|src b IH|key prop b IH|b IH|b IH];
    intros st; simpl.
  - by apply PromisesFrom_same.
  - by apply PromisesFrom_same.
  - pose proof (ssrImport_PromisesFrom url dep false st) as HF.
    by destruct (ssrImport url dep false st) as [h st1].
  - unfold ssrDynamicImport.
    pose proof (ssrImport_PromisesFrom url
                  (if bool_decide (firstChar dep = Some "."%char)
                   then posixResolve (dirname url) dep else dep) true st) as HF.
    by destruct (ssrImport url _ true st) as [h st1].
  - destruct (ssrExportAll exports src (objects st)) as [h' [[]|e]].
    + by apply (PromisesFrom_ext st (setObjects (λ _, h') st)).
    + by apply PromisesFrom_same.
  - destruct (defineProperty (objects st) exports key prop) as [h'|e].
    + by apply (PromisesFrom_ext st (setObjects (λ _, h') st)).
    + by apply PromisesFrom_same.
  - by apply (PromisesFrom_ext st (setEffects S st)).
  - by apply PromisesFrom_same.
Qed.

Lemma settle_PromisesFrom p s st : PromisesFrom st (settle p s st).
Proof.
  intros q u s0 Hq. left. unfold settle in Hq. simpl in Hq.
  destruct (promises st !! p) as [[u' s']|] eqn:Hp; [|by exists s0].
  destruct (decide (q = p)) as [->|Hne].
  - rewrite list_lookup_insert_eq in Hq by (by eapply lookup_lt_Some).
    injection Hq as <- <-. by exists s'.
  - rewrite list_lookup_insert_ne in Hq by done. by exists s0.
Qed.

Lemma instantiateTransformed_PromisesFrom p url result st :
  PromisesFrom st (instantiateTransformed p url result st).
Proof.
  unfold instantiateTransformed. destruct result as [code|];
    [|apply settle_PromisesFrom].
  eapply PromisesFrom_ext; [| |apply runBody_PromisesFrom]; done.
Qed.

Lemma deliver_PromisesFrom p url exports k v st :
  PromisesFrom st (deliver p url exports k v st).
Proof.
  unfold deliver. destruct (readThen (objects st) v);
    try apply runBody_PromisesFrom. by apply PromisesFrom_same.
Qed.

Lemma step_PromisesFrom ev st : PromisesFrom st (step ev st).
Proof.
  destruct ev as [url|p|p r|p|p r|url|p r|p r]; simpl.
  - apply ssrLoadModule_PromisesFrom.
  - destruct (tasks st !! p) as [[url|url|url x h k|url x r|url x thenable kt]|];
      try apply PromisesFrom_refl.
    unfold instantiateEnsured.
    apply (PromisesFrom_ext st (ensureEntryFromUrl url st));
      [unfold ensureEntryFromUrl; by destruct (urlToModuleMap st !! url)..|].
    set (st1 := ensureEntryFromUrl url st).
    destruct (urlToModuleMap st1 !! url) as [md|]; [|apply PromisesFrom_refl].
    destruct (truthy (ssrError md)); [apply settle_PromisesFrom|].
    destruct (ssrModule md); [apply settle_PromisesFrom|].
    destruct (ssrTransformResult md).
    + apply instantiateTransformed_PromisesFrom.
    + by apply PromisesFrom_same.
  - destruct (tasks st !! p) as [[url|url|url x h k|url x r'|url x thenable kt]|];
      try apply PromisesFrom_refl.
    destruct r as [result|e];
      [apply instantiateTransformed_PromisesFrom|apply settle_PromisesFrom].
  - unfold resume.
    destruct (tasks st !! p) as [[url|url|url x h k|url x r|url x thenable kt]|];
      try apply PromisesFrom_refl.
    + destruct h as [v|e|q|dep]; try apply PromisesFrom_refl.
      * apply deliver_PromisesFrom.
      * apply runBody_PromisesFrom.
      * destruct (promises st !! q) as [[u s]|]; [|apply PromisesFrom_refl].
        destruct (outcome s) as [[v|e]|]; [apply deliver_PromisesFrom|
          apply runBody_PromisesFrom|apply PromisesFrom_refl].
    + unfold instantiateSettled. destruct r as [[]|e];
        (eapply PromisesFrom_ext; [| |apply settle_PromisesFrom]; done).
  - unfold nodeImported.
    destruct (tasks st !! p) as [[url|url|url x h k|url x r'|url x thenable kt]|];
      try apply PromisesFrom_refl.
    destruct h as [v|e|q|dep]; try apply PromisesFrom_refl.
    destruct r as [v|err]; [apply deliver_PromisesFrom|].
    destruct (isObject err); [|apply runBody_PromisesFrom].
    eapply PromisesFrom_ext; [| |apply runBody_PromisesFrom]; done.
  - destruct (pendingModules st !! url) as [p|]; [|apply PromisesFrom_refl].
    destruct (isSettled st p); [|apply PromisesFrom_refl]. by apply PromisesFrom_same.
  - unfold thenSettled.
    destruct (promises st !! p) as [[u [| | |v [r'|]]]|] eqn:Hp;
      try apply PromisesFrom_refl.
    intros q u' s Hq. left. simpl in Hq. destruct (decide (q = p)) as [->|Hne].
    + rewrite list_lookup_insert_eq in Hq by (by eapply lookup_lt_Some).
      injection Hq as <- <-. by eexists.
    + rewrite list_lookup_insert_ne in Hq by done. by exists s.
  - unfold followed.
    destruct (tasks st !! p) as [[url|url|url x h k|url x r'|url x thenable kt]|];
      try apply PromisesFrom_refl.
    apply runBody_PromisesFrom.
Qed.









End SingleFlight.


(** ** Promises that have not settled *)

Section UnsettledPromises.
Context `{Host}.

(** A promise that follows a thenable exports object and has not been
    settled by it keeps its entry in [pendingModules]: the [.finally]
    callback removes the entry of a settled promise only. *)
Lemma step_following_entry ev st :
  Inv st → Tracked (λ _, True) None st →
  (∀ (p : pid) url x, promises st !! p = Some (url, Following x None) →
     pendingModules st !! url = Some p) →
  ∀ (p : pid) url x, promises (step ev st) !! p = Some (url, Following x None) →
    pendingModules (step ev st) !! url = Some p.
Proof.
  intros Hinv HX HF p url x Hp.
  destruct (step_PromisesFrom ev st p url _ Hp) as [[s' Hp']|(_ & _ & ?)]; [|done].
  assert (pendingModules st !! url = Some p ∧ isSettled st p = false) as [Hm Hs].
  { destruct (isSettled st p) eqn:Hset.
    - pose proof (step_settled_stable ev p url s' st Hinv Hp' Hset) as Hp2.
      rewrite Hp in Hp2. injection Hp2 as <-.
      unfold isSettled in Hset. by rewrite Hp' in Hset.
    - split; [|done]. unfold isSettled in Hset. rewrite Hp' in Hset.
      apply bool_decide_eq_false in Hset.
      destruct s' as [|v|e|y [r|]]; simpl in Hset;
        try (by exfalso; apply Hset; eexists); [|by apply (HF p url y)].
      destruct (tracked_unsettled _ _ _ HX p url Hp') as [t Ht].
      destruct Hinv as [HT _]. destruct (tasks_pending _ _ HT p t I Ht) as [Hm Hprom].
      unfold pid in *. rewrite Hp' in Hprom. by injection Hprom as ->. }
  by apply step_pending_mono.
Qed.

Lemma run_following_entry evs : ∀ st,
  Inv st → Tracked (λ _, True) None st →
  (∀ (p : pid) url x, promises st !! p = Some (url, Following x None) →
     pendingModules st !! url = Some p) →
  ∀ (p : pid) url x, promises (run evs st) !! p = Some (url, Following x None) →
    pendingModules (run evs st) !! url = Some p.
Proof.
  unfold run. induction evs as [|ev evs IH]; intros st Hinv HX HF; [done|].
  simpl. apply IH; [by apply step_Inv|by apply step_Tracked|
                    by apply step_following_entry].
Qed.

(** X8: single flight, as an invariant of the runs.  In every run of the
    loader, a promise of [instantiateModule] that has not settled is the
    entry of its url in [pendingModules], so at most one instantiation per
    url is under way at any time; an entry of [pendingModules] is a promise
    created for that very url; and a call of [ssrLoadModule] in any such
    state returns a promise created for the normalized url.  A promise has
    not settled while its call has not returned, and also while it follows
    an exports object with a callable [then] that has not settled it: the
    last part covers both. *)
Theorem one_unsettled_instantiation_per_url
    (cache : gmap string Body) (evs : list event) :
  let st := run evs (init cache) in
  (∀ (p : pid) url, promises st !! p = Some (url, Pending) →
     pendingModules st !! url = Some p) ∧
  (∀ (p q : pid) url, promises st !! p = Some (url, Pending) →
     promises st !! q = Some (url, Pending) → p = q) ∧
  (∀ url p, pendingModules st !! url = Some p →
     ∃ s, promises st !! p = Some (url, s)) ∧
  (∀ spelled, ∃ s,
     promises (ssrLoadModule spelled st).2 !! (ssrLoadModule spelled st).1
       = Some (unwrapId spelled, s)) ∧
  (∀ (p : pid) url s, promises st !! p = Some (url, s) → isSettled st p = false →
     pendingModules st !! url = Some p ∧
     ∀ (q : pid) s', promises st !! q = Some (url, s') → isSettled st q = false →
                     q = p).
Proof.
  intros st.
  assert (∀ (p : pid) url x, promises st !! p = Some (url, Following x None) →
            pendingModules st !! url = Some p) as Hfollow.
  { apply run_following_entry; [apply init_Inv|apply init_Tracked|].
    intros p url x Hp. by destruct p. }
  destruct (reachable_Tracked cache evs) as [[HT _] HX]. fold st in HT, HX. clearbody st.
  assert (∀ (p : pid) url, promises st !! p = Some (url, Pending) →
            pendingModules st !! url = Some p) as Hentry.
  { intros p url Hp. destruct (tracked_unsettled _ _ _ HX p url Hp) as [t Ht].
    destruct (tasks_pending _ _ HT p t I Ht) as [Hpend Hprom].
    unfold pid in *. rewrite Hp in Hprom. injection Hprom as ->. done. }
  assert (∀ (p : pid) url s, promises st !! p = Some (url, s) →
            isSettled st p = false → pendingModules st !! url = Some p) as Hall.
  { intros p url s Hp Hs. unfold isSettled in Hs. rewrite Hp in Hs.
    apply bool_decide_eq_false in Hs.
    destruct s as [|v|e|y [r|]]; simpl in Hs;
      try (by exfalso; apply Hs; eexists);
      [by apply Hentry|by apply (Hfollow p url y)]. }
  split; [done|]. split; [|split; [|split]].
  - intros p q url Hp Hq. apply Hentry in Hp, Hq. congruence.
  - apply (tracked_entries _ _ _ HX).
  - intros spelled. unfold ssrLoadModule.
    destruct (pendingModules st !! unwrapId spelled) as [pending|] eqn:Hpend.
    + apply (tracked_entries _ _ _ HX _ _ Hpend).
    + simpl. exists Pending. by apply list_lookup_middle.
  - intros p url s Hp Hs. split; [by apply (Hall p url s)|].
    intros q s' Hq Hs'. apply Hall in Hp, Hq; try done. congruence.
Qed.

End UnsettledPromises.

Import Text RegExp.

(** ** Strings *)

Lemma startsWith_app p s : startsWith p (p ++ s) = true.
Proof. induction p as [|c p IH]; simpl; [done|]. by rewrite N.eqb_refl. Qed.

Lemma startsWith_spec p s : startsWith p s = true ↔ ∃ t, s = p ++ t.
Proof.
  revert s. induction p as [|c p IH]; intros s; simpl.
  - split; [by exists s|done].
  - destruct s as [|d s]; [split; [done|by intros [t ?]]|].
    rewrite andb_true_iff, N.eqb_eq, IH. split.
    + intros [-> [t ->]]. by exists t.
    + intros [t [= -> ->]]. split; [done|by exists t].
Qed.

Lemma startsWith_head c p s : startsWith (c :: p) s = true → head s = Some c.
Proof. intros [t ->]%startsWith_spec. done. Qed.

Lemma startsWith_length p s : startsWith p s = true → length p ≤ length s.
Proof. intros [t ->]%startsWith_spec. rewrite length_app. lia. Qed.

Lemma includes_spec p s : includes p s = true ↔ ∃ j, startsWith p (drop j s) = true.
Proof.
  induction s as [|c s IH]; simpl.
  - rewrite orb_false_r. split; [by exists 0|]. intros [j Hj]. by rewrite drop_nil in Hj.
  - rewrite orb_true_iff, IH. split.
    + intros [?|[j Hj]]; [by exists 0|by exists (S j)].
    + intros [[|j] Hj]; [by left|right; by exists j].
Qed.

(** ** The matcher *)

Lemma matchRe_Seq {A} r1 r2 prev s caps (k : option N → ustring → captures → option A) :
  matchRe (Seq r1 r2) prev s caps k =
    matchRe r1 prev s caps (λ prev' s' caps', matchRe r2 prev' s' caps' k).
Proof. done. Qed.

Lemma matchRe_Alt {A} r1 r2 prev s caps (k : option N → ustring → captures → option A) :
  matchRe (Alt r1 r2) prev s caps k =
    match matchRe r1 prev s caps k with
    | Some a => Some a
    | None => matchRe r2 prev s caps k
    end.
Proof. done. Qed.

Lemma matchRe_Group {A} n r prev s caps (k : option N → ustring → captures → option A) :
  matchRe (Group n r) prev s caps k =
    matchRe r prev s caps (λ prev' s' caps',
      k prev' s' (<[n := take (length s - length s') s]> caps')).
Proof. done. Qed.

Lemma matchRe_Class {A} P prev c s caps (k : option N → ustring → captures → option A) :
  matchRe (Class P) prev (c :: s) caps k = if P c then k (Some c) s caps else None.
Proof. done. Qed.

Lemma lastOr_cons prev c l : lastOr prev (c :: l) = lastOr (Some c) l.
Proof.
  unfold lastOr. destruct l as [|d l]; [done|]. simpl.
  destruct (last (d :: l)) eqn:Hlast; [done|]. by apply last_None in Hlast.
Qed.

Lemma lastOr_app prev x y : lastOr prev (x ++ y) = lastOr (lastOr prev x) y.
Proof.
  revert prev. induction x as [|c x IH]; intros prev; [done|].
  simpl. by rewrite !lastOr_cons, IH.
Qed.

Lemma matchRe_LitU {A} l prev s caps (k : option N → ustring → captures → option A) :
  matchRe (LitU l) prev s caps k =
    if startsWith l s then k (lastOr prev l) (drop (length l) s) caps else None.
Proof.
  revert prev s. induction l as [|c l IH]; intros prev s; simpl; [done|].
  destruct s as [|d s]; [done|]. rewrite (N.eqb_sym c d).
  destruct (d =? c)%N eqn:Hc; simpl; [|done].
  apply N.eqb_eq in Hc as ->. by rewrite IH, lastOr_cons.
Qed.

Lemma matchRe_LitU_app {A} l prev s caps (k : option N → ustring → captures → option A) :
  matchRe (LitU l) prev (l ++ s) caps k = k (lastOr prev l) s caps.
Proof. by rewrite matchRe_LitU, startsWith_app, drop_app_length. Qed.

Lemma lazyClass_now {A} P (k : option N → ustring → captures → option A) prev s caps a :
  k prev s caps = Some a → lazyClass P k prev s caps = Some a.
Proof. intros Hk. destruct s; simpl; by rewrite Hk. Qed.

Lemma starLoop_greedyClass {A} P (k : option N → ustring → captures → option A) caps :
  ∀ fuel prev s, length s < fuel →
    starLoop (matchRe (Class P)) true k fuel prev s caps = greedyClass P k prev s caps.
Proof.
  induction fuel as [|fuel IH]; intros prev s Hlen; [lia|].
  destruct s as [|c s]; simpl; [done|].
  destruct (P c); [|done].
  rewrite bool_decide_eq_true_2 by lia. rewrite IH by (simpl in Hlen; lia). done.
Qed.

Lemma starLoop_lazyClass {A} P (k : option N → ustring → captures → option A) caps :
  ∀ fuel prev s, length s < fuel →
    starLoop (matchRe (Class P)) false k fuel prev s caps = lazyClass P k prev s caps.
Proof.
  induction fuel as [|fuel IH]; intros prev s Hlen; [lia|].
  destruct s as [|c s]; simpl.
  - by destruct (k prev [] caps).
  - destruct (k prev (c :: s) caps); [done|]. destruct (P c); [|done].
    rewrite bool_decide_eq_true_2 by lia. by rewrite IH by (simpl in Hlen; lia).
Qed.

Lemma matchRe_Star_greedy {A} P prev s caps (k : option N → ustring → captures → option A) :
  matchRe (Star true (Class P)) prev s caps k = greedyClass P k prev s caps.
Proof. exact (starLoop_greedyClass P k caps (S (length s)) prev s (Nat.lt_succ_diag_r _)). Qed.

Lemma matchRe_Star_lazy {A} P prev s caps (k : option N → ustring → captures → option A) :
  matchRe (Star false (Class P)) prev s caps k = lazyClass P k prev s caps.
Proof. exact (starLoop_lazyClass P k caps (S (length s)) prev s (Nat.lt_succ_diag_r _)). Qed.

(** The run is taken whole when the continuation succeeds after it. *)
Lemma greedyClass_run {A} P (k : option N → ustring → captures → option A) caps a :
  ∀ x prev y, Forall (λ u, P u = true) x →
    greedyClass P k (lastOr prev x) y caps = Some a →
    greedyClass P k prev (x ++ y) caps = Some a.
Proof.
  induction x as [|c x IH]; intros prev y Hx Hy; [done|].
  apply Forall_cons in Hx as [Hc Hx]. simpl. rewrite Hc.
  rewrite lastOr_cons in Hy. by rewrite (IH (Some c) y Hx Hy).
Qed.

(** The shortest run after which the continuation succeeds is taken. *)
Lemma lazyClass_run {A} P (k : option N → ustring → captures → option A) caps :
  ∀ x prev y, Forall (λ u, P u = true) x →
    (∀ j, j < length x → k (lastOr prev (take j x)) (drop j (x ++ y)) caps = None) →
    lazyClass P k prev (x ++ y) caps = lazyClass P k (lastOr prev x) y caps.
Proof.
  induction x as [|c x IH]; intros prev y Hx Hfail; [done|].
  apply Forall_cons in Hx as [Hc Hx].
  pose proof (Hfail 0 ltac:(simpl; lia)) as H0. simpl in H0.
  cbn [lazyClass app]. unfold lastOr in H0. simpl in H0. rewrite H0, Hc.
  rewrite (lastOr_cons prev c x). apply IH; [done|].
  intros j Hj. specialize (Hfail (S j) ltac:(simpl; lia)).
  simpl in Hfail. by rewrite (lastOr_cons prev c (take j x)) in Hfail.
Qed.

(** The search passes the positions at which the expression cannot start. *)
Lemma execFrom_skip r : ∀ before prev s i,
  (∀ j, j < length before →
        matchAt r (lastOr prev (take j before)) (drop j (before ++ s)) = None) →
  execFrom r prev (before ++ s) i =
    execFrom r (lastOr prev before) s (i + length before).
Proof.
  induction before as [|c before IH]; intros prev s i Hfail.
  { simpl. by rewrite Nat.add_0_r. }
  pose proof (Hfail 0 ltac:(simpl; lia)) as H0. simpl in H0.
  unfold lastOr in H0. simpl in H0.
  cbn [app execFrom]. rewrite H0. rewrite (lastOr_cons prev c before).
  rewrite IH.
  - f_equal. simpl. lia.
  - intros j Hj. specialize (Hfail (S j) ltac:(simpl; lia)).
    simpl in Hfail. by rewrite (lastOr_cons prev c (take j before)) in Hfail.
Qed.

Lemma matchAt_LitU_fail l r prev s :
  startsWith l s = false → matchAt (Seq (LitU l) r) prev s = None.
Proof. intros Hs. unfold matchAt. simpl. by rewrite matchRe_LitU, Hs. Qed.

Import Asset.

(** ** Markers of assets *)

Lemma greedyClass_None {A} P (k : option N → ustring → captures → option A) caps :
  ∀ x prev y, Forall (λ u, P u = true) x →
    (∀ c, head y = Some c → P c = false) →
    (∀ j prev', j ≤ length x → k prev' (drop j (x ++ y)) caps = None) →
    greedyClass P k prev (x ++ y) caps = None.
Proof.
  induction x as [|c x IH]; intros prev y Hx Hy Hfail.
  - simpl. pose proof (Hfail 0 prev ltac:(simpl; lia)) as H0. simpl in H0.
    destruct y as [|d y]; simpl; [done|]. by rewrite (Hy d eq_refl).
  - apply Forall_cons in Hx as [Hc Hx]. simpl. rewrite Hc.
    rewrite IH; [|done|done|].
    + apply (Hfail 0 prev). simpl. lia.
    + intros j prev' Hj. apply (Hfail (S j) prev'). simpl. lia.
Qed.

Lemma take_matched (x y : ustring) : take (length (x ++ y) - length y) (x ++ y) = x.
Proof.
  rewrite length_app. replace (length x + length y - length y) with (length x) by lia.
  apply take_app_length.
Qed.

Lemma assetUrlEnd_fail {A} prev s caps (k : option N → ustring → captures → option A) :
  startsWith (units "__") s = false →
  matchRe assetUrlEnd prev s caps k = None.
Proof.
  intros Hs. unfold assetUrlEnd. rewrite matchRe_Seq. unfold Lit.
  by rewrite matchRe_LitU, Hs.
Qed.

Lemma startsWith_underscores_postfix postfix rest j :
  includes (units "__") (postfix ++ units "_") = false →
  j < length postfix →
  startsWith (units "__") (drop j (postfix ++ units "__" ++ rest)) = false.
Proof.
  intros Hno Hj. apply not_true_is_false. intros Hs.
  apply not_true_iff_false in Hno. apply Hno, includes_spec. exists j.
  rewrite drop_app_le in Hs by lia. rewrite drop_app_le by (rewrite ?length_app; lia).
  destruct (drop j postfix) as [|c1 [|c2 l]] eqn:Hd.
  - apply (f_equal length) in Hd. rewrite length_drop in Hd. simpl in Hd. lia.
  - simpl in *. by rewrite !andb_true_r in *.
  - simpl in *. done.
Qed.

Lemma assetUrlEnd_match prev postfix after caps :
  Forall (λ u, isLineTerminator u = false) postfix →
  includes (units "__") (postfix ++ units "_") = false →
  (∀ c, head postfix = Some c → idChar c = false) →
  (postfix = [] → ∀ c, head after = Some c → idChar c = false) →
  matchRe assetUrlEnd prev (units "__" ++ postfixPart postfix ++ after) caps
          (λ _ s' caps', Some (s', caps'))
    = Some (after, match postfix with [] => caps | _ :: _ => <[2 := postfix]> caps end).
Proof.
  intros Hline Hno Hpost Hafter. unfold assetUrlEnd. rewrite matchRe_Seq. unfold Lit.
  rewrite matchRe_LitU_app. unfold Opt. rewrite matchRe_Alt, matchRe_Seq.
  destruct postfix as [|c0 pf].
  - simpl postfixPart. rewrite app_nil_l. rewrite matchRe_LitU.
    assert (startsWith (units "$_") after = false) as ->; [|done].
    apply not_true_is_false. intros Hs.
    change (units "$_") with (36%N :: units "_") in Hs.
    apply startsWith_head in Hs. by pose proof (Hafter eq_refl _ Hs).
  - unfold postfixPart. rewrite <- !app_assoc. rewrite matchRe_LitU_app.
    rewrite matchRe_Seq, matchRe_Group. unfold Dot. rewrite matchRe_Star_lazy.
    set (k := λ (prev' : option N) (s' : ustring) (caps' : captures), _).
    rewrite (lazyClass_run _ k caps (c0 :: pf) _ (units "__" ++ after)).
    + rewrite (lazyClass_now _ k _ _ _ (after, <[2 := c0 :: pf]> caps)); [done|].
      unfold k. rewrite matchRe_LitU_app.
      by rewrite (take_matched (c0 :: pf) (units "__" ++ after)).
    + eapply Forall_impl; [exact Hline|]. intros u Hu. simpl in Hu. by rewrite Hu.
    + intros j Hj. unfold k. rewrite matchRe_LitU.
      by rewrite (startsWith_underscores_postfix (c0 :: pf) after j Hno Hj).
Qed.

Lemma assetUrlRE_match prev referenceId postfix after :
  referenceId ≠ [] →
  Forall (λ u, idChar u = true) referenceId →
  Forall (λ u, isLineTerminator u = false) postfix →
  includes (units "__") (postfix ++ units "_") = false →
  (∀ c, head postfix = Some c → idChar c = false) →
  (postfix = [] → ∀ c, head after = Some c → idChar c = false) →
  matchAt assetUrlRE prev (assetMarker referenceId postfix ++ after)
    = Some (after,
            match postfix with
            | [] => {[1 := referenceId]}
            | _ :: _ => <[2 := postfix]> {[1 := referenceId]}
            end).
Proof.
  intros Hne Hid Hline Hno Hpost Hafter.
  unfold matchAt, assetUrlRE, assetMarker. fold (postfixPart postfix).
  fold assetUrlEnd. rewrite <- !app_assoc.
  rewrite matchRe_Seq. unfold Lit at 1. rewrite matchRe_LitU_app.
  destruct referenceId as [|c rid]; [done|]. apply Forall_cons in Hid as [Hc Hrid].
  rewrite matchRe_Seq, matchRe_Group. unfold Plus. rewrite matchRe_Seq.
  fold idChar. cbn [app]. rewrite matchRe_Class, Hc.
  rewrite matchRe_Star_greedy.
  set (whole := c :: rid ++ units "__" ++ postfixPart postfix ++ after).
  set (k := λ (prev' : option N) (s' : ustring) (caps' : captures), _).
  set (t := postfixPart postfix ++ after).
  assert (∀ d, head t = Some d → d ≠ 95%N) as Ht.
  { intros d Hd ->. unfold t in Hd. destruct postfix as [|c0 pf]; [|done].
    simpl in Hd. by pose proof (Hafter eq_refl _ Hd). }
  assert (∀ p s caps', startsWith (units "__") s = false → k p s caps' = None) as Hfail.
  { intros p s caps' Hs. unfold k. by apply assetUrlEnd_fail. }
  assert (∀ p, greedyClass idChar k p t ∅ = None) as Hdeep.
  { intros p. unfold t. destruct postfix as [|c0 pf].
    - simpl postfixPart. rewrite app_nil_l.
      apply (greedyClass_None idChar k ∅ [] p after); [done|by apply Hafter|].
      intros j p' Hj. simpl in Hj. replace j with 0 by lia. simpl. apply Hfail.
      apply not_true_is_false. intros Hs.
      change (units "__") with (95%N :: units "_") in Hs.
      apply startsWith_head in Hs. by destruct (Ht _ Hs).
    - pose proof (Hpost c0 eq_refl) as Hc0.
      assert (c0 ≠ 95%N) as Hne0 by (by intros ->).
      unfold postfixPart. rewrite <- !app_assoc.
      apply (greedyClass_None idChar k ∅ (units "$_") p).
      + by repeat constructor.
      + simpl. by intros d [= <-].
      + intros j p' Hj. apply Hfail. apply not_true_is_false. intros Hs.
        destruct j as [|[|[|j]]]; simpl in Hj; try lia.
        * done.
        * change (units "__") with ([95%N] ++ 95%N :: []) in Hs.
          apply startsWith_spec in Hs as [t' Ht']. simpl in Ht'. congruence.
        * change (units "__") with (95%N :: units "_") in Hs.
          apply startsWith_head in Hs. simpl in Hs. congruence. }
  apply (greedyClass_run idChar k ∅ _ rid (Some c)); [done|].
  change (units "__" ++ t) with (95%N :: 95%N :: t).
  cbn [greedyClass]. change (idChar 95) with true. cbn iota.
  rewrite Hdeep.
  rewrite (Hfail (Some 95%N) (95%N :: t)).
  2:{ apply not_true_is_false. intros Hs.
      apply startsWith_spec in Hs as [t' Ht']. simpl in Ht'.
      injection Ht' as Ht'. rewrite Ht' in Ht. by destruct (Ht 95%N eq_refl). }
  unfold k. change (95%N :: 95%N :: t) with (units "__" ++ postfixPart postfix ++ after).
  rewrite assetUrlEnd_match by done.
  assert (take (length whole - length (units "__" ++ postfixPart postfix ++ after)) whole
          = c :: rid) as ->.
  { unfold whole. apply (take_matched (c :: rid)). }
  by destruct postfix.
Qed.

(** X13: the marker [fileToBuiltUrl] writes for an emitted asset is read back
    by [renderAssetUrlInJS].  For a reference id made of one or more
    characters of [[\w$]] and a postfix that is empty or starts with a
    character outside that class (as a search or a hash does), contains no
    line terminator and no [__], and does not end in [_]: in code where the
    marker is the first place at which [__VITE_ASSET__] occurs and, when the
    postfix is empty, is not followed by a character of [[\w$]], the first
    match of [assetUrlRE] starts where the marker starts, is the marker, and
    its groups are the reference id and the postfix. *)
Theorem asset_marker_round_trip (before referenceId postfix after : ustring) :
  let code := before ++ assetMarker referenceId postfix ++ after in
  referenceId ≠ [] →
  Forall (λ u, isWordChar u || (u =? 36)%N = true) referenceId →
  Forall (λ u, isLineTerminator u = false) postfix →
  includes (units "__") (postfix ++ units "_") = false →
  (∀ c, head postfix = Some c → isWordChar c || (c =? 36)%N = false) →
  (postfix = [] → ∀ c, head after = Some c → isWordChar c || (c =? 36)%N = false) →
  (∀ j, j < length before → startsWith (units "__VITE_ASSET__") (drop j code) = false) →
  index <$> exec assetUrlRE code = Some (length before) ∧
  assetMatch <$> exec assetUrlRE code
    = Some (assetMarker referenceId postfix, referenceId, postfix).
Proof.
  intros code Hne Hid Hline Hno Hpost Hafter Hfirst.
  assert (exec assetUrlRE code
          = Some (Found (length before) (assetMarker referenceId postfix)
                    match postfix with
                    | [] => {[1 := referenceId]}
                    | _ :: _ => <[2 := postfix]> {[1 := referenceId]}
                    end)) as ->.
  { unfold exec, code. rewrite execFrom_skip.
    - set (marker := assetMarker referenceId postfix).
      destruct (marker ++ after) as [|c s] eqn:Hs; cbn [execFrom];
        rewrite <- Hs; unfold marker;
        rewrite (assetUrlRE_match _ referenceId postfix after) by done;
        fold marker; by rewrite take_matched.
    - intros j Hj. apply matchAt_LitU_fail. by apply Hfirst. }
  split; [done|]. unfold assetMatch. simpl. destruct postfix; simpl.
  - by rewrite lookup_singleton_eq, lookup_singleton_ne.
  - by rewrite lookup_insert_ne, lookup_singleton_eq, lookup_insert_eq.
Qed.

Lemma asset_marker_round_trip_witness :
  index <$> exec assetUrlRE
              (units "x = '" ++ assetMarker (units "ab_c$d") (units "?a=1#h")
                 ++ units "'; y")
    = Some (length (units "x = '")) ∧
  assetMatch <$> exec assetUrlRE
                   (units "x = '" ++ assetMarker (units "ab_c$d") (units "?a=1#h")
                      ++ units "'; y")
    = Some (assetMarker (units "ab_c$d") (units "?a=1#h"), units "ab_c$d",
            units "?a=1#h").
Proof.
  apply (asset_marker_round_trip (units "x = '") (units "ab_c$d") (units "?a=1#h")
           (units "'; y")).
  - done.
  - by repeat constructor.
  - by repeat constructor.
  - by vm_compute.
  - intros c [= <-]. by vm_compute.
  - done.
  - intros j Hj. do 5 (destruct j as [|j]; [by vm_compute|]). simpl in Hj. lia.
Defined.

(** ** Public files *)

Lemma matchRe_Times_Class {A} P (k : option N → ustring → captures → option A) caps :
  ∀ x prev s, Forall (λ u, P u = true) x →
    matchRe (Times (length x) (Class P)) prev (x ++ s) caps k = k (lastOr prev x) s caps.
Proof.
  induction x as [|c x IH]; intros prev s Hx; [done|].
  apply Forall_cons in Hx as [Hc Hx].
  change (Times (length (c :: x)) (Class P))
    with (Seq (Class P) (Times (length x) (Class P))).
  rewrite matchRe_Seq. cbn [app]. rewrite matchRe_Class, Hc.
  by rewrite IH, (lastOr_cons prev c x).
Qed.

Lemma publicAssetUrlRE_match prev hash after :
  length hash = 8 →
  Forall (λ u, inRange 97 122 u || isDigit u = true) hash →
  matchAt publicAssetUrlRE prev (publicMarker hash ++ after)
    = Some (after, {[1 := hash]}).
Proof.
  intros Hlen Hhash. unfold matchAt, publicAssetUrlRE, publicMarker.
  rewrite <- !app_assoc. rewrite matchRe_Seq. unfold Lit.
  rewrite matchRe_LitU_app, matchRe_Seq, matchRe_Group. rewrite <- Hlen.
  rewrite (matchRe_Times_Class _ _ _ hash) by done.
  rewrite matchRe_LitU_app. by rewrite (take_matched hash (units "__" ++ after)).
Qed.

Section PublicFiles.
Context `{Urls}.

(** X14: the marker [publicFileToBuiltUrl] writes during a build is read
    back by [renderAssetUrlInJS], which finds the url again.  When the hash
    of [url] is eight characters of [[a-z\d]], in code where the marker is
    the first place at which [__VITE_PUBLIC_ASSET__] occurs, the first match
    of [publicAssetUrlRE] starts where the marker starts, is the marker, and
    its group is the hash; and the cache returns for that hash the url
    itself, unless another, non-empty url with the same hash was registered
    before, which is then returned instead. *)
Theorem public_marker_round_trip
    (config : Config) (url : ustring) (c : publicCache) (before after : ustring) :
  let marker := (publicFileToBuiltUrl config url c).1 in
  let c' := (publicFileToBuiltUrl config url c).2 in
  let code := before ++ marker ++ after in
  isBuild config = true →
  length (getHash url) = 8 →
  Forall (λ u, inRange 97 122 u || isDigit u = true) (getHash url) →
  (∀ j, j < length before →
        startsWith (units "__VITE_PUBLIC_ASSET__") (drop j code) = false) →
  exec publicAssetUrlRE code
    = Some (Found (length before) marker {[1 := getHash url]}) ∧
  getPublicAssetFilename (getHash url) c' =
    match getPublicAssetFilename (getHash url) c with
    | Some (u :: earlier) => Some (u :: earlier)
    | _ => Some url
    end.
Proof.
  intros marker c' code Hbuild Hlen Hhash Hfirst.
  assert (marker = publicMarker (getHash url)) as Hmarker.
  { unfold marker, publicFileToBuiltUrl. by rewrite Hbuild. }
  split.
  - unfold exec, code. rewrite execFrom_skip.
    + rewrite Hmarker.
      destruct (publicMarker (getHash url) ++ after) as [|d s] eqn:Hs; cbn [execFrom];
        rewrite <- Hs; rewrite (publicAssetUrlRE_match _ _ after) by done;
        by rewrite take_matched.
    + intros j Hj. apply matchAt_LitU_fail. by apply Hfirst.
  - unfold c', publicFileToBuiltUrl, getPublicAssetFilename. rewrite Hbuild. simpl.
    destruct c as [cache|]; simpl.
    + destruct (cache !! getHash url) as [[|u earlier]|] eqn:Hold; simpl;
        by rewrite ?lookup_insert_eq.
    + rewrite lookup_empty. by rewrite lookup_insert_eq.
Qed.

(** X15: the cache of public urls keeps the first url of a hash.  Outside
    a build [publicFileToBuiltUrl] joins the base and the url and leaves the
    cache alone.  During a build it changes at most the entry of the hash
    of [url]: an entry that holds a non-empty url is never replaced (two
    urls with one hash share the first url), the entries of other hashes
    stay, every entry is stored under the hash of its url when that held
    before, and calling it again with the same url changes nothing more. *)
Theorem public_cache_keeps_first_url (config : Config) (url : ustring) (c : publicCache) :
  let c' := (publicFileToBuiltUrl config url c).2 in
  (isBuild config = false →
     publicFileToBuiltUrl config url c = (joinUrlSegments (base config) url, c)) ∧
  (∀ hash held earlier,
     getPublicAssetFilename hash c = Some (held :: earlier) →
     getPublicAssetFilename hash c' = Some (held :: earlier)) ∧
  (∀ hash, hash ≠ getHash url →
     getPublicAssetFilename hash c' = getPublicAssetFilename hash c) ∧
  ((∀ hash u, getPublicAssetFilename hash c = Some u → getHash u = hash) →
   ∀ hash u, getPublicAssetFilename hash c' = Some u → getHash u = hash) ∧
  publicFileToBuiltUrl config url c' = ((publicFileToBuiltUrl config url c).1, c').
Proof.
  intros c'. unfold c', publicFileToBuiltUrl, getPublicAssetFilename.
  destruct (isBuild config) eqn:Hbuild; simpl.
  2:{ by repeat split. }
  split; [done|].
  set (cache := default ∅ c).
  assert (∀ hash, c ≫= (λ cache, cache !! hash) = cache !! hash) as Hc.
  { intros hash. unfold cache. destruct c; simpl; [done|]. by rewrite lookup_empty. }
  split; [|split; [|split]].
  - intros hash held earlier. rewrite Hc. intros Hheld.
    destruct (cache !! getHash url) as [[|u e]|] eqn:Hold; try done.
    + rewrite lookup_insert_ne; [done|]. intros <-. congruence.
    + rewrite lookup_insert_ne; [done|]. intros <-. congruence.
  - intros hash Hne. rewrite Hc.
    destruct (cache !! getHash url) as [[|u e]|]; try done;
      by rewrite lookup_insert_ne.
  - intros Hown hash u. setoid_rewrite Hc in Hown.
    destruct (cache !! getHash url) as [[|u' e]|] eqn:Hold; try (by apply Hown).
    + destruct (decide (hash = getHash url)) as [->|Hne].
      * rewrite lookup_insert_eq. by intros [= <-].
      * rewrite lookup_insert_ne by done. apply Hown.
    + destruct (decide (hash = getHash url)) as [->|Hne].
      * rewrite lookup_insert_eq. by intros [= <-].
      * rewrite lookup_insert_ne by done. apply Hown.
  - destruct (cache !! getHash url) as [[|u e]|] eqn:Hold.
    + rewrite lookup_insert_eq. destruct url as [|u0 url'].
      * by rewrite insert_insert_eq.
      * done.
    + by rewrite Hold.
    + rewrite lookup_insert_eq. destruct url as [|u0 url'].
      * by rewrite insert_insert_eq.
      * done.
Qed.

End PublicFiles.

Lemma public_marker_round_trip_witness :
  exec publicAssetUrlRE
      (units "src=" ++ (publicFileToBuiltUrl (H := exampleUrls) exampleBuild
                          (units "/icon.png") None).1 ++ units ";")
    = Some (Found (length (units "src="))
              (publicFileToBuiltUrl (H := exampleUrls) exampleBuild
                 (units "/icon.png") None).1
              {[1 := getHash (Urls := exampleUrls) (units "/icon.png")]}) ∧
  getPublicAssetFilename (getHash (Urls := exampleUrls) (units "/icon.png"))
      (publicFileToBuiltUrl (H := exampleUrls) exampleBuild (units "/icon.png") None).2
    = Some (units "/icon.png").
Proof.
  destruct (public_marker_round_trip (H := exampleUrls) exampleBuild (units "/icon.png")
              None (units "src=") (units ";")) as [Hexec Hcache].
  - done.
  - done.
  - by repeat constructor.
  - intros j Hj. do 4 (destruct j as [|j]; [by vm_compute|]). simpl in Hj. lia.
  - split; [exact Hexec|exact Hcache].
Defined.

(** ** Replacing in strings *)

(** Replacing a character is mapping over the characters. *)
Lemma replaceAllFrom_char c replacement : ∀ fuel s, length s ≤ fuel →
  Text.replaceAllFrom fuel [c] replacement s
    = flat_map (λ u, if (u =? c)%N then replacement else [u]) s.
Proof.
  induction fuel as [|fuel IH]; intros s Hlen.
  { destruct s; [done|simpl in Hlen; lia]. }
  destruct s as [|d s]; [done|]. simpl in Hlen.
  cbn [Text.replaceAllFrom startsWith flat_map]. rewrite andb_true_r.
  rewrite (N.eqb_sym c d). destruct (d =? c)%N.
  - simpl. rewrite drop_0. by rewrite IH by lia.
  - simpl. by rewrite IH by lia.
Qed.

Lemma replaceAll_char c replacement s :
  Text.replaceAll [c] replacement s
    = flat_map (λ u, if (u =? c)%N then replacement else [u]) s.
Proof. by apply replaceAllFrom_char. Qed.

Lemma greedyClass_finish P prev s caps :
  greedyClass P (λ _ s' caps', Some (s', caps')) prev s caps = Some (skip P s, caps).
Proof.
  revert prev. induction s as [|c s IH]; intros prev; [done|]. simpl.
  destruct (P c) eqn:Hc; [|done]. by rewrite IH.
Qed.

Lemma matchAt_Plus_Class P prev s :
  matchAt (Plus true (Class P)) prev s =
    match s with
    | c :: s' => if P c then Some (skip P s', ∅) else None
    | [] => None
    end.
Proof.
  unfold matchAt, Plus. rewrite matchRe_Seq. destruct s as [|c s]; [done|].
  rewrite matchRe_Class. destruct (P c); [|done].
  by rewrite matchRe_Star_greedy, greedyClass_finish.
Qed.

Lemma length_skip P s : length (skip P s) ≤ length s.
Proof. induction s as [|c s IH]; simpl; [done|]. destruct (P c); simpl; lia. Qed.

Lemma collapseSpaces_run replacement s :
  collapseSpaces replacement true s = collapseSpaces replacement false (skip isSpace s).
Proof.
  induction s as [|c s IH]; [done|]. simpl. destruct (isSpace c) eqn:Hc; [done|].
  simpl. by rewrite Hc.
Qed.

(** Replacing [\s+] by a string collapses every run of white space. *)
Lemma replaceFrom_spaces replacement : ∀ fuel prev s, length s < fuel →
  RegExp.replaceFrom fuel (Plus true (Class isSpace)) (λ _, replacement) prev s
    = collapseSpaces replacement false s.
Proof.
  induction fuel as [|fuel IH]; intros prev s Hlen; [lia|].
  cbn [RegExp.replaceFrom]. rewrite matchAt_Plus_Class.
  destruct s as [|c s]; [done|]. simpl in Hlen.
  destruct (isSpace c) eqn:Hc.
  - pose proof (length_skip isSpace s) as Hle.
    set (s' := skip isSpace s) in *.
    destruct (take (length (c :: s) - length s') (c :: s)) as [|d m] eqn:Htake.
    { apply (f_equal length) in Htake. rewrite length_take in Htake.
      simpl in Htake. lia. }
    rewrite IH by lia. simpl. rewrite Hc. simpl.
    by rewrite collapseSpaces_run.
  - simpl. rewrite Hc. by rewrite IH by lia.
Qed.

Lemma replace_spaces replacement s :
  replaceAllRe (Plus true (Class isSpace)) (λ _, replacement) s
    = collapseSpaces replacement false s.
Proof. apply replaceFrom_spaces. lia. Qed.

(** ** Data urls of SVG files *)

Lemma escapes_one_pass s :
  Text.replaceAll (units ">") (units "%3e")
    (Text.replaceAll (units "<") (units "%3c")
      (Text.replaceAll (units "#") (units "%23")
        (Text.replaceAll (units "%") (units "%25") s)))
  = flat_map escapeSvg s.
Proof.
  change (units ">") with [62%N]. change (units "<") with [60%N].
  change (units "#") with [35%N]. change (units "%") with [37%N].
  rewrite !replaceAll_char.
  induction s as [|c s IH]; [done|].
  cbn [flat_map]. rewrite !flat_map_app, IH. f_equal.
  unfold escapeSvg.
  destruct (c =? 37)%N eqn:H37; [apply N.eqb_eq in H37 as ->; by vm_compute|].
  destruct (c =? 35)%N eqn:H35; [apply N.eqb_eq in H35 as ->; by vm_compute|].
  destruct (c =? 60)%N eqn:H60; [apply N.eqb_eq in H60 as ->; by vm_compute|].
  destruct (c =? 62)%N eqn:H62; [apply N.eqb_eq in H62 as ->; by vm_compute|].
  simpl. rewrite H35. simpl. rewrite H60. simpl. by rewrite H62.
Qed.

Lemma collapseSpaces_block replacement inRun x rest :
  x ≠ [] → Forall (λ u, isSpace u = false) x →
  collapseSpaces replacement inRun (x ++ rest)
    = x ++ collapseSpaces replacement false rest.
Proof.
  revert inRun. induction x as [|c x IH]; intros inRun Hne Hx; [done|].
  apply Forall_cons in Hx as [Hc Hx]. cbn [app collapseSpaces]. rewrite Hc.
  destruct x as [|d x]; [done|]. by rewrite IH.
Qed.

Lemma percentDecode_escape h l a b s :
  hexValue h = Some a → hexValue l = Some b →
  percentDecode (37%N :: h :: l :: s) = (16 * a + b)%N :: percentDecode s.
Proof. intros Ha Hb. cbn [percentDecode]. by rewrite Ha, Hb. Qed.

Lemma percentDecode_pass c s :
  (c =? 37)%N = false → percentDecode (c :: s) = c :: percentDecode s.
Proof. intros Hc. cbn [percentDecode]. rewrite Hc. by destruct s as [|? [|? ?]]. Qed.

Lemma escapeSvg_cases c :
  (c = 37%N ∧ escapeSvg c = units "%25") ∨ (c = 35%N ∧ escapeSvg c = units "%23") ∨
  (c = 60%N ∧ escapeSvg c = units "%3c") ∨ (c = 62%N ∧ escapeSvg c = units "%3e") ∨
  (c ≠ 37%N ∧ c ≠ 35%N ∧ c ≠ 60%N ∧ c ≠ 62%N ∧ escapeSvg c = [c]).
Proof.
  unfold escapeSvg.
  destruct (c =? 37)%N eqn:H37; [apply N.eqb_eq in H37; auto|].
  destruct (c =? 35)%N eqn:H35; [apply N.eqb_eq in H35; auto|].
  destruct (c =? 60)%N eqn:H60; [apply N.eqb_eq in H60; auto 6|].
  destruct (c =? 62)%N eqn:H62; [apply N.eqb_eq in H62; auto 6|].
  apply N.eqb_neq in H37, H35, H60, H62. auto 10.
Qed.

Lemma escaped_safe : ∀ s inRun,
  Forall (λ u, u ≠ 34%N) s →
  Forall urlSafe (collapseSpaces (units "%20") inRun (flat_map escapeSvg s)).
Proof.
  induction s as [|c s IH]; intros inRun Hs; [constructor|].
  apply Forall_cons in Hs as [Hc Hs]. cbn [flat_map].
  assert (∀ x, x ≠ [] → Forall (λ u, isSpace u = false) x → Forall urlSafe x →
               Forall urlSafe (collapseSpaces (units "%20") inRun
                                 (x ++ flat_map escapeSvg s))) as Hblock.
  { intros x Hne Hx Hsafe. rewrite collapseSpaces_block by done.
    apply Forall_app. split; [done|by apply IH]. }
  destruct (escapeSvg_cases c)
    as [[-> ->]|[[-> ->]|[[-> ->]|[[-> ->]|(H37 & H35 & H60 & H62 & ->)]]]];
    try (apply Hblock; [done|by repeat constructor|];
         repeat (constructor; [by vm_compute|]); constructor).
  cbn [app collapseSpaces]. destruct (isSpace c) eqn:Hsp.
  - apply Forall_app. split; [|by apply IH].
    destruct inRun; [constructor|]. repeat (constructor; [by vm_compute|]). constructor.
  - constructor; [done|by apply IH].
Qed.

Lemma escaped_decodes : ∀ s inRun,
  percentDecode (collapseSpaces (units "%20") inRun (flat_map escapeSvg s))
    = collapseSpaces (units " ") inRun s.
Proof.
  induction s as [|c s IH]; intros inRun; [done|].
  cbn [flat_map].
  destruct (escapeSvg_cases c)
    as [[-> ->]|[[-> ->]|[[-> ->]|[[-> ->]|(H37 & H35 & H60 & H62 & ->)]]]].
  - rewrite collapseSpaces_block by (done || by repeat constructor).
    change (units "%25") with [37; 50; 53]%N. cbn [app].
    rewrite (percentDecode_escape 50 53 2 5) by done. by rewrite IH.
  - rewrite collapseSpaces_block by (done || by repeat constructor).
    change (units "%23") with [37; 50; 51]%N. cbn [app].
    rewrite (percentDecode_escape 50 51 2 3) by done. by rewrite IH.
  - rewrite collapseSpaces_block by (done || by repeat constructor).
    change (units "%3c") with [37; 51; 99]%N. cbn [app].
    rewrite (percentDecode_escape 51 99 3 12) by done. by rewrite IH.
  - rewrite collapseSpaces_block by (done || by repeat constructor).
    change (units "%3e") with [37; 51; 101]%N. cbn [app].
    rewrite (percentDecode_escape 51 101 3 14) by done. by rewrite IH.
  - apply N.eqb_neq in H37. cbn [app collapseSpaces]. destruct (isSpace c) eqn:Hsp.
    + destruct inRun; cbn [app]; [apply IH|].
      change (units "%20") with [37; 50; 48]%N. change (units " ") with [32%N].
      cbn [app]. rewrite (percentDecode_escape 50 48 2 0) by done. by rewrite IH.
    + by rewrite percentDecode_pass, IH.
Qed.

Section SvgFacts.
Context `{Buffers}.

(** X16: the data url of an SVG file that is not encoded in base64 holds
    no character that would end or break a url in an attribute, a [url()] or
    a [srcset], and loses nothing but white space.  After the prefix
    [data:image/svg+xml,] there is no double quote, no [#], no [<], no [>]
    and no white space; and decoding the percent escapes gives back the
    text of the file as it was after trimming, dropping the white space
    between tags and turning double quotes into single ones, with every run
    of white space as one space. *)
Theorem svgToDataURL_escapes (content : list N) :
  let stringContent := toString content in
  let text :=
    Text.replaceAll [34%N] (units "'")
      (replaceAllRe (Seq (Lit ">") (Seq (Plus true (Class isSpace)) (Lit "<")))
                      (λ _, units "><") (trim stringContent)) in
  includes (units "<text") stringContent = false →
  includes (units "<foreignObject") stringContent = false →
  test nestedQuotesRE stringContent = false →
  ∃ payload,
    svgToDataURL content = units "data:image/svg+xml," ++ payload ∧
    Forall (λ u, u ≠ 34%N ∧ u ≠ 35%N ∧ u ≠ 60%N ∧ u ≠ 62%N ∧ isSpace u = false)
           payload ∧
    percentDecode payload = collapseSpaces (units " ") false text.
Proof.
  intros stringContent text Htext Hforeign Hquotes.
  unfold svgToDataURL. fold stringContent. rewrite Htext, Hforeign, Hquotes.
  cbn [orb]. fold text. rewrite escapes_one_pass, replace_spaces.
  eexists. split; [done|]. split.
  - apply escaped_safe. unfold text. rewrite replaceAll_char.
    generalize (replaceAllRe (Seq (Lit ">") (Seq (Plus true (Class isSpace)) (Lit "<")))
                  (λ _, units "><") (trim stringContent)).
    intros l. induction l as [|c l IH]; [constructor|]. cbn [flat_map].
    apply Forall_app. split; [|done].
    destruct (c =? 34)%N eqn:Hc; [by repeat constructor|].
    apply N.eqb_neq in Hc. by repeat constructor.
  - apply escaped_decodes.
Qed.

End SvgFacts.

Lemma svgToDataURL_escapes_witness :
  ∃ payload,
    svgToDataURL (H := exampleBuffers) (units " <svg>  <a b=#c/> </svg>")
      = units "data:image/svg+xml," ++ payload ∧
    Forall (λ u, u ≠ 34%N ∧ u ≠ 35%N ∧ u ≠ 60%N ∧ u ≠ 62%N ∧ isSpace u = false)
           payload ∧
    percentDecode payload = units "<svg><a b=#c/></svg>".
Proof.
  destruct (svgToDataURL_escapes (H := exampleBuffers) (units " <svg>  <a b=#c/> </svg>"))
    as (payload & Hurl & Hsafe & Hdecode); [by vm_compute..|].
  exists payload. split; [exact Hurl|]. split; [exact Hsafe|].
  rewrite Hdecode. by vm_compute.
Defined.

(** ** Placeholders of Git LFS *)

(** X17: [isGitLfsPlaceholder] answers [true] exactly for the contents that
    begin with the bytes of [GIT_LFS_PREFIX]; a content shorter than the
    prefix is answered [false] before the comparison, which would be out of
    range.  Outside library mode, for a file that is not an entry, with
    inlining not forced, and with a limit that is a number or a function
    that leaves the decision, a placeholder is never inlined, whatever the
    limit. *)
Theorem isGitLfsPlaceholder_prefix (content : list N) :
  (isGitLfsPlaceholder content = true ↔ ∃ rest, content = GIT_LFS_PREFIX ++ rest) ∧
  (length content < length GIT_LFS_PREFIX → isGitLfsPlaceholder content = false) ∧
  (∀ config file id,
     isGitLfsPlaceholder content = true →
     lib config = false → isEntry config id = false →
     match inlineLimit config with
     | LimitFunction f => f file content = None
     | LimitNumber _ => True
     end →
     shouldInline config file id content None = false).
Proof.
  split; [|split].
  - unfold isGitLfsPlaceholder. destruct (length content <? length GIT_LFS_PREFIX) eqn:Hlen.
    + apply Nat.ltb_lt in Hlen. split; [done|]. intros [rest ->].
      rewrite length_app in Hlen. lia.
    + rewrite bool_decide_eq_true. split.
      * intros Htake. exists (drop (length GIT_LFS_PREFIX) content).
        by rewrite <- Htake at 1; rewrite take_drop.
      * intros [rest ->]. apply take_app_length.
  - intros Hlen. unfold isGitLfsPlaceholder. apply Nat.ltb_lt in Hlen. by rewrite Hlen.
  - intros config file id Hlfs Hlib Hentry Hlimit. unfold shouldInline.
    rewrite Hlib, Hentry, Hlfs.
    destruct (inlineLimit config) as [f|n]; [rewrite Hlimit|];
      destruct (endsWith _ file); try done;
      destruct (endsWith _ file && _); try done; apply andb_false_r.
Qed.

(** ** The bundle *)

Lemma endsWith_spec p s : endsWith p s = true ↔ ∃ x, s = x ++ p.
Proof.
  unfold endsWith. rewrite startsWith_spec. split.
  - intros [t Ht]. exists (reverse t). apply (inj reverse).
    by rewrite Ht, reverse_app, reverse_involutive.
  - intros [x ->]. exists (reverse x). by rewrite reverse_app.
Qed.

Lemma endsWith_drop p s : endsWith p s = true ↔ ∃ j, j ≤ length s ∧ drop j s = p.
Proof.
  rewrite endsWith_spec. split.
  - intros [x ->]. exists (length x). rewrite length_app, drop_app_length. split; [lia|done].
  - intros (j & _ & <-). exists (take j s). by rewrite take_drop.
Qed.

Lemma matchAt_start r prev s :
  matchAt r (lastOr prev (take 0 s)) (drop 0 s) = matchAt r prev s.
Proof. done. Qed.

Lemma execFrom_is_Some r : ∀ s prev i,
  is_Some (execFrom r prev s i)
  ↔ ∃ j, j ≤ length s ∧ is_Some (matchAt r (lastOr prev (take j s)) (drop j s)).
Proof.
  induction s as [|c s IH]; intros prev i; cbn [execFrom].
  - destruct (matchAt r prev []) as [[s' caps]|] eqn:Hm.
    + split; [|by eexists]. intros _. exists 0. rewrite matchAt_start, Hm.
      split; [done|by eexists].
    + split; [by intros [? ?]|]. intros (j & Hj & Hsome). simpl in Hj.
      replace j with 0 in Hsome by lia. rewrite matchAt_start, Hm in Hsome.
      by destruct Hsome.
  - destruct (matchAt r prev (c :: s)) as [[s' caps]|] eqn:Hm.
    + split; [|by eexists]. intros _. exists 0. rewrite matchAt_start, Hm.
      split; [lia|by eexists].
    + rewrite IH. split.
      * intros (j & Hj & Hsome). exists (S j). split; [simpl; lia|].
        by rewrite firstn_cons, lastOr_cons.
      * intros (j & Hj & Hsome). destruct j as [|j].
        { rewrite matchAt_start, Hm in Hsome. by destruct Hsome. }
        exists j. split; [simpl in Hj; lia|]. by rewrite firstn_cons, lastOr_cons in Hsome.
Qed.

Lemma matchRe_LitU_end {A} l prev s caps (k : option N → ustring → captures → option A) :
  matchRe (Seq (LitU l) EndOfInput) prev s caps k
    = if decide (s = l) then k (lastOr prev l) [] caps else None.
Proof.
  rewrite matchRe_Seq, matchRe_LitU. destruct (startsWith l s) eqn:Hs.
  - apply startsWith_spec in Hs as [t ->]. rewrite drop_app_length.
    destruct t as [|c t]; cbn [matchRe].
    + by rewrite app_nil_r, decide_True.
    + rewrite decide_False; [done|]. intros Heq. apply (f_equal length) in Heq.
      rewrite length_app in Heq. simpl in Heq. lia.
  - rewrite decide_False; [done|]. intros ->.
    rewrite <- (app_nil_r l) in Hs at 2. by rewrite startsWith_app in Hs.
Qed.

Lemma matchAt_jsSourceMapRE prev s :
  is_Some (matchAt jsSourceMapRE prev s)
  ↔ s = units ".js.map" ∨ s = units ".cjs.map" ∨ s = units ".mjs.map".
Proof.
  unfold matchAt, jsSourceMapRE, Lit, Opt.
  rewrite matchRe_Seq, matchRe_LitU.
  destruct s as [|dot s].
  { split; [by intros [? ?]|]. by intros [?|[?|?]]. }
  change (units ".") with [46%N]. cbn [startsWith length drop].
  destruct (46 =? dot)%N eqn:Hdot; cbn [andb].
  2:{ apply N.eqb_neq in Hdot. split; [by intros [? ?]|].
      intros [[= ? _]|[[= ? _]|[= ? _]]]; by subst. }
  apply N.eqb_eq in Hdot as <-. rewrite drop_0.
  rewrite matchRe_Seq, matchRe_Alt.
  set (K := λ (prev' : option N) (s' : ustring) (caps' : captures),
              matchRe (Seq (LitU (units "js.map")) EndOfInput) prev' s' caps'
                (λ (_ : option N) (s'' : ustring) (caps'' : captures), Some (s'', caps''))).
  assert (∀ u prev', K prev' u ∅
                     = if decide (u = units "js.map") then Some ([], ∅) else None) as Hend.
  { intros u prev'. unfold K. apply matchRe_LitU_end. }
  change (matchRe Empty ?p s ∅ K) with (K p s ∅).
  destruct s as [|c s].
  { change (matchRe (Class ?P) ?p [] ∅ K) with (@None (ustring * captures)).
    rewrite Hend. split; [by intros [? ?]|]. by intros [?|[?|?]]. }
  rewrite matchRe_Class, !Hend.
  destruct ((c =? 99)%N || (c =? 109)%N) eqn:Hc.
  - destruct (decide (s = units "js.map")) as [->|Hne].
    + split; [intros _|by eexists].
      apply orb_true_iff in Hc as [->%N.eqb_eq| ->%N.eqb_eq]; auto.
    + destruct (decide (c :: s = units "js.map")) as [Heq|Hne'].
      * split; [intros _|by eexists]. left. by rewrite Heq.
      * split; [by intros [? ?]|].
        intros [[= Heq]|[[= _ Heq]|[= _ Heq]]]; by subst.
  - apply orb_false_iff in Hc as [Hc1%N.eqb_neq Hc2%N.eqb_neq].
    destruct (decide (c :: s = units "js.map")) as [Heq|Hne'].
    + split; [intros _|by eexists]. left. by rewrite Heq.
    + split; [by intros [? ?]|].
      intros [[= Heq]|[[= ? _]|[= ? _]]]; [by subst|done..].
Qed.

Lemma test_jsSourceMapRE file :
  test jsSourceMapRE file
    = endsWith (units ".js.map") file || endsWith (units ".cjs.map") file
      || endsWith (units ".mjs.map") file.
Proof.
  apply eq_true_iff_eq. unfold test, exec.
  rewrite bool_decide_eq_true, execFrom_is_Some, !orb_true_iff, !endsWith_drop.
  split.
  - intros (j & Hj & [H1|[H2|H3]]%matchAt_jsSourceMapRE); eauto.
  - intros [[(j & Hj & Hd)|(j & Hj & Hd)]|(j & Hj & Hd)]; exists j;
      (split; [done|]); apply matchAt_jsSourceMapRE; auto.
Qed.

(** X23: what [generateBundle] leaves of the bundle.  An output stays, at
    its place, unless it is an entry chunk whose one module is an asset,
    or, in a build for SSR that does not emit assets, an asset that is
    neither the SSR manifest nor the source map of a script: of the assets
    exactly the files that end in [ssr-manifest.json], [.js.map],
    [.cjs.map] or [.mjs.map] stay, and every chunk that is not such an
    entry stays.  Running it again changes nothing. *)
Theorem generateBundle_outputs (config : Config) (bundle : list (ustring * output))
    (file : ustring) (o : output) :
  let ssrWithoutAssets := isBuild config && ssrBuild config && negb (ssrEmitAssets config) in
  ((file, o) ∈ generateBundle config bundle ↔
     (file, o) ∈ bundle ∧ emptyEntry config o = false ∧
     (ssrWithoutAssets = true → o = OutputAsset →
        endsWith (units "ssr-manifest.json") file = true ∨
        endsWith (units ".js.map") file = true ∨
        endsWith (units ".cjs.map") file = true ∨
        endsWith (units ".mjs.map") file = true)) ∧
  sublist (generateBundle config bundle) bundle ∧
  generateBundle config (generateBundle config bundle) = generateBundle config bundle.
Proof.
  intros ssrWithoutAssets.
  assert (∀ f out, droppedAsset f out = false ↔
            (out = OutputAsset →
               endsWith (units "ssr-manifest.json") f = true ∨
               endsWith (units ".js.map") f = true ∨
               endsWith (units ".cjs.map") f = true ∨
               endsWith (units ".mjs.map") f = true)) as Hdropped.
  { intros f [isEntry moduleIds|]; simpl; [done|]. rewrite test_jsSourceMapRE.
    destruct (endsWith (units "ssr-manifest.json") f), (endsWith (units ".js.map") f),
      (endsWith (units ".cjs.map") f), (endsWith (units ".mjs.map") f); simpl;
      split; auto; intros Hany; destruct (Hany eq_refl) as [?|[?|[?|?]]]; done. }
  unfold generateBundle. fold ssrWithoutAssets. cbv zeta.
  split; [|split].
  - destruct ssrWithoutAssets.
    + rewrite !list_elem_of_filter. cbn [fst snd]. rewrite Hdropped. naive_solver.
    + rewrite list_elem_of_filter. cbn [fst snd]. naive_solver.
  - destruct ssrWithoutAssets.
    + etrans; apply sublist_filter.
    + apply sublist_filter.
  - destruct ssrWithoutAssets.
    + rewrite (list_filter_filter _ (λ fo, emptyEntry config fo.2 = false)).
      rewrite !list_filter_filter. apply list_filter_iff. naive_solver.
    + rewrite list_filter_filter. apply list_filter_iff. naive_solver.
Qed.

(** ** Urls of built files *)

Section BuiltFiles.
Context `{Buffers} `{Urls} `{Files}.

Lemma svgToDataURL_nonempty content : svgToDataURL content ≠ [].
Proof. unfold svgToDataURL. cbv zeta. by destruct (_ || _). Qed.

(** X24: the cache of built urls.  Every url [fileToBuiltUrl] computes is
    non-empty, so the cache keeps it: once a call for [id] has returned,
    every later call for [id] that does not take the file for a public one
    returns the same url before the file is read, whatever its
    [forceInline], and changes nothing.  The call itself emits at most one
    file, and touches the entry of no other id.  The cache is read before
    the file is and written after, so it does not keep calls that overlap
    from reading and emitting twice: a call for [id] that starts when the
    cache has no url for [id] goes on to read the file, as does every call
    that starts before the first has returned; and when two calls for [id]
    that both read the file finish one after the other, neither inlining
    it, the file is emitted twice and the cache is left with the url of
    the second. *)
Theorem fileToBuiltUrl_cached (config : Config) (id : ustring) (forceInline : option bool)
    (content : list N) (st st1 : Build) (url : ustring) :
  is_Some (assetCache st) →
  fileToBuiltUrlFinish config id forceInline content st = (Some url, st1) →
  url ≠ [] ∧
  (∀ skipPublicCheck, skipPublicCheck = true ∨ checkPublicFile id = false →
     fileToBuiltUrlStart config id skipPublicCheck st1 = Done url st1) ∧
  (emitted st1 = emitted st ∨
   emitted st1 = emitted st ++ [(basename (cleanUrl id), content)]) ∧
  (∀ id', id' ≠ id →
     assetCache st1 ≫= (λ cache, cache !! id') = assetCache st ≫= (λ cache, cache !! id')) ∧
  (∀ skipPublicCheck, skipPublicCheck = true ∨ checkPublicFile id = false →
     assetCache st ≫= (λ cache, cache !! id) = None →
     fileToBuiltUrlStart config id skipPublicCheck st = Reading (cleanUrl id)) ∧
  (∀ forceInline' content',
     shouldInline config (cleanUrl id) id content forceInline = false →
     shouldInline config (cleanUrl id) id content' forceInline' = false →
     ∃ url' st2,
       fileToBuiltUrlFinish config id forceInline' content' st1 = (Some url', st2) ∧
       emitted st2 = emitted st ++ [(basename (cleanUrl id), content);
                                    (basename (cleanUrl id), content')] ∧
       assetCache st2 ≫= (λ cache, cache !! id) = Some url').
Proof.
  intros [cache Hcache] Hfinish.
  assert (url ≠ [] ∧ assetCache st1 = Some (<[id := url]> cache) ∧
          (emitted st1 = emitted st ∨
           emitted st1 = emitted st ++ [(basename (cleanUrl id), content)])) as (Hurl & Hst1 & Hemitted).
  { unfold fileToBuiltUrlFinish in Hfinish. cbv zeta in Hfinish. rewrite Hcache in Hfinish.
    destruct (shouldInline _ _ _ _ _).
    - injection Hfinish as <- <-. cbn [assetCache emitted]. split; [|by auto].
      destruct (endsWith _ _); [apply svgToDataURL_nonempty|done].
    - destruct (generatedAssets st); [|done]. injection Hfinish as <- <-.
      cbn [assetCache emitted]. by auto. }
  split; [done|]. split; [|split; [done|split; [|split]]].
  - intros skipPublicCheck Hskip. unfold fileToBuiltUrlStart.
    replace (negb skipPublicCheck && checkPublicFile id) with false
      by (destruct Hskip as [->| ->]; [done|by rewrite andb_false_r]).
    rewrite Hst1, lookup_insert_eq. by destruct url.
  - intros id' Hid'. rewrite Hst1, Hcache. simpl. by rewrite lookup_insert_ne.
  - intros skipPublicCheck Hskip Hnone. unfold fileToBuiltUrlStart.
    replace (negb skipPublicCheck && checkPublicFile id) with false
      by (destruct Hskip as [->| ->]; [done|by rewrite andb_false_r]).
    rewrite Hcache in Hnone |- *. simpl in Hnone. by rewrite Hnone.
  - intros forceInline' content' Hno Hno'.
    unfold fileToBuiltUrlFinish in Hfinish. cbv zeta in Hfinish.
    rewrite Hno in Hfinish.
    destruct (generatedAssets st) as [generated|] eqn:Hgen; [|done].
    injection Hfinish as <- <-.
    unfold fileToBuiltUrlFinish. cbv zeta. rewrite Hno'. cbn [generatedAssets emitted].
    eexists _, _. split; [done|]. cbn [emitted assetCache]. split.
    + by rewrite <- (assoc_L (++)).
    + rewrite Hcache. simpl. by rewrite lookup_insert_eq.
Qed.

End BuiltFiles.

Lemma fileToBuiltUrl_cached_witness :
  fileToBuiltUrlStart (H0 := exampleUrls) (H1 := exampleFiles) exampleBuild
      (units "/src/a.png") true
      (fileToBuiltUrlFinish (H := exampleBuffers) (H1 := exampleFiles) exampleBuild
         (units "/src/a.png") (Some false) [1; 2; 3]%N exampleStarted).2
    = Done (assetMarker (units "ref") [])
        (fileToBuiltUrlFinish (H := exampleBuffers) (H1 := exampleFiles) exampleBuild
           (units "/src/a.png") (Some false) [1; 2; 3]%N exampleStarted).2 ∧
  fileToBuiltUrlStart (H0 := exampleUrls) (H1 := exampleFiles) exampleBuild
      (units "/src/a.png") true exampleStarted
    = Reading (units "/src/a.png") ∧
  emitted
    (fileToBuiltUrlFinish (H := exampleBuffers) (H1 := exampleFiles) exampleBuild
       (units "/src/a.png") (Some false) [1; 2; 3]%N
       (fileToBuiltUrlFinish (H := exampleBuffers) (H1 := exampleFiles) exampleBuild
          (units "/src/a.png") (Some false) [1; 2; 3]%N exampleStarted).2).2
    = emitted exampleStarted
        ++ [(units "/src/a.png", [1; 2; 3]%N); (units "/src/a.png", [1; 2; 3]%N)].
Proof.
  destruct (fileToBuiltUrl_cached (H := exampleBuffers) (H0 := exampleUrls)
              (H1 := exampleFiles) exampleBuild (units "/src/a.png") (Some false)
              [1; 2; 3]%N exampleStarted
              (fileToBuiltUrlFinish (H := exampleBuffers) (H1 := exampleFiles) exampleBuild
                 (units "/src/a.png") (Some false) [1; 2; 3]%N exampleStarted).2
              (assetMarker (units "ref") []))
    as (_ & Hcached & _ & _ & Hreads & Htwice).
  - by eexists.
  - by vm_compute.
  - split; [exact (Hcached true (or_introl eq_refl))|]. split.
    + exact (Hreads true (or_introl eq_refl) eq_refl).
    + destruct (Htwice (Some false) [1; 2; 3]%N eq_refl eq_refl)
        as (url' & st2 & Hsecond & Hemitted & _).
      rewrite Hsecond. exact Hemitted.
Defined.

Import Define.

(** ** Objects used as records *)

Lemma get_defineOwn {T} k k' (v : T) o :
  get k (defineOwn k' v o) = if decide (k' = k) then Some v else get k o.
Proof.
  induction o as [|[k0 x] o IH]; simpl; [done|].
  destruct (decide (k0 = k')) as [->|Hne]; simpl.
  - by destruct (decide (k' = k)).
  - rewrite IH. destruct (decide (k0 = k)) as [->|]; [|done].
    by rewrite decide_False.
Qed.

Lemma has_get {T} k (o : list (ustring * T)) :
  has k o = match get k o with Some _ => true | None => false end.
Proof.
  unfold has. destruct (get k o).
  - by apply bool_decide_eq_true.
  - apply bool_decide_eq_false. by intros [? ?].
Qed.

Lemma set_defineOwn {T} k (v : T) o : k ≠ protoKey → set k v o = defineOwn k v o.
Proof. intros Hk. unfold set. by rewrite bool_decide_eq_false_2. Qed.

Lemma set_has {T} k (v : T) o : has k o = true → set k v o = defineOwn k v o.
Proof. intros Hk. unfold set. by rewrite Hk, andb_false_r. Qed.

(** An assignment to [__proto__] stores nothing. *)
Lemma set_proto {T} (v : T) o : get protoKey o = None → set protoKey v o = o.
Proof.
  intros Hget. unfold set. rewrite bool_decide_eq_true_2 by done.
  by rewrite has_get, Hget.
Qed.

Lemma get_set {T} k k' (v : T) o :
  k' ≠ protoKey →
  get k (set k' v o) = if decide (k' = k) then Some v else get k o.
Proof. intros Hk. rewrite set_defineOwn by done. apply get_defineOwn. Qed.

Lemma get_set_ne {T} k k' (v : T) o : k' ≠ k → get k (set k' v o) = get k o.
Proof.
  intros Hne. unfold set. destruct (_ && _); [done|].
  by rewrite get_defineOwn, decide_False.
Qed.

(** A record that is filled by assignments has no property [__proto__]. *)
Lemma get_set_proto {T} k (v : T) o :
  get protoKey o = None → get protoKey (set k v o) = None.
Proof.
  intros Hget. destruct (decide (k = protoKey)) as [->|Hne].
  - by rewrite set_proto.
  - by rewrite get_set_ne.
Qed.

Lemma get_assign {T} k (t s : list (ustring * T)) :
  get k (assign t s)
    = match get k (reverse s) with Some v => Some v | None => get k t end.
Proof.
  induction s as [|[k' v] s IH] using rev_ind; [done|].
  unfold assign in *. rewrite foldl_app, reverse_snoc. simpl.
  rewrite get_defineOwn. by destruct (decide (k' = k)).
Qed.

Lemma get_elem {T} k (v : T) o : get k o = Some v → (k, v) ∈ o.
Proof.
  induction o as [|[k0 x] o IH]; simpl; [done|].
  destruct (decide (k0 = k)) as [->|]; [intros [= ->]; left|right; auto].
Qed.

Lemma get_None {T} k (o : list (ustring * T)) : get k o = None ↔ k ∉ o.*1.
Proof.
  induction o as [|[k0 x] o IH]; simpl.
  - split; [intros _; apply not_elem_of_nil|done].
  - rewrite not_elem_of_cons. destruct (decide (k0 = k)) as [->|Hne].
    + split; [done|]. by intros [? _].
    + rewrite IH. split; [by split|by intros [_ ?]].
Qed.

Lemma elem_get {T} k (v : T) o : NoDup o.*1 → (k, v) ∈ o → get k o = Some v.
Proof.
  induction o as [|[k0 x] o IH]; simpl; [by intros _ ?%elem_of_nil|].
  intros [Hk0 Ho]%NoDup_cons [[= -> ->]|Hin]%elem_of_cons.
  - by rewrite decide_True.
  - destruct (decide (k0 = k)) as [->|]; [|by apply IH].
    destruct Hk0. apply list_elem_of_fmap. by exists (k, v).
Qed.

Lemma get_reverse {T} k (o : list (ustring * T)) :
  NoDup o.*1 → get k (reverse o) = get k o.
Proof.
  intros Ho. destruct (get k o) as [v|] eqn:Hget.
  - apply elem_get; [by rewrite fmap_reverse, reverse_Permutation|].
    by apply elem_of_reverse, get_elem.
  - apply get_None. apply get_None in Hget.
    by rewrite fmap_reverse, elem_of_reverse.
Qed.

Lemma get_assign_NoDup {T} k (t s : list (ustring * T)) :
  NoDup s.*1 →
  get k (assign t s) = match get k s with Some v => Some v | None => get k t end.
Proof. intros Hs. by rewrite get_assign, get_reverse. Qed.

Lemma defineOwn_keys {T} k (v : T) o :
  (defineOwn k v o).*1 = if has k o then o.*1 else o.*1 ++ [k].
Proof.
  rewrite has_get. induction o as [|[k0 x] o IH]; csimpl; [done|].
  destruct (decide (k0 = k)) as [->|]; csimpl; [done|].
  rewrite IH. by destruct (get k o).
Qed.

Lemma NoDup_defineOwn {T} k (v : T) o : NoDup o.*1 → NoDup (defineOwn k v o).*1.
Proof.
  intros Ho. rewrite defineOwn_keys, has_get. destruct (get k o) eqn:Hget; [done|].
  apply NoDup_app. split; [done|]. split; [|apply NoDup_singleton].
  intros x Hx ->%list_elem_of_singleton. by apply get_None in Hget.
Qed.

Lemma NoDup_set {T} k (v : T) o : NoDup o.*1 → NoDup (set k v o).*1.
Proof. intros Ho. unfold set. destruct (_ && _); [done|by apply NoDup_defineOwn]. Qed.

Lemma NoDup_assign {T} (t s : list (ustring * T)) :
  NoDup t.*1 → NoDup (assign t s).*1.
Proof.
  revert t. unfold assign. induction s as [|[k v] s IH]; intros t Ht; [done|].
  simpl. by apply IH, NoDup_defineOwn.
Qed.

Lemma elem_of_keys_get {T} k (o : list (ustring * T)) :
  k ∈ o.*1 ↔ is_Some (get k o).
Proof.
  destruct (get k o) eqn:Hget.
  - split; [by eexists|]. intros _. apply get_elem in Hget.
    apply list_elem_of_fmap. by eexists (_, _).
  - apply get_None in Hget. split; [done|]. by intros [? ?].
Qed.

Lemma get_filter_ne {T} k k0 (l : list (ustring * T)) :
  k ≠ k0 → get k (filter (λ kv, kv.1 ≠ k0) l) = get k l.
Proof.
  intros Hne. induction l as [|[k' v] l IH]; [done|].
  rewrite filter_cons. simpl. destruct (decide (k' ≠ k0)) as [Hk'|Hk']; simpl.
  - by rewrite IH.
  - rewrite IH, decide_False; [done|]. intros ->. by apply Hk'.
Qed.

(** A table filled key by key is the assignment of its entries, those
    under [__proto__] left out. *)
Lemma foldl_set_assign {A T} (f : A → ustring) (g : A → T) (l : list A) : ∀ o,
  get protoKey o = None →
  foldl (λ o x, set (f x) (g x) o) o l
    = assign o (filter (λ kv, kv.1 ≠ protoKey) ((λ x, (f x, g x)) <$> l)).
Proof.
  unfold assign. induction l as [|x l IH]; intros o Ho; [done|].
  rewrite fmap_cons, filter_cons. cbn [foldl fst].
  destruct (decide (f x ≠ protoKey)) as [Hne|Heq].
  - cbn [foldl fst snd]. rewrite set_defineOwn by done. apply IH.
    by rewrite get_defineOwn, decide_False.
  - apply dec_stable in Heq. rewrite Heq, set_proto by done. by apply IH.
Qed.

Lemma foldl_set_proto {A T} (f : A → ustring) (g : A → T) (l : list A) : ∀ o,
  get protoKey o = None →
  get protoKey (foldl (λ o x, set (f x) (g x) o) o l) = None.
Proof.
  induction l as [|x l IH]; intros o Ho; [done|].
  simpl. by apply IH, get_set_proto.
Qed.

Lemma get_fmap_inj {T U} (f : ustring → ustring) (g : T → U) `{!Inj (=) (=) f} k
    (l : list (ustring * T)) :
  get (f k) ((λ kv, (f kv.1, g kv.2)) <$> l) = g <$> get k l.
Proof.
  induction l as [|[k0 x] l IH]; simpl; [done|].
  destruct (decide (k0 = k)) as [->|Hne]; [by rewrite decide_True|].
  rewrite decide_False; [done|]. by intros ?%(inj f).
Qed.

Lemma get_fmap_outside {T U} (f : ustring → ustring) (g : T → U) key
    (l : list (ustring * T)) :
  (∀ k, f k ≠ key) → get key ((λ kv, (f kv.1, g kv.2)) <$> l) = None.
Proof.
  intros Hf. induction l as [|[k0 x] l IH]; simpl; [done|].
  rewrite decide_False; [done|apply Hf].
Qed.

(** ** The tables of the define plugin *)

#[local] Abbreviation envPrefix := (units "import.meta.env.").
#[local] Abbreviation envKey := (units "import.meta.env").
#[local] Abbreviation ssrKey := (units "import.meta.env.SSR").
#[local] Abbreviation hotKey := (units "import.meta.hot").

Lemma includes_trans a b c :
  includes a b = true → includes b c = true → includes a c = true.
Proof.
  intros [i Hi]%includes_spec [j Hj]%includes_spec. apply includes_spec.
  apply startsWith_spec in Hi as [t Hi]. apply startsWith_spec in Hj as [u Hj].
  exists (j + i). rewrite <- drop_drop, Hj.
  destruct (decide (i ≤ length b)) as [Hle|Hgt].
  - rewrite drop_app_le by done. rewrite Hi, <- (assoc_L (++)). apply startsWith_app.
  - rewrite drop_ge in Hi by lia. symmetry in Hi. apply app_eq_nil in Hi as [-> _].
    done.
Qed.

Lemma includes_refl a : includes a a = true.
Proof. apply includes_spec. exists 0. rewrite <- (app_nil_r a) at 2. apply startsWith_app. Qed.

Lemma includes_app a x y : includes a (x ++ a ++ y) = true.
Proof. apply includes_spec. exists (length x). rewrite drop_app_length. apply startsWith_app. Qed.

Lemma assign_keys {T} k (t s : list (ustring * T)) :
  is_Some (get k (assign t s)) ↔ is_Some (get k t) ∨ k ∈ s.*1.
Proof.
  rewrite get_assign. rewrite <- (elem_of_reverse k), <- fmap_reverse, elem_of_keys_get.
  destruct (get k (reverse s)) as [v|].
  - split; [right|]; by eexists.
  - split; [by left|]. by intros [?|[? ?]].
Qed.

Section DefineTables.
Context `{Json}.

Lemma get_table {T} (f : ustring → ustring) (g : any → T) `{!Inj (=) (=) f} o k
    (l : list (ustring * any)) :
  NoDup l.*1 → get protoKey o = None → f k ≠ protoKey →
  get (f k) (foldl (λ o kv, set (f kv.1) (g kv.2) o) o l)
    = match get k l with Some v => Some (g v) | None => get (f k) o end.
Proof.
  intros Hl Ho Hk. rewrite (foldl_set_assign (λ kv, f kv.1) (λ kv, g kv.2)) by done.
  rewrite get_assign, <- filter_reverse, get_filter_ne by done.
  rewrite <- fmap_reverse, (get_fmap_inj f g), get_reverse by done.
  by destruct (get k l).
Qed.

Lemma get_table_outside {T} (f : ustring → ustring) (g : any → T) key
    (l : list (ustring * any)) : ∀ o,
  (∀ k, f k ≠ key) →
  get key (foldl (λ o kv, set (f kv.1) (g kv.2) o) o l) = get key o.
Proof.
  induction l as [|[k v] l IH]; intros o Hf; [done|].
  cbn [foldl fst snd]. by rewrite IH, get_set_ne.
Qed.

Lemma NoDup_table {T} (f : ustring → ustring) (g : any → T)
    (l : list (ustring * any)) : ∀ o,
  NoDup o.*1 → NoDup (foldl (λ o kv, set (f kv.1) (g kv.2) o) o l).*1.
Proof.
  induction l as [|[k v] l IH]; intros o Ho; [done|].
  cbn [foldl]. by apply IH, NoDup_set.
Qed.

(** The keys of a table filled key by key. *)
Lemma table_keys {T} (f : ustring → ustring) (g : any → T) key
    (l : list (ustring * any)) : ∀ o,
  get protoKey o = None →
  is_Some (get key (foldl (λ o kv, set (f kv.1) (g kv.2) o) o l))
  ↔ is_Some (get key o) ∨ (key ≠ protoKey ∧ key ∈ f <$> l.*1).
Proof.
  induction l as [|[k v] l IH]; intros o Ho.
  - split; [by left|]. intros [?|[_ Hin]]; [done|]. by apply elem_of_nil in Hin.
  - cbn [foldl fst snd]. rewrite IH by (by apply get_set_proto).
    rewrite !fmap_cons, elem_of_cons. cbn [fst].
    destruct (decide (f k = protoKey)) as [Hp|Hp].
    + rewrite Hp, set_proto by done. split.
      * intros [?|[? ?]]; [by left|right; split; [done|by right]].
      * intros [?|[Hkey [->|?]]]; [by left|done|right; by split].
    + rewrite get_set by done. destruct (decide (f k = key)) as [<-|Hne].
      * split; [intros _; right; split; [done|by left]|intros _; left; by eexists].
      * split.
        -- intros [?|[? ?]]; [by left|right; split; [done|by right]].
        -- intros [?|[Hkey [->|?]]]; [by left|done|right; by split].
Qed.

(** *** The keys *)

#[local] Instance envPrefix_inj : Inj (=) (=) (app envPrefix).
Proof. intros k1 k2. apply app_inv_head. Qed.

Lemma envPrefix_envKey k : envPrefix ++ k ≠ envKey.
Proof.
  intros Heq. apply (f_equal length) in Heq. rewrite length_app in Heq.
  vm_compute in Heq. lia.
Qed.

Lemma envPrefix_hotKey k : envPrefix ++ k ≠ hotKey.
Proof.
  intros Heq. pose proof (startsWith_app envPrefix k) as Hs. rewrite Heq in Hs.
  by vm_compute in Hs.
Qed.

Lemma envPrefix_ssrKey k : envPrefix ++ k = ssrKey ↔ k = units "SSR".
Proof.
  change ssrKey with (envPrefix ++ units "SSR"). split; [apply (inj _)|by intros ->].
Qed.

Lemma envPrefix_protoKey k : envPrefix ++ k ≠ protoKey.
Proof.
  intros Heq. pose proof (startsWith_app envPrefix k) as Hs. rewrite Heq in Hs.
  by vm_compute in Hs.
Qed.

Lemma ssrKey_protoKey : ssrKey ≠ protoKey.
Proof. by vm_compute. Qed.

Lemma envKey_protoKey : envKey ≠ protoKey.
Proof. by vm_compute. Qed.

Lemma hotKey_protoKey : hotKey ≠ protoKey.
Proof. by vm_compute. Qed.

Lemma drop_envPrefix t : drop 16 (envPrefix ++ t) = t.
Proof. exact (drop_app_length envPrefix t). Qed.

Lemma envPrefix_spec key :
  startsWith envPrefix key = true ↔ key = envPrefix ++ drop 16 key.
Proof.
  split.
  - intros [t ->]%startsWith_spec. by rewrite drop_envPrefix.
  - intros ->. apply startsWith_app.
Qed.

(** *** The tables *)

Lemma get_userDefine config key :
  NoDup (define config).*1 → key ≠ protoKey →
  get key (userDefine config) = handleDefineValue <$> get key (define config).
Proof.
  intros Hdefine Hkey. unfold userDefine.
  rewrite (get_table (λ k, k) handleDefineValue [] key) by done.
  by destruct (get key (define config)).
Qed.

Lemma get_userDefine_proto config : get protoKey (userDefine config) = None.
Proof.
  unfold userDefine.
  by apply (foldl_set_proto (λ kv, kv.1) (λ kv, handleDefineValue kv.2)).
Qed.

Lemma has_userDefine config key :
  key ≠ protoKey →
  has key (userDefine config) = has key (define config).
Proof.
  intros Hkey. rewrite !has_get. unfold userDefine.
  pose proof (table_keys (λ k, k) handleDefineValue key (define config) []
                eq_refl) as Hk.
  rewrite list_fmap_id, elem_of_keys_get in Hk.
  destruct (get key (foldl _ _ _)), (get key (define config)); try done.
  - destruct Hk as [[[? [=]]|[_ [? [=]]]] _]. by eexists.
  - destruct Hk as [_ [? [=]]]. right. split; [done|by eexists].
Qed.

Lemma NoDup_userDefine config : NoDup (userDefine config).*1.
Proof. unfold userDefine. apply (NoDup_table (λ k, k) handleDefineValue). constructor. Qed.

Lemma get_userDefineEnv config k :
  isBuild config = true → NoDup (define config).*1 → k ≠ protoKey →
  get k (userDefineEnv config) = get (envPrefix ++ k) (define config).
Proof.
  intros Hbuild Hdefine Hk. rewrite <- (get_reverse _ (define config)) by done.
  unfold userDefineEnv. rewrite Hbuild. cbn [andb]. clear Hdefine.
  induction (define config) as [|[key v] l IH] using rev_ind; [done|].
  rewrite foldl_app, reverse_snoc. cbn [foldl fst snd get].
  destruct (startsWith envPrefix key) eqn:Hs.
  - apply envPrefix_spec in Hs.
    destruct (decide (drop 16 key = k)) as [<-|Hne].
    + by rewrite get_set, !decide_True by done.
    + rewrite get_set_ne, IH by done.
      rewrite decide_False; [done|]. intros ->. by rewrite drop_envPrefix in Hne.
  - rewrite decide_False; [done|]. intros ->. by rewrite startsWith_app in Hs.
Qed.

Lemma get_userDefineEnv_proto config : get protoKey (userDefineEnv config) = None.
Proof.
  unfold userDefineEnv.
  induction (define config) as [|[key v] l IH] using rev_ind; [done|].
  rewrite foldl_app. cbn [foldl].
  destruct (isBuild config && startsWith envPrefix (key, v).1); [|done].
  by apply get_set_proto.
Qed.

Lemma NoDup_userDefineEnv config : NoDup (userDefineEnv config).*1.
Proof.
  unfold userDefineEnv.
  induction (define config) as [|[key v] l IH] using rev_ind; [constructor|].
  rewrite foldl_app. cbn [foldl].
  destruct (isBuild config && startsWith envPrefix (key, v).1); [|done].
  by apply NoDup_set.
Qed.

Lemma get_importMetaKeys config k :
  isBuild config = true → NoDup (env config).*1 →
  get (envPrefix ++ k) (importMetaKeys config)
    = if decide (k = units "SSR") then Some (Some (units "undefined"))
      else JSONstringify <$> get k (env config).
Proof.
  intros Hbuild Henv. unfold importMetaKeys.
  rewrite Hbuild, get_set by apply ssrKey_protoKey.
  destruct (decide (k = units "SSR")) as [->|Hne]; [done|].
  rewrite decide_False by (intros Heq; symmetry in Heq; by apply envPrefix_ssrKey in Heq).
  rewrite (get_table (app envPrefix) JSONstringify _ k);
    [|done|by apply get_set_proto|apply envPrefix_protoKey].
  destruct (get k (env config)); [done|].
  rewrite get_set_ne; [done|]. intros Heq. symmetry in Heq.
  by apply envPrefix_hotKey in Heq.
Qed.

Lemma importMetaKeys_keys config key :
  is_Some (get key (importMetaKeys config)) →
  isBuild config = true ∧ (key = hotKey ∨ startsWith envPrefix key = true).
Proof.
  unfold importMetaKeys. destruct (isBuild config); [|by intros [? [=]]].
  intros Hkey. split; [done|]. rewrite get_set in Hkey by apply ssrKey_protoKey.
  destruct (decide (ssrKey = key)) as [<-|_]; [by right|].
  apply (table_keys (app envPrefix) JSONstringify) in Hkey as [Hkey|[_ Hkey]].
  - left. rewrite get_set in Hkey by apply hotKey_protoKey.
    destruct (decide (hotKey = key)); [done|]. by destruct Hkey.
  - right. apply list_elem_of_fmap in Hkey as (k & -> & _). apply startsWith_app.
  - by apply get_set_proto.
Qed.

Lemma get_importMetaKeys_proto config : get protoKey (importMetaKeys config) = None.
Proof.
  destruct (get protoKey (importMetaKeys config)) eqn:Hget; [|done].
  destruct (importMetaKeys_keys config protoKey) as (_ & [Hk|Hk]); [by eexists|..];
    by vm_compute in Hk.
Qed.

Lemma NoDup_importMetaKeys config : NoDup (importMetaKeys config).*1.
Proof.
  unfold importMetaKeys. destruct (isBuild config); [|constructor].
  apply NoDup_set, (NoDup_table (app envPrefix) JSONstringify), NoDup_set.
  constructor.
Qed.

Lemma get_importMetaEnvKeys config k :
  isBuild config = true → NoDup (env config).*1 → k ≠ protoKey →
  get k (importMetaEnvKeys config) = JSONstringify <$> get k (env config).
Proof.
  intros Hbuild Henv Hk. unfold importMetaEnvKeys. rewrite Hbuild.
  rewrite (get_table (λ k, k) JSONstringify [] k) by done.
  by destruct (get k (env config)).
Qed.

Lemma get_importMetaEnvKeys_proto config :
  get protoKey (importMetaEnvKeys config) = None.
Proof.
  unfold importMetaEnvKeys. destruct (isBuild config); [|done].
  by apply (foldl_set_proto (λ kv, kv.1) (λ kv, JSONstringify kv.2)).
Qed.

Lemma NoDup_importMetaEnvKeys config : NoDup (importMetaEnvKeys config).*1.
Proof.
  unfold importMetaEnvKeys. destruct (isBuild config); [|constructor].
  apply (NoDup_table (λ k, k) JSONstringify). constructor.
Qed.

Lemma processEnv_keys config key :
  is_Some (get key (processEnv config)) →
  includes (units "process.env") key = true ∧ startsWith envPrefix key = false ∧
  key ≠ envKey ∧ key ≠ hotKey.
Proof.
  unfold processEnv. destruct (isBuild config && lib config); [by intros [? [=]]|].
  intros [[? [=]]|Hkey]%assign_keys. cbn [fmap list_fmap fst] in Hkey.
  repeat (apply elem_of_cons in Hkey as [->|Hkey]; [by vm_compute|]).
  by apply elem_of_nil in Hkey.
Qed.

Lemma NoDup_processEnv config : NoDup (processEnv config).*1.
Proof.
  unfold processEnv. destruct (isBuild config && lib config); [constructor|].
  apply NoDup_assign. constructor.
Qed.

End DefineTables.

Section DefinePattern.
Context `{Json}.

(** The table of [generatePattern] before its two fixes. *)
#[local] Abbreviation merged config ssr :=
  (assign (assign (assign (assign []
     (if negb ssr || webworker config then processEnv config else []))
     (importMetaKeys config))
     (userDefine config))
     (importMetaFallbackKeys config)).

Lemma get_fix {T} k0 (v : T) o key :
  get key (if has k0 o then set k0 v o else o)
    = if decide (k0 = key) then (if has k0 o then Some v else None) else get key o.
Proof.
  destruct (has k0 o) eqn:Hhas.
  - by rewrite set_has, get_defineOwn.
  - rewrite has_get in Hhas. destruct (get k0 o) eqn:Hk0; [done|].
    by destruct (decide (k0 = key)) as [<-|].
Qed.

Lemma has_fix {T} k0 (v : T) o key :
  has key (if has k0 o then set k0 v o else o) = has key o.
Proof.
  rewrite (has_get key), get_fix, !has_get.
  destruct (decide (k0 = key)) as [<-|]; [|done]. by destruct (get k0 o).
Qed.

Lemma get_define_table config ssr key :
  get key (generatePattern config ssr).1.1
    = if decide (envKey = key)
      then (if has envKey (merged config ssr) then Some (Some importMetaEnvMarker) else None)
      else if decide (ssrKey = key)
      then (if has ssrKey (merged config ssr) then Some (Some (boolText ssr)) else None)
      else get key (merged config ssr).
Proof.
  unfold generatePattern. cbn [fst]. by rewrite get_fix, has_fix, get_fix.
Qed.

Lemma get_merged config ssr key :
  get key (merged config ssr)
    = match get key (importMetaFallbackKeys config) with
      | Some v => Some v
      | None =>
          match get key (userDefine config) with
          | Some v => Some v
          | None =>
              match get key (importMetaKeys config) with
              | Some v => Some v
              | None =>
                  if negb ssr || webworker config then get key (processEnv config)
                  else None
              end
          end
      end.
Proof.
  rewrite get_assign_NoDup.
  2:{ unfold importMetaFallbackKeys. destruct (isBuild config); [apply NoDup_singleton|constructor]. }
  rewrite get_assign_NoDup by apply NoDup_userDefine.
  rewrite get_assign_NoDup by apply NoDup_importMetaKeys.
  rewrite get_assign_NoDup by (destruct (negb ssr || webworker config); [apply NoDup_processEnv|constructor]).
  destruct (get key (importMetaFallbackKeys config)); [done|].
  destruct (get key (userDefine config)); [done|].
  destruct (get key (importMetaKeys config)); [done|].
  destruct (negb ssr || webworker config); [|done]. by destruct (get key (processEnv config)).
Qed.

Lemma get_processEnv_None config key :
  (startsWith envPrefix key = true ∨ key = envKey ∨ key = hotKey) →
  get key (processEnv config) = None.
Proof.
  intros Hkey. destruct (get key (processEnv config)) eqn:Hget; [|done].
  destruct (processEnv_keys config key) as (_ & Hs & Henv & Hhot); [by eexists|].
  destruct Hkey as [Hkey|[Hkey|Hkey]]; congruence.
Qed.

Lemma get_importMetaKeys_envKey config : get envKey (importMetaKeys config) = None.
Proof.
  destruct (get envKey (importMetaKeys config)) eqn:Hget; [|done].
  destruct (importMetaKeys_keys config envKey) as (_ & [Hk|Hk]); [by eexists|..];
    by vm_compute in Hk.
Qed.

Lemma has_merged_envKey config ssr :
  has envKey (merged config ssr) = isBuild config || has envKey (define config).
Proof.
  rewrite has_get, get_merged, <- has_userDefine, (has_get _ (userDefine config))
    by apply envKey_protoKey.
  unfold importMetaFallbackKeys. destruct (isBuild config) eqn:Hbuild; [done|].
  cbn [get orb]. destruct (get envKey (userDefine config)); [done|].
  rewrite get_importMetaKeys_envKey, get_processEnv_None by auto.
  by destruct (negb ssr || webworker config).
Qed.

Lemma get_fallback_other config key :
  key ≠ envKey → get key (importMetaFallbackKeys config) = None.
Proof.
  intros Hkey. unfold importMetaFallbackKeys. destruct (isBuild config); [|done].
  by rewrite get_set_ne.
Qed.

Lemma has_merged_ssrKey config ssr :
  has ssrKey (merged config ssr) = isBuild config || has ssrKey (define config).
Proof.
  rewrite has_get, get_merged, <- has_userDefine, (has_get _ (userDefine config))
    by apply ssrKey_protoKey.
  rewrite get_fallback_other by done.
  destruct (get ssrKey (userDefine config)); [by rewrite orb_true_r|].
  rewrite orb_false_r, get_processEnv_None by (by left).
  unfold importMetaKeys. destruct (isBuild config).
  - by rewrite get_set, decide_True by (done || apply ssrKey_protoKey).
  - by destruct (negb ssr || webworker config).
Qed.

Lemma get_merged_proto config ssr : get protoKey (merged config ssr) = None.
Proof.
  rewrite get_merged, get_fallback_other, get_userDefine_proto,
    get_importMetaKeys_proto by (by vm_compute).
  destruct (negb ssr || webworker config); [|done].
  destruct (get protoKey (processEnv config)) eqn:Hget; [|done].
  destruct (processEnv_keys config protoKey) as (Hinc & _); [by eexists|].
  by vm_compute in Hinc.
Qed.

(** X20: what [generatePattern] hands to esbuild for a key.  A key of
    [config.define] other than [__proto__] is replaced by the text
    [handleDefineValue] gives for its value, whatever Vite itself would put
    for it, with two exceptions: [import.meta.env.SSR] is always replaced by
    the text of [ssr], and [import.meta.env] by the marker, also when the
    user defines them.  These two are in the table during a build, and
    otherwise only when the user defines them.  The key [__proto__] is
    never in the table, whatever the user defines: the assignment
    [userDefine[key] = ...] stores no property under it. *)
Theorem define_table_precedence (config : Config) (ssr : bool) (key : ustring) :
  let table := (generatePattern config ssr).1.1 in
  NoDup (define config).*1 →
  get envKey table
    = (if isBuild config || has envKey (define config)
       then Some (Some importMetaEnvMarker) else None) ∧
  get ssrKey table
    = (if isBuild config || has ssrKey (define config)
       then Some (Some (boolText ssr)) else None) ∧
  (key ≠ envKey → key ≠ ssrKey → key ≠ units "__proto__" →
   ∀ v, get key (define config) = Some v →
        get key table = Some (handleDefineValue v)) ∧
  get (units "__proto__") table = None.
Proof.
  intros table Hdefine. unfold table. split; [|split; [|split]].
  - by rewrite get_define_table, decide_True, has_merged_envKey.
  - rewrite get_define_table, decide_False, decide_True, has_merged_ssrKey by done. done.
  - intros Henv Hssr Hproto v Hv.
    rewrite get_define_table, !decide_False, get_merged by done.
    rewrite get_fallback_other, get_userDefine, Hv by done. done.
  - rewrite get_define_table, !decide_False by (by vm_compute).
    apply get_merged_proto.
Qed.

(** X22: the pattern that is tried on the code before esbuild runs misses
    no key of the table.  Code that holds a key of the table handed to
    esbuild is code the pattern matches, so [transform] returns early only
    for code in which nothing would have been replaced. *)
Theorem define_pattern_covers_table (config : Config) (ssr : bool) (key code : ustring) :
  is_Some (get key (generatePattern config ssr).1.1) →
  includes key code = true →
  ∃ keys, (generatePattern config ssr).1.2 = Some keys ∧ patternTest keys code = true.
Proof.
  intros Hkey Hcode.
  assert (∃ k, k ∈ (userDefine config).*1
               ++ (if (negb ssr || webworker config) && bool_decide (processEnv config ≠ [])
                   then [units "process.env"] else [])
               ++ (if bool_decide (importMetaKeys config ≠ [])
                   then [envKey; hotKey] else [])
               ∧ includes k key = true) as (k & Hk & Hinc).
  { assert (is_Some (get key (merged config ssr))) as Hm.
    { rewrite get_define_table in Hkey.
      destruct (decide (envKey = key)) as [<-|_].
      - destruct (has envKey (merged config ssr)) eqn:Hhas; [|by destruct Hkey].
        rewrite has_get in Hhas. by destruct (get envKey (merged config ssr)).
      - destruct (decide (ssrKey = key)) as [<-|_]; [|done].
        destruct (has ssrKey (merged config ssr)) eqn:Hhas; [|by destruct Hkey].
        rewrite has_get in Hhas. by destruct (get ssrKey (merged config ssr)). }
    rewrite get_merged in Hm.
    assert (isBuild config = true → bool_decide (importMetaKeys config ≠ []) = true)
      as Hbuild.
    { intros Hb. apply bool_decide_eq_true. unfold importMetaKeys. rewrite Hb.
      intros Hnil. apply (f_equal (get ssrKey)) in Hnil.
      by rewrite get_set, decide_True in Hnil by (done || apply ssrKey_protoKey). }
    destruct (get key (importMetaFallbackKeys config)) eqn:Hfb.
    { unfold importMetaFallbackKeys in Hfb. destruct (isBuild config); [|done].
      rewrite get_set in Hfb by apply envKey_protoKey.
      destruct (decide (envKey = key)) as [<-|]; [|done].
      exists envKey. rewrite Hbuild by done. split; [|apply includes_refl].
      rewrite !elem_of_app. right. right. left. }
    destruct (get key (userDefine config)) eqn:Hud.
    { exists key. split; [|apply includes_refl]. rewrite elem_of_app. left.
      apply elem_of_keys_get. by eexists. }
    destruct (get key (importMetaKeys config)) eqn:Himk.
    { destruct (importMetaKeys_keys config key) as (Hb & [->|Hs]); [by eexists|..];
        rewrite Hbuild by done.
      - exists hotKey. split; [|apply includes_refl].
        rewrite !elem_of_app. right. right. right. left.
      - exists envKey. split; [rewrite !elem_of_app; right; right; left|].
        apply startsWith_spec in Hs as [t ->].
        change envPrefix with (envKey ++ units ".").
        rewrite <- (assoc_L (++)). apply (includes_app envKey []). }
    destruct (negb ssr || webworker config); [|by destruct Hm].
    destruct (processEnv_keys config key Hm) as (Hinc & _).
    exists (units "process.env"). split; [|done].
    rewrite bool_decide_eq_true_2.
    - rewrite !elem_of_app. right. left. left.
    - intros Hnil. rewrite Hnil in Hm. by destruct Hm. }
  unfold generatePattern. cbn [fst snd].
  match goal with |- context [match ?l with [] => None | _ :: _ => Some _ end] =>
    set (patternKeys := l) in * end.
  exists patternKeys. split.
  - destruct patternKeys; [by apply elem_of_nil in Hk|done].
  - unfold patternTest. apply existsb_exists. exists k. split.
    + by apply list_elem_of_In.
    + by apply (includes_trans k key code).
Qed.

(** X21: the object behind the marker agrees with the replacements of the
    keys.  During a build, and when the user does not define
    [import.meta.env.__proto__], the object [import.meta.env] is replaced
    by has, for every [k] other than [__proto__], the property [k] exactly
    when [import.meta.env.k] is replaced, and the property holds the text
    the key is replaced by, so [import.meta.env.k] and [import.meta.env[k]]
    give the same; the one exception is [SSR] when the user defines
    [import.meta.env.SSR]: the key is replaced by the text of [ssr], the
    property holds what the user defined.  The object never has the
    property [__proto__], which an assignment does not store, while the key
    [import.meta.env.__proto__] is replaced whenever [config.env] has the
    key [__proto__]. *)
Theorem import_meta_env_object_matches_keys (config : Config) (ssr : bool) (k : ustring) :
  let table := (generatePattern config ssr).1.1 in
  let object := importMetaEnvObject config ssr in
  isBuild config = true → NoDup (env config).*1 → NoDup (define config).*1 →
  get (envPrefix ++ units "__proto__") (define config) = None →
  (generatePattern config ssr).2
    = units "const " ++ importMetaEnvMarker ++ units " = " ++ serializeDefine object
        ++ [59; 10]%N ∧
  (k ≠ units "__proto__" →
   (is_Some (get k object) ↔ is_Some (get (envPrefix ++ k) table))) ∧
  (k ≠ units "__proto__" →
   ∀ v, get k object = Some v →
        (k = units "SSR" → get ssrKey (define config) = None) →
        ∃ t, get (envPrefix ++ k) table = Some t ∧
             interpolate t = interpolate (handleDefineValue v)) ∧
  (k = units "SSR" → ∀ v, get ssrKey (define config) = Some v →
     get k object = Some v ∧ get (envPrefix ++ k) table = Some (Some (boolText ssr))) ∧
  get (units "__proto__") object = None ∧
  (is_Some (get (envPrefix ++ units "__proto__") table)
   ↔ is_Some (get (units "__proto__") (env config))).
Proof.
  intros table object Hbuild Henv Hdefine Hnoproto.
  split; [done|].
  assert (NoDup (prod_map id toAny <$> importMetaEnvKeys config).*1) as Hkeys.
  { rewrite <- list_fmap_compose.
    change (fst ∘ prod_map id toAny) with (fst : ustring * text → ustring).
    apply NoDup_importMetaEnvKeys. }
  assert (k ≠ protoKey →
          get k object
          = match get (envPrefix ++ k) (define config) with
            | Some v => Some v
            | None =>
                if decide (k = units "SSR") then Some (Str (boolText ssr))
                else toAny <$> (JSONstringify <$> get k (env config))
            end) as Hobject.
  { intros Hk. unfold object, importMetaEnvObject.
    rewrite get_assign_NoDup by apply NoDup_userDefineEnv.
    rewrite get_userDefineEnv by done.
    destruct (get (envPrefix ++ k) (define config)); [done|].
    rewrite get_defineOwn. destruct (decide (units "SSR" = k)) as [<-|Hne].
    - by rewrite decide_True.
    - rewrite decide_False by done.
      rewrite get_assign_NoDup by done.
      change (prod_map id toAny) with (λ kv : ustring * text, ((λ x, x) kv.1, toAny kv.2)).
      rewrite (get_fmap_inj (λ x, x) toAny k), get_importMetaEnvKeys by done.
      by destruct (get k (env config)). }
  assert (∀ k, get (envPrefix ++ k) table
          = if decide (k = units "SSR") then Some (Some (boolText ssr))
            else match get (envPrefix ++ k) (define config) with
                 | Some v => Some (handleDefineValue v)
                 | None => JSONstringify <$> get k (env config)
                 end) as Htable.
  { intros k'. unfold table. rewrite get_define_table.
    rewrite decide_False by (intros Heq; symmetry in Heq; by apply envPrefix_envKey in Heq).
    destruct (decide (k' = units "SSR")) as [->|Hne].
    - rewrite decide_True by done. by rewrite has_merged_ssrKey, Hbuild.
    - rewrite decide_False by (intros Heq; symmetry in Heq; by apply envPrefix_ssrKey in Heq).
      rewrite get_merged, get_fallback_other by apply envPrefix_envKey.
      rewrite get_userDefine by (done || apply envPrefix_protoKey).
      destruct (get (envPrefix ++ k') (define config)); [done|].
      cbn [fmap option_fmap option_map].
      rewrite get_importMetaKeys, decide_False by done.
      destruct (get k' (env config)); [done|]. cbn [fmap option_fmap option_map].
      rewrite get_processEnv_None by (left; apply startsWith_app).
      by destruct (negb ssr || webworker config). }
  split; [|split; [|split; [|split]]].
  - intros Hk. rewrite Hobject, Htable by done. destruct (decide (k = units "SSR")).
    + destruct (get (envPrefix ++ k) (define config)); split; by eexists.
    + destruct (get (envPrefix ++ k) (define config)); [split; by eexists|].
      destruct (get k (env config)); [split; by eexists|]. by csimpl.
  - intros Hk v. rewrite Hobject, Htable by done. intros Hv Hssr.
    destruct (decide (k = units "SSR")) as [->|Hne].
    + change (envPrefix ++ units "SSR") with ssrKey in Hv. rewrite Hssr in Hv by done.
      injection Hv as <-. by eexists.
    + destruct (get (envPrefix ++ k) (define config)) as [v'|].
      * injection Hv as <-. by eexists.
      * destruct (get k (env config)) as [e|]; [|done]. injection Hv as <-.
        eexists. split; [done|]. cbn [fmap option_fmap option_map].
        by destruct (JSONstringify e).
  - intros -> v Hv. rewrite Hobject, Htable by (by vm_compute).
    change (envPrefix ++ units "SSR") with ssrKey.
    by rewrite Hv, decide_True.
  - unfold object, importMetaEnvObject. change (units "__proto__") with protoKey.
    rewrite get_assign_NoDup by apply NoDup_userDefineEnv.
    rewrite (get_userDefineEnv_proto config).
    rewrite get_defineOwn, decide_False by (by vm_compute).
    rewrite get_assign_NoDup by done.
    change (prod_map id toAny) with (λ kv : ustring * text, ((λ x, x) kv.1, toAny kv.2)).
    by rewrite (get_fmap_inj (λ x, x) toAny), get_importMetaEnvKeys_proto.
  - rewrite Htable, decide_False, Hnoproto by (by vm_compute).
    by rewrite fmap_is_Some.
Qed.

End DefinePattern.

(** ** Serialization of defines *)

Lemma unitsLe_total a b : unitsLe a b = true ∨ unitsLe b a = true.
Proof.
  revert b. induction a as [|x a IH]; intros [|y b]; simpl; auto.
  destruct (N.ltb_spec x y), (N.ltb_spec y x), (N.eqb_spec x y), (N.eqb_spec y x);
    simpl; auto; lia.
Qed.

Lemma unitsLe_trans a b c :
  unitsLe a b = true → unitsLe b c = true → unitsLe a c = true.
Proof.
  revert b c. induction a as [|x a IH]; intros [|y b] [|z c]; simpl; try done.
  destruct (N.ltb_spec x y), (N.ltb_spec y z), (N.ltb_spec x z),
    (N.eqb_spec x y), (N.eqb_spec y z), (N.eqb_spec x z); simpl; try done; try lia.
  apply IH.
Qed.

Lemma unitsLe_antisymm a b : unitsLe a b = true → unitsLe b a = true → a = b.
Proof.
  revert b. induction a as [|x a IH]; intros [|y b]; simpl; try done.
  destruct (N.ltb_spec x y), (N.ltb_spec y x), (N.eqb_spec x y), (N.eqb_spec y x);
    simpl; try done; try lia.
  intros Hab Hba. subst. f_equal. by apply IH.
Qed.

#[local] Instance unitsOrder_total : Total unitsOrder.
Proof. intros a b. apply unitsLe_total. Qed.

#[local] Instance unitsOrder_trans : Transitive unitsOrder.
Proof. intros a b c. apply unitsLe_trans. Qed.

#[local] Instance unitsOrder_antisymm : AntiSymm (=) unitsOrder.
Proof. intros a b. apply unitsLe_antisymm. Qed.

Lemma sort_Permutation l l' : l ≡ₚ l' → sort l = sort l'.
Proof.
  intros Hl. unfold sort. apply (Sorted_unique unitsOrder).
  - apply (Sorted_merge_sort _).
  - apply (Sorted_merge_sort _).
  - by rewrite !merge_sort_Permutation.
Qed.

Lemma get_Permutation {T} k (o o' : list (ustring * T)) :
  NoDup o.*1 → o ≡ₚ o' → get k o = get k o'.
Proof.
  intros Ho Hperm. assert (NoDup o'.*1) as Ho' by (by rewrite <- Hperm).
  destruct (get k o) as [v|] eqn:Hget.
  - symmetry. apply elem_get; [done|]. rewrite <- Hperm. by apply get_elem.
  - symmetry. apply get_None. rewrite <- Hperm. by apply get_None.
Qed.

Section Serialization.
Context `{Json}.

Lemma serializeKeys_join define n : ∀ keys i res,
  i + length keys = n →
  serializeKeys define n i keys res
    = res ++ join (units ", ") (serializeEntry define <$> keys).
Proof.
  induction keys as [|key keys IH]; intros i res Hn; simpl.
  - by rewrite app_nil_r.
  - destruct keys as [|key' keys].
    + simpl in *. rewrite bool_decide_eq_false_2 by lia. done.
    + rewrite bool_decide_eq_true_2 by (simpl in *; lia).
      rewrite IH by (simpl in *; lia). unfold serializeEntry.
      by rewrite <- !(assoc_L (++)).
Qed.

(** X18: what [serializeDefine] writes does not depend on the order in
    which the object lists its properties: the properties are written in
    the order of their keys, code unit by code unit, each as its key in
    quotes, a colon and the text of its value, with [, ] between two of
    them. *)
Theorem serializeDefine_order_independent (define define' : list (ustring * any)) :
  NoDup define.*1 → define' ≡ₚ define →
  serializeDefine define' = serializeDefine define ∧
  serializeDefine define
    = units "{" ++ join (units ", ") (serializeEntry define <$> sort define.*1)
        ++ units "}" ∧
  Sorted unitsOrder (sort define.*1) ∧ sort define.*1 ≡ₚ define.*1.
Proof.
  intros Hdefine Hperm.
  assert (∀ d, serializeDefine d
               = units "{" ++ join (units ", ") (serializeEntry d <$> sort d.*1)
                   ++ units "}") as Hform.
  { intros d. unfold serializeDefine. cbv zeta.
    rewrite serializeKeys_join by done. by rewrite <- (assoc_L (++)). }
  split; [|split; [apply Hform|split]].
  - rewrite !Hform. rewrite (sort_Permutation define'.*1 define.*1) by (by rewrite Hperm).
    do 3 f_equal. apply list_fmap_ext. intros _ key _. unfold serializeEntry.
    by rewrite (get_Permutation key define define').
  - apply (Sorted_merge_sort _).
  - apply merge_sort_Permutation.
Qed.

End Serialization.

Lemma define_table_precedence_witness :
  get (units "import.meta.env")
      (generatePattern (H := exampleJson) exampleProtoConfig false).1.1
    = Some (Some importMetaEnvMarker) ∧
  get (units "__X__") (generatePattern (H := exampleJson) exampleProtoConfig false).1.1
    = Some (Some (units "{}")) ∧
  get (units "__proto__") (define exampleProtoConfig) = Some (Str (units "1")) ∧
  get (units "__proto__") (generatePattern (H := exampleJson) exampleProtoConfig false).1.1
    = None.
Proof.
  destruct (define_table_precedence (H := exampleJson) exampleProtoConfig false
              (units "__X__"))
    as (Henv & _ & Huser & Hproto); [by apply (bool_decide_unpack _); vm_compute|].
  split; [exact Henv|]. split; [|split; [done|exact Hproto]].
  exact (Huser ltac:(done) ltac:(done) ltac:(done) (Other (Some (units "{}"))) eq_refl).
Defined.

Lemma define_pattern_covers_table_witness :
  ∃ keys,
    (generatePattern (H := exampleJson) exampleDefineConfig false).1.2 = Some keys ∧
    patternTest keys (units "if (process.env.NODE_ENV) run()") = true.
Proof.
  apply (define_pattern_covers_table (H := exampleJson) exampleDefineConfig false
           (units "process.env.NODE_ENV")).
  - vm_compute. by eexists.
  - by vm_compute.
Defined.

Lemma import_meta_env_object_matches_keys_witness :
  (∃ t,
     get (units "import.meta.env." ++ units "MODE")
         (generatePattern (H := exampleJson) exampleProtoConfig false).1.1 = Some t ∧
     interpolate t
       = interpolate
           (handleDefineValue (H := exampleJson)
              (Str (quote (Json := exampleJson) (units "production"))))) ∧
  get (units "__proto__") (importMetaEnvObject (H := exampleJson) exampleProtoConfig false)
    = None ∧
  is_Some (get (units "import.meta.env." ++ units "__proto__")
             (generatePattern (H := exampleJson) exampleProtoConfig false).1.1).
Proof.
  destruct (import_meta_env_object_matches_keys (H := exampleJson) exampleProtoConfig
              false (units "MODE"))
    as (_ & _ & Hvalue & _ & Hnone & Hproto).
  - done.
  - by apply (bool_decide_unpack _); vm_compute.
  - by apply (bool_decide_unpack _); vm_compute.
  - done.
  - split; [|split; [exact Hnone|apply Hproto; by eexists]].
    apply (Hvalue ltac:(done) (Str (quote (Json := exampleJson) (units "production")))).
    + by vm_compute.
    + intros Hk. by vm_compute in Hk.
Defined.

Lemma serializeDefine_order_independent_witness :
  serializeDefine (H := exampleJson)
      [(units "a", Undefined); (units "b", Str (units "1"))]
    = serializeDefine (H := exampleJson)
        [(units "b", Str (units "1")); (units "a", Undefined)].
Proof.
  destruct (serializeDefine_order_independent (H := exampleJson)
              [(units "b", Str (units "1")); (units "a", Undefined)]
              [(units "a", Undefined); (units "b", Str (units "1"))])
    as (Hsame & _).
  - by apply (bool_decide_unpack _); vm_compute.
  - apply perm_swap.
  - exact Hsame.
Defined.

(** ** What a match consumes *)

Lemma starLoop_consumes {A} (Q : N → Prop)
    (m : option N → ustring → captures →
         (option N → ustring → captures → option A) → option A)
    greedy (k : option N → ustring → captures → option A) :
  (∀ prev s caps k' a, m prev s caps k' = Some a →
     ∃ x s' prev' caps', s = x ++ s' ∧ Forall Q x ∧ k' prev' s' caps' = Some a) →
  ∀ fuel prev s caps a, starLoop m greedy k fuel prev s caps = Some a →
    ∃ x s' prev' caps', s = x ++ s' ∧ Forall Q x ∧ k prev' s' caps' = Some a.
Proof.
  intros Hm. induction fuel as [|fuel IH]; intros prev s caps a Hloop; [done|].
  assert (∀ a, m prev s caps (λ prev' s' caps',
                 if bool_decide (length s' < length s)
                 then starLoop m greedy k fuel prev' s' caps' else None) = Some a →
          ∃ x s' prev' caps', s = x ++ s' ∧ Forall Q x ∧ k prev' s' caps' = Some a)
    as Hmore.
  { intros a' Ha'. apply Hm in Ha' as (x1 & s1 & prev1 & caps1 & -> & Hx1 & Hrest).
    destruct (bool_decide _); [|done].
    apply IH in Hrest as (x2 & s2 & prev2 & caps2 & -> & Hx2 & Hk).
    exists (x1 ++ x2), s2, prev2, caps2. rewrite <- (assoc_L (++)).
    split; [done|]. split; [by apply Forall_app|done]. }
  cbn [starLoop] in Hloop. destruct greedy.
  - destruct (m prev s caps _) as [a'|] eqn:Ha'.
    + injection Hloop as <-. by apply Hmore.
    + by exists [], s, prev, caps.
  - destruct (k prev s caps) as [a'|] eqn:Ha'.
    + injection Hloop as <-. by exists [], s, prev, caps.
    + by apply Hmore.
Qed.

Lemma matchRe_consumes (Q : N → Prop) r : consumes Q r →
  ∀ A prev s caps (k : option N → ustring → captures → option A) a,
    matchRe r prev s caps k = Some a →
    ∃ x s' prev' caps', s = x ++ s' ∧ Forall Q x ∧ k prev' s' caps' = Some a.
Proof.
  induction r as [|P|r1 IH1 r2 IH2|r1 IH1 r2 IH2|greedy r IH|n r IH|r IH| |];
    intros Hr A prev s caps k a Hmatch; simpl in Hr.
  - by exists [], s, prev, caps.
  - destruct s as [|c s]; [done|]. rewrite matchRe_Class in Hmatch.
    destruct (P c) eqn:Hc; [|done].
    exists [c], s, (Some c), caps. split; [done|]. split; [|done].
    constructor; [by apply Hr|constructor].
  - destruct Hr as [Hr1 Hr2]. rewrite matchRe_Seq in Hmatch.
    apply (IH1 Hr1) in Hmatch as (x1 & s1 & prev1 & caps1 & -> & Hx1 & Hmatch).
    apply (IH2 Hr2) in Hmatch as (x2 & s2 & prev2 & caps2 & -> & Hx2 & Hk).
    exists (x1 ++ x2), s2, prev2, caps2. rewrite <- (assoc_L (++)).
    split; [done|]. split; [by apply Forall_app|done].
  - destruct Hr as [Hr1 Hr2]. rewrite matchRe_Alt in Hmatch.
    destruct (matchRe r1 prev s caps k) as [a'|] eqn:Ha'.
    + injection Hmatch as <-. by apply (IH1 Hr1) in Ha'.
    + by apply (IH2 Hr2) in Hmatch.
  - change (starLoop (matchRe r) greedy k (S (length s)) prev s caps = Some a) in Hmatch.
    apply (starLoop_consumes Q) in Hmatch; [done|].
    intros prev0 s0 caps0 k' a0. apply (IH Hr).
  - rewrite matchRe_Group in Hmatch.
    apply (IH Hr) in Hmatch as (x & s' & prev' & caps' & -> & Hx & Hk).
    by exists x, s', prev', (<[n := take (length (x ++ s') - length s') (x ++ s')]> caps').
  - cbn [matchRe] in Hmatch. destruct (matchRe r prev s caps _); [done|].
    by exists [], s, prev, caps.
  - cbn [matchRe] in Hmatch. destruct (xorb _ _); [|done].
    by exists [], s, prev, caps.
  - cbn [matchRe] in Hmatch. destruct s; [|done]. by exists [], [], prev, caps.
Qed.

Lemma matchAt_consumes (Q : N → Prop) r prev s s' caps :
  consumes Q r → matchAt r prev s = Some (s', caps) →
  ∃ x, s = x ++ s' ∧ Forall Q x.
Proof.
  intros Hr Hmatch. unfold matchAt in Hmatch.
  apply (matchRe_consumes Q r Hr) in Hmatch as (x & s1 & prev1 & caps1 & -> & Hx & [= <- _]).
  by exists x.
Qed.

(** Replacing matches by texts of their length, character by character. *)
Lemma replaceFrom_pointwise (R : N → N → Prop) r f :
  (∀ c, R c c) →
  (∀ prev s s' caps, matchAt r prev s = Some (s', caps) →
     ∃ x, s = x ++ s' ∧ Forall2 R x (f x)) →
  ∀ fuel prev s, Forall2 R s (replaceFrom fuel r f prev s).
Proof.
  intros Hrefl Hmatch. induction fuel as [|fuel IH]; intros prev s.
  { simpl. by apply Forall_Forall2_diag, Forall_forall. }
  cbn [replaceFrom].
  assert (Forall2 R s match s with
                      | [] => []
                      | c :: s' => c :: replaceFrom fuel r f (Some c) s'
                      end) as Hskip.
  { destruct s as [|c s]; constructor; [apply Hrefl|apply IH]. }
  destruct (matchAt r prev s) as [[s' caps]|] eqn:Hm; [|done].
  apply Hmatch in Hm as (x & -> & Hx). rewrite take_matched.
  destruct x as [|c x].
  - apply Forall2_nil_inv_l in Hx as ->. done.
  - apply Forall2_app; [done|apply IH].
Qed.

(** ** After esbuild *)

Lemma importMetaEnvKeyRe_match prev s s' caps :
  matchAt importMetaEnvKeyRe prev s = Some (s', caps) →
  ∃ x, s = (importMetaEnvMarker ++ x) ++ s' ∧
       Forall (λ c, isLineTerminator c = false) x.
Proof.
  unfold matchAt, importMetaEnvKeyRe. rewrite matchRe_Seq, matchRe_LitU.
  destruct (startsWith importMetaEnvMarker s) eqn:Hs; [|done].
  apply startsWith_spec in Hs as [t ->]. rewrite drop_app_length. intros Hmatch.
  eapply (matchRe_consumes (λ c, isLineTerminator c = false)) in Hmatch
    as (x & s1 & prev1 & caps1 & -> & Hx & [= <- _]).
  - exists x. by rewrite <- (assoc_L (++)).
  - split; [|split; [split|done]].
    + split; [|done]. intros c Hc. by apply N.eqb_eq in Hc as <-.
    + intros c Hc. by apply negb_true_iff in Hc.
    + intros c Hc. by apply negb_true_iff in Hc.
Qed.

(** X19: replacing the accesses to keys of [import.meta.env] that esbuild
    left moves nothing.  The code has the same length afterwards, and at
    every index the character is the one that was there, or neither the old
    nor the new one is a line terminator: every line keeps its number and
    its length, so the source map esbuild returned still fits the code.
    [transform] returns this code, behind the banner when the bare marker
    is left in it, and the mappings get their one more line exactly then. *)
Theorem env_key_replacement_keeps_positions
    (banner code : ustring) (mappings : option ustring) :
  let replaced :=
    replaceAllRe importMetaEnvKeyRe (λ m, padEnd (length m) (units "undefined")) code in
  Forall2 (λ old new, old = new ∨
                      (isLineTerminator old = false ∧ isLineTerminator new = false))
          code replaced ∧
  length replaced = length code ∧
  isLineTerminator <$> replaced = isLineTerminator <$> code ∧
  finishTransform banner code mappings
    = (if test bareImportMetaEnvRe replaced
       then (banner ++ replaced, (λ m, units ";" ++ m) <$> mappings)
       else (replaced, mappings)).
Proof.
  intros replaced.
  assert (Forall2 (λ old new, old = new ∨
                     (isLineTerminator old = false ∧ isLineTerminator new = false))
                  code replaced) as Hpointwise.
  { unfold replaced, replaceAllRe. apply replaceFrom_pointwise; [by left|].
    intros prev s s' caps (x & -> & Hx)%importMetaEnvKeyRe_match.
    exists (importMetaEnvMarker ++ x). split; [done|].
    unfold padEnd. rewrite length_app.
    change (length importMetaEnvMarker) with 24. change (length (units "undefined")) with 9.
    replace (24 + length x - 9) with (length (replicate 15 32%N ++ x))
      by (rewrite length_app, length_replicate; lia).
    change importMetaEnvMarker with (take 9 importMetaEnvMarker ++ drop 9 importMetaEnvMarker).
    rewrite <- (assoc_L (++)). apply Forall2_app.
    - apply Forall2_same_length_lookup_2; [done|]. intros i old new Hold Hnew. right.
      apply list_elem_of_lookup_2 in Hold, Hnew.
      split; [revert old Hold|revert new Hnew]; apply Forall_forall; by repeat constructor.
    - apply Forall2_same_length_lookup_2; [by rewrite length_replicate, !length_app|].
      intros i old new Hold Hnew. right.
      apply list_elem_of_lookup_2 in Hold. apply lookup_replicate in Hnew as [-> _].
      split; [|done]. revert old Hold. apply Forall_forall, Forall_app.
      split; [by repeat constructor|done]. }
  split; [done|]. split; [symmetry; by eapply Forall2_length|]. split; [|done].
  clear -Hpointwise. induction Hpointwise as [|old new l l' Hhead _ IH]; [done|].
  csimpl. f_equal; [|done]. by destruct Hhead as [->|[-> ->]].
Qed.
